(** * Parameter tying in GPy: a shallow embedding of
      [GPy/core/parameterization/ties_and_remappings.py]

    The [Tie] object keeps groups of scalar parameters at one shared value.
    It owns a vector of canonical slots ([tied_param]), a label buffer
    ([label_buf]) and the positions of the slots in the flattened parameter
    vector ([buf_idx]).  This file embeds the methods of [Tie] as functions
    over an explicit model state and proves properties of them.

    Conventions of the embedding.
    - NumPy [float64] values are idealised as exact rationals ([Qc]).
    - One-dimensional NumPy arrays are lists; the operations that NumPy
      rejects (shape mismatch, index out of bounds) return an exception.
    - A method of [Tie] is a computation in a state-and-exception monad; a
      raised exception carries the state in which it was raised, so that what
      was mutated before the failure stays visible.
    - [print] statements (warnings) have no effect on the state and are left
      out. *)

From Stdlib Require Import ZArith QArith Qcanon Lia.
From stdpp Require Import base numbers list option.

Local Set Warnings "-register-all".
Local Open Scope Z_scope.

(** ** Exceptions and fallible pure computations *)

Inductive exn :=
  | ValueError | IndexError | TypeError | AttributeError
  | AssertionError | UnboundLocalError | RecursionError.

Inductive res (A : Type) :=
  | Val (a : A)
  | Exc (e : exn).
Arguments Val {A} a.
Arguments Exc {A} e.

#[global] Instance res_ret : MRet res := λ A a, Val a.
#[global] Instance res_bind : MBind res := λ A B k r,
  match r with Val a => k a | Exc e => Exc e end.

Definition of_option {A} (e : exn) (o : option A) : res A :=
  match o with Some a => Val a | None => Exc e end.

(** ** NumPy on one-dimensional arrays *)

Module np.

(** [m.sum()] of a boolean array: the number of [True] entries. *)
Fixpoint count_true (m : list bool) : nat :=
  match m with
  | [] => 0
  | b :: m' => ((if b then 1 else 0) + count_true m')%nat
  end.

(** The entries of [a] where [m] is [True] (lengths already checked). *)
Fixpoint select {A} (m : list bool) (a : list A) : list A :=
  match m, a with
  | b :: m', x :: a' => if b then x :: select m' a' else select m' a'
  | _, _ => []
  end.

(** [a[m]] for a boolean mask [m]: the mask must have the length of [a]. *)
Definition mask_get {A} (a : list A) (m : list bool) : res (list A) :=
  if decide (length m = length a) then Val (select m a) else Exc IndexError.

(** [a[m] = f(a[m])] entry by entry; with a constant [f] this is the scalar
    assignment [a[m] = v]. *)
Definition mask_update {A} (f : A → A) (a : list A) (m : list bool)
  : res (list A) :=
  if decide (length m = length a)
  then Val (zip_with (λ (b : bool) x, if b then f x else x) m a)
  else Exc IndexError.

Definition mask_set {A} (a : list A) (m : list bool) (v : A) : res (list A) :=
  mask_update (λ _, v) a m.

(** Writes [vs] in order into the entries of [a] selected by [m]. *)
Fixpoint scatter {A} (m : list bool) (a vs : list A) : list A :=
  match m, a with
  | b :: m', x :: a' =>
      if b then
        match vs with
        | v :: vs' => v :: scatter m' a' vs'
        | [] => x :: scatter m' a' []
        end
      else x :: scatter m' a' vs
  | _, _ => a
  end.

(** [a[m] = vs] for an array [vs]: it has one value per selected entry, or
    a single value that is broadcast. *)
Definition mask_set_arr {A} (a : list A) (m : list bool) (vs : list A)
  : res (list A) :=
  if decide (length m = length a) then
    if decide (length vs = count_true m) then Val (scatter m a vs)
    else match vs with
         | [v] => Val (zip_with (λ (b : bool) x, if b then v else x) m a)
         | _ => Exc ValueError
         end
  else Exc IndexError.

(** An elementwise binary operation with NumPy broadcasting: equal lengths,
    or one operand of length one. *)
Definition broadcast {A B C} (f : A → B → C) (a : list A) (b : list B)
  : res (list C) :=
  if decide (length a = length b) then Val (zip_with f a b)
  else match a, b with
       | [x], _ => Val (f x <$> b)
       | _, [y] => Val ((λ x, f x y) <$> a)
       | _, _ => Exc ValueError
       end.

(** [np.where(m)[0]]: the indices at which [m] is [True]. *)
Fixpoint where_from (i : nat) (m : list bool) : list nat :=
  match m with
  | [] => []
  | b :: m' => if b then i :: where_from (S i) m' else where_from (S i) m'
  end.
Definition where_ (m : list bool) : list nat := where_from 0 m.

(** [np.in1d(a, b)]. *)
Definition in1d (a b : list Z) : list bool :=
  (λ x, bool_decide (x ∈ b)) <$> a.

(** [np.hstack(arrays)]: needs at least one array. *)
Definition hstack {A} (arrays : list (list A)) : res (list A) :=
  match arrays with
  | [] => Exc ValueError
  | _ => Val (concat arrays)
  end.

(** [np.unique(a)]: the distinct entries of [a] in increasing order. *)
Fixpoint insert_sorted (x : Z) (l : list Z) : list Z :=
  match l with
  | [] => [x]
  | y :: l' =>
      if decide (x < y) then x :: l
      else if decide (x = y) then l
      else y :: insert_sorted x l'
  end.
Definition unique (a : list Z) : list Z := foldr insert_sorted [] a.

(** [a.sum()] and [a.mean()] on rationals. *)
Definition sum (a : list Qc) : Qc := foldr Qcplus (Qc_of_Z 0) a.
Definition mean (a : list Qc) : Qc :=
  (sum a / Qc_of_Z (Z.of_nat (length a)))%Qc.

(** [a[idx]] for an integer index array. *)
Definition take_idx {A} (a : list A) (idx : list nat) : res (list A) :=
  of_option IndexError (mapM (λ i, a !! i) idx).

(** [a[idx] = vs] for an integer index array: one value per index or a
    single broadcast value; indices are checked first. *)
Definition put_idx {A} (a : list A) (idx : list nat) (vs : list A)
  : res (list A) :=
  if decide (Forall (λ i, (i < length a)%nat) idx) then
    if decide (length vs = length idx)
    then Val (foldl (λ acc iv, <[iv.1 := iv.2]> acc) a (zip idx vs))
    else match vs with
         | [v] => Val (foldl (λ acc i, <[i := v]> acc) a idx)
         | _ => Exc ValueError
         end
  else Exc IndexError.

(** [buf[:] = vs] on a buffer of [n] entries. *)
Definition assign_all {A} (n : nat) (vs : list A) : res (list A) :=
  if decide (length vs = n) then Val vs
  else match vs with
       | [v] => Val (replicate n v)
       | _ => Exc ValueError
       end.

(** [a.flat[:] = vs]: the values are repeated cyclically when there are
    fewer than entries, extra values are dropped, and no value at all
    leaves [a] as it is. *)
Definition flat_assign {A} (a vs : list A) : list A :=
  imap (λ i x, default x (vs !! (i `mod` length vs)%nat)) a.

(** The cast of an integer to [np.uint32]. *)
Definition uint32 (z : Z) : Z := z `mod` 2 ^ 32.

End np.

(** ** The parameter tree *)

(** Modelled from the spec: the parameter tree, an external collaborator of
    which only the consumed interface is specified.  The tree exposes one
    contiguous, ordered vector covering every leaf, with a parallel gradient
    vector; a leaf carries an integer tie label per scalar (0 if free) and
    zero or one constraint.  A position of the flattened tree is a [Cell]. *)
Definition transform := nat.

Record Cell := {
  value : Qc;                    (* entry of [param_array] *)
  grad : Qc;                     (* entry of [gradient] *)
  tie : Z;                       (* entry of the leaf's [tie] array *)
  constraint : option transform  (* the active constraint, if any *)
}.

Definition set_value (v : Qc) (c : Cell) : Cell :=
  {| value := v; grad := grad c; tie := tie c; constraint := constraint c |}.
Definition set_grad (g : Qc) (c : Cell) : Cell :=
  {| value := value c; grad := g; tie := tie c; constraint := constraint c |}.
Definition set_tie (l : Z) (c : Cell) : Cell :=
  {| value := value c; grad := grad c; tie := l; constraint := constraint c |}.
Definition set_constraint (t : option transform) (c : Cell) : Cell :=
  {| value := value c; grad := grad c; tie := tie c; constraint := t |}.

(** Modelled from the spec: a leaf ([Param]) is addressed by its raveled
    (global) index range in the flattened vectors. *)
Record Param := { offset : nat; size : nat }.

(** A node handed to the tying operations: a leaf, or a [Parameterized]
    container with its ordered [parameters]. *)
Inductive Node :=
  | Leaf (x : Param)
  | Parameterized (parameters : list Node).

(** The state of the model: the flattened tree and the attributes of the
    [Tie] object.  The [Tie] node is the last child of the root, so the
    canonical slots of [tied_param], when there are any, are the last
    positions of the flattened tree; [tied_param] records [None] or the size
    of that [Param].  [np_empty] stands for the unspecified contents of
    freshly allocated storage ([np.empty]). *)
Record Model := {
  tree : list Cell;
  tied_param : option nat;
  label_buf : option (list Z);
  buf_idx : option (list nat);
  _untie_ : option (list bool);
  _PROPAGATE_VAL_ : bool;
  _updates : bool;
  _optimizer_copy_transformed : bool;
  np_empty : nat → Qc
}.

Definition with_tree (t : list Cell) (st : Model) : Model :=
  {| tree := t; tied_param := tied_param st; label_buf := label_buf st;
     buf_idx := buf_idx st; _untie_ := _untie_ st;
     _PROPAGATE_VAL_ := _PROPAGATE_VAL_ st; _updates := _updates st;
     _optimizer_copy_transformed := _optimizer_copy_transformed st;
     np_empty := np_empty st |}.
Definition with_tied (t : list Cell) (k : option nat) (st : Model) : Model :=
  {| tree := t; tied_param := k; label_buf := label_buf st;
     buf_idx := buf_idx st; _untie_ := _untie_ st;
     _PROPAGATE_VAL_ := _PROPAGATE_VAL_ st; _updates := _updates st;
     _optimizer_copy_transformed := _optimizer_copy_transformed st;
     np_empty := np_empty st |}.
Definition with_buffers (lb : option (list Z)) (bi : option (list nat))
    (un : option (list bool)) (st : Model) : Model :=
  {| tree := tree st; tied_param := tied_param st; label_buf := lb;
     buf_idx := bi; _untie_ := un;
     _PROPAGATE_VAL_ := _PROPAGATE_VAL_ st; _updates := _updates st;
     _optimizer_copy_transformed := _optimizer_copy_transformed st;
     np_empty := np_empty st |}.
Definition with_PROPAGATE_VAL_ (b : bool) (st : Model) : Model :=
  {| tree := tree st; tied_param := tied_param st; label_buf := label_buf st;
     buf_idx := buf_idx st; _untie_ := _untie_ st;
     _PROPAGATE_VAL_ := b; _updates := _updates st;
     _optimizer_copy_transformed := _optimizer_copy_transformed st;
     np_empty := np_empty st |}.
Definition with_updates (b : bool) (st : Model) : Model :=
  {| tree := tree st; tied_param := tied_param st; label_buf := label_buf st;
     buf_idx := buf_idx st; _untie_ := _untie_ st;
     _PROPAGATE_VAL_ := _PROPAGATE_VAL_ st; _updates := b;
     _optimizer_copy_transformed := _optimizer_copy_transformed st;
     np_empty := np_empty st |}.
Definition with_optimizer_copy_transformed (b : bool) (st : Model) : Model :=
  {| tree := tree st; tied_param := tied_param st; label_buf := label_buf st;
     buf_idx := buf_idx st; _untie_ := _untie_ st;
     _PROPAGATE_VAL_ := _PROPAGATE_VAL_ st; _updates := _updates st;
     _optimizer_copy_transformed := b;
     np_empty := np_empty st |}.

(** The flattened vectors of the root ([self._highest_parent_]). *)
Definition param_array (st : Model) : list Qc := value <$> tree st.
Definition gradient (st : Model) : list Qc := grad <$> tree st.
Definition ties (st : Model) : list Z := tie <$> tree st.

(** The first position of [tied_param] in the flattened tree, for a
    [tied_param] of size [k]. *)
Definition tied_offset (st : Model) (k : nat) : nat := (length (tree st) - k)%nat.

(** [self.tied_param] as a leaf of the tree. *)
Definition tied_leaf (st : Model) (k : nat) : Param :=
  {| offset := tied_offset st k; size := k |}.

(** [_raveled_index_for(x)]: the positions of leaf [x]. *)
Definition _raveled_index_for (x : Param) : list nat := seq (offset x) (size x).

(** The part of a flattened vector that belongs to leaf [x]. *)
Definition slice {A} (x : Param) (l : list A) : list A :=
  take (size x) (drop (offset x) l).

(** Applies [f] to the entries of leaf [x], giving [f] the index inside the
    leaf. *)
Definition update_leaf {A} (f : nat → A → A) (x : Param) (l : list A) : list A :=
  imap (λ i a,
        if decide (offset x ≤ i < offset x + size x)%nat
        then f (i - offset x)%nat a else a) l.

(** ** The state-and-exception monad of the methods *)

Inductive outcome (A : Type) :=
  | Done (a : A) (st : Model)
  | Raise (e : exn) (st : Model).
Arguments Done {A} a st.
Arguments Raise {A} e st.

Definition M (A : Type) : Type := Model → outcome A.

Definition ret {A} (a : A) : M A := λ st, Done a st.
Definition bind {A B} (m : M A) (k : A → M B) : M B :=
  λ st, match m st with
        | Done a st' => k a st'
        | Raise e st' => Raise e st'
        end.
Definition raise {A} (e : exn) : M A := λ st, Raise e st.
Definition lift {A} (r : res A) : M A :=
  λ st, match r with Val a => Done a st | Exc e => Raise e st end.
Definition gets {A} (f : Model → A) : M A := λ st, Done (f st) st.
Definition modify (f : Model → Model) : M unit := λ st, Done tt (f st).

Declare Scope tie_scope.
Delimit Scope tie_scope with tie.
Notation "x <- m ;; k" := (bind m (λ x, k))
  (at level 100, m at next level, right associativity) : tie_scope.
Notation "m ;; k" := (bind m (λ _, k))
  (at level 100, right associativity) : tie_scope.
Local Open Scope tie_scope.

(** A [for] loop over a list, threading a Python object [s] mutated by the
    body. *)
Fixpoint for_each {A S} (body : A → S → M S) (l : list A) (s : S) : M S :=
  match l with
  | [] => ret s
  | a :: l' => s' <- body a s ;; for_each body l' s'
  end.

(** ** Traversals *)

(** [_traverse_param(func, p, res)]: applies [func] to every leaf below [p],
    in order.  The Python function appends the return values to the list
    [res] and hands further mutable arguments (an offset counter) on to
    [func]; both are the threaded object [res] here. *)
Fixpoint _traverse_param {S} (func : Param → S → M S) (p : Node) (res : S)
  : M S :=
  match p with
  | Leaf x => func x res
  | Parameterized parameters =>
      (fix loop (pcs : list Node) (res : S) : M S :=
         match pcs with
         | [] => ret res
         | pc :: pcs' => res' <- _traverse_param func pc res ;; loop pcs' res'
         end) parameters res
  end.

(** The leaves below a node, in traversal order. *)
Fixpoint leaves (p : Node) : list Param :=
  match p with
  | Leaf x => [x]
  | Parameterized parameters => flat_map leaves parameters
  end.

(** Modelled from the spec: [p.param_array], [p.size] and the constraint
    index of a node [p] cover the positions of the leaves below it, in
    order. *)
Definition node_positions (p : Node) : list nat :=
  flat_map _raveled_index_for (leaves p).
Definition node_array {A} (p : Node) (l : list A) : list A :=
  flat_map (λ x, slice x l) (leaves p).
Definition node_size (p : Node) : nat := sum_list (size <$> leaves p).

(** Modelled from the spec: the topmost ancestor of the tree
    ([self._highest_parent_]).  Its leaves cover every position of the
    flattened vectors in order; as the traversals below act on each position
    of each leaf separately, it is given as one leaf over all positions. *)
Definition _highest_parent_ (st : Model) : Node :=
  Leaf {| offset := 0; size := length (tree st) |}.

(** ** Values *)

(** [_sync_val_group] *)
Definition _sync_val_group (plist : list Node) : M Qc :=
  pa <- gets param_array ;;
  stacked <- lift (np.hstack ((λ p, node_array p pa) <$> plist)) ;;
  let val := np.mean stacked in
  let _set_val (p : Param) (_ : unit) : M unit :=
    modify (λ st, with_tree (update_leaf (λ _, set_value val) p (tree st)) st) in
  for_each (λ p, _traverse_param _set_val p) plist tt ;;
  ret val.

(** [_get_vals] *)
Definition _get_vals (p : Node) : M (list Qc) :=
  vals <- _traverse_param
            (λ x vals, pa <- gets param_array ;; ret (vals ++ [slice x pa]))
            p [] ;;
  lift (np.hstack vals).

(** [_sync_val_pair] *)
Definition _sync_val_pair (p1 p2 : Node) : M (list Qc) :=
  p1val <- _get_vals p1 ;;
  let _set_val (p : Param) (offset : nat) : M nat :=
    let vs := take (size p) (drop offset p1val) in
    modify (λ st, with_tree
      (update_leaf
         (λ i c, set_value (default (value c) (vs !! (i `mod` length vs)%nat)) c)
         p (tree st)) st) ;;
    ret (offset + size p)%nat in
  _traverse_param _set_val p2 0%nat ;;
  ret p1val.

(** ** Labels *)

(** [_get_labels] *)
Definition _get_labels (plist : list Node) : M (list Z) :=
  labels <- for_each
              (λ p, _traverse_param
                      (λ x labels, t <- gets ties ;; ret (labels ++ [slice x t]))
                      p)
              plist [] ;;
  stacked <- lift (np.hstack labels) ;;
  ret (np.unique stacked).

(** The labels of the leaves below [p], stacked into one array. *)
Definition stacked_labels (p : Node) : M (list Z) :=
  label <- _traverse_param
             (λ x label, t <- gets ties ;; ret (label ++ [slice x t]))
             p [] ;;
  lift (np.hstack label).

(** The array computations of [_get_labels_vector] on the two stacked label
    arrays. *)
Definition labels_vector (label1 label2 : list Z)
  : res (list nat * (list Z * list Z) * list Z) :=
  prod ← np.broadcast Z.mul label1 label2;
  let expandlist := np.where_ ((λ x, bool_decide (x = 0)) <$> prod) in
  let labellist := label1 in
  idx ← np.broadcast andb ((λ x, bool_decide (x = 0)) <$> label1)
                          ((λ x, bool_decide (0 < x)) <$> label2);
  vs ← np.mask_get label2 idx;
  labellist ← np.mask_set_arr labellist idx vs;
  ne ← np.broadcast (λ x y, bool_decide (x ≠ y)) label1 label2;
  idx ← np.broadcast andb ((λ x, bool_decide (0 < x)) <$> prod) ne;
  r1 ← np.mask_get label1 idx;
  r2 ← np.mask_get label2 idx;
  mret (expandlist, (r1, r2), labellist).

(** [_get_labels_vector] *)
Definition _get_labels_vector (p1 p2 : Node)
  : M (list nat * (list Z * list Z) * list Z) :=
  label1 <- stacked_labels p1 ;;
  label2 <- stacked_labels p2 ;;
  lift (labels_vector label1 label2).

(** [_set_labels] *)
Definition _set_labels (plist : list Node) (labels : list Z) : M unit :=
  let _set_l1 (p : Param) (_ : unit) : M unit :=
    l0 <- lift (of_option IndexError (labels !! 0%nat)) ;;
    modify (λ st, with_tree (update_leaf (λ _, set_tie l0) p (tree st)) st) in
  let _set_list (p : Param) (offset : nat) : M nat :=
    let vs := take (size p) (drop offset labels) in
    modify (λ st, with_tree
      (update_leaf
         (λ i c, set_tie (default (tie c) (vs !! (i `mod` length vs)%nat)) c)
         p (tree st)) st) ;;
    ret (offset + size p)%nat in
  if decide (length labels = 1%nat) then
    for_each (λ p, _traverse_param _set_l1 p) plist tt
  else
    for_each (λ p (_ : unit), _traverse_param _set_list p 0%nat ;; ret tt) plist tt.

(** The effect of the loop [for l1,l2 in label_pairs: tie[tie==l1] = l2] on
    one label. *)
Definition replace_label (label_pairs : list (Z * Z)) (t : Z) : Z :=
  foldl (λ t (pr : Z * Z), if decide (t = pr.1) then pr.2 else t) t label_pairs.

(** [_replace_labels] *)
Definition _replace_labels (p : Node) (label_pairs : list (Z * Z)) : M unit :=
  let _replace_l (p : Param) (_ : unit) : M unit :=
    modify (λ st, with_tree
      (update_leaf (λ _ c, set_tie (replace_label label_pairs (tie c)) c)
                   p (tree st)) st) in
  _traverse_param _replace_l p tt.

(** ** The canonical slot store *)

(** A freshly created [Param('tied', new_buf)] linked into the tree: its
    values and labels are given, its gradient is unspecified storage and it
    carries no constraint. *)
Definition fresh_param (junk : nat → Qc) (vals : list Qc) (labels : list Z)
  : list Cell :=
  imap (λ i vl, {| value := vl.1; grad := junk i; tie := vl.2;
                   constraint := None |})
       (zip vals labels).

(** [range(start, start + num)] *)
Definition range (start : Z) (num : nat) : list Z :=
  (λ i, start + Z.of_nat i) <$> seq 0 num.

(** [a.max()] of an integer array; an empty array has no maximum. *)
Definition max_label (a : list Z) : res Z :=
  match a with
  | [] => Exc ValueError
  | x :: a' => Val (foldr Z.max x a')
  end.

(** [_expand_tie_param] *)
Definition _expand_tie_param (num : nat) : M (list Z * list nat) :=
  st <- gets id ;;
  match tied_param st with
  | None =>
      let start_label := 1 in
      let labellist := range start_label num in
      let idxlist := seq 0 num in
      let new_buf := np_empty st <$> seq 0 num in
      modify (with_tied (tree st ++ fresh_param (np_empty st) new_buf labellist)
                        (Some num)) ;;
      ret (labellist, idxlist)
  | Some k =>
      let tied := tied_leaf st k in
      m <- lift (max_label (slice tied (ties st))) ;;
      let start_label := m + 1 in
      let new_buf :=
        slice tied (param_array st) ++ (np_empty st <$> seq k num) in
      let old_tie_ := slice tied (ties st) in
      let old_size := k in
      let labellist := range start_label num in
      let idxlist := seq old_size num in
      modify (with_tied
                (take (tied_offset st k) (tree st)
                 ++ fresh_param (np_empty st) new_buf (old_tie_ ++ labellist))
                (Some (k + num)%nat)) ;;
      ret (labellist, idxlist)
  end.

(** [_remove_tie_param] *)
Definition _remove_tie_param (labels : list Z) : M unit :=
  st <- gets id ;;
  match tied_param st with
  | None => raise AttributeError
  | Some k =>
      let tied := tied_leaf st k in
      if decide (length labels = k) then
        modify (with_tied (take (tied_offset st k) (tree st)) None)
      else if decide (k < length labels)%nat then raise ValueError
      else
        let n := (k - length labels)%nat in
        let idx := negb <$> np.in1d (slice tied (ties st)) labels in
        kept <- lift (np.mask_get (slice tied (param_array st)) idx) ;;
        new_buf <- lift (np.assign_all n kept) ;;
        let old_tie_ := slice tied (ties st) in
        kept_tie <- lift (np.mask_get old_tie_ idx) ;;
        new_tie <- lift (np.assign_all n kept_tie) ;;
        modify (with_tied
                  (take (tied_offset st k) (tree st)
                   ++ fresh_param (np_empty st) new_buf new_tie)
                  (Some n))
  end.

(** [_merge_tie_labels] *)
Definition _merge_tie_labels (labels : list Z) : M unit :=
  match labels with
  | [] | [_] => ret tt
  | l0 :: rest =>
      _remove_tie_param rest ;;
      hp <- gets _highest_parent_ ;;
      _replace_labels hp ((λ l, (l, l0)) <$> rest)
  end.

(** [_merge_tie_labelpair] *)
Definition _merge_tie_labelpair (labelpair : list Z * list Z) : M unit :=
  _remove_tie_param labelpair.2 ;;
  hp <- gets _highest_parent_ ;;
  _replace_labels hp (zip labelpair.2 labelpair.1).

(** [(self.label_buf == l).sum()] *)
Definition label_count (lb : list Z) (l : Z) : nat :=
  np.count_true ((λ x, bool_decide (x = l)) <$> lb).

(** [_remove_unnecessary_ties] *)
Definition _remove_unnecessary_ties : M unit :=
  st <- gets id ;;
  match tied_param st with
  | None => ret tt
  | Some k =>
      let tied_tie := slice (tied_leaf st k) (ties st) in
      labels <- match label_buf st, tied_tie with
                | Some lb, _ =>
                    ret (filter (λ l, (label_count lb l ≤ 2)%nat) tied_tie)
                | None, [] => ret []
                | None, _ :: _ => raise AttributeError
                end ;;
      if decide (0 < length labels)%nat then
        _remove_tie_param labels ;;
        hp <- gets _highest_parent_ ;;
        _replace_labels hp (zip labels (replicate (length labels) 0))
      else ret tt
  end.

(** [_update_label_buf].  The traversal of the whole tree puts the labels of
    each leaf at its raveled positions of the [uint32] buffer, that is, every
    position receives the cast of its own label. *)
Definition _update_label_buf : M unit :=
  st <- gets id ;;
  match tied_param st with
  | None => modify (with_buffers None None None)
  | Some k =>
      let label_buf := np.uint32 <$> ties st in
      let buf_idx := _raveled_index_for (tied_leaf st k) in
      modify (λ st, with_buffers (Some label_buf) (Some buf_idx) (_untie_ st) st) ;;
      let untie := (λ x, bool_decide (x = 0)) <$> label_buf in
      modify (with_buffers (Some label_buf) (Some buf_idx) (Some untie)) ;;
      untie <- lift (np.put_idx untie buf_idx [true]) ;;
      modify (with_buffers (Some label_buf) (Some buf_idx) (Some untie)) ;;
      if decide (Forall (λ l, 0 < l) (slice (tied_leaf st k) (ties st)))
      then ret tt else raise AssertionError
  end.

(** ** Constraints *)

(** Modelled from the spec: the per-leaf constraint interface (get, set,
    clear) of the tree.  [p.constraints.properties()] lists the distinct
    constraints active below [p], [p.constraints[c].size] counts the
    positions constrained by [c], [p.constraints.size] counts the constrained
    positions, [p.constrain(c)] makes [c] the constraint of every position of
    [p] and [p.unconstrain()] clears them. *)
Definition properties (cs : list (option transform)) : list transform :=
  remove_dups (omap id cs).
Definition constrained_by (c : transform) (cs : list (option transform)) : nat :=
  length (filter (λ o, o = Some c) cs).
Definition constraints_size (cs : list (option transform)) : nat :=
  length (omap id cs).
Definition node_constraints (p : Node) (st : Model) : list (option transform) :=
  node_array p (constraint <$> tree st).
Definition constrain (p : Node) (c : option transform) : M unit :=
  for_each
    (λ x _, modify (λ st,
       with_tree (update_leaf (λ _, set_constraint c) x (tree st)) st))
    (leaves p) tt.

(** The slots of [tied_param] selected by a boolean mask over [tied_param]. *)
Definition tied_mask_update (f : Cell → Cell) (mask : Model → nat → list bool)
  : M unit :=
  st <- gets id ;;
  match tied_param st with
  | None => raise AttributeError
  | Some k =>
      let off := tied_offset st k in
      tied <- lift (np.mask_update f (drop off (tree st)) (mask st k)) ;;
      modify (with_tree (take off (tree st) ++ tied))
  end.

(** The mask [self.tied_param.tie == l]. *)
Definition tied_tie_eq (l : Z) (st : Model) (k : nat) : list bool :=
  (λ x, bool_decide (x = l)) <$> slice (tied_leaf st k) (ties st).

(** [_sync_constraint_group].  [list(set(cons))] has no specified order; the
    first constraint collected stands for its first element. *)
Definition _sync_constraint_group (plist : list Node) (hastie : bool)
    (tie_con : option transform) : M (option transform) :=
  tie_con <-
    (if hastie then ret tie_con
     else
       cons <- for_each
                 (λ p cons, cs <- gets (node_constraints p) ;;
                            ret (cons ++ properties cs))
                 plist [] ;;
       ret (head (remove_dups cons))) ;;
  match tie_con with
  | Some c =>
      for_each
        (λ p _,
           cs <- gets (node_constraints p) ;;
           if decide (length (properties cs) ≠ 1%nat
                      ∨ constrained_by c cs ≠ node_size p)
           then constrain p (Some c) else ret tt)
        plist tt ;;
      ret (Some c)
  | None =>
      (if hastie then for_each (λ p _, constrain p None) plist tt
       else ret tt) ;;
      ret None
  end.

(** [_sync_constraint_vector]: for every constraint [c] of [p1] and the
    positions [ind] of [p1] it constrains, the slots
    [idxlist[np.in1d(expandlist, ind)]] are constrained by [c]. *)
Definition _sync_constraint_vector (p1 p2 : Node) (expandlist : list nat)
    (idxlist : list nat) : M unit :=
  cs <- gets (node_constraints p1) ;;
  for_each
    (λ c _,
       let ind := np.where_ ((λ o, bool_decide (o = Some c)) <$> cs) in
       let sel := (λ e, bool_decide (e ∈ ind)) <$> expandlist in
       idx <- lift (np.mask_get idxlist sel) ;;
       tied_mask_update (set_constraint (Some c))
         (λ _ k, (λ i, bool_decide (i ∈ idx)) <$> seq 0 k))
    (properties cs) tt.

(** ** Change detection and gradient collation *)

(** The mask [self.label_buf == self.label_buf[self.buf_idx[i]]]. *)
Definition group_mask (st : Model) (i : nat) : res (list bool) :=
  match label_buf st, buf_idx st with
  | Some lb, Some bi =>
      j ← of_option IndexError (bi !! i);
      l ← of_option IndexError (lb !! j);
      mret ((λ x, bool_decide (x = l)) <$> lb)
  | _, _ => Exc TypeError
  end.

(** [self.tied_param[i]] *)
Definition tied_value (st : Model) (k i : nat) : res Qc :=
  of_option IndexError (param_array st !! (tied_offset st k + i)%nat).

(** One round of the loop of [_check_change]. *)
Definition check_group (k i : nat) (changed : bool) : M bool :=
  st <- gets id ;;
  b0 <- lift (group_mask st i) ;;
  members <- lift (np.mask_get (param_array st) b0) ;;
  ti <- lift (tied_value st k i) ;;
  let b := (λ v, bool_decide (v ≠ ti)) <$> members in
  if decide (np.count_true b = 0%nat) then ret changed
  else if decide (np.count_true b = 1%nat) then
    val <- lift (of_option IndexError (head (np.select b members))) ;;
    t <- lift (np.mask_update (set_value val) (tree st) b0) ;;
    modify (with_tree t) ;;
    ret true
  else
    t <- lift (np.mask_update (set_value ti) (tree st) b0) ;;
    modify (with_tree t) ;;
    ret true.

(** [_check_change] *)
Definition _check_change : M bool :=
  st <- gets id ;;
  match tied_param st with
  | None => ret false
  | Some k => for_each (check_group k) (seq 0 k) false
  end.

(** One [np.put] of the list comprehension of [collate_gradient]. *)
Definition collate_group (k i : nat) (_ : unit) : M unit :=
  st <- gets id ;;
  b0 <- lift (group_mask st i) ;;
  members <- lift (np.mask_get (gradient st) b0) ;;
  let off := tied_offset st k in
  if decide (i < length (drop off (tree st)))%nat then
    modify (with_tree (alter (set_grad (np.sum members)) (off + i)%nat (tree st)))
  else raise IndexError.

(** [collate_gradient] *)
Definition collate_gradient : M unit :=
  st <- gets id ;;
  match tied_param st with
  | None => ret tt
  | Some k =>
      modify (with_tree
                (update_leaf (λ _, set_grad (Qc_of_Z 0)) (tied_leaf st k)
                             (tree st))) ;;
      for_each (collate_group k) (seq 0 k) tt
  end.

(** One round of the loop of [propagate_val]. *)
Definition propagate_group (k i : nat) (_ : unit) : M unit :=
  st <- gets id ;;
  b0 <- lift (group_mask st i) ;;
  ti <- lift (tied_value st k i) ;;
  t <- lift (np.mask_update (set_value ti) (tree st) b0) ;;
  modify (with_tree t).

(** [propagate_val] *)
Definition propagate_val : M unit :=
  st <- gets id ;;
  match tied_param st with
  | None => ret tt
  | Some k => for_each (propagate_group k) (seq 0 k) tt
  end ;;
  modify (with_PROPAGATE_VAL_ true).

(** ** Notifications *)

(** The object a change notification originates from ([which]). *)
Inductive origin :=
  | the_Tie    (* the [Tie] object itself *)
  | the_tree.  (* any other node of the parameter tree *)

(** Modelled from the spec: [_trigger_params_changed] of the tree re-runs
    the recompute, which notifies the observers of the tree; the handler of
    the [Tie] object is one of them and is called with the tree as origin. *)
Definition _trigger_params_changed (handler : origin → M unit) : M unit :=
  handler the_tree.

(** Modelled from the spec: [update_model(updates)] suspends
    ([updates = False]) or resumes ([updates = True]) the recompute of the
    tree; resuming fires the change notification once. *)
Definition update_model (handler : origin → M unit) (updates : bool) : M unit :=
  modify (with_updates updates) ;;
  if updates then _trigger_params_changed handler else ret tt.

(** The body of [_parameters_changed_notification], over the method
    [parameters_changed] it calls. *)
Definition notification (parameters_changed : M unit) (which : origin)
  : M unit :=
  match which with
  | the_Tie => ret tt
  | the_tree =>
      modify (with_optimizer_copy_transformed false) ;;
      parameters_changed
  end.

(** [parameters_changed].  The method re-enters itself through
    [_trigger_params_changed]; [depth] bounds the nesting of these calls, as
    the recursion limit of the interpreter does. *)
Fixpoint parameters_changed (depth : nat) : M unit :=
  match depth with
  | O => raise RecursionError
  | S depth' =>
      propagated <- gets _PROPAGATE_VAL_ ;;
      (if propagated then modify (with_PROPAGATE_VAL_ false)
       else
         changed <- _check_change ;;
         if changed
         then _trigger_params_changed (notification (parameters_changed depth'))
         else ret tt) ;;
      collate_gradient
  end.

(** [_parameters_changed_notification] *)
Definition _parameters_changed_notification (depth : nat) (which : origin)
  : M unit :=
  notification (parameters_changed depth) which.

(** ** The public operations *)

(** [tie_together] *)
Definition tie_together (depth : nat) (plist : list Node) : M unit :=
  update_model (_parameters_changed_notification depth) false ;;
  labels <- _get_labels plist ;;
  val <- _sync_val_group plist ;;
  l0 <- lift (of_option IndexError (labels !! 0%nat)) ;;
  tie_labels <-
    (if decide (l0 = 0 ∧ length labels = 1%nat) then
       r <- _expand_tie_param 1 ;;
       let tie_labels := r.1 in
       _set_labels plist tie_labels ;;
       tie_con <- _sync_constraint_group plist false None ;;
       match tie_con with
       | Some c =>
           t0 <- lift (of_option IndexError (tie_labels !! 0%nat)) ;;
           tied_mask_update (set_constraint (Some c)) (tied_tie_eq t0)
       | None => ret tt
       end ;;
       ret tie_labels
     else
       let tie_labels := filter (λ l, 0 < l) labels in
       (if decide (1 < length tie_labels)%nat
        then _merge_tie_labels tie_labels else ret tt) ;;
       t0 <- lift (of_option IndexError (tie_labels !! 0%nat)) ;;
       _set_labels plist [t0] ;;
       st <- gets id ;;
       tie_p <- match tied_param st with
                | None => raise AttributeError
                | Some k =>
                    lift (np.mask_get
                            (slice (tied_leaf st k) (constraint <$> tree st))
                            (tied_tie_eq t0 st k))
                end ;;
       let tie_con := head (properties tie_p) in
       _sync_constraint_group plist true tie_con ;;
       ret tie_labels) ;;
  _update_label_buf ;;
  t0 <- lift (of_option IndexError (tie_labels !! 0%nat)) ;;
  tied_mask_update (set_value val) (tied_tie_eq t0) ;;
  update_model (_parameters_changed_notification depth) true.

(** [tie_vector].  [idxlist] is bound only when [expandlist] is not empty. *)
Definition tie_vector (depth : nat) (p1 p2 : Node) : M unit :=
  update_model (_parameters_changed_notification depth) false ;;
  r <- _get_labels_vector p1 p2 ;;
  let expandlist := r.1.1 in
  let removelist := r.1.2 in
  let labellist := r.2 in
  p1vals <- _sync_val_pair p1 p2 ;;
  r <- (if decide (0 < length expandlist)%nat then
          e <- _expand_tie_param (length expandlist) ;;
          let tie_labels := e.1 in
          let idxlist := e.2 in
          labellist <- lift (np.put_idx labellist expandlist tie_labels) ;;
          vals <- lift (np.take_idx p1vals expandlist) ;;
          st <- gets id ;;
          match tied_param st with
          | None => raise AttributeError
          | Some k =>
              let off := tied_offset st k in
              tied <- lift (np.put_idx (value <$> drop off (tree st))
                                       idxlist vals) ;;
              modify (with_tree
                        (take off (tree st)
                         ++ zip_with set_value tied (drop off (tree st))))
          end ;;
          ret (labellist, Some idxlist)
        else ret (labellist, None)) ;;
  let labellist := r.1 in
  (if decide (0 < length removelist.1)%nat
   then _merge_tie_labelpair removelist else ret tt) ;;
  _set_labels [p1; p2] labellist ;;
  idxlist <- lift (of_option UnboundLocalError r.2) ;;
  _sync_constraint_vector p1 p2 expandlist idxlist ;;
  _update_label_buf ;;
  update_model (_parameters_changed_notification depth) true.

(** [untie] *)
Definition untie (depth : nat) (plist : list Node) : M unit :=
  update_model (_parameters_changed_notification depth) false ;;
  _set_labels plist [0] ;;
  _update_label_buf ;;
  _remove_unnecessary_ties ;;
  _update_label_buf ;;
  update_model (_parameters_changed_notification depth) true.

(** ** Predicates used in the statements *)

(** A node is valid in a model when its leaves lie inside the flattened
    tree. *)
Definition valid_node (st : Model) (p : Node) : Prop :=
  Forall (λ x, (offset x + size x ≤ length (tree st))%nat) (leaves p).

(** The buffers of the [Tie] object are up to date for a [tied_param] of
    size [k]: the label buffer [lb] covers the flattened tree and [buf_idx]
    holds the positions of the canonical slots. *)
Record buffers_ok (st : Model) (k : nat) (lb : list Z) : Prop := {
  bo_tied : tied_param st = Some k;
  bo_size : (k ≤ length (tree st))%nat;
  bo_lb : label_buf st = Some lb;
  bo_len : length lb = length (tree st);
  bo_idx : buf_idx st = Some (seq (tied_offset st k) k)
}.

(** The position of canonical slot [i] in the flattened tree. *)
Definition slot_pos (st : Model) (k i : nat) : nat := (tied_offset st k + i)%nat.

(** Position [p] belongs to the tie group of slot [i]: the label buffer
    holds the label of the slot there. *)
Definition member (lb : list Z) (st : Model) (k i p : nat) : Prop :=
  ∃ l, lb !! slot_pos st k i = Some l ∧ lb !! p = Some l.

(** Position [p] holds a value that differs from the value of slot [i]. *)
Definition differs (st : Model) (k i p : nat) : Prop :=
  ∃ v t, param_array st !! p = Some v
         ∧ param_array st !! slot_pos st k i = Some t ∧ v ≠ t.

(** The mask of the positions labelled [l]. *)
Definition group_of (l : Z) (lb : list Z) : list bool :=
  (λ x, bool_decide (x = l)) <$> lb.

(** The tree with value [v] written at the positions selected by [m]. *)
Definition paint (m : list bool) (v : Qc) (t : list Cell) : list Cell :=
  zip_with (λ (b : bool) c, if b then set_value v c else c) m t.

(** The number of positions labelled [l] whose value is not [ti]. *)
Definition ndiff (l : Z) (ti : Qc) (lb : list Z) (pa : list Qc) : nat :=
  np.count_true ((λ v, bool_decide (v ≠ ti)) <$> np.select (group_of l lb) pa).


(** The first value labelled [l] that is not [ti]. *)
Definition first_diff (l : Z) (ti : Qc) (lb : list Z) (pa : list Qc) : option Qc :=
  head (np.select ((λ v, bool_decide (v ≠ ti)) <$> np.select (group_of l lb) pa)
                  (np.select (group_of l lb) pa)).

(** The value [_check_change] writes to the group labelled [l] whose slot
    holds [ti]. *)
Definition target (l : Z) (ti : Qc) (lb : list Z) (pa : list Qc) : Qc :=
  if decide (ndiff l ti lb pa = 1%nat)
  then default ti (first_diff l ti lb pa)
  else ti.

(** One round of the loop of [_check_change] as a function on the tree:
    [acc] holds the flag [changed] and the tree, [off] is the position of the
    first slot. *)
Definition check_step (lb : list Z) (off : nat) (acc : bool * list Cell)
    (i : nat) : bool * list Cell :=
  match lb !! (off + i)%nat, (value <$> acc.2) !! (off + i)%nat with
  | Some l, Some ti =>
      (acc.1 || bool_decide (ndiff l ti lb (value <$> acc.2) ≠ 0%nat),
       paint (group_of l lb) (target l ti lb (value <$> acc.2)) acc.2)
  | _, _ => acc
  end.

(** The positions labelled [l] hold one common value in the tree [t]. *)
Definition uniform (lb : list Z) (l : Z) (t : list Cell) : Prop :=
  ∀ p q c d, lb !! p = Some l → lb !! q = Some l →
             t !! p = Some c → t !! q = Some d → value c = value d.

(** Two cells that differ at most in their value. *)
Definition same_but_value (c c' : Cell) : Prop :=
  grad c' = grad c ∧ tie c' = tie c ∧ constraint c' = constraint c.

(** Every tie group of the [k] slots starting at [off] holds one common
    value in the tree [t]. *)
Definition consistent (lb : list Z) (off k : nat) (t : list Cell) : Prop :=
  ∀ i l, (i < k)%nat → lb !! (off + i)%nat = Some l → uniform lb l t.

(** The sum of the entries of [g] at the positions labelled [l]. *)
Fixpoint group_sum (l : Z) (lb : list Z) (g : list Qc) : Qc :=
  match lb, g with
  | x :: lb', y :: g' =>
      ((if decide (x = l) then y else Qc_of_Z 0) + group_sum l lb' g')%Qc
  | _, _ => Qc_of_Z 0
  end.

(** One [np.put] of [collate_gradient] as a function on the tree. *)
Definition collate_step (lb : list Z) (off : nat) (t : list Cell) (i : nat)
  : list Cell :=
  match lb !! (off + i)%nat with
  | Some l =>
      alter (set_grad (np.sum (np.select (group_of l lb) (grad <$> t))))
            (off + i)%nat t
  | None => t
  end.

(** Two cells that differ at most in their gradient. *)
Definition same_but_grad (c c' : Cell) : Prop :=
  value c' = value c ∧ tie c' = tie c ∧ constraint c' = constraint c.

(** The labels and the values of the canonical slots, in store order. *)
Definition slot_labels (st : Model) : list Z :=
  match tied_param st with
  | Some k => drop (tied_offset st k) (ties st)
  | None => []
  end.
Definition slot_values (st : Model) : list Qc :=
  match tied_param st with
  | Some k => drop (tied_offset st k) (param_array st)
  | None => []
  end.

(** The number of positions of the tree that are not canonical slots. *)
Definition raw_size (st : Model) : nat :=
  match tied_param st with
  | Some k => tied_offset st k
  | None => length (tree st)
  end.

(** The store is well formed: the canonical slots fit into the tree. *)
Definition store_ok (st : Model) : Prop :=
  match tied_param st with
  | Some k => (k ≤ length (tree st))%nat
  | None => True
  end.

(** Two cells with the same label and constraint. *)
Definition same_labels (c c' : Cell) : Prop :=
  tie c' = tie c ∧ constraint c' = constraint c.

(** Two cells that differ at most in their constraint. *)
Definition same_but_constraint (c c' : Cell) : Prop :=
  value c' = value c ∧ grad c' = grad c ∧ tie c' = tie c.

(** Position [p] lies in one of the leaves [ls]. *)
Definition covered (ls : list Param) (p : nat) : Prop :=
  Exists (λ x, (offset x ≤ p < offset x + size x)%nat) ls.

Definition covered_dec (ls : list Param) (p : nat) : Decision (covered ls p) :=
  decide (Exists (λ x, (offset x ≤ p < offset x + size x)%nat) ls).

(** The array [xs] with [v] written at the positions of the leaves [ls]. *)
Definition cover_with {A} (ls : list Param) (v : A) (xs : list A) : list A :=
  imap (λ p x, if covered_dec ls p then v else x) xs.

(** The tree after [f] has been applied to every position of the leaves
    [ls], leaf after leaf. *)
Definition paint_leaves (f : Cell → Cell) (ls : list Param) (t : list Cell)
  : list Cell :=
  foldl (λ t x, update_leaf (λ _, f) x t) t ls.

(** A computation that always returns and changes the tree only, cell by
    cell within the relation [R]. *)
Definition tree_only (R : Cell → Cell → Prop) {A} (m : M A) : Prop :=
  ∀ st, ∃ a t', m st = Done a (with_tree t' st) ∧ Forall2 R (tree st) t'.

(** The largest label of a non-empty label array. *)
Definition max_of (x : Z) (a : list Z) : Z := foldr Z.max x a.

(** [f] applied to the slots labelled [l], for slots starting at [off]. *)
Definition paint_slots (f : Cell → Cell) (l : Z) (off : nat) (t : list Cell)
  : list Cell :=
  take off t ++ ((λ c, if bool_decide (tie c = l) then f c else c) <$> drop off t).

(** The invariants of the tying state between public operations: the slots
    fit into the tree and there is at least one when the store exists, the
    slots carry pairwise different labels, positive and below the range of
    the [uint32] label buffer (with room for one more), and every label of a
    raw position is 0 or the label of a slot. *)
Record wf (st : Model) : Prop := {
  wf_store : store_ok st;
  wf_nonempty : tied_param st ≠ Some 0%nat;
  wf_nodup : NoDup (slot_labels st);
  wf_range : Forall (λ l, 0 < l < 2 ^ 32 - 1) (slot_labels st);
  wf_raw : ∀ p c, (p < raw_size st)%nat → tree st !! p = Some c →
                  tie c = 0 ∨ tie c ∈ slot_labels st
}.

(** The leaves of the list [plist] are raw positions of the tree. *)
Definition valid_plist (st : Model) (plist : list Node) : Prop :=
  Forall (λ x, (offset x + size x ≤ raw_size st)%nat) (flat_map leaves plist).

(** The label [_expand_tie_param] gives to the next slot. *)
Definition fresh_label (st : Model) : Z :=
  match slot_labels st with
  | [] => 1
  | x :: rest => max_of x rest + 1
  end.

(** A scalar leaf at position [p]. *)
Definition scalar (p : nat) : Node := Leaf {| offset := p; size := 1 |}.

(** The value [_sync_val_group] gives to the leaves below [plist]: the mean
    of their current values. *)
Definition group_mean (st : Model) (plist : list Node) : Qc :=
  np.mean (flat_map (λ x, slice x (param_array st)) (flat_map leaves plist)).

(** A boolean check of the invariants [wf]. *)
Definition store_okb (st : Model) : bool :=
  match tied_param st with
  | Some k => bool_decide (k ≤ length (tree st))%nat
  | None => true
  end.
Definition wfb (st : Model) : bool :=
  store_okb st
  && bool_decide (tied_param st ≠ Some 0%nat)
  && bool_decide (NoDup (slot_labels st))
  && bool_decide (Forall (λ l, 0 < l < 2 ^ 32 - 1) (slot_labels st))
  && bool_decide (Forall (λ c, tie c = 0 ∨ tie c ∈ slot_labels st)
                         (take (raw_size st) (tree st))).

(** Positions that carry the same label (as the [uint32] label buffer stores
    it), other than the label 0 of untied positions, hold the same value. *)
Definition tied_agree (st : Model) : Prop :=
  ∀ p q c c', tree st !! p = Some c → tree st !! q = Some c' →
              np.uint32 (tie c) = np.uint32 (tie c') →
              np.uint32 (tie c) ≠ 0 → value c = value c'.

(** A boolean check of [tied_agree]. *)
Definition tied_agreeb (st : Model) : bool :=
  bool_decide
    (Forall (λ c, Forall (λ c', np.uint32 (tie c) = np.uint32 (tie c') →
                                np.uint32 (tie c) ≠ 0 → value c = value c')
                         (tree st))
            (tree st)).

(** A computation keeps the property [P] of the state whenever it returns. *)
Definition preserves (P : Model → Prop) {A} (m : M A) : Prop :=
  ∀ st a st', P st → m st = Done a st' → P st'.

(** The store fits the tree and the one-shot flag [_PROPAGATE_VAL_] is not
    set. *)
Definition settled (st : Model) : Prop :=
  store_ok st ∧ _PROPAGATE_VAL_ st = false.

(** The state a computation ends in. *)
Definition final_state {A} (m : M A) (st : Model) : Model :=
  match m st with
  | Done _ st' => st'
  | Raise _ st' => st'
  end.

(** ** Concrete states *)

(** A cell with an integer value and a label, and a model around a tree
    whose buffers have not been built. *)
Definition cell (v t : Z) : Cell :=
  {| value := Qc_of_Z v; grad := Qc_of_Z 0; tie := t; constraint := None |}.
Definition model_of (t : list Cell) (k : option nat) (flag : bool) : Model :=
  {| tree := t; tied_param := k; label_buf := None; buf_idx := None;
     _untie_ := None; _PROPAGATE_VAL_ := flag; _updates := true;
     _optimizer_copy_transformed := false; np_empty := λ _, Qc_of_Z 0 |}.

(** Two untied leaves holding 2 and 4, and no store. *)
Definition two_leaves : Model := model_of [cell 2 0; cell 4 0] None false.

(** Four untied leaves, and no store. *)
Definition four_leaves : Model :=
  model_of [cell 3 0; cell 3 0; cell 3 0; cell 7 0] None false.

(** Two leaves tied in the group of the one slot, and a third, untied leaf. *)
Definition one_group : Model :=
  model_of [cell 3 1; cell 3 1; cell 7 0; cell 3 1] (Some 1%nat) false.

(** Three leaves tied in the group of the one slot and holding its value, a
    fourth, untied leaf, and the buffers up to date. *)
Definition three_tied : Model :=
  {| tree := [cell 3 1; cell 3 1; cell 3 1; cell 7 0; cell 3 1];
     tied_param := Some 1%nat;
     label_buf := Some [1; 1; 1; 0; 1]; buf_idx := Some [4%nat];
     _untie_ := Some [false; false; false; true; true];
     _PROPAGATE_VAL_ := false; _updates := true;
     _optimizer_copy_transformed := false; np_empty := λ _, Qc_of_Z 0 |}.

(** Three leaves and one slot, the buffers up to date; the first two leaves
    are tied in the group of the slot, whose value they do not hold. *)
Definition buffered_group : Model :=
  {| tree := [cell 1 1; cell 1 1; cell 5 0; cell 2 1];
     tied_param := Some 1%nat;
     label_buf := Some [1; 1; 0; 1]; buf_idx := Some [3%nat];
     _untie_ := Some [false; false; true; true];
     _PROPAGATE_VAL_ := false; _updates := true;
     _optimizer_copy_transformed := false; np_empty := λ _, Qc_of_Z 0 |}.

(** ** Further functions and predicates *)

(** A computation that returns in every state. *)
Definition total {A} (m : M A) : Prop := ∀ st, ∃ a st', m st = Done a st'.

(** One round of the loop of [propagate_val] as a function on the tree. *)
Definition propagate_step (lb : list Z) (off : nat) (t : list Cell) (i : nat)
  : list Cell :=
  match lb !! (off + i)%nat, (value <$> t) !! (off + i)%nat with
  | Some l, Some ti => paint (group_of l lb) ti t
  | _, _ => t
  end.

(** Two cells that differ at most in their label. *)
Definition same_but_tie (c c' : Cell) : Prop :=
  value c' = value c ∧ grad c' = grad c ∧ constraint c' = constraint c.

(** A strictly increasing list of labels. *)
Fixpoint increasing (l : list Z) : Prop :=
  match l with
  | [] => True
  | x :: r => Forall (λ y, x < y) r ∧ increasing r
  end.

(** Two groups of two leaves each, with their two slots. *)
Definition two_groups : Model :=
  model_of [cell 3 1; cell 3 1; cell 7 2; cell 7 2; cell 3 1; cell 7 2]
           (Some 2%nat) false.

(** * Properties *)

(** ** The monad *)

Lemma bind_Done {A B} (m : M A) (k : A → M B) st b st'' :
  bind m k st = Done b st'' ↔ ∃ a st', m st = Done a st' ∧ k a st' = Done b st''.
Proof.
  unfold bind. destruct (m st) as [a st'|e st']; split.
  - eauto.
  - intros (? & ? & [= -> ->] & ?). done.
  - done.
  - intros (? & ? & [=] & ?).
Qed.

Lemma bind_eq {A B} (m : M A) (k : A → M B) st a st' :
  m st = Done a st' → bind m k st = k a st'.
Proof. unfold bind. by intros ->. Qed.

Lemma bind_raise {A B} (m : M A) (k : A → M B) st e st' :
  m st = Raise e st' → bind m k st = Raise e st'.
Proof. unfold bind. by intros ->. Qed.

Lemma lift_Done {A} (r : res A) st a st' :
  lift r st = Done a st' ↔ r = Val a ∧ st' = st.
Proof.
  unfold lift. destruct r as [a'|e]; split.
  - by intros [= -> ->].
  - by intros [[= ->] ->].
  - done.
  - by intros [[=] _].
Qed.

Lemma for_each_app {A S} (body : A → S → M S) l1 l2 s st :
  for_each body (l1 ++ l2) s st
  = bind (for_each body l1 s) (for_each body l2) st.
Proof.
  revert s st. induction l1 as [|a l1 IH]; intros s st; simpl.
  - reflexivity.
  - unfold bind in *. destruct (body a s st) as [s' st'|e st']; [|done].
    apply IH.
Qed.

(** ** Traversals visit the leaves in order *)

Lemma Node_forall_ind (P : Node → Prop) :
  (∀ x, P (Leaf x)) →
  (∀ ps, Forall P ps → P (Parameterized ps)) →
  ∀ p, P p.
Proof.
  intros HL HP. fix IH 1. intros [x|ps]; [apply HL|].
  apply HP. induction ps as [|p ps IHps]; constructor; [apply IH|apply IHps].
Qed.

Lemma _traverse_param_leaves {S} (func : Param → S → M S) p s st :
  _traverse_param func p s st = for_each func (leaves p) s st.
Proof.
  revert s st. induction p as [x|ps IH] using Node_forall_ind; intros s st.
  - simpl. unfold bind. by destruct (func x s st).
  - simpl. revert s st. induction IH as [|p ps Hp _ IHps]; intros s st; [done|].
    change (flat_map leaves (p :: ps)) with (leaves p ++ flat_map leaves ps).
    rewrite for_each_app. unfold bind. rewrite Hp.
    destruct (for_each func (leaves p) s st); [apply IHps|done].
Qed.

Lemma for_each_traverse {S} (func : Param → S → M S) plist s st :
  for_each (λ p, _traverse_param func p) plist s st
  = for_each func (flat_map leaves plist) s st.
Proof.
  revert s st. induction plist as [|p plist IH]; intros s st; [done|].
  simpl. rewrite for_each_app. unfold bind. rewrite _traverse_param_leaves.
  destruct (for_each func (leaves p) s st); [apply IH|done].
Qed.

Lemma bind_gets {A B} (f : Model → A) (k : A → M B) st :
  bind (gets f) k st = k (f st) st.
Proof. reflexivity. Qed.

Lemma bind_modify {B} (f : Model → Model) (k : unit → M B) st :
  bind (modify f) k st = k tt (f st).
Proof. reflexivity. Qed.

Lemma bind_ret {A B} (a : A) (k : A → M B) st : bind (ret a) k st = k a st.
Proof. reflexivity. Qed.

Lemma bind_lift {A B} (r : res A) (k : A → M B) st a :
  r = Val a → bind (lift r) k st = k a st.
Proof. by intros ->. Qed.

Lemma bind_lift_Exc {A B} (r : res A) (k : A → M B) st e :
  r = Exc e → bind (lift r) k st = Raise e st.
Proof. by intros ->. Qed.

Lemma bind_assoc {A B C} (m : M A) (k : A → M B) (h : B → M C) st :
  bind (bind m k) h st = bind m (λ a, bind (k a) h) st.
Proof. unfold bind. by destruct (m st). Qed.

Lemma bind_lift_Val {A B} (a : A) (k : A → M B) st :
  bind (lift (Val a)) k st = k a st.
Proof. reflexivity. Qed.

(** Runs the leading, already evaluated steps of a computation. *)
Ltac mstep := cbn [bind lift ret gets modify raise id of_option].

(** ** Reading labels and values of the leaves *)

Lemma collect_slices {A} (f : Model → list A) ls acc st :
  for_each (λ x labels, t <- gets f ;; ret (labels ++ [slice x t])) ls acc st
  = Done (acc ++ ((λ x, slice x (f st)) <$> ls)) st.
Proof.
  revert acc. induction ls as [|x ls IH]; intros acc; simpl.
  - by rewrite app_nil_r.
  - unfold bind, gets, ret in *. rewrite IH. by rewrite <- app_assoc.
Qed.

Lemma stacked_labels_eq p st :
  stacked_labels p st
  = match leaves p with
    | [] => Raise ValueError st
    | _ => Done (node_array p (ties st)) st
    end.
Proof.
  unfold stacked_labels.
  erewrite bind_eq by (rewrite _traverse_param_leaves; apply collect_slices).
  unfold node_array. rewrite flat_map_concat_map. simpl.
  by destruct (leaves p).
Qed.

Lemma length_slice {A} (x : Param) (l : list A) :
  (offset x + size x ≤ length l)%nat → length (slice x l) = size x.
Proof. intros. unfold slice. rewrite length_take, length_drop. lia. Qed.

Lemma length_node_array {A} st p (l : list A) :
  length l = length (tree st) → valid_node st p →
  length (node_array p l) = node_size p.
Proof.
  intros Hl. unfold valid_node, node_array, node_size.
  induction (leaves p) as [|x xs IH]; intros Hv; [done|].
  apply Forall_cons_1 in Hv as [Hx Hxs]. simpl.
  rewrite length_app, length_slice by lia. by rewrite IH.
Qed.

(** ** [_get_labels_vector] rejects arrays of different lengths *)

Lemma res_bind_Val {A B} (k : A → res B) (r : res A) b :
  r ≫= k = Val b → ∃ a, r = Val a ∧ k a = Val b.
Proof. destruct r as [a|e]; [by exists a|done]. Qed.

Lemma mask_get_Val {A} (a : list A) m r :
  np.mask_get a m = Val r → length m = length a ∧ r = np.select m a.
Proof. unfold np.mask_get. case_decide; naive_solver. Qed.

Lemma mask_set_arr_Val {A} (a : list A) m vs r :
  np.mask_set_arr a m vs = Val r → length m = length a.
Proof. unfold np.mask_set_arr. by case_decide. Qed.

Lemma labels_vector_Val l1 l2 r :
  labels_vector l1 l2 = Val r → length l1 = length l2.
Proof.
  unfold labels_vector. intros H.
  apply res_bind_Val in H as (prod & _ & H).
  apply res_bind_Val in H as (idx & _ & H).
  apply res_bind_Val in H as (vs & Hget & H).
  apply res_bind_Val in H as (labellist & Hset & _).
  apply mask_get_Val in Hget as [Hget _].
  apply mask_set_arr_Val in Hset. congruence.
Qed.

Lemma labels_vector_mismatch l1 l2 :
  length l1 ≠ length l2 → ∃ e, labels_vector l1 l2 = Exc e.
Proof.
  intros Hne. destruct (labels_vector l1 l2) as [r|e] eqn:E; [|by exists e].
  by apply labels_vector_Val in E.
Qed.

Lemma update_model_false handler st :
  update_model handler false st = Done tt (with_updates false st).
Proof. reflexivity. Qed.

Lemma _get_labels_vector_mismatch p1 p2 st :
  length (node_array p1 (ties st)) ≠ length (node_array p2 (ties st)) →
  ∃ e, _get_labels_vector p1 p2 st = Raise e st.
Proof.
  intros Hne. unfold _get_labels_vector, bind.
  rewrite stacked_labels_eq. destruct (leaves p1); [by eexists|].
  rewrite stacked_labels_eq. destruct (leaves p2); [by eexists|].
  destruct (labels_vector_mismatch _ _ Hne) as [e ->]. by exists e.
Qed.

(** C8.  [tie_vector] on two nodes with different element counts raises an
    exception inside [_get_labels_vector]: no label, canonical slot, value or
    buffer has been written at that point (only the recompute has been
    suspended). *)
Theorem tie_vector_unequal_sizes depth p1 p2 st :
  valid_node st p1 → valid_node st p2 → node_size p1 ≠ node_size p2 →
  ∃ e st', tie_vector depth p1 p2 st = Raise e st'
    ∧ tree st' = tree st ∧ tied_param st' = tied_param st
    ∧ label_buf st' = label_buf st ∧ buf_idx st' = buf_idx st
    ∧ _untie_ st' = _untie_ st.
Proof.
  intros Hv1 Hv2 Hne. unfold tie_vector.
  rewrite (bind_eq _ _ _ _ _ (update_model_false _ st)).
  destruct (_get_labels_vector_mismatch p1 p2 (with_updates false st)) as [e He].
  - unfold ties. simpl.
    by rewrite !(length_node_array st) by (done || by rewrite length_fmap).
  - exists e, (with_updates false st). by rewrite (bind_raise _ _ _ _ _ He).
Qed.

(** C10.  A notification whose origin is the [Tie] object itself is ignored:
    the handler returns at once and the state is the one it was called in. *)
Theorem notification_from_Tie_ignored depth st :
  _parameters_changed_notification depth the_Tie st = Done tt st.
Proof. reflexivity. Qed.

(** ** The change check *)

Lemma set_value_id c : set_value (value c) c = c.
Proof. by destruct c. Qed.

Lemma lookup_paint m v t p :
  length m = length t →
  paint m v t !! p
  = (λ c, if default false (m !! p) then set_value v c else c) <$> t !! p.
Proof.
  intros Hlen. unfold paint. rewrite lookup_zip_with.
  destruct (m !! p) as [b|] eqn:Hm; simpl.
  - by destruct (t !! p).
  - apply lookup_ge_None in Hm. rewrite lookup_ge_None_2 by lia. done.
Qed.

Lemma length_paint m v t : length m = length t → length (paint m v t) = length t.
Proof. intros. unfold paint. rewrite length_zip_with. lia. Qed.

Lemma lookup_group_of l lb p :
  group_of l lb !! p = (λ x, bool_decide (x = l)) <$> lb !! p.
Proof. apply list_lookup_fmap. Qed.

Lemma ndiff_0 l ti lb pa p v :
  ndiff l ti lb pa = 0%nat → lb !! p = Some l → pa !! p = Some v → v = ti.
Proof.
  unfold ndiff, group_of. revert pa p.
  induction lb as [|x lb IH]; intros [|y pa] p; try done.
  simpl. case_bool_decide as Hx; simpl.
  - case_bool_decide as Hy; simpl; [done|]. intros H0.
    destruct p as [|p]; simpl.
    + by intros _ [= ->].
    + by apply IH.
  - intros H0. destruct p as [|p]; simpl; [naive_solver|by apply IH].
Qed.

Lemma ndiff_0_paint l ti lb t :
  length lb = length t →
  ndiff l ti lb (value <$> t) = 0%nat → paint (group_of l lb) ti t = t.
Proof.
  intros Hlen H0. apply list_eq. intros p.
  rewrite lookup_paint by (by unfold group_of; rewrite length_fmap).
  rewrite lookup_group_of.
  destruct (t !! p) as [c|] eqn:Hc; [|done]. simpl.
  destruct (lb !! p) as [x|] eqn:Hx; [|done]. simpl.
  case_bool_decide as Hl; [|done]. subst x.
  rewrite <- (ndiff_0 l ti lb (value <$> t) p (value c) H0 Hx).
  - by rewrite set_value_id.
  - by rewrite list_lookup_fmap, Hc.
Qed.

Lemma ndiff_pos l ti lb pa :
  (0 < ndiff l ti lb pa)%nat →
  ∃ q v, lb !! q = Some l ∧ pa !! q = Some v ∧ v ≠ ti.
Proof.
  unfold ndiff, group_of. revert pa.
  induction lb as [|x lb IH]; intros [|y pa]; simpl; try lia.
  case_bool_decide as Hx; simpl.
  - case_bool_decide as Hy; simpl.
    + intros _. exists 0%nat, y. by subst.
    + intros H. destruct (IH pa H) as (q & v & ?). by exists (S q), v.
  - intros H. destruct (IH pa H) as (q & v & ?). by exists (S q), v.
Qed.

Lemma ndiff_1 l ti lb pa :
  ndiff l ti lb pa = 1%nat →
  ∃ q v, lb !! q = Some l ∧ pa !! q = Some v ∧ v ≠ ti
    ∧ first_diff l ti lb pa = Some v
    ∧ ∀ p v', lb !! p = Some l → pa !! p = Some v' → v' ≠ ti → p = q.
Proof.
  unfold first_diff, ndiff, group_of. revert pa.
  induction lb as [|x lb IH]; intros [|y pa]; simpl; try done.
  case_bool_decide as Hx; simpl.
  - case_bool_decide as Hy; simpl.
    + intros [= H0]. exists 0%nat, y. subst x. repeat split; try done.
      intros [|p] v' Hp Hv' Hne; [done|]. simpl in *.
      destruct Hne. by apply (ndiff_0 l ti lb pa p v').
    + intros H. destruct (IH pa H) as (q & v & ? & ? & ? & ? & Huniq).
      exists (S q), v. repeat split; try done.
      intros [|p] v' Hp Hv' Hne; simpl in *.
      * congruence.
      * f_equal. by apply (Huniq p v').
  - intros H. destruct (IH pa H) as (q & v & ? & ? & ? & ? & Huniq).
    exists (S q), v. repeat split; try done.
    intros [|p] v' Hp Hv' Hne; simpl in *.
    * congruence.
    * f_equal. by apply (Huniq p v').
Qed.

Lemma ndiff_ge2 l ti lb pa :
  (2 ≤ ndiff l ti lb pa)%nat →
  ∃ q1 q2 v1 v2, q1 ≠ q2
    ∧ lb !! q1 = Some l ∧ pa !! q1 = Some v1 ∧ v1 ≠ ti
    ∧ lb !! q2 = Some l ∧ pa !! q2 = Some v2 ∧ v2 ≠ ti.
Proof.
  unfold ndiff, group_of. revert pa.
  induction lb as [|x lb IH]; intros [|y pa]; simpl; try lia.
  case_bool_decide as Hx; simpl.
  - case_bool_decide as Hy; simpl.
    + intros H. apply le_S_n in H.
      destruct (ndiff_pos l ti lb pa H) as (q & v & ? & ? & ?).
      exists 0%nat, (S q), y, v. by subst.
    + intros H. destruct (IH pa H) as (q1 & q2 & v1 & v2 & ? & ?).
      exists (S q1), (S q2), v1, v2. split; [lia|done].
  - intros H. destruct (IH pa H) as (q1 & q2 & v1 & v2 & ? & ?).
    exists (S q1), (S q2), v1, v2. split; [lia|done].
Qed.

Lemma with_tree_id st : with_tree (tree st) st = st.
Proof. by destruct st. Qed.

Lemma length_group_of l lb : length (group_of l lb) = length lb.
Proof. apply length_fmap. Qed.

Lemma group_mask_eq st k lb i l :
  buffers_ok st k lb → (i < k)%nat → lb !! slot_pos st k i = Some l →
  group_mask st i = Val (group_of l lb).
Proof.
  intros [_ _ Hlb _ Hidx] Hi Hl. unfold group_mask. rewrite Hlb, Hidx.
  rewrite lookup_seq_lt by done. simpl.
  unfold slot_pos in Hl. by rewrite Hl.
Qed.

Lemma slot_lookups st k lb i :
  buffers_ok st k lb → (i < k)%nat →
  ∃ l c, lb !! slot_pos st k i = Some l ∧ tree st !! slot_pos st k i = Some c.
Proof.
  intros [_ Hsize _ Hlen _] Hi.
  destruct (lookup_lt_is_Some_2 lb (slot_pos st k i)) as [l Hl].
  { unfold slot_pos, tied_offset. lia. }
  destruct (lookup_lt_is_Some_2 (tree st) (slot_pos st k i)) as [c Hc].
  { unfold slot_pos, tied_offset. lia. }
  by exists l, c.
Qed.

Lemma check_group_eq st k lb i changed l ti :
  buffers_ok st k lb → (i < k)%nat →
  lb !! slot_pos st k i = Some l →
  param_array st !! slot_pos st k i = Some ti →
  check_group k i changed st
  = Done (changed || bool_decide (ndiff l ti lb (param_array st) ≠ 0%nat))
         (with_tree (paint (group_of l lb) (target l ti lb (param_array st))
                           (tree st)) st).
Proof.
  intros Hok Hi Hl Hti. unfold check_group.
  assert (Hlen : length (group_of l lb) = length (param_array st)).
  { rewrite length_group_of. unfold param_array. rewrite length_fmap.
    by destruct Hok. }
  assert (Hlen' : length (group_of l lb) = length (tree st)).
  { rewrite Hlen. unfold param_array. by rewrite length_fmap. }
  mstep. rewrite (group_mask_eq st k lb i l Hok Hi Hl). mstep.
  unfold np.mask_get. rewrite decide_True by done. mstep.
  unfold tied_value. fold (slot_pos st k i). rewrite Hti. mstep.
  fold (ndiff l ti lb (param_array st)).
  unfold target. fold (first_diff l ti lb (param_array st)).
  destruct (decide (ndiff l ti lb (param_array st) = 0%nat)) as [H0|H0].
  - rewrite bool_decide_false by (by intros ?).
    rewrite orb_false_r. rewrite decide_False by lia.
    rewrite ndiff_0_paint, with_tree_id; try done. by destruct Hok.
  - rewrite bool_decide_true by done. rewrite orb_true_r.
    destruct (decide (ndiff l ti lb (param_array st) = 1%nat)) as [H1|H1].
    + destruct (ndiff_1 _ _ _ _ H1) as (q & v & _ & _ & _ & Hfd & _).
      rewrite Hfd. mstep.
      unfold np.mask_update. by rewrite decide_True by done.
    + mstep. unfold np.mask_update. by rewrite decide_True by done.
Qed.

Lemma buffers_ok_with_tree st k lb t :
  buffers_ok st k lb → length t = length (tree st) →
  buffers_ok (with_tree t st) k lb.
Proof.
  intros [H1 H2 H3 H4 H5] Hlen. split; simpl.
  - done.
  - lia.
  - done.
  - lia.
  - unfold tied_offset in *. simpl. by rewrite Hlen.
Qed.

Lemma with_tree_with_tree t t' st : with_tree t (with_tree t' st) = with_tree t st.
Proof. reflexivity. Qed.

Lemma length_check_step lb off acc i :
  length lb = length acc.2 → length (check_step lb off acc i).2 = length acc.2.
Proof.
  intros Hlen. unfold check_step.
  destruct (lb !! _); [|done]. destruct (_ !! _); [|done]. simpl.
  apply length_paint. by rewrite length_group_of.
Qed.

Lemma length_check_fold lb off js acc :
  length lb = length acc.2 →
  length (foldl (check_step lb off) acc js).2 = length acc.2.
Proof.
  revert acc. induction js as [|i js IH]; intros acc Hlen; [done|]. simpl.
  rewrite IH; rewrite length_check_step; done.
Qed.

Lemma check_loop_eq st k lb js changed :
  buffers_ok st k lb → Forall (λ i, (i < k)%nat) js →
  for_each (check_group k) js changed st
  = Done (foldl (check_step lb (tied_offset st k)) (changed, tree st) js).1
         (with_tree
            (foldl (check_step lb (tied_offset st k)) (changed, tree st) js).2
            st).
Proof.
  revert st changed. induction js as [|i js IH]; intros st changed Hok Hjs.
  - simpl. by rewrite with_tree_id.
  - apply Forall_cons_1 in Hjs as [Hi Hjs].
    destruct (slot_lookups st k lb i Hok Hi) as (l & c & Hl & Hc).
    assert (Hti : param_array st !! slot_pos st k i = Some (value c)).
    { unfold param_array. by rewrite list_lookup_fmap, Hc. }
    simpl for_each.
    rewrite (bind_eq _ _ _ _ _
               (check_group_eq st k lb i changed l (value c) Hok Hi Hl Hti)).
    assert (Hlen : length (paint (group_of l lb)
                     (target l (value c) lb (param_array st)) (tree st))
                   = length (tree st)).
    { apply length_paint. rewrite length_group_of. by destruct Hok. }
    rewrite IH; [|by apply buffers_ok_with_tree|done].
    assert (Hoff : tied_offset (with_tree (paint (group_of l lb)
                     (target l (value c) lb (param_array st)) (tree st)) st) k
                   = tied_offset st k).
    { unfold tied_offset. simpl. by rewrite Hlen. }
    rewrite Hoff, with_tree_with_tree. simpl foldl.
    assert (Hstep : check_step lb (tied_offset st k) (changed, tree st) i
              = (changed
                 || bool_decide (ndiff l (value c) lb (param_array st) ≠ 0%nat),
                 paint (group_of l lb)
                       (target l (value c) lb (param_array st)) (tree st))).
    { unfold check_step. simpl. unfold slot_pos, param_array in *.
      by rewrite Hl, Hti. }
    by rewrite Hstep.
Qed.

Lemma lookup_paint_group l lb v t p :
  length lb = length t →
  paint (group_of l lb) v t !! p
  = (λ c, if bool_decide (lb !! p = Some l) then set_value v c else c)
      <$> t !! p.
Proof.
  intros Hlen. rewrite lookup_paint by (by rewrite length_group_of).
  rewrite lookup_group_of. destruct (t !! p) as [c|] eqn:Hc; [|done]. simpl.
  destruct (lb !! p) as [x|] eqn:Hx; simpl.
  - f_equal. case_bool_decide; case_bool_decide; naive_solver.
  - done.
Qed.

Lemma paint_same_but_value m v t :
  length m = length t → Forall2 same_but_value t (paint m v t).
Proof.
  intros Hlen. apply Forall2_same_length_lookup_2.
  - by rewrite length_paint.
  - intros p c c' Hc. rewrite lookup_paint, Hc by done. simpl.
    intros [= <-]. by destruct (default false (m !! p)).
Qed.

Lemma same_but_value_refl t : Forall2 same_but_value t t.
Proof. apply Forall_Forall2_diag, list.Forall_forall. by intros c _. Qed.

Lemma same_but_value_trans t1 t2 t3 :
  Forall2 same_but_value t1 t2 → Forall2 same_but_value t2 t3 →
  Forall2 same_but_value t1 t3.
Proof.
  intros H12 H23. eapply Forall2_trans; [|done..].
  intros c1 c2 c3 (? & ? & ?) (? & ? & ?). repeat split; congruence.
Qed.

Lemma check_step_same_but_value lb off acc i :
  length lb = length acc.2 →
  Forall2 same_but_value acc.2 (check_step lb off acc i).2.
Proof.
  intros Hlen. unfold check_step.
  destruct (lb !! _); [|apply same_but_value_refl].
  destruct (_ !! _); [|apply same_but_value_refl]. simpl.
  apply paint_same_but_value. by rewrite length_group_of.
Qed.

Lemma check_fold_same_but_value lb off js acc :
  length lb = length acc.2 →
  Forall2 same_but_value acc.2 (foldl (check_step lb off) acc js).2.
Proof.
  revert acc. induction js as [|i js IH]; intros acc Hlen; simpl.
  - apply same_but_value_refl.
  - eapply same_but_value_trans; [by apply check_step_same_but_value|].
    apply IH. by rewrite length_check_step.
Qed.

Lemma paint_uniform l lb v t :
  length lb = length t → uniform lb l (paint (group_of l lb) v t).
Proof.
  intros Hlen p q c d Hp Hq. rewrite !lookup_paint_group by done.
  rewrite !bool_decide_true by done.
  destruct (t !! p), (t !! q); simpl; try done. by intros [= <-] [= <-].
Qed.

Lemma paint_uniform_other l l' lb v t :
  length lb = length t → l' ≠ l → uniform lb l' t →
  uniform lb l' (paint (group_of l lb) v t).
Proof.
  intros Hlen Hne Hu p q c d Hp Hq. rewrite !lookup_paint_group by done.
  rewrite !bool_decide_false by congruence.
  destruct (t !! p) eqn:Hcp, (t !! q) eqn:Hcq; simpl; try done.
  intros [= <-] [= <-]. exact (Hu p q _ _ Hp Hq Hcp Hcq).
Qed.

Lemma check_step_uniform lb off acc i l' :
  length lb = length acc.2 → uniform lb l' acc.2 →
  uniform lb l' (check_step lb off acc i).2.
Proof.
  intros Hlen Hu. unfold check_step.
  destruct (lb !! _) as [l|]; [|done]. destruct (_ !! _) as [ti|]; [|done].
  simpl. destruct (decide (l' = l)) as [->|Hne].
  - by apply paint_uniform.
  - by apply paint_uniform_other.
Qed.

Lemma check_fold_uniform lb off js acc l' :
  length lb = length acc.2 → uniform lb l' acc.2 →
  uniform lb l' (foldl (check_step lb off) acc js).2.
Proof.
  revert acc. induction js as [|i js IH]; intros acc Hlen Hu; [done|]. simpl.
  apply IH; [by rewrite length_check_step|by apply check_step_uniform].
Qed.

Lemma check_fold_consistent lb off js acc i l :
  length lb = length acc.2 → i ∈ js → (off + i < length lb)%nat →
  lb !! (off + i)%nat = Some l →
  uniform lb l (foldl (check_step lb off) acc js).2.
Proof.
  revert acc. induction js as [|j js IH]; intros acc Hlen Hi Hlt Hl.
  - by apply elem_of_nil in Hi.
  - simpl. apply elem_of_cons in Hi as [<-|Hi].
    + apply check_fold_uniform; [by rewrite length_check_step|].
      unfold check_step. rewrite Hl.
      destruct (lookup_lt_is_Some_2 (value <$> acc.2) (off + i)) as [ti ->].
      { rewrite length_fmap. lia. }
      simpl. by apply paint_uniform.
    + apply IH; try done. by rewrite length_check_step.
Qed.

Lemma ndiff_0_intro l ti lb pa :
  (∀ p v, lb !! p = Some l → pa !! p = Some v → v = ti) →
  ndiff l ti lb pa = 0%nat.
Proof.
  intros Hall. destruct (ndiff l ti lb pa) as [|n] eqn:E; [done|].
  destruct (ndiff_pos l ti lb pa) as (q & v & Hq & Hv & Hne); [lia|].
  destruct Hne. by eapply Hall.
Qed.

Lemma check_step_consistent lb off k acc i :
  length lb = length acc.2 → (i < k)%nat → consistent lb off k acc.2 →
  check_step lb off acc i = acc.
Proof.
  intros Hlen Hi Hcons. unfold check_step.
  destruct (lb !! (off + i)%nat) as [l|] eqn:Hl; [|done].
  destruct ((value <$> acc.2) !! (off + i)%nat) as [ti|] eqn:Hti; [|done].
  rewrite list_lookup_fmap in Hti.
  destruct (acc.2 !! (off + i)%nat) as [c|] eqn:Hc; [|done].
  injection Hti as <-.
  assert (H0 : ndiff l (value c) lb (value <$> acc.2) = 0%nat).
  { apply ndiff_0_intro. intros p v Hp Hv. rewrite list_lookup_fmap in Hv.
    destruct (acc.2 !! p) as [d|] eqn:Hd; [|done]. injection Hv as <-.
    exact (Hcons i l Hi Hl p (off + i)%nat d c Hp Hl Hd Hc). }
  unfold target. rewrite H0. rewrite decide_False by lia.
  rewrite bool_decide_false by (by intros ?). rewrite orb_false_r.
  rewrite ndiff_0_paint by done. by destruct acc.
Qed.

Lemma check_fold_idempotent lb off k js acc :
  length lb = length acc.2 → Forall (λ i, (i < k)%nat) js →
  consistent lb off k acc.2 →
  foldl (check_step lb off) acc js = acc.
Proof.
  intros Hlen Hjs Hcons. induction Hjs as [|i js Hi _ IH]; [done|]. simpl.
  by rewrite (check_step_consistent lb off k).
Qed.

Lemma Forall_seq_lt k : Forall (λ i, (i < k)%nat) (seq 0 k).
Proof. apply list.Forall_forall. intros i Hi%elem_of_seq. lia. Qed.

Lemma _check_change_eq st k lb :
  buffers_ok st k lb →
  _check_change st
  = Done (foldl (check_step lb (tied_offset st k)) (false, tree st) (seq 0 k)).1
         (with_tree
            (foldl (check_step lb (tied_offset st k)) (false, tree st)
                   (seq 0 k)).2 st).
Proof.
  intros Hok. unfold _check_change. mstep.
  rewrite (bo_tied _ _ _ Hok).
  apply check_loop_eq; [done|apply Forall_seq_lt].
Qed.

(** After a completed change check every tie group holds one value. *)
Lemma _check_change_consistent st k lb changed st' :
  buffers_ok st k lb → _check_change st = Done changed st' →
  buffers_ok st' k lb ∧ tied_offset st' k = tied_offset st k
  ∧ Forall2 same_but_value (tree st) (tree st')
  ∧ consistent lb (tied_offset st k) k (tree st')
  ∧ st' = with_tree (tree st') st.
Proof.
  intros Hok. rewrite (_check_change_eq st k lb Hok). intros [= _ <-].
  pose proof (bo_len _ _ _ Hok) as Hlen.
  set (r := foldl _ _ _).
  assert (Hlr : length r.2 = length (tree st)).
  { unfold r. by rewrite length_check_fold. }
  split_and!.
  - by apply buffers_ok_with_tree.
  - unfold tied_offset. simpl. by rewrite Hlr.
  - simpl. by apply (check_fold_same_but_value lb _ _ (false, tree st)).
  - intros i l Hi Hl. simpl.
    apply (check_fold_consistent lb _ _ (false, tree st) i); try done.
    + apply elem_of_seq. lia.
    + pose proof (bo_size _ _ _ Hok). unfold tied_offset. lia.
  - done.
Qed.

(** On a model whose tie groups hold one value each the change check finds
    nothing to correct. *)
Lemma _check_change_idempotent st k lb :
  buffers_ok st k lb → consistent lb (tied_offset st k) k (tree st) →
  _check_change st = Done false st.
Proof.
  intros Hok Hcons. rewrite (_check_change_eq st k lb Hok).
  rewrite (check_fold_idempotent lb _ k); try done.
  - simpl. by rewrite with_tree_id.
  - by destruct Hok.
  - apply Forall_seq_lt.
Qed.

Lemma select_group_ext l lb (pa pa' : list Qc) :
  length pa = length pa' →
  (∀ p, lb !! p = Some l → pa !! p = pa' !! p) →
  np.select (group_of l lb) pa = np.select (group_of l lb) pa'.
Proof.
  unfold group_of. revert pa pa'.
  induction lb as [|x lb IH]; intros [|y pa] [|y' pa'] Hlen Hagree; try done.
  rewrite !fmap_cons. cbn [np.select]. rewrite (IH pa pa').
  - case_bool_decide as Hx; [|done]. subst x.
    specialize (Hagree 0%nat eq_refl). simpl in Hagree. congruence.
  - simpl in Hlen. lia.
  - intros p Hp. apply (Hagree (S p) Hp).
Qed.

Lemma ndiff_ext l ti lb pa pa' :
  length pa = length pa' →
  (∀ p, lb !! p = Some l → pa !! p = pa' !! p) →
  ndiff l ti lb pa = ndiff l ti lb pa'.
Proof. intros. unfold ndiff. by rewrite (select_group_ext l lb pa pa'). Qed.

Lemma target_ext l ti lb pa pa' :
  length pa = length pa' →
  (∀ p, lb !! p = Some l → pa !! p = pa' !! p) →
  target l ti lb pa = target l ti lb pa'.
Proof.
  intros. unfold target, first_diff.
  by rewrite (ndiff_ext l ti lb pa pa'), (select_group_ext l lb pa pa').
Qed.

Lemma paint_other_label l l' lb v t p :
  length lb = length t → l' ≠ l → lb !! p = Some l' →
  paint (group_of l lb) v t !! p = t !! p.
Proof.
  intros Hlen Hne Hp. rewrite lookup_paint_group by done.
  rewrite bool_decide_false by congruence. by destruct (t !! p).
Qed.

Lemma paint_other_values l l' lb v t p :
  length lb = length t → l' ≠ l → lb !! p = Some l' →
  (value <$> paint (group_of l lb) v t) !! p = (value <$> t) !! p.
Proof.
  intros. rewrite !list_lookup_fmap. by rewrite (paint_other_label l l').
Qed.

(** The loop of the change check when the slots carry pairwise different
    labels: each group receives the value computed from the tree the loop
    started with, positions outside the groups are left alone, and the flag
    tells whether some group had a differing member. *)
Lemma check_fold_distinct lb off js ch t :
  length lb = length t →
  NoDup ((λ i, lb !! (off + i)%nat) <$> js) →
  let r := foldl (check_step lb off) (ch, t) js in
  (∀ i l ti p c, i ∈ js → lb !! (off + i)%nat = Some l →
     (value <$> t) !! (off + i)%nat = Some ti →
     lb !! p = Some l → t !! p = Some c →
     r.2 !! p = Some (set_value (target l ti lb (value <$> t)) c))
  ∧ (∀ p, (∀ i, i ∈ js → lb !! (off + i)%nat ≠ lb !! p) → r.2 !! p = t !! p)
  ∧ (r.1 = true ↔
     ch = true ∨ ∃ i l ti, i ∈ js ∧ lb !! (off + i)%nat = Some l
       ∧ (value <$> t) !! (off + i)%nat = Some ti
       ∧ ndiff l ti lb (value <$> t) ≠ 0%nat).
Proof.
  revert ch t. induction js as [|i js IH]; intros ch t Hlen Hnd r.
  { subst r. simpl. split_and!.
    - intros i l ti p c Hi. by apply elem_of_nil in Hi.
    - done.
    - split; [by left|]. intros [?|(i & ? & ? & Hi & ?)]; [done|].
      by apply elem_of_nil in Hi. }
  rewrite fmap_cons in Hnd. apply list.NoDup_cons in Hnd as [Hi Hnd].
  subst r. simpl foldl.
  destruct (lb !! (off + i)%nat) as [l|] eqn:Hl; cycle 1.
  { (* the slot has no label: the round does nothing *)
    assert (Hstep : check_step lb off (ch, t) i = (ch, t)).
    { unfold check_step. simpl. by rewrite Hl. }
    rewrite Hstep. destruct (IH ch t Hlen Hnd) as (IH1 & IH2 & IH3).
    split_and!.
    - intros i' l' ti p c [->|Hi']%elem_of_cons; [congruence|].
      by apply IH1.
    - intros p Hp. apply IH2. intros j Hj. apply Hp. by right.
    - rewrite IH3. split.
      + intros [?|(j & l' & ti & Hj & ?)]; [by left|right].
        exists j, l', ti. split; [by right|done].
      + intros [?|(j & l' & ti & [->|Hj]%elem_of_cons & Hl' & ?)];
          [by left|congruence|right].
        by exists j, l', ti. }
  destruct ((value <$> t) !! (off + i)%nat) as [ti|] eqn:Hti; cycle 1.
  { (* the slot lies outside the tree: no position carries its label *)
    apply lookup_ge_None in Hti. apply lookup_lt_Some in Hl.
    rewrite length_fmap in Hti. lia. }
  set (t1 := paint (group_of l lb) (target l ti lb (value <$> t)) t).
  set (ch1 := ch || bool_decide (ndiff l ti lb (value <$> t) ≠ 0%nat)).
  assert (Hstep : check_step lb off (ch, t) i = (ch1, t1)).
  { unfold check_step. simpl. by rewrite Hl, Hti. }
  rewrite Hstep.
  assert (Hlen1 : length lb = length t1).
  { unfold t1. rewrite length_paint; [done|by rewrite length_group_of]. }
  destruct (IH ch1 t1 Hlen1 Hnd) as (IH1 & IH2 & IH3).
  assert (Hother : ∀ j l', j ∈ js → lb !! (off + j)%nat = Some l' → l' ≠ l).
  { intros j l' Hj Hl' ->. apply Hi. rewrite <- Hl'.
    apply list_elem_of_fmap. by exists j. }
  assert (Hvals : ∀ l' p, l' ≠ l → lb !! p = Some l' →
            (value <$> t1) !! p = (value <$> t) !! p).
  { intros l' p Hne Hp. by apply (paint_other_values l l'). }
  assert (Hlenv : length (value <$> t1) = length (value <$> t)).
  { rewrite !length_fmap. congruence. }
  split_and!.
  - intros i' l' ti' p c [->|Hi']%elem_of_cons Hl' Hti' Hp Hc.
    + assert (l' = l) as -> by congruence.
      assert (ti' = ti) as -> by congruence.
      rewrite IH2.
      * unfold t1. rewrite lookup_paint_group, Hc by done. simpl.
        by rewrite bool_decide_true.
      * intros j Hj. rewrite Hp. intros Heq. apply Hi.
        rewrite <- Heq. apply list_elem_of_fmap. by exists j.
    + pose proof (Hother i' l' Hi' Hl') as Hne.
      rewrite (IH1 i' l' ti' p c Hi' Hl'); try done.
      * by rewrite (target_ext l' ti' lb (value <$> t1) (value <$> t))
          by (done || intros q Hq; by apply (Hvals l')).
      * by rewrite (Hvals l').
      * unfold t1. by rewrite (paint_other_label l l').
  - intros p Hp. rewrite IH2.
    + unfold t1. rewrite lookup_paint_group by done.
      rewrite bool_decide_false; [by destruct (t !! p)|].
      intros Heq. apply (Hp i); [by left|congruence].
    + intros j Hj. apply Hp. by right.
  - rewrite IH3. unfold ch1. rewrite orb_true_iff, bool_decide_eq_true.
    split.
    + intros [[?|Hn]|(j & l' & ti' & Hj & Hl' & Hti' & Hn)].
      * by left.
      * right. exists i, l, ti. split; [by left|done].
      * right. exists j, l', ti'. split; [by right|].
        pose proof (Hother j l' Hj Hl') as Hne.
        rewrite <- (Hvals l') by done. split_and!; try done.
        by rewrite <- (ndiff_ext l' ti' lb (value <$> t1) (value <$> t))
          by (done || intros q Hq; by apply (Hvals l')).
    + intros [?|(j & l' & ti' & [->|Hj]%elem_of_cons & Hl' & Hti' & Hn)].
      * by left; left.
      * left; right. congruence.
      * right. exists j, l', ti'.
        pose proof (Hother j l' Hj Hl') as Hne.
        rewrite (Hvals l') by done. split_and!; try done.
        by rewrite (ndiff_ext l' ti' lb (value <$> t1) (value <$> t))
          by (done || intros q Hq; by apply (Hvals l')).
Qed.

Lemma target_cases l ti lb pa :
  (target l ti lb pa = ti
   ∧ ∀ p v, lb !! p = Some l → pa !! p = Some v → v = ti)
  ∨ (∃ q v, lb !! q = Some l ∧ pa !! q = Some v ∧ v ≠ ti
       ∧ target l ti lb pa = v
       ∧ ∀ p v', lb !! p = Some l → pa !! p = Some v' → v' ≠ ti → p = q)
  ∨ (target l ti lb pa = ti
     ∧ ∃ q1 q2 v1 v2, q1 ≠ q2
         ∧ lb !! q1 = Some l ∧ pa !! q1 = Some v1 ∧ v1 ≠ ti
         ∧ lb !! q2 = Some l ∧ pa !! q2 = Some v2 ∧ v2 ≠ ti).
Proof.
  unfold target.
  destruct (decide (ndiff l ti lb pa = 0%nat)) as [H0|H0].
  - left. rewrite decide_False by lia. split; [done|].
    intros p v. by apply ndiff_0.
  - destruct (decide (ndiff l ti lb pa = 1%nat)) as [H1|H1].
    + right; left.
      destruct (ndiff_1 _ _ _ _ H1) as (q & v & ? & ? & ? & Hfd & ?).
      exists q, v. rewrite Hfd. by split_and!.
    + right; right. split; [done|]. apply ndiff_ge2. lia.
Qed.

Lemma slot_labels_distinct (lb : list Z) off k :
  length lb = (off + k)%nat → NoDup (drop off lb) →
  NoDup ((λ i, lb !! (off + i)%nat) <$> seq 0 k).
Proof.
  intros Hlen Hnd.
  assert (Heq : (λ i, lb !! (off + i)%nat) <$> seq 0 k = Some <$> drop off lb).
  { apply list_eq. intros i. rewrite !list_lookup_fmap, lookup_drop.
    destruct (decide (i < k)%nat) as [Hi|Hi].
    - rewrite lookup_seq_lt by done. simpl.
      destruct (lookup_lt_is_Some_2 lb (off + i)) as [x ->]; [lia|done].
    - rewrite lookup_seq_ge by lia. simpl.
      by rewrite (lookup_ge_None_2 lb) by lia. }
  rewrite Heq. by apply (NoDup_fmap_2 Some).
Qed.

(** C4.  The change check, for a model whose buffers are up to date and
    whose canonical slots carry pairwise different labels: in every group
    where no member differs from the slot nothing is written, where exactly
    one member differs its value is written to every position of the group
    (the slot included), and where two or more differ the value of the slot
    is written to all of them; the result tells whether some group had a
    differing member. *)
Theorem check_change_spec st k lb :
  buffers_ok st k lb → NoDup (drop (tied_offset st k) lb) →
  ∃ changed st',
    _check_change st = Done changed st'
    ∧ (changed = true ↔
         ∃ i p, (i < k)%nat ∧ member lb st k i p ∧ differs st k i p)
    ∧ ∀ i, (i < k)%nat →
        ((∀ p, member lb st k i p → ¬ differs st k i p) →
         ∀ p, member lb st k i p →
              param_array st' !! p = param_array st !! p)
        ∧ (∀ q, member lb st k i q → differs st k i q →
             (∀ p, member lb st k i p → differs st k i p → p = q) →
             ∀ p, member lb st k i p →
                  param_array st' !! p = param_array st !! q)
        ∧ (∀ q1 q2, q1 ≠ q2 →
             member lb st k i q1 → differs st k i q1 →
             member lb st k i q2 → differs st k i q2 →
             ∀ p, member lb st k i p →
                  param_array st' !! p = param_array st !! slot_pos st k i).
Proof.
  intros Hok Hnd. pose proof Hok as [Htied Hsize Hlb Hlen Hidx].
  set (off := tied_offset st k).
  assert (Hoff : length lb = (off + k)%nat).
  { unfold off, tied_offset. lia. }
  destruct (check_fold_distinct lb off (seq 0 k) false (tree st) Hlen
              (slot_labels_distinct lb off k Hoff Hnd)) as (H1 & _ & H3).
  eexists _, _. split; [apply (_check_change_eq st k lb Hok)|].
  fold off. set (r := foldl _ _ _) in *. split.
  - (* the returned flag *)
    simpl. rewrite H3. split.
    + intros [?|(i & l & ti & Hi%elem_of_seq & Hl & Hti & Hn)]; [done|].
      destruct (ndiff_pos l ti lb (value <$> tree st)) as (q & v & Hq & Hv & Hne);
        [lia|].
      exists i, q. split; [lia|]. split.
      * by exists l.
      * by exists v, ti.
    + intros (i & p & Hi & (l & Hl & Hp) & (v & ti & Hv & Hti & Hne)).
      right. exists i, l, ti. split_and!; try done.
      * apply elem_of_seq. lia.
      * intros H0. apply Hne. by apply (ndiff_0 l ti lb (param_array st) p v).
  - (* the values of each group *)
    intros i Hi.
    destruct (slot_lookups st k lb i Hok Hi) as (l & cs & Hl & Hcs).
    unfold slot_pos in Hl, Hcs. fold off in Hl, Hcs.
    assert (Hti : (value <$> tree st) !! (off + i)%nat = Some (value cs)).
    { by rewrite list_lookup_fmap, Hcs. }
    assert (Hmem : ∀ p, member lb st k i p ↔ lb !! p = Some l).
    { intros p. unfold member, slot_pos. fold off. rewrite Hl. split.
      - by intros (l' & [= <-] & Hp).
      - intros Hp. by exists l. }
    assert (Hfinal : ∀ p, member lb st k i p →
              param_array (with_tree r.2 st) !! p
              = (λ _, target l (value cs) lb (value <$> tree st))
                  <$> param_array st !! p).
    { intros p Hp%Hmem.
      unfold param_array. simpl. rewrite !list_lookup_fmap.
      destruct (tree st !! p) as [c|] eqn:Hc.
      - rewrite (H1 i l (value cs) p c); try done. apply elem_of_seq. lia.
      - apply lookup_ge_None in Hc. apply lookup_lt_Some in Hp. lia. }
    assert (Hdiff : ∀ p, differs st k i p ↔
              ∃ v, param_array st !! p = Some v ∧ v ≠ value cs).
    { intros p. unfold differs, slot_pos. fold off. unfold param_array.
      rewrite Hti. split.
      - intros (v & t & Hv & [= <-] & Hne). by exists v.
      - intros (v & Hv & Hne). by exists v, (value cs). }
    destruct (target_cases l (value cs) lb (value <$> tree st))
      as [(Ht & Hall)|[(q & v & Hq & Hv & Hne & Ht & Huniq)
                      |(Ht & q1 & q2 & v1 & v2 & Hne & Hq1 & Hv1 & Hn1
                           & Hq2 & Hv2 & Hn2)]].
    + (* no member differs *)
      split_and!.
      * intros _ p Hp. rewrite (Hfinal p Hp), Ht.
        destruct (param_array st !! p) as [v|] eqn:Hv; [simpl|done].
        f_equal. symmetry. apply (Hall p v); [by apply Hmem|done].
      * intros q Hq Hd. apply Hdiff in Hd as (v & Hv & Hne).
        destruct Hne. apply (Hall q v); [by apply Hmem|done].
      * intros q1 q2 _ Hq1 Hd _ _. apply Hdiff in Hd as (v & Hv & Hne).
        destruct Hne. apply (Hall q1 v); [by apply Hmem|done].
    + (* exactly one member differs *)
      assert (Hdq : differs st k i q) by (apply Hdiff; by exists v).
      split_and!.
      * intros Hnone. destruct (Hnone q); [by apply Hmem|done].
      * intros q' Hq' Hd' Honly p Hp.
        assert (q = q') as <- by (apply Honly; [by apply Hmem|done]).
        rewrite (Hfinal p Hp), Ht. unfold param_array. rewrite Hv.
        apply Hmem in Hp. apply lookup_lt_Some in Hp.
        destruct (lookup_lt_is_Some_2 (value <$> tree st) p) as [w ->]; [|done].
        rewrite length_fmap. lia.
      * intros q1 q2 Hne12 Hq1 Hd1 Hq2 Hd2.
        apply Hdiff in Hd1 as (v1 & Hv1 & Hn1).
        apply Hdiff in Hd2 as (v2 & Hv2 & Hn2).
        destruct Hne12. rewrite (Huniq q1 v1), (Huniq q2 v2); try done.
        all: by apply Hmem.
    + (* two or more members differ *)
      split_and!.
      * intros Hnone. destruct (Hnone q1); [by apply Hmem|].
        apply Hdiff. by exists v1.
      * intros q Hq Hd Honly. destruct Hne.
        rewrite (Honly q1), (Honly q2); try done.
        all: try (by apply Hmem). all: apply Hdiff; eauto.
      * intros _ _ _ _ _ _ _ p Hp.
        rewrite (Hfinal p Hp), Ht. unfold slot_pos. fold off.
        unfold param_array. rewrite Hti.
        apply Hmem in Hp. apply lookup_lt_Some in Hp.
        destruct (lookup_lt_is_Some_2 (value <$> tree st) p) as [w ->]; [|done].
        rewrite length_fmap. lia.
Qed.

(** ** Gradient collation *)

Lemma Qc_0_l (x : Qc) : (Qc_of_Z 0 + x)%Qc = x.
Proof. apply Qcplus_0_l. Qed.

Lemma Qc_0_r (x : Qc) : (x + Qc_of_Z 0)%Qc = x.
Proof. apply Qcplus_0_r. Qed.

Lemma sum_select_group l lb g :
  np.sum (np.select (group_of l lb) g) = group_sum l lb g.
Proof.
  unfold group_of. revert g. induction lb as [|x lb IH]; intros [|y g]; try done.
  rewrite fmap_cons. cbn [np.select group_sum]. rewrite <- IH.
  case_bool_decide as Hx.
  - by rewrite decide_True.
  - rewrite decide_False by done. by rewrite Qc_0_l.
Qed.

Lemma group_sum_app l lb1 lb2 g1 g2 :
  length lb1 = length g1 →
  group_sum l (lb1 ++ lb2) (g1 ++ g2)
  = (group_sum l lb1 g1 + group_sum l lb2 g2)%Qc.
Proof.
  revert g1. induction lb1 as [|x lb1 IH]; intros [|y g1] Hlen; try done.
  - simpl. by rewrite Qc_0_l.
  - simpl. rewrite IH by (simpl in Hlen; lia). by rewrite Qcplus_assoc.
Qed.

Lemma group_sum_absent l lb g : l ∉ lb → group_sum l lb g = Qc_of_Z 0.
Proof.
  revert g. induction lb as [|x lb IH]; intros [|y g] Hl; try done.
  apply not_elem_of_cons in Hl as [Hne Hl]. simpl.
  rewrite decide_False by done. rewrite IH by done. apply Qc_0_l.
Qed.

(** In a duplicate-free label array the group of the label at index [i] is
    that single entry. *)
Lemma group_sum_single l lb g i y :
  NoDup lb → lb !! i = Some l → g !! i = Some y → group_sum l lb g = y.
Proof.
  revert g i. induction lb as [|x lb IH]; intros [|z g] i Hnd Hl Hy; try done.
  apply list.NoDup_cons in Hnd as [Hx Hnd]. destruct i as [|i]; simpl in *.
  - injection Hl as ->. injection Hy as ->.
    rewrite decide_True by done. rewrite group_sum_absent by done.
    apply Qc_0_r.
  - rewrite decide_False.
    + rewrite Qc_0_l. by apply (IH g i).
    + intros ->. apply Hx. by eapply list_elem_of_lookup_2.
Qed.

Lemma collate_group_eq st k lb i l :
  buffers_ok st k lb → (i < k)%nat → lb !! slot_pos st k i = Some l →
  collate_group k i tt st
  = Done tt (with_tree (collate_step lb (tied_offset st k) (tree st) i) st).
Proof.
  intros Hok Hi Hl. pose proof Hok as [Htied Hsize Hlb Hlen Hidx].
  unfold collate_group. mstep.
  rewrite (group_mask_eq st k lb i l Hok Hi Hl). mstep.
  unfold np.mask_get. rewrite decide_True; cycle 1.
  { rewrite length_group_of. unfold gradient. by rewrite length_fmap. }
  mstep. rewrite decide_True; cycle 1.
  { rewrite length_drop. unfold tied_offset. lia. }
  unfold collate_step. unfold slot_pos in Hl. by rewrite Hl.
Qed.

Lemma length_collate_step lb off t i :
  length (collate_step lb off t i) = length t.
Proof. unfold collate_step. destruct (lb !! _); [apply length_alter|done]. Qed.

Lemma collate_loop_eq st k lb js :
  buffers_ok st k lb → Forall (λ i, (i < k)%nat) js →
  for_each (collate_group k) js tt st
  = Done tt (with_tree (foldl (collate_step lb (tied_offset st k)) (tree st) js)
                       st).
Proof.
  revert st. induction js as [|i js IH]; intros st Hok Hjs.
  - simpl. by rewrite with_tree_id.
  - apply Forall_cons_1 in Hjs as [Hi Hjs].
    destruct (slot_lookups st k lb i Hok Hi) as (l & c & Hl & Hc).
    simpl for_each.
    rewrite (bind_eq _ _ _ _ _ (collate_group_eq st k lb i l Hok Hi Hl)).
    rewrite IH; [|apply buffers_ok_with_tree;
                   [done|apply length_collate_step]|done].
    assert (Hoff : tied_offset (with_tree (collate_step lb (tied_offset st k)
                                             (tree st) i) st) k
                   = tied_offset st k).
    { unfold tied_offset. simpl. by rewrite length_collate_step. }
    by rewrite Hoff, with_tree_with_tree.
Qed.

Lemma lookup_update_leaf {A} (f : nat → A → A) x (l : list A) p :
  update_leaf f x l !! p
  = (λ a, if decide (offset x ≤ p < offset x + size x)%nat
          then f (p - offset x)%nat a else a) <$> l !! p.
Proof. unfold update_leaf. by rewrite list_lookup_imap. Qed.

Lemma lookup_update_leaf_in {A} (f : nat → A → A) x (l : list A) p :
  (offset x ≤ p < offset x + size x)%nat →
  update_leaf f x l !! p = f (p - offset x)%nat <$> l !! p.
Proof.
  intros Hp. rewrite lookup_update_leaf. destruct (l !! p); [simpl|done].
  by rewrite decide_True.
Qed.

Lemma lookup_update_leaf_out {A} (f : nat → A → A) x (l : list A) p :
  ¬ (offset x ≤ p < offset x + size x)%nat →
  update_leaf f x l !! p = l !! p.
Proof.
  intros Hp. rewrite lookup_update_leaf. destruct (l !! p); [simpl|done].
  by rewrite decide_False.
Qed.

Lemma length_update_leaf {A} (f : nat → A → A) x (l : list A) :
  length (update_leaf f x l) = length l.
Proof. unfold update_leaf. apply length_imap. Qed.

Lemma collate_step_eq lb off k t i l :
  length lb = length t → length lb = (off + k)%nat →
  NoDup (drop off lb) → lb !! (off + i)%nat = Some l →
  (grad <$> t) !! (off + i)%nat = Some (Qc_of_Z 0) →
  collate_step lb off t i
  = alter (set_grad (group_sum l (take off lb) (take off (grad <$> t))))
          (off + i)%nat t.
Proof.
  intros Hlen Hoff Hnd Hl H0. unfold collate_step. rewrite Hl.
  rewrite sum_select_group.
  rewrite <- (take_drop off lb) at 1.
  rewrite <- (take_drop off (grad <$> t)) at 1.
  rewrite group_sum_app by (rewrite !length_take, length_fmap; lia).
  rewrite (group_sum_single l (drop off lb) (drop off (grad <$> t)) i
             (Qc_of_Z 0)); try done.
  - by rewrite Qc_0_r.
  - by rewrite lookup_drop.
  - by rewrite lookup_drop.
Qed.

Lemma alter_same_but_grad g p t :
  Forall2 same_but_grad t (alter (set_grad g) p t).
Proof.
  apply Forall2_same_length_lookup_2; [by rewrite length_alter|].
  intros q c c' Hc. destruct (decide (p = q)) as [->|Hne].
  - rewrite list_lookup_alter_eq, Hc. by intros [= <-].
  - rewrite list_lookup_alter_ne, Hc by done. by intros [= <-].
Qed.

Lemma same_but_grad_trans t1 t2 t3 :
  Forall2 same_but_grad t1 t2 → Forall2 same_but_grad t2 t3 →
  Forall2 same_but_grad t1 t3.
Proof.
  intros H12 H23. eapply Forall2_trans; [|done..].
  intros c1 c2 c3 (? & ? & ?) (? & ? & ?). repeat split; congruence.
Qed.

Lemma same_but_grad_refl t : Forall2 same_but_grad t t.
Proof. apply Forall_Forall2_diag, list.Forall_forall. by intros c _. Qed.

Lemma collate_fold_spec lb off k js t :
  length lb = length t → length lb = (off + k)%nat →
  NoDup (drop off lb) → NoDup js →
  (∀ i, i ∈ js → (grad <$> t) !! (off + i)%nat = Some (Qc_of_Z 0)) →
  let t' := foldl (collate_step lb off) t js in
  (∀ i l, i ∈ js → lb !! (off + i)%nat = Some l →
     (grad <$> t') !! (off + i)%nat
     = Some (group_sum l (take off lb) (take off (grad <$> t))))
  ∧ (∀ p, (∀ i, i ∈ js → p ≠ (off + i)%nat) → t' !! p = t !! p)
  ∧ Forall2 same_but_grad t t'.
Proof.
  intros Hlen Hoff Hnd. revert t Hlen.
  induction js as [|i js IH]; intros t Hlen Hjs H0 t'.
  { subst t'. simpl. split_and!.
    - intros i l Hi. by apply elem_of_nil in Hi.
    - done.
    - apply same_but_grad_refl. }
  apply list.NoDup_cons in Hjs as [Hi Hjs]. subst t'. simpl foldl.
  assert (H0i : (grad <$> t) !! (off + i)%nat = Some (Qc_of_Z 0)).
  { apply H0. by left. }
  assert (Hlt : (off + i < length lb)%nat).
  { apply lookup_lt_Some in H0i. by rewrite length_fmap, <- Hlen in H0i. }
  destruct (lookup_lt_is_Some_2 lb (off + i) Hlt) as [l Hl].
  rewrite (collate_step_eq lb off k t i l); try done.
  set (s := group_sum l (take off lb) (take off (grad <$> t))).
  set (t1 := alter (set_grad s) (off + i)%nat t).
  assert (Htake : take off (grad <$> t1) = take off (grad <$> t)).
  { unfold t1. rewrite <- !fmap_take. f_equal. apply take_alter_ge. lia. }
  destruct (IH t1) as (IH1 & IH2 & IH3).
  { unfold t1. by rewrite length_alter. }
  { done. }
  { intros j Hj. unfold t1. rewrite list_lookup_fmap.
    rewrite list_lookup_alter_ne by (intros ?; apply Hi;
      by replace i with j by lia).
    rewrite <- list_lookup_fmap. apply H0. by right. }
  split_and!.
  - intros j l' [->|Hj]%elem_of_cons Hl'.
    + assert (l' = l) as -> by congruence.
      rewrite list_lookup_fmap, IH2.
      * unfold t1. rewrite list_lookup_alter_eq.
        destruct (lookup_lt_is_Some_2 t (off + i)) as [c ->]; [lia|done].
      * intros j Hj ?. apply Hi. by replace i with j by lia.
    + rewrite (IH1 j l' Hj Hl'). by rewrite Htake.
  - intros p Hp. rewrite IH2.
    + unfold t1. apply list_lookup_alter_ne. intros <-. by apply (Hp i); [left|].
    + intros j Hj. apply Hp. by right.
  - eapply same_but_grad_trans; [apply alter_same_but_grad|done].
Qed.

(** C5.  Gradient collation, for a model whose buffers are up to date and
    whose canonical slots carry pairwise different labels: afterwards the
    gradient of every slot is the sum of the gradients of the raw (non-slot)
    positions of its group; no value, label or constraint and no gradient of
    a raw position is changed. *)
Theorem collate_gradient_sums st k lb :
  buffers_ok st k lb → NoDup (drop (tied_offset st k) lb) →
  ∃ st',
    collate_gradient st = Done tt st'
    ∧ (∀ i l, (i < k)%nat → lb !! slot_pos st k i = Some l →
         gradient st' !! slot_pos st k i
         = Some (group_sum l (take (tied_offset st k) lb)
                             (take (tied_offset st k) (gradient st))))
    ∧ (∀ p, (p < tied_offset st k)%nat → tree st' !! p = tree st !! p)
    ∧ Forall2 same_but_grad (tree st) (tree st').
Proof.
  intros Hok Hnd. pose proof Hok as [Htied Hsize Hlb Hlen Hidx].
  set (off := tied_offset st k).
  set (t0 := update_leaf (λ _, set_grad (Qc_of_Z 0)) (tied_leaf st k) (tree st)).
  assert (Hlen0 : length t0 = length (tree st)) by apply length_update_leaf.
  assert (Hok0 : buffers_ok (with_tree t0 st) k lb)
    by by apply buffers_ok_with_tree.
  assert (Hoff0 : tied_offset (with_tree t0 st) k = off).
  { unfold off, tied_offset. simpl. by rewrite Hlen0. }
  assert (Hoff : length lb = (off + k)%nat).
  { unfold off, tied_offset. lia. }
  assert (Hlow : ∀ p, (p < off)%nat → t0 !! p = tree st !! p).
  { intros p Hp. unfold t0. apply lookup_update_leaf_out. simpl. fold off. lia. }
  assert (Hzero : ∀ i, i ∈ seq 0 k →
            (grad <$> t0) !! (off + i)%nat = Some (Qc_of_Z 0)).
  { intros i Hi%elem_of_seq. unfold t0.
    rewrite list_lookup_fmap, lookup_update_leaf_in by (simpl; fold off; lia).
    destruct (lookup_lt_is_Some_2 (tree st) (off + i)) as [c ->]; [lia|done]. }
  destruct (collate_fold_spec lb off k (seq 0 k) t0) as (H1 & H2 & H3);
    try done; [congruence|apply NoDup_seq|].
  exists (with_tree (foldl (collate_step lb off) t0 (seq 0 k)) st). split_and!.
  - unfold collate_gradient. mstep. rewrite Htied. mstep. fold t0.
    rewrite (collate_loop_eq _ k lb _ Hok0 (Forall_seq_lt k)).
    by rewrite Hoff0, with_tree_with_tree.
  - intros i l Hi Hl. unfold gradient, slot_pos. fold off. simpl.
    rewrite (H1 i l); [|apply elem_of_seq; lia|done].
    do 2 f_equal. rewrite <- !fmap_take. f_equal.
    apply list_eq. intros p. rewrite !lookup_take.
    case_decide; [by apply Hlow|done].
  - intros p Hp. simpl. rewrite H2; [by apply Hlow|].
    intros i _. lia.
  - simpl. eapply same_but_grad_trans; [|done].
    apply Forall2_same_length_lookup_2; [done|].
    intros p c c' Hc. unfold t0. rewrite lookup_update_leaf, Hc. simpl.
    intros [= <-]. by case_decide.
Qed.

(** ** Relabelling and the slot store *)

Lemma update_leaf_all {A} (f : A → A) (l : list A) :
  update_leaf (λ _, f) {| offset := 0; size := length l |} l = f <$> l.
Proof.
  apply list_eq. intros p. rewrite list_lookup_fmap.
  destruct (decide (p < length l)%nat) as [Hp|Hp].
  - by rewrite lookup_update_leaf_in by (simpl; lia).
  - rewrite lookup_update_leaf_out by (simpl; lia).
    by rewrite lookup_ge_None_2 by lia.
Qed.

Lemma _replace_labels_root label_pairs st :
  (hp <- gets _highest_parent_ ;; _replace_labels hp label_pairs) st
  = Done tt (with_tree
               ((λ c, set_tie (replace_label label_pairs (tie c)) c) <$> tree st)
               st).
Proof.
  mstep. unfold _replace_labels, _highest_parent_. simpl. unfold modify.
  by rewrite (update_leaf_all
                (λ c, set_tie (replace_label label_pairs (tie c)) c)).
Qed.

Lemma replace_label_zero labels t :
  replace_label (zip labels (replicate (length labels) 0)) t
  = if decide (t ∈ labels) then 0 else t.
Proof.
  unfold replace_label. revert t.
  induction labels as [|l labels IH]; intros t; [done|]. simpl.
  destruct (decide (t = l)) as [->|Hne].
  - rewrite decide_True by by left. rewrite IH. by case_decide.
  - rewrite IH. destruct (decide (t ∈ labels)) as [Hin|Hin].
    + rewrite decide_True; [done|by right].
    + rewrite decide_False; [done|]. by intros [?|?]%elem_of_cons.
Qed.

Lemma slice_tied {A} st k (l : list A) :
  length l = length (tree st) → (k ≤ length (tree st))%nat →
  slice (tied_leaf st k) l = drop (tied_offset st k) l.
Proof.
  intros Hlen Hk. unfold slice, tied_leaf. simpl.
  apply take_ge. rewrite length_drop. unfold tied_offset. lia.
Qed.

Lemma length_select {A} (m : list bool) (a : list A) :
  length m = length a → length (np.select m a) = np.count_true m.
Proof.
  revert a. induction m as [|b m IH]; intros [|x a] Hlen; try done.
  simpl in *. destruct b; simpl; rewrite IH; lia.
Qed.

Lemma in1d_filter (P : Z → Prop) `{∀ x, Decision (P x)} (T : list Z) :
  np.in1d T (filter P T) = (λ x, bool_decide (P x)) <$> T.
Proof.
  unfold np.in1d. apply list_fmap_ext. intros i x Hx.
  apply bool_decide_ext. rewrite list_elem_of_filter.
  apply list_elem_of_lookup_2 in Hx. tauto.
Qed.

Lemma select_negb_filter {A} (P : Z → Prop) `{∀ x, Decision (P x)}
    (T : list Z) (X : list A) :
  length T = length X →
  np.select (negb <$> ((λ x, bool_decide (P x)) <$> T)) X
  = (filter (λ tx, ¬ P tx.1) (zip T X)).*2.
Proof.
  revert X. induction T as [|t T IH]; intros [|x X] Hlen; try done.
  rewrite !fmap_cons. cbn [np.select zip zip_with].
  rewrite filter_cons. simpl in Hlen. case_bool_decide as Ht; simpl.
  - rewrite decide_False by (simpl; tauto). apply IH. lia.
  - rewrite decide_True by done. simpl. f_equal. apply IH. lia.
Qed.

Lemma select_negb_filter_self (P : Z → Prop) `{∀ x, Decision (P x)}
    (T : list Z) :
  np.select (negb <$> ((λ x, bool_decide (P x)) <$> T)) T
  = filter (λ t, ¬ P t) T.
Proof.
  induction T as [|t T IH]; [done|].
  rewrite !fmap_cons. cbn [np.select]. rewrite filter_cons.
  case_bool_decide as Ht; simpl.
  - by rewrite decide_False by tauto.
  - rewrite decide_True by done. by f_equal.
Qed.

Lemma length_filter_split (P : Z → Prop) `{∀ x, Decision (P x)} (T : list Z) :
  (length (filter P T) + length (filter (λ t, ¬ P t) T))%nat = length T.
Proof.
  induction T as [|t T IH]; [done|]. rewrite !filter_cons.
  destruct (decide (P t)).
  - rewrite decide_False by tauto. simpl. lia.
  - rewrite decide_True by done. simpl. lia.
Qed.

Lemma assign_all_exact {A} (n : nat) (vs : list A) :
  length vs = n → np.assign_all n vs = Val vs.
Proof. intros. unfold np.assign_all. by rewrite decide_True. Qed.

Lemma _remove_tie_param_all st k labels :
  tied_param st = Some k → length labels = k →
  _remove_tie_param labels st
  = Done tt (with_tied (take (tied_offset st k) (tree st)) None st).
Proof.
  intros Htied Hlen. unfold _remove_tie_param. mstep. rewrite Htied.
  by rewrite decide_True.
Qed.

Lemma _remove_tie_param_some st k labels :
  tied_param st = Some k → (k ≤ length (tree st))%nat →
  (length labels < k)%nat →
  let off := tied_offset st k in
  let idx := negb <$> np.in1d (drop off (ties st)) labels in
  np.count_true idx = (k - length labels)%nat →
  _remove_tie_param labels st
  = Done tt (with_tied
               (take off (tree st)
                ++ fresh_param (np_empty st)
                     (np.select idx (drop off (param_array st)))
                     (np.select idx (drop off (ties st))))
               (Some (k - length labels)%nat) st).
Proof.
  intros Htied Hk Hlt off idx Hcount. unfold _remove_tie_param. mstep.
  rewrite Htied. rewrite decide_False by lia. rewrite decide_False by lia.
  assert (Hlt' : length (drop off (ties st)) = k).
  { rewrite length_drop. unfold ties, off, tied_offset.
    rewrite length_fmap. lia. }
  assert (Hlv : length (drop off (param_array st)) = k).
  { rewrite length_drop. unfold param_array, off, tied_offset.
    rewrite length_fmap. lia. }
  assert (Hli : length idx = k).
  { unfold idx, np.in1d. by rewrite !length_fmap. }
  rewrite !slice_tied by (done || unfold ties, param_array; by rewrite length_fmap).
  fold off. fold idx. unfold np.mask_get.
  rewrite !decide_True by congruence. mstep.
  rewrite (assign_all_exact _ (np.select idx (drop off (param_array st))))
    by (rewrite length_select; congruence).
  mstep.
  rewrite (assign_all_exact _ (np.select idx (drop off (ties st))))
    by (rewrite length_select; congruence).
  done.
Qed.

Lemma lookup_fresh_param junk vals labels i :
  fresh_param junk vals labels !! i
  = (λ vl, {| value := vl.1; grad := junk i; tie := vl.2;
              constraint := None |}) <$> zip vals labels !! i.
Proof. unfold fresh_param. by rewrite list_lookup_imap. Qed.

Lemma fresh_param_ties junk vals labels :
  length vals = length labels → tie <$> fresh_param junk vals labels = labels.
Proof.
  intros Hlen. apply list_eq. intros i.
  rewrite list_lookup_fmap, lookup_fresh_param.
  rewrite <- (snd_zip vals labels) at 2 by lia.
  rewrite list_lookup_fmap. by destruct (zip vals labels !! i).
Qed.

Lemma fresh_param_values junk vals labels :
  length vals = length labels → value <$> fresh_param junk vals labels = vals.
Proof.
  intros Hlen. apply list_eq. intros i.
  rewrite list_lookup_fmap, lookup_fresh_param.
  rewrite <- (fst_zip vals labels) at 2 by lia.
  rewrite list_lookup_fmap. by destruct (zip vals labels !! i).
Qed.

Lemma length_fresh_param junk vals labels :
  length vals = length labels →
  length (fresh_param junk vals labels) = length labels.
Proof.
  intros. unfold fresh_param. rewrite length_imap, length_zip. lia.
Qed.

(** ** Pruning *)

Lemma filter_nil_neg (P : Z → Prop) `{∀ x, Decision (P x)} (T : list Z) :
  filter P T = [] → filter (λ t, ¬ P t) T = T.
Proof.
  induction T as [|t T IH]; [done|]. rewrite !filter_cons.
  destruct (decide (P t)); [done|]. intros HT.
  rewrite decide_True by done. f_equal. by apply IH.
Qed.

Lemma fmap_relabel_kept (P : Z → Prop) `{∀ x, Decision (P x)} (T : list Z) :
  (λ t, if decide (t ∈ filter P T) then 0 else t) <$> filter (λ t, ¬ P t) T
  = filter (λ t, ¬ P t) T.
Proof.
  rewrite <- (list_fmap_id (filter (λ t, ¬ P t) T)) at 2.
  apply list_fmap_ext. intros i x Hx%list_elem_of_lookup_2.
  apply list_elem_of_filter in Hx as [Hx _].
  rewrite decide_False; [done|]. by intros [? _]%list_elem_of_filter.
Qed.

Lemma zip_select {A B} (m : list bool) (a : list A) (b : list B) :
  zip (np.select m a) (np.select m b) = np.select m (zip a b).
Proof.
  revert a b. induction m as [|x m IH]; intros [|y a] [|z b]; try done.
  - simpl. by destruct x, (np.select m a).
  - simpl. destruct x; simpl; by rewrite IH.
Qed.

Lemma filter_zip_fst (P : Z → Prop) `{∀ x, Decision (P x)} {A}
    (T : list Z) (X : list A) :
  length T = length X →
  (filter (λ tx, P tx.1) (zip T X)).*1 = filter P T.
Proof.
  revert X. induction T as [|t T IH]; intros [|x X] Hlen; try done.
  simpl in Hlen. cbn [zip zip_with]. rewrite !filter_cons. simpl.
  destruct (decide (P t)); simpl; rewrite IH by lia; done.
Qed.

(** What pruning does to the store and to the labels of the tree. *)
Lemma prune_spec st k lb :
  tied_param st = Some k → (k ≤ length (tree st))%nat →
  label_buf st = Some lb →
  let pruned := λ l, (label_count lb l ≤ 2)%nat in
  let removed := filter pruned (slot_labels st) in
  ∃ st',
    _remove_unnecessary_ties st = Done tt st'
    ∧ zip (slot_labels st') (slot_values st')
      = filter (λ lv, ¬ pruned lv.1) (zip (slot_labels st) (slot_values st))
    ∧ slot_labels st' = filter (λ l, ¬ pruned l) (slot_labels st)
    ∧ raw_size st' = raw_size st
    ∧ (∀ p, (p < raw_size st)%nat →
         tree st' !! p
         = (λ c, set_tie (if decide (tie c ∈ removed) then 0 else tie c) c)
             <$> tree st !! p)
    ∧ (tied_param st' = None ↔ removed ≠ [] ∧ length removed = k)
    ∧ label_buf st' = label_buf st
    ∧ store_ok st' ∧ _PROPAGATE_VAL_ st' = _PROPAGATE_VAL_ st.
Proof.
  intros Htied Hk Hlb pruned removed.
  set (off := tied_offset st k).
  assert (HT : slot_labels st = drop off (ties st)).
  { unfold slot_labels. by rewrite Htied. }
  assert (HV : slot_values st = drop off (param_array st)).
  { unfold slot_values. by rewrite Htied. }
  assert (Hraw : raw_size st = off).
  { unfold raw_size. by rewrite Htied. }
  assert (HlT : length (slot_labels st) = k).
  { rewrite HT, length_drop. unfold ties, off, tied_offset.
    rewrite length_fmap. lia. }
  assert (HlV : length (slot_values st) = k).
  { rewrite HV, length_drop. unfold param_array, off, tied_offset.
    rewrite length_fmap. lia. }
  assert (Hstart : ∀ (cont : list Z → M unit),
            _remove_unnecessary_ties st
            = (if decide (0 < length removed)%nat
               then _remove_tie_param removed ;;
                    hp <- gets _highest_parent_ ;;
                    _replace_labels hp
                      (zip removed (replicate (length removed) 0))
               else ret tt) st).
  { intros _. unfold _remove_unnecessary_ties. mstep. rewrite Htied, Hlb.
    mstep. rewrite slice_tied by (done || unfold ties; by rewrite length_fmap).
    fold off. by rewrite <- HT. }
  rewrite (Hstart (λ _, ret tt)). clear Hstart.
  pose proof (length_filter_split pruned (slot_labels st)) as Hsplit.
  fold removed in Hsplit. rewrite HlT in Hsplit.
  destruct (decide (0 < length removed)%nat) as [Hpos|Hzero].
  2: { (* nothing to prune *)
    assert (Hnil : removed = []) by (destruct removed; [done|simpl in *; lia]).
    exists st. split_and!; [done| | | done | | |done | |done].
    - symmetry. clear -Hnil. unfold removed in Hnil.
      revert Hnil. generalize (slot_values st).
      induction (slot_labels st) as [|t T IH]; intros [|v V]; try done.
      rewrite filter_cons. destruct (decide (pruned t)); [done|].
      intros HT. cbn [zip zip_with]. rewrite filter_cons. simpl.
      rewrite decide_True by done. f_equal. by apply IH.
    - symmetry. by apply filter_nil_neg.
    - intros p Hp. destruct (tree st !! p) as [c|]; [simpl|done].
      rewrite Hnil. rewrite decide_False by apply not_elem_of_nil.
      by destruct c.
    - rewrite Htied. split; [done|]. by intros [? _].
    - unfold store_ok. by rewrite Htied. }
  set (relabel := λ c, set_tie (if decide (tie c ∈ removed) then 0 else tie c) c).
  assert (Hrep : ∀ st1,
            (hp <- gets _highest_parent_ ;;
             _replace_labels hp (zip removed (replicate (length removed) 0))) st1
            = Done tt (with_tree (relabel <$> tree st1) st1)).
  { intros st1. rewrite _replace_labels_root. do 2 f_equal.
    apply list_fmap_ext. intros i c _. unfold relabel.
    by rewrite replace_label_zero. }
  destruct (decide (length removed = k)) as [Hall|Hsome].
  - (* every slot is pruned *)
    rewrite (bind_eq _ _ _ _ _ (_remove_tie_param_all st k removed Htied Hall)).
    rewrite Hrep. set (st' := with_tree _ _). exists st'. split; [done|].
    assert (Hkept : filter (λ l, ¬ pruned l) (slot_labels st) = []).
    { apply length_zero_iff_nil. lia. }
    assert (HT' : slot_labels st' = []) by done.
    assert (HV' : slot_values st' = []) by done.
    split_and!.
    + rewrite HT', HV'. symmetry. apply length_zero_iff_nil.
      pose proof (filter_zip_fst (λ l, ¬ pruned l) (slot_labels st)
                    (slot_values st)) as Hf.
      cbv beta in Hf. rewrite <- (length_fmap fst), Hf by congruence.
      by rewrite Hkept.
    + by rewrite HT'.
    + unfold raw_size. simpl. rewrite Htied.
      rewrite length_fmap, length_take. fold off. unfold off, tied_offset. lia.
    + intros p Hp. simpl. rewrite list_lookup_fmap, lookup_take.
      fold off. rewrite Hraw in Hp. by rewrite decide_True.
    + split; [intros _|done]. split; [|done].
      intros Hn. rewrite Hn in Hpos. simpl in Hpos. lia.
    + done.
    + done.
    + done.
  - (* some slots remain *)
    assert (Hlt : (length removed < k)%nat) by lia.
    set (idx := negb <$> np.in1d (drop off (ties st)) removed).
    assert (Hidx : idx = negb <$> ((λ x, bool_decide (pruned x))
                                     <$> slot_labels st)).
    { unfold idx, removed. rewrite <- HT. by rewrite in1d_filter. }
    assert (HselT : np.select idx (drop off (ties st))
                    = filter (λ l, ¬ pruned l) (slot_labels st)).
    { rewrite <- HT, Hidx. apply select_negb_filter_self. }
    assert (Hcount : np.count_true idx = (k - length removed)%nat).
    { rewrite <- (length_select idx (drop off (ties st))).
      - rewrite HselT. lia.
      - rewrite <- HT, Hidx, !length_fmap. done. }
    rewrite (bind_eq _ _ _ _ _
               (_remove_tie_param_some st k removed Htied Hk Hlt Hcount)).
    rewrite Hrep. fold off. fold idx.
    set (n := (k - length removed)%nat).
    set (vals := np.select idx (drop off (param_array st))).
    set (labs := np.select idx (drop off (ties st))).
    set (st' := with_tree _ _). exists st'. split; [done|].
    assert (Hlv : length vals = length labs).
    { unfold vals, labs. rewrite !length_select; try done.
      - rewrite <- HT, Hidx, !length_fmap. done.
      - rewrite <- HV, Hidx, !length_fmap. congruence. }
    assert (Hll : length labs = n).
    { unfold labs. rewrite HselT. unfold n. lia. }
    assert (Hlto : length (take off (tree st)) = off).
    { rewrite length_take. unfold off, tied_offset. lia. }
    assert (Hoff' : tied_offset st' n = off).
    { unfold tied_offset. simpl.
      rewrite length_fmap, length_app, length_fresh_param by done. lia. }
    assert (HT' : slot_labels st' = filter (λ l, ¬ pruned l) (slot_labels st)).
    { change (slot_labels st') with (drop (tied_offset st' n) (ties st')).
      rewrite Hoff'. unfold ties. simpl tree.
      rewrite !fmap_app, drop_app_length' by (by rewrite !length_fmap).
      rewrite <- list_fmap_compose.
      rewrite (list_fmap_ext (tie ∘ relabel)
                 ((λ t, if decide (t ∈ removed) then 0 else t) ∘ tie)
                 _ (λ _ _ _, eq_refl)).
      rewrite list_fmap_compose, fresh_param_ties by done.
      unfold labs. rewrite HselT. apply fmap_relabel_kept. }
    assert (HV' : slot_values st' = vals).
    { change (slot_values st') with (drop (tied_offset st' n) (param_array st')).
      rewrite Hoff'. unfold param_array. simpl tree.
      rewrite !fmap_app, drop_app_length' by (by rewrite !length_fmap).
      rewrite <- list_fmap_compose.
      rewrite (list_fmap_ext (value ∘ relabel) value _ (λ _ _ _, eq_refl)).
      by rewrite fresh_param_values. }
    split_and!.
    + rewrite HT', HV', <- HselT. fold labs. unfold labs, vals.
      rewrite zip_select, <- HT, <- HV, Hidx.
      rewrite select_negb_filter
        by (by rewrite length_zip, HlT, HlV, Nat.min_id).
      clear. generalize (slot_values st).
      induction (slot_labels st) as [|t T IH]; intros [|v V]; try done.
      cbn [zip zip_with]. rewrite !filter_cons. simpl.
      destruct (decide (¬ pruned t)); simpl; by rewrite IH.
    + done.
    + change (raw_size st') with (tied_offset st' n). by rewrite Hoff'.
    + intros p Hp. simpl. rewrite list_lookup_fmap.
      rewrite lookup_app_l by lia. rewrite lookup_take.
      rewrite Hraw in Hp. by rewrite decide_True.
    + simpl. split; [done|]. intros [_ ?]. lia.
    + done.
    + unfold store_ok. simpl.
      rewrite length_fmap, length_app, length_fresh_param by done. lia.
    + done.
Qed.

(** C6.  Pruning, for a store that fits the tree and an existing label
    buffer: the slots removed are exactly those whose label occurs at most
    twice in the label buffer; the remaining slots keep label and value and
    their order; every raw position carrying a removed label is reset to
    label 0 and nothing else of a raw position changes; the store becomes
    empty exactly when some slot is removed and none remains. *)
Theorem remove_unnecessary_ties_spec st k lb :
  tied_param st = Some k → (k ≤ length (tree st))%nat →
  label_buf st = Some lb →
  let pruned := λ l, (label_count lb l ≤ 2)%nat in
  let removed := filter pruned (slot_labels st) in
  ∃ st',
    _remove_unnecessary_ties st = Done tt st'
    ∧ zip (slot_labels st') (slot_values st')
      = filter (λ lv, ¬ pruned lv.1) (zip (slot_labels st) (slot_values st))
    ∧ slot_labels st' = filter (λ l, ¬ pruned l) (slot_labels st)
    ∧ raw_size st' = raw_size st
    ∧ (∀ p, (p < raw_size st)%nat →
         tree st' !! p
         = (λ c, set_tie (if decide (tie c ∈ removed) then 0 else tie c) c)
             <$> tree st !! p)
    ∧ (tied_param st' = None ↔ removed ≠ [] ∧ length removed = k)
    ∧ label_buf st' = label_buf st.
Proof.
  intros Htied Hk Hlb pruned removed.
  destruct (prune_spec st k lb Htied Hk Hlb)
    as (st' & Hrun & Hzip & Hlabels & Hraw & Hcells & Hnone & Hbuf & _).
  exists st'. by split_and!.
Qed.

(** ** The change notification *)

Lemma collate_fold_same_but_grad lb off js t :
  Forall2 same_but_grad t (foldl (collate_step lb off) t js).
Proof.
  revert t. induction js as [|i js IH]; intros t; simpl.
  - apply same_but_grad_refl.
  - eapply same_but_grad_trans; [|apply IH].
    unfold collate_step. destruct (lb !! _).
    + apply alter_same_but_grad.
    + apply same_but_grad_refl.
Qed.

Lemma collate_gradient_eq st k lb :
  buffers_ok st k lb →
  ∃ t', collate_gradient st = Done tt (with_tree t' st)
        ∧ Forall2 same_but_grad (tree st) t'.
Proof.
  intros Hok. pose proof Hok as [Htied Hsize Hlb Hlen Hidx].
  set (t0 := update_leaf (λ _, set_grad (Qc_of_Z 0)) (tied_leaf st k) (tree st)).
  assert (Hlen0 : length t0 = length (tree st)) by apply length_update_leaf.
  assert (Hok0 : buffers_ok (with_tree t0 st) k lb)
    by by apply buffers_ok_with_tree.
  eexists. split.
  - unfold collate_gradient. mstep. rewrite Htied. mstep. fold t0.
    rewrite (collate_loop_eq _ k lb _ Hok0 (Forall_seq_lt k)).
    by rewrite with_tree_with_tree.
  - eapply same_but_grad_trans; [|apply collate_fold_same_but_grad]. simpl.
    apply Forall2_same_length_lookup_2; [done|].
    intros p c c' Hc. unfold t0. rewrite lookup_update_leaf, Hc. simpl.
    intros [= <-]. by case_decide.
Qed.

Lemma collate_gradient_None st :
  tied_param st = None → collate_gradient st = Done tt st.
Proof. intros H. unfold collate_gradient. mstep. by rewrite H. Qed.

Lemma _check_change_None st :
  tied_param st = None → _check_change st = Done false st.
Proof. intros H. unfold _check_change. mstep. by rewrite H. Qed.

Lemma buffers_ok_ext st st' k lb :
  buffers_ok st k lb → tree st' = tree st → tied_param st' = tied_param st →
  label_buf st' = label_buf st → buf_idx st' = buf_idx st →
  buffers_ok st' k lb.
Proof.
  intros [H1 H2 H3 H4 H5] Ht Htp Hl Hb. split.
  - congruence.
  - by rewrite Ht.
  - congruence.
  - by rewrite Ht.
  - unfold tied_offset in *. rewrite Ht. congruence.
Qed.

Lemma uniform_values lb l t t' :
  value <$> t' = value <$> t → uniform lb l t → uniform lb l t'.
Proof.
  intros Hv Hu p q c d Hp Hq Hc Hd.
  assert (Hvp : (value <$> t) !! p = Some (value c)).
  { by rewrite <- Hv, list_lookup_fmap, Hc. }
  assert (Hvq : (value <$> t) !! q = Some (value d)).
  { by rewrite <- Hv, list_lookup_fmap, Hd. }
  rewrite list_lookup_fmap in Hvp, Hvq.
  destruct (t !! p) as [c0|] eqn:Hc0; [|done].
  destruct (t !! q) as [d0|] eqn:Hd0; [|done].
  simpl in Hvp, Hvq. injection Hvp as <-. injection Hvq as <-.
  exact (Hu p q c0 d0 Hp Hq Hc0 Hd0).
Qed.

Lemma same_but_grad_values t t' :
  Forall2 same_but_grad t t' → value <$> t' = value <$> t.
Proof.
  induction 1 as [|c c' ? ? Hc _ IH]; [done|].
  destruct Hc as (Hv & _). rewrite !fmap_cons. by f_equal.
Qed.

Lemma same_but_grad_labels t t' :
  Forall2 same_but_grad t t' → Forall2 same_labels t t'.
Proof.
  induction 1 as [|c c' ? ? Hc _ IH]; constructor; [|done].
  by destruct Hc as (_ & ? & ?).
Qed.

Lemma same_but_value_labels t t' :
  Forall2 same_but_value t t' → Forall2 same_labels t t'.
Proof.
  induction 1 as [|c c' ? ? Hc _ IH]; constructor; [|done].
  by destruct Hc as (_ & ? & ?).
Qed.

Lemma same_labels_trans t1 t2 t3 :
  Forall2 same_labels t1 t2 → Forall2 same_labels t2 t3 →
  Forall2 same_labels t1 t3.
Proof.
  intros H12 H23. eapply Forall2_trans; [|done..].
  intros c1 c2 c3 (? & ?) (? & ?). split; congruence.
Qed.

Lemma same_labels_refl t : Forall2 same_labels t t.
Proof. apply Forall_Forall2_diag, list.Forall_forall. by intros c _. Qed.

Lemma same_labels_ties t t' : Forall2 same_labels t t' → tie <$> t' = tie <$> t.
Proof.
  induction 1 as [|c c' ? ? Hc _ IH]; [done|].
  destruct Hc as (Hv & _). rewrite !fmap_cons. by f_equal.
Qed.

(** The positions of a group that holds one value are not written by the
    change check. *)
Lemma check_fold_uniform_fixed lb off js acc l p :
  length lb = length acc.2 →
  uniform lb l acc.2 → lb !! p = Some l →
  (foldl (check_step lb off) acc js).2 !! p = acc.2 !! p.
Proof.
  revert acc. induction js as [|i js IH]; intros acc Hlen Hu Hp; [done|].
  simpl. rewrite IH.
  - unfold check_step.
    destruct (lb !! (off + i)%nat) as [li|] eqn:Hli; [|done].
    destruct ((value <$> acc.2) !! (off + i)%nat) as [ti|] eqn:Hti; [|done].
    simpl. destruct (decide (li = l)) as [->|Hne].
    + rewrite ndiff_0_paint; [done..|]. unfold target.
      assert (H0 : ndiff l ti lb (value <$> acc.2) = 0%nat).
      { apply ndiff_0_intro. intros q v Hq Hv.
        rewrite list_lookup_fmap in Hv, Hti.
        destruct (acc.2 !! q) as [c|] eqn:Hc; [|done].
        destruct (acc.2 !! (off + i)%nat) as [d|] eqn:Hd; [|done].
        simpl in Hv, Hti. injection Hv as <-. injection Hti as <-.
        exact (Hu q (off + i)%nat c d Hq Hli Hc Hd). }
      rewrite H0. by rewrite decide_False by lia.
    + by rewrite (paint_other_label li l).
  - by rewrite length_check_step.
  - by apply check_step_uniform.
  - done.
Qed.

Lemma with_PROPAGATE_VAL__id st : with_PROPAGATE_VAL_ (_PROPAGATE_VAL_ st) st = st.
Proof. by destruct st. Qed.

Lemma with_optimizer_copy_transformed_id st :
  with_optimizer_copy_transformed (_optimizer_copy_transformed st) st = st.
Proof. by destruct st. Qed.

Lemma parameters_changed_None d st :
  tied_param st = None →
  parameters_changed (S d) st = Done tt (with_PROPAGATE_VAL_ false st).
Proof.
  intros Hn. cbn [parameters_changed]. mstep.
  destruct (_PROPAGATE_VAL_ st) eqn:Hflag.
  - mstep. by rewrite collate_gradient_None.
  - rewrite bind_assoc.
    rewrite (bind_eq _ _ _ _ _ (_check_change_None st Hn)). mstep.
    rewrite collate_gradient_None by done.
    by rewrite <- Hflag, with_PROPAGATE_VAL__id.
Qed.

(** A notification that follows [propagate_val] is consumed: only the
    gradients are collated. *)
Lemma parameters_changed_flag d st k lb :
  buffers_ok st k lb → _PROPAGATE_VAL_ st = true →
  ∃ t', parameters_changed (S d) st
        = Done tt (with_tree t' (with_PROPAGATE_VAL_ false st))
        ∧ Forall2 same_but_grad (tree st) t'.
Proof.
  intros Hok Hflag. cbn [parameters_changed]. mstep. rewrite Hflag. mstep.
  destruct (collate_gradient_eq (with_PROPAGATE_VAL_ false st) k lb)
    as (t' & Heq & Hg); [by apply (buffers_ok_ext st)|].
  by exists t'.
Qed.

(** On a model whose groups hold one value each the notification only
    collates the gradients. *)
Lemma parameters_changed_consistent d st k lb :
  buffers_ok st k lb → _PROPAGATE_VAL_ st = false →
  consistent lb (tied_offset st k) k (tree st) →
  ∃ t', parameters_changed (S d) st = Done tt (with_tree t' st)
        ∧ Forall2 same_but_grad (tree st) t'.
Proof.
  intros Hok Hflag Hcons. cbn [parameters_changed]. mstep. rewrite Hflag.
  rewrite bind_assoc.
  rewrite (bind_eq _ _ _ _ _ (_check_change_idempotent st k lb Hok Hcons)).
  mstep. by apply (collate_gradient_eq _ k lb).
Qed.

(** The notification in general: the change check runs, a second
    notification follows when it corrected something, and the gradients are
    collated. *)
Lemma parameters_changed_check d st k lb :
  buffers_ok st k lb → _PROPAGATE_VAL_ st = false →
  ∃ t' b, parameters_changed (S (S d)) st
          = Done tt (with_optimizer_copy_transformed b (with_tree t' st))
    ∧ length t' = length (tree st)
    ∧ Forall2 same_labels (tree st) t'
    ∧ consistent lb (tied_offset st k) k t'
    ∧ (∀ l p, uniform lb l (tree st) → lb !! p = Some l →
         (value <$> t') !! p = (value <$> tree st) !! p).
Proof.
  intros Hok Hflag. pose proof (bo_len _ _ _ Hok) as Hlen.
  set (off := tied_offset st k).
  set (r := foldl (check_step lb off) (false, tree st) (seq 0 k)).
  assert (Hlr : length r.2 = length (tree st)).
  { unfold r. by rewrite length_check_fold. }
  assert (Hok1 : buffers_ok (with_tree r.2 st) k lb)
    by by apply buffers_ok_with_tree.
  assert (Hoff1 : ∀ s, tree s = r.2 → tied_offset s k = off).
  { intros s Hs. unfold off, tied_offset. by rewrite Hs, Hlr. }
  assert (Hcons : consistent lb off k r.2).
  { intros i l Hi Hl.
    apply (check_fold_consistent lb _ _ (false, tree st) i); try done.
    - apply elem_of_seq. lia.
    - pose proof (bo_size _ _ _ Hok). unfold off, tied_offset. lia. }
  assert (Hlab : Forall2 same_labels (tree st) r.2).
  { apply same_but_value_labels.
    by apply (check_fold_same_but_value lb _ _ (false, tree st)). }
  assert (Hfix : ∀ l p, uniform lb l (tree st) → lb !! p = Some l →
            (value <$> r.2) !! p = (value <$> tree st) !! p).
  { intros l p Hu Hp. rewrite !list_lookup_fmap. f_equal.
    by apply (check_fold_uniform_fixed lb off _ (false, tree st) l). }
  assert (Hfinish : ∀ s t2, tree s = t2 → buffers_ok s k lb →
            Forall2 same_but_grad r.2 t2 →
            ∃ t', collate_gradient s = Done tt (with_tree t' s)
              ∧ length t' = length (tree st)
              ∧ Forall2 same_labels (tree st) t'
              ∧ consistent lb off k t'
              ∧ (∀ l p, uniform lb l (tree st) → lb !! p = Some l →
                   (value <$> t') !! p = (value <$> tree st) !! p)).
  { intros s t2 Hs Hoks H2.
    destruct (collate_gradient_eq s k lb Hoks) as (t' & Heq & Hg).
    rewrite Hs in Hg.
    pose proof (same_but_grad_trans _ _ _ H2 Hg) as Hrt.
    exists t'. split_and!.
    - done.
    - apply Forall2_length in Hrt. congruence.
    - eapply same_labels_trans; [done|]. by apply same_but_grad_labels.
    - intros i l Hi Hl.
      apply (uniform_values lb l r.2); [by apply same_but_grad_values|].
      by apply (Hcons i).
    - intros l p Hu Hp. rewrite (same_but_grad_values _ _ Hrt).
      by apply (Hfix l). }
  cbn [parameters_changed]. mstep. rewrite Hflag.
  rewrite bind_assoc.
  rewrite (bind_eq _ _ _ _ _ (_check_change_eq st k lb Hok)).
  fold off. fold r. destruct r.1 eqn:Hch.
  - (* something was corrected: the tree is notified once more *)
    unfold _trigger_params_changed, notification.
    rewrite bind_assoc, bind_modify.
    set (s1 := with_optimizer_copy_transformed false (with_tree r.2 st)).
    assert (Hoks1 : buffers_ok s1 k lb) by by apply (buffers_ok_ext _ _ _ _ Hok1).
    assert (Hcons1 : consistent lb (tied_offset s1 k) k (tree s1)).
    { by rewrite (Hoff1 s1). }
    destruct (parameters_changed_consistent d s1 k lb Hoks1 Hflag Hcons1)
      as (t2 & Heq2 & H2).
    rewrite (bind_eq _ _ _ _ _ Heq2).
    destruct (Hfinish (with_tree t2 s1) t2) as (t' & Heq & Hrest);
      [done|apply buffers_ok_with_tree; [done|]|done|].
    { apply Forall2_length in H2. by rewrite <- H2. }
    exists t', false. by rewrite Heq.
  - mstep.
    destruct (Hfinish (with_tree r.2 st) r.2) as (t' & Heq & Hrest);
      [done|done|apply same_but_grad_refl|].
    exists t', (_optimizer_copy_transformed st). rewrite Heq. split; [|done].
    rewrite with_tree_with_tree.
    by rewrite <- (with_optimizer_copy_transformed_id (with_tree t' st)) at 1.
Qed.

Lemma update_model_true depth st :
  update_model (_parameters_changed_notification depth) true st
  = parameters_changed depth
      (with_optimizer_copy_transformed false (with_updates true st)).
Proof. reflexivity. Qed.

(** ** Resuming the recompute *)

Lemma resume_None depth st :
  tied_param st = None →
  update_model (_parameters_changed_notification (S depth)) true st
  = Done tt (with_PROPAGATE_VAL_ false
               (with_optimizer_copy_transformed false (with_updates true st))).
Proof. intros Hn. rewrite update_model_true. by apply parameters_changed_None. Qed.

Lemma resume_spec d st k lb :
  buffers_ok st k lb →
  ∃ st', update_model (_parameters_changed_notification (S (S d))) true st
         = Done tt st'
    ∧ tied_param st' = tied_param st ∧ label_buf st' = label_buf st
    ∧ buf_idx st' = buf_idx st ∧ np_empty st' = np_empty st
    ∧ length (tree st') = length (tree st)
    ∧ Forall2 same_labels (tree st) (tree st')
    ∧ (∀ l p, uniform lb l (tree st) → lb !! p = Some l →
         (value <$> tree st') !! p = (value <$> tree st) !! p)
    ∧ (_PROPAGATE_VAL_ st = false →
         consistent lb (tied_offset st k) k (tree st'))
    ∧ (_PROPAGATE_VAL_ st = true ∨ consistent lb (tied_offset st k) k (tree st) →
         value <$> tree st' = value <$> tree st).
Proof.
  intros Hok. rewrite update_model_true.
  set (s := with_optimizer_copy_transformed false (with_updates true st)).
  assert (Hoks : buffers_ok s k lb) by by apply (buffers_ok_ext st).
  destruct (_PROPAGATE_VAL_ st) eqn:Hflag.
  - destruct (parameters_changed_flag (S d) s k lb Hoks Hflag) as (t' & -> & Hg).
    eexists. split; [done|]. simpl. split_and!; try done.
    + apply Forall2_length in Hg. by rewrite <- Hg.
    + by apply same_but_grad_labels.
    + intros l p _ _. by rewrite (same_but_grad_values _ _ Hg).
    + intros _. by apply same_but_grad_values.
  - destruct (parameters_changed_check d s k lb Hoks Hflag)
      as (t' & b & Heq & Hlen & Hlab & Hcons & Hfix).
    eexists. split; [exact Heq|]. simpl. split_and!; try done.
    intros [?|Hc]; [done|].
    destruct (parameters_changed_consistent (S d) s k lb Hoks Hflag Hc)
      as (t2 & Heq2 & Hg).
    rewrite Heq2 in Heq. injection Heq as Heq _. subst t2.
    by apply same_but_grad_values.
Qed.

(** ** The steps of the public operations *)

Lemma for_each_ext {A S} (body body' : A → S → M S) l s st :
  (∀ a s st, body a s st = body' a s st) →
  for_each body l s st = for_each body' l s st.
Proof.
  intros Hext. revert s st. induction l as [|a l IH]; intros s st; [done|].
  simpl. unfold bind. rewrite Hext. by destruct (body' a s st).
Qed.

Lemma for_each_modify_tree {A} (g : A → list Cell → list Cell) l st :
  for_each (λ x (_ : unit), modify (λ st, with_tree (g x (tree st)) st)) l tt st
  = Done tt (with_tree (foldl (λ t x, g x t) (tree st) l) st).
Proof.
  revert st. induction l as [|a l IH]; intros st; simpl.
  - by rewrite with_tree_id.
  - rewrite bind_modify, IH. by simpl.
Qed.

Lemma concat_fmap_flat_map {A B} (f : A → list B) (l : list A) :
  concat (f <$> l) = flat_map f l.
Proof.
  induction l as [|a l IH]; [done|].
  rewrite fmap_cons. simpl concat. simpl flat_map. by rewrite IH.
Qed.

Lemma _get_labels_eq plist st :
  flat_map leaves plist ≠ [] →
  _get_labels plist st
  = Done (np.unique (flat_map (λ x, slice x (ties st)) (flat_map leaves plist)))
         st.
Proof.
  intros Hne. unfold _get_labels.
  erewrite bind_eq by (rewrite for_each_traverse; apply collect_slices).
  simpl app. rewrite <- (concat_fmap_flat_map (λ x, slice x (ties st))).
  by destruct (flat_map leaves plist).
Qed.

Lemma node_arrays_concat {A} (plist : list Node) (l : list A) :
  concat ((λ p, node_array p l) <$> plist)
  = flat_map (λ x, slice x l) (flat_map leaves plist).
Proof.
  induction plist as [|p plist IH]; [done|].
  rewrite fmap_cons. simpl concat. rewrite IH. unfold node_array.
  simpl flat_map. by rewrite flat_map_app.
Qed.

Lemma _sync_val_group_eq plist st :
  plist ≠ [] →
  let val := np.mean (flat_map (λ x, slice x (param_array st))
                               (flat_map leaves plist)) in
  _sync_val_group plist st
  = Done val (with_tree (paint_leaves (set_value val) (flat_map leaves plist)
                                      (tree st)) st).
Proof.
  intros Hne val. unfold _sync_val_group. mstep.
  assert (Hstack : np.hstack ((λ p, node_array p (param_array st)) <$> plist)
                   = Val (concat ((λ p, node_array p (param_array st)) <$> plist))).
  { by destruct plist. }
  rewrite Hstack. mstep. rewrite node_arrays_concat. fold val.
  erewrite bind_eq; [done|].
  rewrite for_each_traverse. apply for_each_modify_tree.
Qed.

Lemma _set_labels_single plist l st :
  _set_labels plist [l] st
  = Done tt (with_tree (paint_leaves (set_tie l) (flat_map leaves plist)
                                     (tree st)) st).
Proof.
  unfold _set_labels. rewrite decide_True by done.
  rewrite for_each_traverse.
  rewrite (for_each_ext _
             (λ x (_ : unit), modify (λ st,
                with_tree (update_leaf (λ _, set_tie l) x (tree st)) st)))
    by done.
  apply for_each_modify_tree.
Qed.

(** Reading the tree after [paint_leaves]. *)
Lemma lookup_paint_leaves f ls t p :
  (∀ c, f (f c) = f c) →
  paint_leaves f ls t !! p
  = (λ c, if covered_dec ls p then f c else c) <$> t !! p.
Proof.
  intros Hf. unfold paint_leaves. revert t.
  induction ls as [|x ls IH]; intros t; simpl.
  - destruct (t !! p); [simpl|done]. destruct (covered_dec [] p) as [Hc|]; [|done].
    by apply Exists_nil in Hc.
  - rewrite IH, lookup_update_leaf. destruct (t !! p) as [c|]; [simpl|done].
    f_equal. destruct (covered_dec ls p) as [Hc|Hc].
    + destruct (covered_dec (x :: ls) p) as [|Hn].
      * case_decide; [apply Hf|done].
      * destruct Hn. by right.
    + case_decide as Hx.
      * destruct (covered_dec (x :: ls) p) as [|Hn]; [done|].
        destruct Hn. by left.
      * destruct (covered_dec (x :: ls) p) as [Hc'|]; [|done].
        apply Exists_cons in Hc' as [?|?]; done.
Qed.

Lemma length_paint_leaves f ls t : length (paint_leaves f ls t) = length t.
Proof.
  unfold paint_leaves. revert t. induction ls as [|x ls IH]; intros t; [done|].
  simpl. by rewrite IH, length_update_leaf.
Qed.

(** ** Constraint synchronisation touches constraints only *)

Section tree_only.
Context (R : Cell → Cell → Prop).
Context (R_refl : ∀ c, R c c) (R_trans : ∀ c1 c2 c3, R c1 c2 → R c2 c3 → R c1 c3).

Lemma tree_only_ret {A} (a : A) : tree_only R (ret a).
Proof.
  intros st. exists a, (tree st). rewrite with_tree_id. split; [done|].
  apply Forall_Forall2_diag, list.Forall_forall. by intros c _.
Qed.

Lemma tree_only_gets {A} (f : Model → A) : tree_only R (gets f).
Proof.
  intros st. exists (f st), (tree st). rewrite with_tree_id. split; [done|].
  apply Forall_Forall2_diag, list.Forall_forall. by intros c _.
Qed.

Lemma tree_only_bind {A B} (m : M A) (k : A → M B) :
  tree_only R m → (∀ a, tree_only R (k a)) → tree_only R (bind m k).
Proof.
  intros Hm Hk st. destruct (Hm st) as (a & t1 & Heq1 & H1).
  destruct (Hk a (with_tree t1 st)) as (b & t2 & Heq2 & H2).
  exists b, t2. rewrite (bind_eq _ _ _ _ _ Heq1), Heq2. split; [done|].
  eapply Forall2_trans; [apply R_trans|done..].
Qed.

Lemma tree_only_for_each {A S} (body : A → S → M S) l s :
  (∀ a s, tree_only R (body a s)) → tree_only R (for_each body l s).
Proof.
  intros Hb. revert s. induction l as [|a l IH]; intros s; simpl.
  - apply tree_only_ret.
  - apply tree_only_bind; [apply Hb|apply IH].
Qed.

Lemma tree_only_update_leaf (f : Cell → Cell) x :
  (∀ c, R c (f c)) →
  tree_only R (modify (λ st, with_tree (update_leaf (λ _, f) x (tree st)) st)).
Proof.
  intros Hf st. eexists tt, _. split; [done|].
  apply Forall2_same_length_lookup_2; [by rewrite length_update_leaf|].
  intros p c c' Hc. rewrite lookup_update_leaf, Hc. simpl.
  intros [= <-]. by case_decide.
Qed.

End tree_only.

Lemma same_but_constraint_refl c : same_but_constraint c c.
Proof. done. Qed.

Lemma same_but_constraint_trans c1 c2 c3 :
  same_but_constraint c1 c2 → same_but_constraint c2 c3 →
  same_but_constraint c1 c3.
Proof. intros (? & ? & ?) (? & ? & ?). repeat split; congruence. Qed.

Lemma tree_only_constrain p c : tree_only same_but_constraint (constrain p c).
Proof.
  unfold constrain. apply tree_only_for_each.
  - apply same_but_constraint_refl.
  - apply same_but_constraint_trans.
  - intros x []. by apply tree_only_update_leaf.
Qed.

Lemma tree_only__sync_constraint_group plist hastie tie_con :
  tree_only same_but_constraint (_sync_constraint_group plist hastie tie_con).
Proof.
  pose proof same_but_constraint_refl as Hr.
  pose proof same_but_constraint_trans as Ht.
  unfold _sync_constraint_group. apply tree_only_bind; [done| |].
  - destruct hastie; [by apply tree_only_ret|].
    apply tree_only_bind; [done| |intros; by apply tree_only_ret].
    apply tree_only_for_each; [done..|]. intros p cons.
    apply tree_only_bind; [done|by apply tree_only_gets|].
    intros cs. by apply tree_only_ret.
  - intros [c|].
    + apply tree_only_bind; [done| |intros; by apply tree_only_ret].
      apply tree_only_for_each; [done..|]. intros p [].
      apply tree_only_bind; [done|by apply tree_only_gets|].
      intros cs. case_decide; [apply tree_only_constrain|by apply tree_only_ret].
    + apply tree_only_bind; [done| |intros; by apply tree_only_ret].
      destruct hastie; [|by apply tree_only_ret].
      apply tree_only_for_each; [done..|]. intros p [].
      apply tree_only_constrain.
Qed.

(** ** Growing the store, rebuilding the buffers, writing slots *)

Lemma _expand_tie_param_None st :
  tied_param st = None →
  _expand_tie_param 1 st
  = Done ([1], [0%nat])
         (with_tied (tree st ++ [ {| value := np_empty st 0; grad := np_empty st 0;
                                     tie := 1; constraint := None |} ])
                    (Some 1%nat) st).
Proof. intros Hn. unfold _expand_tie_param. mstep. by rewrite Hn. Qed.

Lemma _expand_tie_param_Some st k x rest :
  tied_param st = Some k → (k ≤ length (tree st))%nat →
  slot_labels st = x :: rest →
  let L := max_of x rest + 1 in
  _expand_tie_param 1 st
  = Done ([L], [k])
         (with_tied (take (tied_offset st k) (tree st)
                     ++ fresh_param (np_empty st)
                          (slot_values st ++ [np_empty st k])
                          (slot_labels st ++ [L]))
                    (Some (k + 1)%nat) st).
Proof.
  intros Htied Hk Hl L. unfold _expand_tie_param. mstep. rewrite Htied.
  rewrite !slice_tied by (done || unfold ties, param_array; by rewrite length_fmap).
  unfold slot_labels, slot_values in *. rewrite Htied in *. rewrite Hl.
  mstep. unfold range. simpl. mstep. change (Z.of_nat 0) with 0.
  by rewrite Z.add_0_r.
Qed.

Lemma _update_label_buf_None st :
  tied_param st = None →
  _update_label_buf st = Done tt (with_buffers None None None st).
Proof. intros Hn. unfold _update_label_buf. mstep. by rewrite Hn. Qed.

Lemma _update_label_buf_Some st k :
  tied_param st = Some k → (k ≤ length (tree st))%nat →
  Forall (λ l, 0 < l) (slot_labels st) →
  ∃ un, _update_label_buf st
        = Done tt (with_buffers (Some (np.uint32 <$> ties st))
                                (Some (seq (tied_offset st k) k)) (Some un) st).
Proof.
  intros Htied Hk Hpos. unfold _update_label_buf. mstep. rewrite Htied.
  mstep. unfold np.put_idx. rewrite decide_True; cycle 1.
  { apply list.Forall_forall. intros i Hi%elem_of_seq.
    unfold ties. rewrite !length_fmap. simpl in Hi. unfold tied_offset in *.
    lia. }
  rewrite slice_tied by (done || unfold ties; by rewrite length_fmap).
  unfold slot_labels in Hpos. rewrite Htied in Hpos.
  destruct (decide (length [true] = length (_raveled_index_for (tied_leaf st k))));
    mstep; rewrite decide_True by done; by eexists.
Qed.

Lemma buffers_ok_updated st k un :
  tied_param st = Some k → (k ≤ length (tree st))%nat →
  buffers_ok (with_buffers (Some (np.uint32 <$> ties st))
                           (Some (seq (tied_offset st k) k)) (Some un) st)
             k (np.uint32 <$> ties st).
Proof.
  intros Htied Hk. split; simpl; try done.
  unfold ties. by rewrite !length_fmap.
Qed.

Lemma zip_with_tie_mask (f : Cell → Cell) l (t : list Cell) :
  zip_with (λ (b : bool) c, if b then f c else c)
           ((λ x, bool_decide (x = l)) <$> (tie <$> t)) t
  = (λ c, if bool_decide (tie c = l) then f c else c) <$> t.
Proof.
  induction t as [|c t IH]; [done|]. rewrite !fmap_cons. simpl. by f_equal.
Qed.

Lemma tied_mask_update_eq f l st k :
  tied_param st = Some k → (k ≤ length (tree st))%nat →
  tied_mask_update f (tied_tie_eq l) st
  = Done tt (with_tree (paint_slots f l (tied_offset st k) (tree st)) st).
Proof.
  intros Htied Hk. unfold tied_mask_update. mstep. rewrite Htied.
  unfold tied_tie_eq. rewrite slice_tied by (done || unfold ties; by rewrite length_fmap).
  unfold np.mask_update. rewrite decide_True; cycle 1.
  { unfold ties. by rewrite length_fmap, !length_drop, length_fmap. }
  mstep. unfold paint_slots, ties.
  by rewrite <- fmap_drop, zip_with_tie_mask.
Qed.

Lemma lookup_paint_slots f l off t p :
  paint_slots f l off t !! p
  = (λ c, if bool_decide ((off ≤ p)%nat ∧ tie c = l) then f c else c) <$> t !! p.
Proof.
  unfold paint_slots. destruct (decide (p < off)%nat) as [Hp|Hp].
  - destruct (decide (off ≤ length t)%nat).
    + rewrite lookup_app_l by (rewrite length_take; lia).
      rewrite lookup_take, decide_True by done.
      destruct (t !! p); [simpl|done]. by rewrite bool_decide_false by lia.
    + rewrite take_ge, drop_ge by lia. simpl. rewrite app_nil_r.
      destruct (t !! p); [simpl|done]. by rewrite bool_decide_false by lia.
  - destruct (decide (off ≤ length t)%nat).
    + rewrite lookup_app_r by (rewrite length_take; lia).
      rewrite length_take, Nat.min_l by lia.
      rewrite list_lookup_fmap, lookup_drop.
      replace (off + (p - off))%nat with p by lia.
      destruct (t !! p); [simpl|done]. f_equal.
      case_bool_decide; case_bool_decide; try done; [|tauto].
      destruct H0. split; [lia|done].
    + rewrite take_ge, drop_ge by lia. simpl. rewrite app_nil_r.
      by rewrite (lookup_ge_None_2 t) by lia.
Qed.

Lemma length_paint_slots f l off t : length (paint_slots f l off t) = length t.
Proof.
  unfold paint_slots. rewrite length_app, length_fmap, length_take, length_drop.
  lia.
Qed.

(** ** Tying leaves that were not tied before *)

Lemma length_slot_labels st k :
  tied_param st = Some k → (k ≤ length (tree st))%nat →
  length (slot_labels st) = k.
Proof.
  intros Htied Hk. unfold slot_labels. rewrite Htied, length_drop.
  unfold ties, tied_offset. rewrite length_fmap. lia.
Qed.

Lemma length_slot_values st k :
  tied_param st = Some k → (k ≤ length (tree st))%nat →
  length (slot_values st) = k.
Proof.
  intros Htied Hk. unfold slot_values. rewrite Htied, length_drop.
  unfold param_array, tied_offset. rewrite length_fmap. lia.
Qed.

Lemma raw_size_le st : store_ok st → (raw_size st ≤ length (tree st))%nat.
Proof.
  unfold store_ok, raw_size, tied_offset. destruct (tied_param st); lia.
Qed.

Lemma raw_size_length st :
  store_ok st →
  length (tree st) = (raw_size st + length (slot_labels st))%nat.
Proof.
  unfold store_ok, raw_size. intros Hs.
  destruct (tied_param st) as [k|] eqn:Htied.
  - rewrite (length_slot_labels st k) by done. unfold tied_offset. lia.
  - unfold slot_labels. rewrite Htied. simpl. lia.
Qed.

(** The store grows by one slot with the next label. *)
Lemma _expand_tie_param_1 st :
  store_ok st → tied_param st ≠ Some 0%nat →
  let n := length (slot_labels st) in
  _expand_tie_param 1 st
  = Done ([fresh_label st], [n])
         (with_tied (take (raw_size st) (tree st)
                     ++ fresh_param (np_empty st)
                          (slot_values st ++ [np_empty st n])
                          (slot_labels st ++ [fresh_label st]))
                    (Some (n + 1)%nat) st).
Proof.
  intros Hs Hn0 n. unfold store_ok in Hs.
  destruct (tied_param st) as [k|] eqn:Htied.
  - assert (Hn : n = k) by by apply length_slot_labels.
    destruct (slot_labels st) as [|x rest] eqn:Hl.
    { unfold n in Hn. simpl in Hn. by subst k. }
    rewrite (_expand_tie_param_Some st k x rest Htied Hs Hl).
    unfold fresh_label, raw_size. rewrite Htied, Hl. by rewrite Hn.
  - rewrite (_expand_tie_param_None st Htied).
    unfold n, fresh_label, raw_size, slot_labels, slot_values.
    rewrite Htied. simpl. by rewrite take_ge by lia.
Qed.

Lemma max_of_ge x a l : l ∈ x :: a → l ≤ max_of x a.
Proof.
  unfold max_of. induction a as [|y a IH]; simpl.
  - intros ->%list_elem_of_singleton. lia.
  - intros [->|[->|Hl]%elem_of_cons]%elem_of_cons.
    + assert (x ≤ foldr Z.max x a) by (apply IH; by left). lia.
    + lia.
    + assert (l ≤ foldr Z.max x a) by (apply IH; by right). lia.
Qed.

Lemma fresh_label_gt st l : l ∈ slot_labels st → l < fresh_label st.
Proof.
  unfold fresh_label. destruct (slot_labels st) as [|x rest].
  - by intros ?%elem_of_nil.
  - intros Hl%max_of_ge. lia.
Qed.

Lemma fresh_label_range st :
  Forall (λ l, 0 < l < 2 ^ 32 - 1) (slot_labels st) →
  0 < fresh_label st < 2 ^ 32.
Proof.
  intros Hr. unfold fresh_label.
  destruct (slot_labels st) as [|x rest] eqn:Hl; [lia|].
  assert (Hin : max_of x rest ∈ x :: rest).
  { clear. unfold max_of. induction rest as [|y rest IH]; simpl; [by left|].
    destruct (Z.max_spec y (foldr Z.max x rest)) as [[_ ->]|[_ ->]].
    - apply elem_of_cons in IH as [IH|IH]; [rewrite IH; by left|].
      by right; right.
    - by right; left. }
  rewrite list.Forall_forall in Hr. specialize (Hr _ Hin). lia.
Qed.

Lemma fmap_update_leaf_same {B} (proj : Cell → B) f x t :
  (∀ c, proj (f c) = proj c) →
  proj <$> update_leaf (λ _, f) x t = proj <$> t.
Proof.
  intros Hf. apply list_eq. intros p.
  rewrite !list_lookup_fmap, lookup_update_leaf.
  destruct (t !! p); [simpl|done]. by case_decide; rewrite ?Hf.
Qed.

Lemma fmap_paint_leaves_same {B} (proj : Cell → B) f ls t :
  (∀ c, proj (f c) = proj c) →
  proj <$> paint_leaves f ls t = proj <$> t.
Proof.
  intros Hf. unfold paint_leaves. revert t.
  induction ls as [|x ls IH]; intros t; [done|]. simpl.
  by rewrite IH, fmap_update_leaf_same.
Qed.

Lemma lookup_cover_with {A} ls (v : A) xs p :
  cover_with ls v xs !! p
  = (λ x, if covered_dec ls p then v else x) <$> xs !! p.
Proof. unfold cover_with. by rewrite list_lookup_imap. Qed.

Lemma length_cover_with {A} ls (v : A) xs :
  length (cover_with ls v xs) = length xs.
Proof. unfold cover_with. by rewrite length_imap. Qed.

Lemma fmap_paint_leaves_const {B} (proj : Cell → B) f v ls t :
  (∀ c, proj (f c) = v) → (∀ c, f (f c) = f c) →
  proj <$> paint_leaves f ls t = cover_with ls v (proj <$> t).
Proof.
  intros Hv Hf. apply list_eq. intros p.
  rewrite list_lookup_fmap, lookup_paint_leaves, lookup_cover_with by done.
  rewrite list_lookup_fmap. destruct (t !! p); [simpl|done].
  by destruct (covered_dec ls p); rewrite ?Hv.
Qed.

(** Leaves that lie below [n] do not reach the entries from [n] on. *)
Lemma cover_with_app {A} ls (v : A) xs ys :
  Forall (λ x, (offset x + size x ≤ length xs)%nat) ls →
  cover_with ls v (xs ++ ys) = cover_with ls v xs ++ ys.
Proof.
  intros Hls. apply list_eq. intros p.
  rewrite lookup_cover_with.
  destruct (decide (p < length xs)%nat) as [Hp|Hp].
  - rewrite !lookup_app_l by (rewrite ?length_cover_with; lia).
    by rewrite lookup_cover_with.
  - rewrite !lookup_app_r by (rewrite ?length_cover_with; lia).
    rewrite length_cover_with. destruct (ys !! _); [simpl|done].
    destruct (covered_dec ls p) as [Hc|]; [|done].
    apply Exists_exists in Hc as (x & Hx & Hin).
    rewrite Forall_forall in Hls. specialize (Hls x Hx). lia.
Qed.

Lemma cover_with_take {A} ls (v : A) xs n :
  take n (cover_with ls v xs) = cover_with ls v (take n xs).
Proof.
  apply list_eq. intros p.
  rewrite lookup_take, !lookup_cover_with, lookup_take. by case_decide.
Qed.

Lemma same_but_constraint_ties t t' :
  Forall2 same_but_constraint t t' → tie <$> t' = tie <$> t.
Proof.
  induction 1 as [|c c' ? ? Hc _ IH]; [done|].
  destruct Hc as (_ & _ & ?). rewrite !fmap_cons. by f_equal.
Qed.

Lemma same_but_constraint_values t t' :
  Forall2 same_but_constraint t t' → value <$> t' = value <$> t.
Proof.
  induction 1 as [|c c' ? ? Hc _ IH]; [done|].
  destruct Hc as (? & _ & _). rewrite !fmap_cons. by f_equal.
Qed.

Lemma fmap_paint_slots_same {B} (proj : Cell → B) f l off t :
  (∀ c, proj (f c) = proj c) →
  proj <$> paint_slots f l off t = proj <$> t.
Proof.
  intros Hf. apply list_eq. intros p.
  rewrite !list_lookup_fmap, lookup_paint_slots.
  destruct (t !! p); [simpl|done]. by case_bool_decide; rewrite ?Hf.
Qed.

(** ** [tie_together] on leaves that are not tied *)

Lemma elem_of_slice {A} x (l : list A) v :
  v ∈ slice x l
  ↔ ∃ p, (offset x ≤ p < offset x + size x)%nat ∧ l !! p = Some v.
Proof.
  unfold slice. rewrite list_elem_of_lookup. split.
  - intros (i & Hi). apply lookup_take_Some in Hi as [Hi Hlt].
    rewrite lookup_drop in Hi. exists (offset x + i)%nat. split; [lia|done].
  - intros (p & Hp & Hl). exists (p - offset x)%nat.
    apply lookup_take_Some. split; [|lia]. rewrite lookup_drop.
    by replace (offset x + (p - offset x))%nat with p by lia.
Qed.

Lemma unique_zeros l : l ≠ [] → Forall (λ x, x = 0) l → np.unique l = [0].
Proof.
  induction l as [|a l IH]; [done|]. intros _ Hall.
  apply Forall_cons_1 in Hall as [-> Hall].
  unfold np.unique. simpl. fold (np.unique l).
  destruct l as [|b l]; [done|]. by rewrite IH.
Qed.

Lemma slot_labels_drop st :
  store_ok st → slot_labels st = drop (raw_size st) (ties st).
Proof.
  unfold store_ok, slot_labels, raw_size. destruct (tied_param st); [done|].
  intros _. rewrite drop_ge; [done|]. unfold ties. by rewrite length_fmap.
Qed.

Lemma slot_values_drop st :
  store_ok st → slot_values st = drop (raw_size st) (param_array st).
Proof.
  unfold store_ok, slot_values, raw_size. destruct (tied_param st); [done|].
  intros _. rewrite drop_ge; [done|]. unfold param_array. by rewrite length_fmap.
Qed.

Lemma drop_cover_with {A} ls (v : A) xs n :
  Forall (λ x, (offset x + size x ≤ n)%nat) ls → (n ≤ length xs)%nat →
  drop n (cover_with ls v xs) = drop n xs.
Proof.
  intros Hls Hn. rewrite <- (take_drop n xs) at 1.
  rewrite cover_with_app.
  2: { rewrite length_take. eapply list.Forall_impl; [exact Hls|]. simpl. lia. }
  rewrite drop_app_length'; [done|]. rewrite length_cover_with, length_take. lia.
Qed.

Lemma paint_slots_rel (R : Cell → Cell → Prop) f l off t :
  (∀ c, R c c) → (∀ c, R c (f c)) → Forall2 R t (paint_slots f l off t).
Proof.
  intros Hrefl Hf. unfold paint_slots. rewrite <- (take_drop off t) at 1.
  apply Forall2_app.
  - apply Forall_Forall2_diag. apply list.Forall_forall. auto.
  - apply Forall2_fmap_r, Forall_Forall2_diag. apply list.Forall_forall.
    intros c _. simpl. by destruct (bool_decide _).
Qed.

(** The values after the slots labelled [l] have been given the value [v]. *)
Lemma values_paint_slots v l off t :
  value <$> paint_slots (set_value v) l off t
  = take off (value <$> t)
    ++ zip_with (λ (x : Z) (w : Qc), if bool_decide (x = l) then v else w)
                (drop off (tie <$> t)) (drop off (value <$> t)).
Proof.
  unfold paint_slots. rewrite fmap_app, fmap_take, <- !fmap_drop. f_equal.
  induction (drop off t) as [|c cs IH]; [done|]. simpl. f_equal; [|done].
  by case_bool_decide.
Qed.

Lemma zip_with_other_label (v : Qc) l ls vs :
  l ∉ ls → length ls = length vs →
  zip_with (λ (x : Z) (w : Qc), if bool_decide (x = l) then v else w) ls vs = vs.
Proof.
  revert vs. induction ls as [|x ls IH]; intros [|w vs] Hl Hlen; try done.
  simpl. apply not_elem_of_cons in Hl as [Hx Hl].
  rewrite bool_decide_eq_false_2 by done. f_equal. apply IH; [done|].
  simpl in Hlen. lia.
Qed.

Lemma elem_of_flat_map {A B} (f : A → list B) (l : list A) v :
  v ∈ flat_map f l ↔ ∃ x, x ∈ l ∧ v ∈ f x.
Proof.
  rewrite list_elem_of_In, in_flat_map. split.
  - intros (x & Hx & Hv). exists x. by rewrite !list_elem_of_In.
  - intros (x & Hx & Hv). exists x. by rewrite <- !list_elem_of_In.
Qed.

(** The run of [tie_together] on untied leaves, up to the final resume of
    the model updates. *)
Lemma tie_together_fresh d plist st :
  wf st → valid_plist st plist →
  let ls := flat_map leaves plist in
  (∃ p, covered ls p) →
  (∀ p c, covered ls p → tree st !! p = Some c → tie c = 0) →
  let L := fresh_label st in
  let val := group_mean st plist in
  let n := length (slot_labels st) in
  ∃ s, tie_together d plist st
       = update_model (_parameters_changed_notification d) true s
    ∧ tied_param s = Some (n + 1)%nat
    ∧ ties s = cover_with ls L (take (raw_size st) (ties st))
               ++ slot_labels st ++ [L]
    ∧ param_array s = cover_with ls val (take (raw_size st) (param_array st))
                      ++ slot_values st ++ [val]
    ∧ buffers_ok s (n + 1) (np.uint32 <$> ties s)
    ∧ _PROPAGATE_VAL_ s = _PROPAGATE_VAL_ st ∧ np_empty s = np_empty st.
Proof.
  intros [Hst Hne Hnd Hrg Hraw] Hval ls Hpos Hunt L val n.
  set (raw := raw_size st).
  pose proof (raw_size_length st Hst) as Hlen. fold raw n in Hlen.
  assert (HlT : length (ties st) = (raw + n)%nat).
  { unfold ties. by rewrite length_fmap. }
  assert (HlV : length (param_array st) = (raw + n)%nat).
  { unfold param_array. by rewrite length_fmap. }
  assert (HnV : length (slot_values st) = n).
  { rewrite slot_values_drop, length_drop by done. fold raw. lia. }
  assert (Hls : ls ≠ []).
  { destruct Hpos as [p Hp]. intros Hnil. rewrite Hnil in Hp.
    by apply Exists_nil in Hp. }
  assert (Hpl : plist ≠ []) by (intros ->; by apply Hls).
  assert (Hlabels : np.unique (flat_map (λ x, slice x (ties st)) ls) = [0]).
  { apply unique_zeros.
    - destruct Hpos as [p Hp]. apply list.Exists_exists in Hp as (x & Hx & Hp).
      unfold valid_plist in Hval. rewrite list.Forall_forall in Hval.
      specialize (Hval x Hx). fold raw in Hval.
      destruct (lookup_lt_is_Some_2 (ties st) p) as [v Hv]; [lia|].
      intros Hnil. assert (Hin : v ∈ flat_map (λ x, slice x (ties st)) ls).
      { apply elem_of_flat_map. exists x. split; [done|].
        apply elem_of_slice. eauto. }
      rewrite Hnil in Hin. by apply not_elem_of_nil in Hin.
    - apply list.Forall_forall. intros v Hv.
      apply elem_of_flat_map in Hv as (x & Hx & Hv).
      apply elem_of_slice in Hv as (p & Hp & Hv).
      unfold ties in Hv. rewrite list_lookup_fmap in Hv.
      destruct (tree st !! p) as [c|] eqn:Hc; [|done].
      injection Hv as <-. apply (Hunt p c); [|done].
      apply list.Exists_exists. by exists x. }
  unfold tie_together.
  rewrite (bind_eq _ _ _ _ _ (update_model_false _ st)).
  set (s1 := with_updates false st).
  rewrite (bind_eq _ _ _ _ _ (_get_labels_eq plist s1 Hls)).
  change (ties s1) with (ties st). fold ls. rewrite Hlabels.
  rewrite (bind_eq _ _ _ _ _ (_sync_val_group_eq plist s1 Hpl)).
  change (np.mean _) with val. fold ls.
  set (t2 := paint_leaves (set_value val) ls (tree s1)).
  set (s2 := with_tree t2 s1).
  assert (Hbelow : Forall (λ x, (offset x + size x ≤ raw)%nat) ls) by done.
  assert (Ht2 : tie <$> t2 = ties st).
  { unfold t2. by rewrite fmap_paint_leaves_same. }
  assert (Hv2 : value <$> t2 = cover_with ls val (param_array st)).
  { unfold t2. by rewrite (fmap_paint_leaves_const value _ val). }
  assert (Hl2 : length t2 = (raw + n)%nat).
  { unfold t2. by rewrite length_paint_leaves. }
  assert (Hst2 : store_ok s2).
  { unfold store_ok in *. change (tied_param s2) with (tied_param st).
    destruct (tied_param st); [|done]. change (tree s2) with t2. lia. }
  assert (Hraw2 : raw_size s2 = raw).
  { unfold raw, raw_size, tied_offset.
    change (tied_param s2) with (tied_param st). change (tree s2) with t2.
    destruct (tied_param st); lia. }
  assert (HT2 : slot_labels s2 = slot_labels st).
  { rewrite (slot_labels_drop s2 Hst2), (slot_labels_drop st Hst), Hraw2.
    unfold ties at 1.
    change (tree s2) with t2. by rewrite Ht2. }
  assert (HV2 : slot_values s2 = slot_values st).
  { rewrite (slot_values_drop s2 Hst2), (slot_values_drop st Hst), Hraw2.
    unfold param_array at 1.
    change (tree s2) with t2. rewrite Hv2. apply drop_cover_with; [done|lia]. }
  assert (HL2 : fresh_label s2 = L).
  { unfold L, fresh_label. by rewrite HT2. }
  change ([0] !! 0%nat) with (Some 0). mstep.
  rewrite decide_True by done. rewrite bind_assoc.
  rewrite (bind_eq _ _ _ _ _ (_expand_tie_param_1 s2 Hst2 Hne)).
  rewrite HT2, HV2, HL2, Hraw2. fold n.
  change (np_empty s2) with (np_empty st). change (tree s2) with t2.
  set (t3 := take raw t2 ++ fresh_param _ _ _).
  set (s3 := with_tied t3 _ s2).
  cbn [fst]. change ([L] !! 0%nat) with (Some L).
  assert (HlTs : length (slot_values st ++ [np_empty st n])
                 = length (slot_labels st ++ [L])).
  { rewrite !length_app. simpl. fold n. lia. }
  assert (Ht3 : tie <$> t3 = take raw (ties st) ++ slot_labels st ++ [L]).
  { unfold t3. by rewrite fmap_app, fmap_take, Ht2, fresh_param_ties. }
  assert (Hv3 : value <$> t3
                = cover_with ls val (take raw (param_array st))
                  ++ slot_values st ++ [np_empty st n]).
  { unfold t3. rewrite fmap_app, fmap_take, Hv2, fresh_param_values by done.
    by rewrite cover_with_take. }
  assert (Hl3 : length t3 = (raw + (n + 1))%nat).
  { unfold t3. rewrite length_app, length_take, length_fresh_param by done.
    rewrite length_app. simpl. fold n. lia. }
  rewrite bind_assoc.
  rewrite (bind_eq _ _ _ _ _ (_set_labels_single plist L s3)). fold ls.
  change (tree s3) with t3.
  set (t4 := paint_leaves (set_tie L) ls t3). set (s4 := with_tree t4 s3).
  assert (Hcov : ∀ A (v : A) xs ys, length xs = raw →
            cover_with ls v (xs ++ ys) = cover_with ls v xs ++ ys).
  { intros A v xs ys Hxs. apply cover_with_app. by rewrite Hxs. }
  assert (Ht4 : tie <$> t4
                = cover_with ls L (take raw (ties st)) ++ slot_labels st ++ [L]).
  { unfold t4. rewrite (fmap_paint_leaves_const tie _ L), Ht3 by done.
    apply Hcov. rewrite length_take. lia. }
  assert (Hv4 : value <$> t4 = value <$> t3).
  { unfold t4. by rewrite fmap_paint_leaves_same. }
  rewrite bind_assoc.
  destruct (tree_only__sync_constraint_group plist false None s4)
    as (tie_con & t5 & Hsync & Hsame5).
  rewrite (bind_eq _ _ _ _ _ Hsync). change (tree s4) with t4 in Hsame5.
  set (s5 := with_tree t5 s4).
  assert (Hl5 : length t5 = (raw + (n + 1))%nat).
  { rewrite <- (Forall2_length Hsame5). unfold t4.
    by rewrite length_paint_leaves. }
  assert (Hmatch : ∃ t6,
            match tie_con with
            | Some c =>
                t0 <- lift (of_option IndexError (Some L)) ;;
                tied_mask_update (set_constraint (Some c)) (tied_tie_eq t0)
            | None => ret tt
            end s5 = Done tt (with_tree t6 s5)
            ∧ Forall2 same_but_constraint t5 t6).
  { destruct tie_con as [c|].
    - mstep. rewrite (tied_mask_update_eq _ L s5 (n + 1)); [|done|].
      2: { change (tree s5) with t5. lia. }
      eexists. split; [done|]. apply paint_slots_rel; [|done].
      apply same_but_constraint_refl.
    - exists t5. split; [by rewrite <- (with_tree_id s5) at 1|].
      apply Forall_Forall2_diag. apply list.Forall_forall. intros c _.
      apply same_but_constraint_refl. }
  destruct Hmatch as (t6 & Hmatch & Hsame6).
  rewrite bind_assoc. rewrite (bind_eq _ _ _ _ _ Hmatch).
  mstep. set (s6 := with_tree t6 s5).
  assert (Hl6 : length t6 = (raw + (n + 1))%nat).
  { by rewrite <- (Forall2_length Hsame6). }
  assert (Ht6 : tie <$> t6
                = cover_with ls L (take raw (ties st)) ++ slot_labels st ++ [L]).
  { by rewrite (same_but_constraint_ties _ _ Hsame6),
               (same_but_constraint_ties _ _ Hsame5). }
  assert (Hv6 : value <$> t6
                = cover_with ls val (take raw (param_array st))
                  ++ slot_values st ++ [np_empty st n]).
  { by rewrite (same_but_constraint_values _ _ Hsame6),
               (same_but_constraint_values _ _ Hsame5), Hv4. }
  assert (Htp6 : tied_param s6 = Some (n + 1)%nat) by done.
  assert (Hk6 : (n + 1 ≤ length (tree s6))%nat).
  { change (tree s6) with t6. lia. }
  assert (Hoff6 : tied_offset s6 (n + 1) = raw).
  { unfold tied_offset. change (tree s6) with t6. lia. }
  assert (Hlc : ∀ A (v : A) xs, length xs = (raw + n)%nat →
            length (cover_with ls v (take raw xs)) = raw).
  { intros A v xs Hxs. rewrite length_cover_with, length_take. lia. }
  assert (HT6 : slot_labels s6 = slot_labels st ++ [L]).
  { unfold slot_labels at 1. rewrite Htp6, Hoff6. unfold ties.
    change (tree s6) with t6. rewrite Ht6.
    rewrite drop_app_length'; [done|]. symmetry. by apply Hlc. }
  assert (HLpos : 0 < L < 2 ^ 32) by (by apply fresh_label_range).
  assert (Hpos6 : Forall (λ l, 0 < l) (slot_labels s6)).
  { rewrite HT6. apply Forall_app. split.
    - eapply list.Forall_impl; [exact Hrg|]. simpl. lia.
    - apply Forall_singleton. lia. }
  destruct (_update_label_buf_Some s6 (n + 1) Htp6 Hk6 Hpos6) as [un Hun].
  rewrite (bind_eq _ _ _ _ _ Hun).
  set (s7 := with_buffers _ _ _ s6).
  change ([L] !! 0%nat) with (Some L). mstep.
  rewrite (bind_eq _ _ _ _ _ (tied_mask_update_eq (set_value val) L s7 (n + 1)
                                Htp6 Hk6)).
  change (tied_offset s7 (n + 1)) with (tied_offset s6 (n + 1)).
  rewrite Hoff6. change (tree s7) with t6.
  set (t8 := paint_slots (set_value val) L raw t6).
  set (s8 := with_tree t8 s7).
  exists s8. split; [done|]. split; [done|].
  assert (Ht8 : ties s8
                = cover_with ls L (take raw (ties st)) ++ slot_labels st ++ [L]).
  { unfold ties at 1. change (tree s8) with t8. unfold t8.
    by rewrite fmap_paint_slots_same. }
  split; [exact Ht8|]. split; [|split; [|done]].
  - unfold param_array at 1. change (tree s8) with t8. unfold t8.
    rewrite values_paint_slots, Ht6, Hv6.
    rewrite take_app_length' by (symmetry; by apply Hlc).
    rewrite !drop_app_length' by (symmetry; by apply Hlc).
    f_equal. rewrite zip_with_app by lia. simpl.
    rewrite bool_decide_eq_true_2 by done. f_equal.
    apply zip_with_other_label; [|lia].
    intros Hin. apply fresh_label_gt in Hin. fold L in Hin. lia.
  - apply buffers_ok_with_tree.
    + assert (Heq : ties s8 = ties s6).
      { rewrite Ht8. unfold ties. change (tree s6) with t6. by rewrite Ht6. }
      rewrite Heq. by apply buffers_ok_updated.
    + unfold t8. by rewrite length_paint_slots.
Qed.

Lemma uint32_small x : 0 ≤ x < 2 ^ 32 → np.uint32 x = x.
Proof. intros Hx. unfold np.uint32. by apply Z.mod_small. Qed.

(** An old label is not mistaken for the fresh one in the label buffer. *)
Lemma uint32_old_label st x :
  Forall (λ l, 0 < l < 2 ^ 32 - 1) (slot_labels st) →
  x = 0 ∨ x ∈ slot_labels st → np.uint32 x ≠ fresh_label st.
Proof.
  intros Hrg [->|Hx].
  - pose proof (fresh_label_range st Hrg). rewrite uint32_small; lia.
  - pose proof (fresh_label_gt st x Hx). rewrite list.Forall_forall in Hrg.
    specialize (Hrg x Hx). rewrite uint32_small; lia.
Qed.

(** [tie_together] on untied leaves: the leaves receive the fresh label, and
    the leaves and the slot of the new group hold the mean of the leaves'
    values. *)
Lemma tie_together_untied d plist st :
  wf st → valid_plist st plist →
  let ls := flat_map leaves plist in
  (∃ p, covered ls p) →
  (∀ p c, covered ls p → tree st !! p = Some c → tie c = 0) →
  let L := fresh_label st in
  let val := group_mean st plist in
  let n := length (slot_labels st) in
  ∃ st1, tie_together (S (S d)) plist st = Done tt st1
    ∧ tied_param st1 = Some (n + 1)%nat
    ∧ ties st1 = cover_with ls L (take (raw_size st) (ties st))
                 ++ slot_labels st ++ [L]
    ∧ (∀ p, covered ls p → param_array st1 !! p = Some val)
    ∧ param_array st1 !! (raw_size st + n)%nat = Some val.
Proof.
  intros Hwf Hval ls Hpos Hunt L val n.
  destruct (tie_together_fresh (S (S d)) plist st Hwf Hval Hpos Hunt)
    as (s & Hrun & Htp & Hties & Hvals & Hbuf & _ & _).
  fold ls L val n in Htp, Hties, Hvals, Hbuf.
  destruct Hwf as [Hst Hne Hnd Hrg Hraw].
  set (raw := raw_size st) in *.
  pose proof (raw_size_length st Hst) as Hlen. fold raw n in Hlen.
  assert (HlT : length (ties st) = (raw + n)%nat).
  { unfold ties. by rewrite length_fmap. }
  assert (HlV : length (param_array st) = (raw + n)%nat).
  { unfold param_array. by rewrite length_fmap. }
  assert (HnV : length (slot_values st) = n).
  { rewrite slot_values_drop, length_drop by done. fold raw. lia. }
  assert (HcT : length (cover_with ls L (take raw (ties st))) = raw).
  { rewrite length_cover_with, length_take. lia. }
  assert (HcV : length (cover_with ls val (take raw (param_array st))) = raw).
  { rewrite length_cover_with, length_take. lia. }
  assert (Hcovlt : ∀ p, covered ls p → (p < raw)%nat).
  { intros p Hp. apply list.Exists_exists in Hp as (x & Hx & Hp).
    unfold valid_plist in Hval. rewrite list.Forall_forall in Hval.
    specialize (Hval x Hx). fold raw in Hval. lia. }
  (* the values of the new group before the resume *)
  assert (Hcovv : ∀ p, covered ls p → param_array s !! p = Some val).
  { intros p Hp. pose proof (Hcovlt p Hp) as Hlt.
    rewrite Hvals, lookup_app_l by lia. rewrite lookup_cover_with.
    destruct (lookup_lt_is_Some_2 (take raw (param_array st)) p) as [v Hv].
    { rewrite length_take. lia. }
    rewrite Hv. simpl. by destruct (covered_dec ls p). }
  assert (Hslotv : param_array s !! (raw + n)%nat = Some val).
  { rewrite Hvals, lookup_app_r by lia. rewrite HcV.
    rewrite lookup_app_r by lia. rewrite HnV.
    by replace (raw + n - raw - n)%nat with 0%nat by lia. }
  assert (Hgroup : ∀ p, (np.uint32 <$> ties s) !! p = Some L →
            param_array s !! p = Some val).
  { intros p Hp. rewrite list_lookup_fmap, Hties in Hp.
    destruct (decide (p < raw)%nat) as [Hlt|Hge].
    - rewrite lookup_app_l, lookup_cover_with in Hp by lia.
      rewrite lookup_take_lt in Hp by done. unfold ties in Hp.
      rewrite list_lookup_fmap in Hp.
      destruct (tree st !! p) as [c|] eqn:Hc; [simpl in Hp|done].
      destruct (covered_dec ls p) as [Hcov|Hncov]; [by apply Hcovv|].
      injection Hp as Hp. exfalso. revert Hp. apply uint32_old_label; [done|].
      by apply (Hraw p c).
    - rewrite lookup_app_r, HcT in Hp by lia.
      destruct (decide (p - raw < n)%nat) as [Hlt|Hge'].
      + rewrite lookup_app_l in Hp by done.
        destruct (slot_labels st !! (p - raw)%nat) as [l|] eqn:Hl; [|done].
        injection Hp as Hp. exfalso. revert Hp.
        apply uint32_old_label; [done|]. right.
        by apply list_elem_of_lookup_2 in Hl.
      + rewrite lookup_app_r in Hp by (fold n; lia). fold n in Hp.
        destruct (p - raw - n)%nat as [|j] eqn:Hj; [|done].
        by replace p with (raw + n)%nat by lia. }
  destruct (resume_spec d s (n + 1) _ Hbuf)
    as (st1 & Hres & Htp1 & _ & _ & _ & Hlen1 & Hlab1 & Hframe & _ & _).
  exists st1. rewrite Hrun. split; [exact Hres|].
  split; [by rewrite Htp1|]. split.
  { rewrite <- Hties. unfold ties. by apply same_labels_ties. }
  assert (Huni : uniform (np.uint32 <$> ties s) L (tree s)).
  { intros p q c c' Hp Hq Hc Hc'.
    apply Hgroup in Hp, Hq. unfold param_array in Hp, Hq.
    rewrite list_lookup_fmap in Hp, Hq. rewrite Hc in Hp. rewrite Hc' in Hq.
    simpl in Hp, Hq. congruence. }
  assert (HLr : 0 < L < 2 ^ 32) by (by apply fresh_label_range).
  split.
  - intros p Hp. pose proof (Hcovlt p Hp) as Hlt.
    unfold param_array. rewrite (Hframe L p Huni); [by apply Hcovv|].
    rewrite list_lookup_fmap, Hties, lookup_app_l, lookup_cover_with by lia.
    destruct (lookup_lt_is_Some_2 (take raw (ties st)) p) as [v Hv].
    { rewrite length_take. lia. }
    rewrite Hv. simpl. destruct (covered_dec ls p); [|done].
    by rewrite uint32_small by lia.
  - unfold param_array. rewrite (Hframe L (raw + n)%nat Huni); [done|].
    rewrite list_lookup_fmap, Hties, lookup_app_r by lia. rewrite HcT.
    rewrite lookup_app_r by (fold n; lia). fold n.
    replace (raw + n - raw - n)%nat with 0%nat by lia. simpl.
    by rewrite uint32_small by lia.
Qed.

(** ** The mean-value scenario *)

Lemma wfb_wf st : wfb st = true → wf st.
Proof.
  unfold wfb. rewrite !andb_true_iff, !bool_decide_eq_true.
  intros ((((Hst & Hne) & Hnd) & Hrg) & Hraw). split; try done.
  - unfold store_ok, store_okb in *. destruct (tied_param st); [|done].
    by apply bool_decide_eq_true in Hst.
  - intros p c Hp Hc. rewrite list.Forall_forall in Hraw. apply Hraw.
    apply list_elem_of_lookup. exists p. by rewrite lookup_take_lt.
Qed.

Lemma slice_scalar {A} (l : list A) p v :
  l !! p = Some v → slice {| offset := p; size := 1 |} l = [v].
Proof.
  intros Hp. unfold slice. simpl offset. simpl size.
  rewrite <- (take_drop_middle l p v Hp).
  assert (Hlen : length (take p l) = p).
  { rewrite length_take. apply lookup_lt_Some in Hp. lia. }
  rewrite drop_app_length' by done. by destruct (drop (S p) l).
Qed.

Lemma mean_2_4 : np.mean [Qc_of_Z 2; Qc_of_Z 4] = Qc_of_Z 3.
Proof. apply Qc_is_canon. reflexivity. Qed.

Lemma covered_scalar a b p : covered (flat_map leaves [scalar a; scalar b]) p
                             ↔ p = a ∨ p = b.
Proof.
  unfold covered. simpl. rewrite !List.Exists_cons, List.Exists_nil. simpl. lia.
Qed.

(** C3: [tie_together] on two untied scalar leaves that hold 2 and 4 returns,
    creates one new canonical slot (the last position of the flattened
    tree) labelled like the two leaves, and leaves the value 3 in both
    leaves and in the new slot. *)
Theorem tie_together_mean d st a b :
  wf st → (a < raw_size st)%nat → (b < raw_size st)%nat →
  ties st !! a = Some 0 → ties st !! b = Some 0 →
  param_array st !! a = Some (Qc_of_Z 2) →
  param_array st !! b = Some (Qc_of_Z 4) →
  let slot := (raw_size st + length (slot_labels st))%nat in
  ∃ st', tie_together (S (S d)) [scalar a; scalar b] st = Done tt st'
    ∧ tied_param st' = Some (length (slot_labels st) + 1)%nat
    ∧ length (tree st') = S slot
    ∧ ties st' !! slot = Some (fresh_label st)
    ∧ ties st' !! a = Some (fresh_label st)
    ∧ ties st' !! b = Some (fresh_label st)
    ∧ param_array st' !! slot = Some (Qc_of_Z 3)
    ∧ param_array st' !! a = Some (Qc_of_Z 3)
    ∧ param_array st' !! b = Some (Qc_of_Z 3).
Proof.
  intros Hwf Ha Hb Hta Htb Hva Hvb slot.
  set (plist := [scalar a; scalar b]).
  assert (Hval : valid_plist st plist).
  { unfold valid_plist. simpl. repeat constructor; simpl; lia. }
  assert (Hpos : ∃ p, covered (flat_map leaves plist) p).
  { exists a. apply covered_scalar. by left. }
  assert (Hunt : ∀ p c, covered (flat_map leaves plist) p →
            tree st !! p = Some c → tie c = 0).
  { intros p c Hp Hc. unfold ties in Hta, Htb.
    rewrite list_lookup_fmap in Hta, Htb.
    apply covered_scalar in Hp as [->| ->].
    - rewrite Hc in Hta. by injection Hta.
    - rewrite Hc in Htb. by injection Htb. }
  assert (Hmean : group_mean st plist = Qc_of_Z 3).
  { unfold group_mean. simpl flat_map.
    rewrite (slice_scalar _ a _ Hva), (slice_scalar _ b _ Hvb).
    apply mean_2_4. }
  destruct (tie_together_untied d plist st Hwf Hval Hpos Hunt)
    as (st' & Hrun & Htp & Hties & Hcov & Hslot).
  rewrite Hmean in Hcov, Hslot.
  pose proof (raw_size_length st (wf_store st Hwf)) as Hlen.
  assert (HlT : length (ties st) = slot).
  { unfold ties. by rewrite length_fmap. }
  assert (Hc : length (cover_with (flat_map leaves plist) (fresh_label st)
                         (take (raw_size st) (ties st))) = raw_size st).
  { rewrite length_cover_with, length_take. unfold slot in HlT. lia. }
  assert (Hleaf : ∀ p, (p < raw_size st)%nat → (p = a ∨ p = b) →
            ties st' !! p = Some (fresh_label st)).
  { intros p Hp Hab. rewrite Hties, lookup_app_l, lookup_cover_with by lia.
    destruct (lookup_lt_is_Some_2 (take (raw_size st) (ties st)) p) as [v Hv].
    { rewrite length_take. unfold slot in HlT. lia. }
    rewrite Hv. simpl. destruct (covered_dec _ p) as [|Hn]; [done|].
    destruct Hn. by apply covered_scalar. }
  exists st'. split_and!.
  - exact Hrun.
  - exact Htp.
  - rewrite <- (length_fmap tie). fold (ties st'). rewrite Hties.
    rewrite !length_app, Hc. simpl. unfold slot. lia.
  - rewrite Hties, lookup_app_r by (unfold slot; lia). rewrite Hc.
    rewrite lookup_app_r by (unfold slot; lia).
    by replace (slot - raw_size st - length (slot_labels st))%nat
      with 0%nat by (unfold slot; lia).
  - apply Hleaf; auto.
  - apply Hleaf; auto.
  - exact Hslot.
  - apply Hcov, covered_scalar. by left.
  - apply Hcov, covered_scalar. by right.
Qed.

(** ** [untie] *)

Lemma set_tie_set_tie x y c : set_tie x (set_tie y c) = set_tie x c.
Proof. by destruct c. Qed.

Lemma set_tie_id c : set_tie (tie c) c = c.
Proof. by destruct c. Qed.

(** The run of [untie], up to the final resume of the model updates.  The
    label buffer that decides which groups are pruned is the one rebuilt
    after the leaves have been given label 0. *)
Lemma untie_run d plist st :
  store_ok st → valid_plist st plist →
  Forall (λ l, 0 < l) (slot_labels st) →
  let ls := flat_map leaves plist in
  let lb := np.uint32 <$> cover_with ls 0 (ties st) in
  let pruned := λ l, (label_count lb l ≤ 2)%nat in
  let removed := filter pruned (slot_labels st) in
  ∃ s, untie d plist st
       = update_model (_parameters_changed_notification d) true s
    ∧ store_ok s
    ∧ raw_size s = raw_size st
    ∧ (∀ p, (p < raw_size st)%nat →
         tree s !! p
         = (λ c, set_tie (if decide (covered ls p ∨ tie c ∈ removed)
                          then 0 else tie c) c) <$> tree st !! p)
    ∧ zip (slot_labels s) (slot_values s)
      = filter (λ lv, ¬ pruned lv.1) (zip (slot_labels st) (slot_values st))
    ∧ slot_labels s = filter (λ l, ¬ pruned l) (slot_labels st)
    ∧ (tied_param st = None → tied_param s = None)
    ∧ (removed ≠ [] → length removed = length (slot_labels st) →
       tied_param s = None)
    ∧ match tied_param s with
      | Some k => buffers_ok s k (np.uint32 <$> ties s)
      | None => True
      end
    ∧ _PROPAGATE_VAL_ s = _PROPAGATE_VAL_ st.
Proof.
  intros Hst Hval Hpos ls lb pruned removed.
  set (raw := raw_size st).
  pose proof (raw_size_length st Hst) as Hlen. fold raw in Hlen.
  assert (Hbelow : Forall (λ x, (offset x + size x ≤ raw)%nat) ls) by done.
  unfold untie.
  rewrite (bind_eq _ _ _ _ _ (update_model_false _ st)).
  set (s1 := with_updates false st).
  rewrite (bind_eq _ _ _ _ _ (_set_labels_single plist 0 s1)). fold ls.
  change (tree s1) with (tree st).
  set (t2 := paint_leaves (set_tie 0) ls (tree st)).
  set (s2 := with_tree t2 s1).
  assert (Ht2 : tie <$> t2 = cover_with ls 0 (ties st)).
  { unfold t2. by rewrite (fmap_paint_leaves_const tie _ 0). }
  assert (Hv2 : value <$> t2 = param_array st).
  { unfold t2. by rewrite fmap_paint_leaves_same. }
  assert (Hl2 : length t2 = length (tree st)).
  { unfold t2. by rewrite length_paint_leaves. }
  assert (Hst2 : store_ok s2).
  { unfold store_ok in *. change (tied_param s2) with (tied_param st).
    destruct (tied_param st); [|done]. change (tree s2) with t2. lia. }
  assert (Hraw2 : raw_size s2 = raw).
  { unfold raw, raw_size, tied_offset.
    change (tied_param s2) with (tied_param st). change (tree s2) with t2.
    destruct (tied_param st); lia. }
  assert (HT2 : slot_labels s2 = slot_labels st).
  { rewrite (slot_labels_drop s2 Hst2), (slot_labels_drop st Hst), Hraw2.
    unfold ties at 1. change (tree s2) with t2. rewrite Ht2.
    apply drop_cover_with; [done|]. unfold ties. rewrite length_fmap. lia. }
  assert (HV2 : slot_values s2 = slot_values st).
  { rewrite (slot_values_drop s2 Hst2), (slot_values_drop st Hst), Hraw2.
    unfold param_array at 1. change (tree s2) with t2. by rewrite Hv2. }
  assert (Hc2 : ∀ p, t2 !! p
            = (λ c, set_tie (if decide (covered ls p) then 0 else tie c) c)
                <$> tree st !! p).
  { intros p. unfold t2. rewrite lookup_paint_leaves by done.
    destruct (tree st !! p) as [c|]; [simpl|done]. f_equal.
    destruct (covered_dec ls p) as [Hc|Hc].
    - by rewrite decide_True.
    - by rewrite decide_False, set_tie_id. }
  destruct (tied_param st) as [k|] eqn:Htp.
  2: { (* no store: nothing to rebuild and nothing to prune *)
    assert (Htp2 : tied_param s2 = None) by done.
    rewrite (bind_eq _ _ _ _ _ (_update_label_buf_None s2 Htp2)).
    set (s3 := with_buffers None None None s2).
    assert (Hprune : _remove_unnecessary_ties s3 = Done tt s3).
    { unfold _remove_unnecessary_ties. mstep.
      change (tied_param s3) with (tied_param st). by rewrite Htp. }
    rewrite (bind_eq _ _ _ _ _ Hprune).
    rewrite (bind_eq _ _ _ _ _ (_update_label_buf_None s3 Htp2)).
    set (s4 := with_buffers None None None s3).
    assert (HT : slot_labels st = []) by (unfold slot_labels; by rewrite Htp).
    assert (Hrem : removed = []) by (unfold removed; by rewrite HT).
    exists s4. split_and!; [done|done|exact Hraw2| | | |done|done| |done].
    4: { change (tied_param s4) with (tied_param st). by rewrite Htp. }
    - intros p Hp. change (tree s4) with t2. rewrite Hc2.
      destruct (tree st !! p) as [c|]; [simpl|done]. do 2 f_equal.
      rewrite Hrem. destruct (decide (covered ls p)) as [Hc|Hc].
      + by rewrite decide_True by (by left).
      + rewrite decide_False; [done|]. intros [?|Hin]; [done|].
        by apply not_elem_of_nil in Hin.
    - change (slot_labels s4) with (slot_labels s2).
      change (slot_values s4) with (slot_values s2).
      by rewrite HT2, HV2, HT.
    - change (slot_labels s4) with (slot_labels s2). by rewrite HT2, HT. }
  assert (Htp2 : tied_param s2 = Some k) by done.
  assert (Hk : (k ≤ length (tree st))%nat) by (unfold store_ok in Hst; by rewrite Htp in Hst).
  assert (Hk2 : (k ≤ length (tree s2))%nat).
  { change (tree s2) with t2. lia. }
  assert (Hpos2 : Forall (λ l, 0 < l) (slot_labels s2)) by (by rewrite HT2).
  destruct (_update_label_buf_Some s2 k Htp2 Hk2 Hpos2) as [un Hun].
  rewrite (bind_eq _ _ _ _ _ Hun).
  set (s3 := with_buffers _ _ _ s2).
  assert (Hlb3 : label_buf s3 = Some lb).
  { unfold lb. rewrite <- Ht2. done. }
  destruct (prune_spec s3 k lb Htp2 Hk2 Hlb3)
    as (s4 & Hprune & Hzip & Hlabels & Hraw4 & Hcells & Hiff & _ & Hst4 & Hflag).
  rewrite (bind_eq _ _ _ _ _ Hprune).
  change (slot_labels s3) with (slot_labels s2) in Hzip, Hlabels, Hcells, Hiff.
  rewrite HT2 in Hiff. fold pruned removed in Hiff.
  rewrite <- (length_slot_labels st k Htp Hk) in Hiff.
  change (slot_values s3) with (slot_values s2) in Hzip.
  change (raw_size s3) with (raw_size s2) in Hraw4, Hcells.
  change (tree s3) with t2 in Hcells.
  rewrite HT2 in Hzip, Hlabels, Hcells. rewrite HV2 in Hzip.
  rewrite Hraw2 in Hraw4, Hcells. fold pruned in Hzip, Hlabels.
  fold pruned removed in Hcells.
  assert (Hcells4 : ∀ p, (p < raw)%nat →
            tree s4 !! p
            = (λ c, set_tie (if decide (covered ls p ∨ tie c ∈ removed)
                             then 0 else tie c) c) <$> tree st !! p).
  { intros p Hp. rewrite (Hcells p Hp), Hc2.
    destruct (tree st !! p) as [c|]; [simpl|done]. f_equal.
    rewrite set_tie_set_tie. destruct c as [v g t c]. simpl.
    destruct (decide (covered ls p)) as [Hc|Hc].
    - rewrite (decide_True (P := covered ls p ∨ _)) by (by left).
      by destruct (decide (0 ∈ removed)).
    - destruct (decide (t ∈ removed)) as [Hin|Hin].
      + by rewrite decide_True by (by right).
      + rewrite decide_False; [done|]. by intros [?|?]. }
  destruct (tied_param s4) as [k'|] eqn:Htp4.
  - assert (Hk4 : (k' ≤ length (tree s4))%nat).
    { unfold store_ok in Hst4. by rewrite Htp4 in Hst4. }
    assert (Hpos4 : Forall (λ l, 0 < l) (slot_labels s4)).
    { rewrite Hlabels. apply list.Forall_forall. intros l Hl.
      apply list_elem_of_filter in Hl as [_ Hl].
      rewrite list.Forall_forall in Hpos. by apply Hpos. }
    destruct (_update_label_buf_Some s4 k' Htp4 Hk4 Hpos4) as [un' Hun'].
    rewrite (bind_eq _ _ _ _ _ Hun').
    set (s5 := with_buffers _ _ _ s4).
    exists s5. split_and!; [done|done|exact Hraw4|exact Hcells4|exact Hzip
                           |exact Hlabels|done| | |exact Hflag].
    + intros Hne Hall. destruct Hiff as [_ Hiff].
      by specialize (Hiff (conj Hne Hall)).
    + change (tied_param s5) with (tied_param s4). rewrite Htp4.
      change (ties s5) with (ties s4). by apply buffers_ok_updated.
  - rewrite (bind_eq _ _ _ _ _ (_update_label_buf_None s4 Htp4)).
    set (s5 := with_buffers None None None s4).
    exists s5. split_and!; [done|done|exact Hraw4|exact Hcells4|exact Hzip
                           |exact Hlabels|done|done| |exact Hflag].
    change (tied_param s5) with (tied_param s4). by rewrite Htp4.
Qed.

Lemma raw_size_ext st st' :
  tied_param st' = tied_param st → length (tree st') = length (tree st) →
  raw_size st' = raw_size st.
Proof. unfold raw_size, tied_offset. by intros -> ->. Qed.

Lemma slot_labels_ext st st' :
  tied_param st' = tied_param st → ties st' = ties st →
  slot_labels st' = slot_labels st.
Proof.
  intros Htp Ht. unfold slot_labels, tied_offset. rewrite Htp.
  destruct (tied_param st); [|done]. rewrite Ht. f_equal.
  assert (Hl : length (ties st') = length (ties st)) by (by rewrite Ht).
  unfold ties in Hl. rewrite !length_fmap in Hl. by rewrite Hl.
Qed.

Lemma slot_values_ext st st' :
  tied_param st' = tied_param st → param_array st' = param_array st →
  slot_values st' = slot_values st.
Proof.
  intros Htp Hv. unfold slot_values, tied_offset. rewrite Htp.
  destruct (tied_param st); [|done]. rewrite Hv. f_equal.
  assert (Hl : length (param_array st') = length (param_array st))
    by (by rewrite Hv).
  unfold param_array in Hl. rewrite !length_fmap in Hl. by rewrite Hl.
Qed.

(** The slots as pairs of label and value, read from the tree. *)
Lemma lookup_slots st i :
  store_ok st →
  zip (slot_labels st) (slot_values st) !! i
  = (λ c, (tie c, value c)) <$> tree st !! (raw_size st + i)%nat.
Proof.
  intros Hst. rewrite (slot_labels_drop st Hst), (slot_values_drop st Hst).
  rewrite lookup_zip_with, !lookup_drop.
  unfold ties, param_array. rewrite !list_lookup_fmap.
  by destruct (tree st !! _).
Qed.

(** Groups that agree form a consistent state for the change check. *)
Lemma tied_agree_consistent st k :
  tied_agree st → tied_param st = Some k →
  Forall (λ l, 0 < l < 2 ^ 32) (slot_labels st) →
  consistent (np.uint32 <$> ties st) (tied_offset st k) k (tree st).
Proof.
  intros Hag Htp Hrg i l Hi Hl p q c c' Hp Hq Hc Hc'.
  unfold ties in Hl, Hp, Hq. rewrite !list_lookup_fmap in Hl, Hp, Hq.
  rewrite Hc in Hp. rewrite Hc' in Hq. simpl in Hp, Hq.
  injection Hp as Hp. injection Hq as Hq.
  apply (Hag p q c c' Hc Hc'); [congruence|]. rewrite Hp.
  destruct (tree st !! (tied_offset st k + i)%nat) as [s|] eqn:Hs; [|done].
  simpl in Hl. injection Hl as <-.
  assert (Hin : tie s ∈ slot_labels st).
  { unfold slot_labels. rewrite Htp. apply list_elem_of_lookup. exists i.
    rewrite lookup_drop. unfold ties. by rewrite list_lookup_fmap, Hs. }
  rewrite list.Forall_forall in Hrg. specialize (Hrg _ Hin).
  rewrite uint32_small; lia.
Qed.

(** [untie] returns.  It gives label 0 to the leaves, removes the slots of
    the groups that collapsed, and keeps every value when the groups agree
    before the call or the one-shot flag is set. *)
Lemma untie_done d plist st :
  store_ok st → valid_plist st plist →
  Forall (λ l, 0 < l < 2 ^ 32) (slot_labels st) →
  let ls := flat_map leaves plist in
  let lb := np.uint32 <$> cover_with ls 0 (ties st) in
  let pruned := λ l, (label_count lb l ≤ 2)%nat in
  let removed := filter pruned (slot_labels st) in
  ∃ st', untie (S (S d)) plist st = Done tt st'
    ∧ raw_size st' = raw_size st
    ∧ (∀ p, (p < raw_size st)%nat →
         ties st' !! p
         = (λ c, if decide (covered ls p ∨ tie c ∈ removed) then 0 else tie c)
             <$> tree st !! p)
    ∧ slot_labels st' = filter (λ l, ¬ pruned l) (slot_labels st)
    ∧ (tied_param st = None → tied_param st' = None)
    ∧ (removed ≠ [] → length removed = length (slot_labels st) →
       tied_param st' = None)
    ∧ (_PROPAGATE_VAL_ st = true ∨ tied_agree st →
         (∀ p, (p < raw_size st)%nat →
            param_array st' !! p = param_array st !! p)
         ∧ zip (slot_labels st') (slot_values st')
           = filter (λ lv, ¬ pruned lv.1)
                    (zip (slot_labels st) (slot_values st))).
Proof.
  intros Hst Hval Hrg ls lb pruned removed.
  assert (Hpos : Forall (λ l, 0 < l) (slot_labels st)).
  { eapply list.Forall_impl; [exact Hrg|]. simpl. lia. }
  destruct (untie_run (S (S d)) plist st Hst Hval Hpos)
    as (s & Hrun & Hsts & Hraw & Hcells & Hzip & Hlabels & Hnone & Hall & Hbuf
        & Hflag).
  fold ls lb pruned removed in Hcells, Hzip, Hlabels, Hall.
  assert (Hties : ∀ p, (p < raw_size st)%nat →
            ties s !! p
            = (λ c, if decide (covered ls p ∨ tie c ∈ removed)
                    then 0 else tie c) <$> tree st !! p).
  { intros p Hp. unfold ties. rewrite list_lookup_fmap, (Hcells p Hp).
    by destruct (tree st !! p) as [[]|]. }
  assert (Hvalues : ∀ p, (p < raw_size st)%nat →
            param_array s !! p = param_array st !! p).
  { intros p Hp. unfold param_array. rewrite !list_lookup_fmap, (Hcells p Hp).
    by destruct (tree st !! p) as [[]|]. }
  assert (Hsub : ∀ p c', tree s !! p = Some c' →
            tie c' = 0 ∨ ∃ q c, tree st !! q = Some c
                                ∧ tie c = tie c' ∧ value c = value c').
  { intros p c' Hc'. destruct (decide (p < raw_size st)%nat) as [Hlt|Hge].
    - rewrite (Hcells p Hlt) in Hc'.
      destruct (tree st !! p) as [c|] eqn:Hc; [|done].
      simpl in Hc'. injection Hc' as <-. destruct c as [v g t cn]. simpl.
      destruct (decide _); [by left|]. right. by exists p, (Build_Cell v g t cn).
    - right.
      assert (Hin : (tie c', value c') ∈ zip (slot_labels s) (slot_values s)).
      { apply list_elem_of_lookup. exists (p - raw_size s)%nat.
        rewrite (lookup_slots s _ Hsts).
        replace (raw_size s + (p - raw_size s))%nat with p by lia.
        by rewrite Hc'. }
      rewrite Hzip in Hin. apply list_elem_of_filter in Hin as [_ Hin].
      apply list_elem_of_lookup in Hin as [j Hj].
      rewrite (lookup_slots st _ Hst) in Hj.
      destruct (tree st !! (raw_size st + j)%nat) as [c|] eqn:Hc; [|done].
      simpl in Hj. injection Hj as Ht Hv. by exists (raw_size st + j)%nat, c. }
  assert (Hagree : tied_agree st → tied_agree s).
  { intros Hag p q c c' Hc Hc' Heq Hnz.
    destruct (Hsub p c Hc) as [Hz|(p0 & c0 & Hc0 & Ht0 & Hv0)].
    { rewrite Hz in Hnz. done. }
    destruct (Hsub q c' Hc') as [Hz|(q0 & c0' & Hc0' & Ht0' & Hv0')].
    { rewrite Heq, Hz in Hnz. done. }
    rewrite <- Hv0, <- Hv0'. apply (Hag p0 q0 c0 c0' Hc0 Hc0'); congruence. }
  assert (Hrgs : Forall (λ l, 0 < l < 2 ^ 32) (slot_labels s)).
  { rewrite Hlabels. apply list.Forall_forall. intros l Hl.
    apply list_elem_of_filter in Hl as [_ Hl].
    rewrite list.Forall_forall in Hrg. by apply Hrg. }
  rewrite Hrun. destruct (tied_param s) as [k|] eqn:Htp.
  - destruct (resume_spec d s k _ Hbuf)
      as (st' & Hres & Htp' & _ & _ & _ & Hlen' & Hlab' & _ & _ & Hvals').
    rewrite Htp in Htp'.
    assert (Ht' : ties st' = ties s) by (by apply same_labels_ties).
    assert (HTP : tied_param st' = tied_param s) by congruence.
    exists st'. split_and!.
    + exact Hres.
    + by rewrite (raw_size_ext s st' HTP Hlen').
    + intros p Hp. rewrite Ht'. by apply Hties.
    + by rewrite (slot_labels_ext s st' HTP Ht').
    + intros Hn. apply Hnone in Hn. congruence.
    + intros Hne Hlen. by specialize (Hall Hne Hlen).
    + intros Hcond.
      assert (Hv' : param_array st' = param_array s).
      { apply Hvals'. destruct Hcond as [Hf|Hag]; [left; congruence|right].
        apply tied_agree_consistent; [by apply Hagree|done|done]. }
      split.
      * intros p Hp. rewrite Hv'. by apply Hvalues.
      * by rewrite (slot_labels_ext s st' HTP Ht'),
                   (slot_values_ext s st' HTP Hv').
  - rewrite (resume_None (S d) s Htp). eexists. split; [done|].
    split_and!; try done.
Qed.

(** ** The frame of [untie] and the round trip *)

(** C9, for states whose tied groups agree before the call (or with the
    one-shot flag [_PROPAGATE_VAL_] set): [untie] returns and modifies no
    value: every raw position of the flattened parameter vector keeps its
    value, and the canonical slots that remain are slots of the state before
    the call, with their labels and values, in their order. *)
Theorem untie_keeps_values d plist st :
  store_ok st → valid_plist st plist →
  Forall (λ l, 0 < l < 2 ^ 32) (slot_labels st) →
  _PROPAGATE_VAL_ st = true ∨ tied_agree st →
  ∃ st', untie (S (S d)) plist st = Done tt st'
    ∧ raw_size st' = raw_size st
    ∧ (∀ p, (p < raw_size st)%nat →
         param_array st' !! p = param_array st !! p)
    ∧ zip (slot_labels st') (slot_values st')
      `sublist_of` zip (slot_labels st) (slot_values st).
Proof.
  intros Hst Hval Hrg Hcond.
  destruct (untie_done d plist st Hst Hval Hrg)
    as (st' & Hrun & Hraw & _ & _ & _ & _ & Hvals).
  destruct (Hvals Hcond) as [Hleaves Hslots].
  exists st'. split_and!; [done|done|done|].
  rewrite Hslots. apply sublist_filter.
Qed.

Lemma label_count_app xs ys l :
  label_count (xs ++ ys) l = (label_count xs l + label_count ys l)%nat.
Proof.
  unfold label_count. rewrite fmap_app.
  induction ((λ x, bool_decide (x = l)) <$> xs) as [|b m IH]; [done|].
  simpl. rewrite IH. lia.
Qed.

Lemma label_count_zero xs l :
  Forall (λ x, x ≠ l) xs → label_count xs l = 0%nat.
Proof.
  unfold label_count. induction 1 as [|x xs Hx _ IH]; [done|].
  rewrite fmap_cons. simpl. by rewrite bool_decide_eq_false_2, IH.
Qed.

(** The state after [tie_together] on untied leaves, as [untie] needs it. *)
Lemma tied_state_ok st st1 ls L :
  wf st →
  tied_param st1 = Some (length (slot_labels st) + 1)%nat →
  ties st1 = cover_with ls L (take (raw_size st) (ties st))
             ++ slot_labels st ++ [L] →
  store_ok st1 ∧ raw_size st1 = raw_size st
  ∧ slot_labels st1 = slot_labels st ++ [L].
Proof.
  intros [Hst _ _ _ _] Htp Hties.
  pose proof (raw_size_length st Hst) as Hlen.
  assert (Hc : length (cover_with ls L (take (raw_size st) (ties st)))
               = raw_size st).
  { rewrite length_cover_with, length_take. unfold ties.
    rewrite length_fmap. lia. }
  assert (Hl1 : length (tree st1)
                = (raw_size st + (length (slot_labels st) + 1))%nat).
  { rewrite <- (length_fmap tie). fold (ties st1).
    rewrite Hties, !length_app, Hc. simpl. lia. }
  assert (Hraw : raw_size st1 = raw_size st).
  { unfold raw_size at 1. rewrite Htp. unfold tied_offset. lia. }
  assert (Hst1 : store_ok st1).
  { unfold store_ok. rewrite Htp. lia. }
  split_and!; [done|done|].
  rewrite (slot_labels_drop st1 Hst1), Hraw, Hties.
  by rewrite drop_app_length'.
Qed.

(** [tie_together] on untied leaves followed by [untie] of the same leaves:
    the group of the fresh label collapses and its slot is pruned. *)
Lemma round_trip d d' plist st :
  wf st → valid_plist st plist →
  let ls := flat_map leaves plist in
  (∃ p, covered ls p) →
  (∀ p c, covered ls p → tree st !! p = Some c → tie c = 0) →
  ∃ st1 st2,
    tie_together (S (S d)) plist st = Done tt st1
    ∧ untie (S (S d')) plist st1 = Done tt st2
    ∧ fresh_label st ∈ slot_labels st1
    ∧ (fresh_label st ∉ slot_labels st2)
    ∧ slot_labels st2 `sublist_of` slot_labels st
    ∧ (tied_param st = None → tied_param st2 = None)
    ∧ ∀ p, covered ls p → ties st2 !! p = Some 0.
Proof.
  intros Hwf Hval ls Hpos Hunt.
  destruct (tie_together_untied d plist st Hwf Hval Hpos Hunt)
    as (st1 & Hrun1 & Htp1 & Hties1 & _ & _).
  fold ls in Hties1. set (L := fresh_label st) in *.
  destruct (tied_state_ok st st1 ls L Hwf Htp1 Hties1) as (Hst1 & Hraw1 & HT1).
  destruct Hwf as [Hst Hne Hnd Hrg Hraw].
  pose proof (raw_size_length st Hst) as Hlen.
  assert (HLr : 0 < L < 2 ^ 32) by (by apply fresh_label_range).
  assert (Hval1 : valid_plist st1 plist).
  { unfold valid_plist. by rewrite Hraw1. }
  assert (Hrg1 : Forall (λ l, 0 < l < 2 ^ 32) (slot_labels st1)).
  { rewrite HT1. apply Forall_app. split.
    - eapply list.Forall_impl; [exact Hrg|]. simpl. lia.
    - by apply Forall_singleton. }
  destruct (untie_done d' plist st1 Hst1 Hval1 Hrg1)
    as (st2 & Hrun2 & Hraw2 & Hties2 & Hlabels2 & _ & Hall2 & _).
  fold ls in Hties2, Hlabels2, Hall2.
  set (lb1 := np.uint32 <$> cover_with ls 0 (ties st1)) in *.
  set (pruned := λ l, (label_count lb1 l ≤ 2)%nat) in *.
  assert (Hc : length (cover_with ls L (take (raw_size st) (ties st)))
               = raw_size st).
  { rewrite length_cover_with, length_take. unfold ties.
    rewrite length_fmap. lia. }
  assert (Hcount : label_count lb1 L = 1%nat).
  { unfold lb1. rewrite Hties1, cover_with_app.
    2: { rewrite Hc. exact Hval. }
    rewrite !fmap_app, !label_count_app.
    rewrite (label_count_zero (np.uint32 <$> cover_with _ _ _)).
    2: { apply list.Forall_forall. intros x Hx.
         apply list_elem_of_fmap in Hx as (y & -> & Hy).
         apply uint32_old_label; [done|].
         apply list_elem_of_lookup in Hy as [p Hp].
         rewrite !lookup_cover_with in Hp.
         destruct (take (raw_size st) (ties st) !! p) as [t|] eqn:Ht; [|done].
         simpl in Hp. destruct (covered_dec ls p); [left; congruence|].
         injection Hp as <-. apply lookup_take_Some in Ht as [Ht Hlt].
         unfold ties in Ht. rewrite list_lookup_fmap in Ht.
         destruct (tree st !! p) as [c|] eqn:Hcell; [|done].
         injection Ht as <-. by apply (Hraw p c). }
    rewrite (label_count_zero (np.uint32 <$> slot_labels st)).
    2: { apply list.Forall_forall. intros x Hx.
         apply list_elem_of_fmap in Hx as (y & -> & Hy).
         apply uint32_old_label; [done|]. by right. }
    unfold label_count. simpl. rewrite uint32_small by lia.
    by rewrite bool_decide_eq_true_2. }
  assert (Hpr : pruned L) by (unfold pruned; lia).
  assert (Hkept : slot_labels st2
                  = filter (λ l, ¬ pruned l) (slot_labels st)).
  { rewrite Hlabels2, HT1, list.filter_app, filter_cons.
    rewrite decide_False by (by intros Hn). by rewrite filter_nil, app_nil_r. }
  exists st1, st2. split_and!.
  - exact Hrun1.
  - exact Hrun2.
  - rewrite HT1. apply elem_of_app. right. by apply list_elem_of_singleton.
  - rewrite Hlabels2. intros Hin. by apply list_elem_of_filter in Hin as [Hn _].
  - rewrite Hkept. apply sublist_filter.
  - intros Hnone. apply Hall2.
    + rewrite HT1. intros Hnil.
      assert (Hin : L ∈ filter pruned (slot_labels st ++ [L])).
      { apply list_elem_of_filter. split; [done|].
        apply elem_of_app. right. by apply list_elem_of_singleton. }
      rewrite Hnil in Hin. by apply not_elem_of_nil in Hin.
    + assert (HT : slot_labels st = []).
      { unfold slot_labels. by rewrite Hnone. }
      rewrite HT1, HT. simpl. rewrite filter_cons, decide_True by done.
      by rewrite filter_nil.
  - intros p Hp.
    assert (Hlt : (p < raw_size st)%nat).
    { apply list.Exists_exists in Hp as (x & Hx & Hp).
      unfold valid_plist in Hval. rewrite list.Forall_forall in Hval.
      specialize (Hval x Hx). lia. }
    rewrite Hties2 by lia.
    destruct (lookup_lt_is_Some_2 (tree st1) p) as [c Hcell].
    { rewrite <- (length_fmap tie). fold (ties st1).
      rewrite Hties1, !length_app, Hc. lia. }
    rewrite Hcell. simpl. by rewrite decide_True by (by left).
Qed.

(** C7: for two untied leaves [a] and [b] (with at least one position),
    [tie_together] of the two followed by [untie] of the two returns; the
    slot created by the tie, the one labelled with the fresh label, is no
    slot of the final state, no other slot appears, the store is absent at
    the end when it was absent at the start, and every position of [a] and
    [b] carries label 0. *)
Theorem tie_untie_round_trip d d' a b st :
  wf st → valid_plist st [Leaf a; Leaf b] → (0 < size a + size b)%nat →
  Forall (λ t, t = 0) (slice a (ties st)) →
  Forall (λ t, t = 0) (slice b (ties st)) →
  ∃ st1 st2,
    tie_together (S (S d)) [Leaf a; Leaf b] st = Done tt st1
    ∧ untie (S (S d')) [Leaf a; Leaf b] st1 = Done tt st2
    ∧ fresh_label st ∈ slot_labels st1
    ∧ (fresh_label st ∉ slot_labels st2)
    ∧ slot_labels st2 `sublist_of` slot_labels st
    ∧ (tied_param st = None → tied_param st2 = None)
    ∧ ∀ p, covered [a; b] p → ties st2 !! p = Some 0.
Proof.
  intros Hwf Hval Hsize Ha Hb.
  apply (round_trip d d' [Leaf a; Leaf b] st Hwf Hval).
  - destruct (decide (0 < size a)%nat).
    + exists (offset a). apply List.Exists_cons. left. lia.
    + exists (offset b). apply List.Exists_cons. right.
      apply List.Exists_cons. left. lia.
  - intros p c Hp Hc.
    assert (Ht : ties st !! p = Some (tie c)).
    { unfold ties. by rewrite list_lookup_fmap, Hc. }
    rewrite list.Forall_forall in Ha, Hb.
    apply List.Exists_cons in Hp as [Hp|Hp].
    + apply Ha, elem_of_slice. eauto.
    + apply List.Exists_cons in Hp as [Hp|Hp]; [|by apply List.Exists_nil in Hp].
      apply Hb, elem_of_slice. eauto.
Qed.

(** ** What every step of [tie_together] keeps *)

Section preserves.
Context (P : Model → Prop).

Lemma preserves_ret {A} (a : A) : preserves P (ret a).
Proof. by intros st a' st' HP [= _ <-]. Qed.

Lemma preserves_raise {A} e : preserves P (raise e : M A).
Proof. by intros st a' st' HP [=]. Qed.

Lemma preserves_gets {A} (f : Model → A) : preserves P (gets f).
Proof. by intros st a' st' HP [= _ <-]. Qed.

Lemma preserves_lift {A} (r : res A) : preserves P (lift r).
Proof. intros st a st' HP Hr. apply lift_Done in Hr as [_ ->]. done. Qed.

Lemma preserves_modify (f : Model → Model) :
  (∀ st, P st → P (f st)) → preserves P (modify f).
Proof. intros Hf st a st' HP Hrun. injection Hrun as _ <-. by apply Hf. Qed.

Lemma preserves_bind {A B} (m : M A) (k : A → M B) :
  preserves P m → (∀ a, preserves P (k a)) → preserves P (bind m k).
Proof.
  intros Hm Hk st b st'' HP Hrun.
  apply bind_Done in Hrun as (a & st' & Hm' & Hk').
  eapply Hk; [|exact Hk']. by eapply Hm.
Qed.

Lemma preserves_for_each {A S} (body : A → S → M S) l s :
  (∀ a s, preserves P (body a s)) → preserves P (for_each body l s).
Proof.
  intros Hbody. revert s. induction l as [|a l IH]; intros s.
  - apply preserves_ret.
  - simpl. apply preserves_bind; [apply Hbody|apply IH].
Qed.

Lemma preserves_traverse {S} (func : Param → S → M S) p s :
  (∀ x s, preserves P (func x s)) → preserves P (_traverse_param func p s).
Proof.
  intros Hf st a st' HP Hrun. rewrite _traverse_param_leaves in Hrun.
  by eapply (preserves_for_each func (leaves p) s Hf).
Qed.

Lemma preserves_tree_only (R : Cell → Cell → Prop) {A} (m : M A) :
  (∀ st t, length t = length (tree st) → P st → P (with_tree t st)) →
  tree_only R m → preserves P m.
Proof.
  intros Hlen Hm st a st' HP Hrun. destruct (Hm st) as (a' & t' & Heq & Hfa).
  rewrite Heq in Hrun. injection Hrun as _ <-. apply Hlen; [|done].
  symmetry. by apply Forall2_length in Hfa.
Qed.

End preserves.

Lemma settled_with_tree st t :
  length t = length (tree st) → settled st → settled (with_tree t st).
Proof.
  intros Hlen [Hst Hflag]. split; [|done]. unfold store_ok in *. simpl.
  destruct (tied_param st); [|done]. lia.
Qed.

Lemma preserves_update_leaf (f : nat → Cell → Cell) x :
  preserves settled
    (modify (λ st, with_tree (update_leaf f x (tree st)) st)).
Proof.
  apply preserves_modify. intros st. apply settled_with_tree.
  unfold update_leaf. by rewrite length_imap.
Qed.

Lemma preserves__get_labels plist : preserves settled (_get_labels plist).
Proof.
  unfold _get_labels. apply preserves_bind.
  - apply preserves_for_each. intros p s. apply preserves_traverse.
    intros x s'. apply preserves_bind; [apply preserves_gets|].
    intros t. apply preserves_ret.
  - intros labels. apply preserves_bind; [apply preserves_lift|].
    intros stacked. apply preserves_ret.
Qed.

Lemma preserves__sync_val_group plist :
  preserves settled (_sync_val_group plist).
Proof.
  unfold _sync_val_group. apply preserves_bind; [apply preserves_gets|].
  intros pa. apply preserves_bind; [apply preserves_lift|]. intros stacked.
  apply preserves_bind; [|intros; apply preserves_ret].
  apply preserves_for_each. intros p s. apply preserves_traverse.
  intros x s'. apply preserves_update_leaf.
Qed.

Lemma preserves__set_labels plist labels :
  preserves settled (_set_labels plist labels).
Proof.
  unfold _set_labels. case_decide.
  - apply preserves_for_each. intros p s. apply preserves_traverse.
    intros x s'. apply preserves_bind; [apply preserves_lift|].
    intros l0. apply preserves_update_leaf.
  - apply preserves_for_each. intros p s.
    apply preserves_bind; [|intros; apply preserves_ret].
    apply preserves_traverse. intros x s'.
    apply preserves_bind; [|intros; apply preserves_ret].
    apply preserves_update_leaf.
Qed.

Lemma preserves__sync_constraint_group plist hastie tie_con :
  preserves settled (_sync_constraint_group plist hastie tie_con).
Proof.
  eapply preserves_tree_only; [|apply tree_only__sync_constraint_group].
  intros st t. apply settled_with_tree.
Qed.

Lemma preserves__replace_labels p label_pairs :
  preserves settled (_replace_labels p label_pairs).
Proof.
  unfold _replace_labels. apply preserves_traverse. intros x s.
  apply preserves_update_leaf.
Qed.

Lemma preserves_tied_mask_update f l :
  preserves settled (tied_mask_update f (tied_tie_eq l)).
Proof.
  intros st a st' [Hst Hflag] Hrun.
  destruct (tied_param st) as [k|] eqn:Htp.
  - unfold store_ok in Hst. rewrite Htp in Hst.
    rewrite (tied_mask_update_eq f l st k Htp Hst) in Hrun.
    injection Hrun as _ <-. apply settled_with_tree.
    + by rewrite length_paint_slots.
    + split; [|done]. unfold store_ok. by rewrite Htp.
  - unfold tied_mask_update in Hrun. revert Hrun. mstep. by rewrite Htp.
Qed.

Lemma assign_all_Val {A} n (vs r : list A) :
  np.assign_all n vs = Val r → length r = n.
Proof.
  unfold np.assign_all. case_decide; [by intros [= <-]|].
  destruct vs as [|v [|]]; try done. intros [= <-]. by rewrite length_replicate.
Qed.

Lemma length_range start num : length (range start num) = num.
Proof. unfold range. by rewrite length_fmap, length_seq. Qed.

Lemma preserves__expand_tie_param num :
  preserves settled (_expand_tie_param num).
Proof.
  intros st a st' [Hst Hflag] Hrun. unfold _expand_tie_param in Hrun.
  revert Hrun. mstep. unfold store_ok in Hst.
  destruct (tied_param st) as [k|] eqn:Htp.
  - destruct (max_label _) as [m|e]; mstep; [|done].
    intros [= _ <-]. split; [|done]. unfold store_ok. simpl.
    assert (HsT : length (slice (tied_leaf st k) (ties st)) = k).
    { apply length_slice. simpl. unfold ties, tied_offset.
      rewrite length_fmap. lia. }
    assert (HsV : length (slice (tied_leaf st k) (param_array st)) = k).
    { apply length_slice. simpl. unfold param_array, tied_offset.
      rewrite length_fmap. lia. }
    rewrite length_app, length_fresh_param.
    + rewrite length_app, length_range, HsT, length_take. lia.
    + by rewrite !length_app, HsT, HsV, length_fmap, length_seq, length_range.
  - intros [= _ <-]. split; [|done]. unfold store_ok. simpl.
    rewrite length_app, length_fresh_param.
    + rewrite length_range. lia.
    + by rewrite length_fmap, length_seq, length_range.
Qed.

Lemma preserves__remove_tie_param labels :
  preserves settled (_remove_tie_param labels).
Proof.
  intros st a st' [Hst Hflag] Hrun. unfold _remove_tie_param in Hrun.
  revert Hrun. mstep. unfold store_ok in Hst.
  destruct (tied_param st) as [k|] eqn:Htp; [|done].
  case_decide as Hall; [by intros [= _ <-]|].
  case_decide as Hmany; [done|].
  destruct (np.mask_get (slice _ (param_array st)) _) as [kept|e]; mstep;
    [|done].
  destruct (np.assign_all _ kept) as [new_buf|e] eqn:Hbuf; mstep; [|done].
  destruct (np.mask_get (slice _ (ties st)) _) as [kept_tie|e]; mstep; [|done].
  destruct (np.assign_all _ kept_tie) as [new_tie|e] eqn:Htie; mstep; [|done].
  intros [= _ <-]. split; [|done]. unfold store_ok. simpl.
  apply assign_all_Val in Hbuf, Htie.
  rewrite length_app, length_fresh_param by congruence. lia.
Qed.

Lemma preserves__merge_tie_labels labels :
  preserves settled (_merge_tie_labels labels).
Proof.
  unfold _merge_tie_labels. destruct labels as [|l0 [|l1 rest]].
  - apply preserves_ret.
  - apply preserves_ret.
  - apply preserves_bind; [apply preserves__remove_tie_param|]. intros _.
    apply preserves_bind; [apply preserves_gets|]. intros hp.
    apply preserves__replace_labels.
Qed.

Lemma preserves_update_model_false handler :
  preserves settled (update_model handler false).
Proof. intros st a st' HP Hrun. by injection Hrun as _ <-. Qed.

Lemma _update_label_buf_Done st k st' :
  tied_param st = Some k → (k ≤ length (tree st))%nat →
  _update_label_buf st = Done tt st' →
  ∃ un, st' = with_buffers (Some (np.uint32 <$> ties st))
                           (Some (seq (tied_offset st k) k)) (Some un) st.
Proof.
  intros Htied Hk Hrun.
  destruct (decide (Forall (λ l, 0 < l) (slot_labels st))) as [Hpos|Hneg].
  - destruct (_update_label_buf_Some st k Htied Hk Hpos) as [un Hun].
    rewrite Hun in Hrun. injection Hrun as <-. by exists un.
  - exfalso. revert Hrun. unfold _update_label_buf. mstep. rewrite Htied.
    mstep. destruct (np.put_idx _ _ _) as [un|e]; mstep; [|done].
    rewrite slice_tied by (done || unfold ties; by rewrite length_fmap).
    unfold slot_labels in Hneg. rewrite Htied in Hneg.
    by rewrite decide_False.
Qed.

(** A completed [tie_together] that starts without the one-shot flag ends
    with an up-to-date label buffer and with every tie group holding one
    value. *)
Lemma tie_together_settles d plist st st' :
  settled st → tie_together (S (S d)) plist st = Done tt st' →
  ∃ k, tied_param st' = Some k
     ∧ label_buf st' = Some (np.uint32 <$> ties st')
     ∧ consistent (np.uint32 <$> ties st') (tied_offset st' k) k (tree st').
Proof.
  intros Hs Hrun. unfold tie_together in Hrun.
  apply bind_Done in Hrun as ([] & s1 & H1 & Hrun).
  apply (preserves_update_model_false _ _ _ _ Hs) in H1.
  apply bind_Done in Hrun as (labels & s2 & H2 & Hrun).
  apply (preserves__get_labels _ _ _ _ H1) in H2.
  apply bind_Done in Hrun as (val & s3 & H3 & Hrun).
  apply (preserves__sync_val_group _ _ _ _ H2) in H3.
  apply bind_Done in Hrun as (l0 & s4 & H4 & Hrun).
  apply lift_Done in H4 as [_ ->].
  apply bind_Done in Hrun as (tie_labels & s5 & H5 & Hrun).
  assert (Hs5 : settled s5).
  { match type of H5 with
    | ?m s3 = _ => assert (Hbr : preserves settled m)
    end; [|by apply (Hbr s3 tie_labels s5)].
    case_decide.
    - apply preserves_bind; [apply preserves__expand_tie_param|]. intros r.
      apply preserves_bind; [apply preserves__set_labels|]. intros _.
      apply preserves_bind; [apply preserves__sync_constraint_group|].
      intros tie_con. apply preserves_bind; [|intros; apply preserves_ret].
      destruct tie_con; [|apply preserves_ret].
      apply preserves_bind; [apply preserves_lift|]. intros t0.
      apply preserves_tied_mask_update.
    - apply preserves_bind.
      { case_decide; [apply preserves__merge_tie_labels|apply preserves_ret]. }
      intros _. apply preserves_bind; [apply preserves_lift|]. intros t0.
      apply preserves_bind; [apply preserves__set_labels|]. intros _.
      apply preserves_bind; [apply preserves_gets|]. intros st0.
      apply preserves_bind.
      { destruct (tied_param st0); [apply preserves_lift|apply preserves_raise]. }
      intros tie_p.
      apply preserves_bind; [apply preserves__sync_constraint_group|].
      intros; apply preserves_ret. }
  apply bind_Done in Hrun as ([] & s6 & H6 & Hrun).
  apply bind_Done in Hrun as (t0 & s7 & H7 & Hrun).
  apply lift_Done in H7 as [_ ->].
  apply bind_Done in Hrun as ([] & s8 & H8 & Hrun).
  destruct Hs5 as [Hst5 Hflag5]. unfold store_ok in Hst5.
  destruct (tied_param s5) as [k|] eqn:Htp5.
  2: { rewrite (_update_label_buf_None s5 Htp5) in H6. injection H6 as <-.
       exfalso. revert H8. unfold tied_mask_update. mstep. simpl.
       by rewrite Htp5. }
  destruct (_update_label_buf_Done s5 k s6 Htp5 Hst5 H6) as [un ->].
  set (s6 := with_buffers _ _ _ s5) in *.
  assert (Hbuf6 : buffers_ok s6 k (np.uint32 <$> ties s5))
    by (by apply buffers_ok_updated).
  rewrite (tied_mask_update_eq _ t0 s6 k Htp5 Hst5) in H8.
  injection H8 as <-.
  set (t8 := paint_slots _ _ _ _) in *. set (s8 := with_tree t8 s6) in *.
  assert (Hbuf8 : buffers_ok s8 k (np.uint32 <$> ties s5)).
  { apply buffers_ok_with_tree; [done|]. unfold t8.
    by rewrite length_paint_slots. }
  destruct (resume_spec d s8 k _ Hbuf8)
    as (st'' & Hres & Htp & Hlb & _ & _ & Hlen & Hlab & _ & Hcons & _).
  rewrite Hres in Hrun. injection Hrun as ->.
  assert (Hties : ties st' = ties s5).
  { unfold ties. rewrite (same_labels_ties _ _ Hlab). change (tree s8) with t8.
    unfold t8. by rewrite fmap_paint_slots_same. }
  exists k. split_and!.
  - by rewrite Htp.
  - rewrite Hlb, Hties. done.
  - rewrite Hties.
    replace (tied_offset st' k) with (tied_offset s8 k)
      by (unfold tied_offset; by rewrite Hlen).
    by apply Hcons.
Qed.

(** ** The tie equality invariant and the classification of [tie_vector] *)

(** X16.  For calls that start with the one-shot flag [_PROPAGATE_VAL_] not
    set: every completed [tie_together] ends with a store of slots and an
    up-to-date label buffer, and every position that the label buffer puts
    into the group of a slot holds the value of that slot. *)
Theorem tie_together_groups_equal d plist st st' :
  store_ok st → _PROPAGATE_VAL_ st = false →
  tie_together (S (S d)) plist st = Done tt st' →
  ∃ k, tied_param st' = Some k
     ∧ label_buf st' = Some (np.uint32 <$> ties st')
     ∧ ∀ i p l, (i < k)%nat →
         (np.uint32 <$> ties st') !! (tied_offset st' k + i)%nat = Some l →
         (np.uint32 <$> ties st') !! p = Some l →
         param_array st' !! p = param_array st' !! (tied_offset st' k + i)%nat.
Proof.
  intros Hst Hflag Hrun.
  destruct (tie_together_settles d plist st st' (conj Hst Hflag) Hrun)
    as (k & Htp & Hlb & Hcons).
  exists k. split_and!; [done|done|].
  intros i p l Hi Hslot Hp. specialize (Hcons i l Hi Hslot).
  unfold param_array. rewrite !list_lookup_fmap.
  unfold ties in Hslot, Hp. rewrite !list_lookup_fmap in Hslot, Hp.
  destruct (tree st' !! p) as [c|] eqn:Hc; [|done].
  destruct (tree st' !! (tied_offset st' k + i)%nat) as [s|] eqn:Hs; [|done].
  simpl. f_equal. apply (Hcons p (tied_offset st' k + i)%nat c s).
  - unfold ties. by rewrite !list_lookup_fmap, Hc.
  - unfold ties. by rewrite !list_lookup_fmap, Hs.
  - done.
  - done.
Qed.

(** C1, the code departs from the invariant.  In a state where three leaves
    are tied in one group and hold the value 3 of its slot, [propagate_val]
    sets the one-shot flag and changes nothing else; [tie_together] then
    ties the first leaf to a fourth, untied leaf that holds 7.  The call
    completes and all four leaves carry the label of the slot, but the
    second and the third leaf still hold 3 while the slot and the two leaves
    of the call hold 5: the stale flag makes the final notification skip
    the change check.  The same call from the state without the flag leaves
    all four leaves and the slot at 5. *)
Theorem tie_together_after_propagate_val :
  ∃ B C C0,
    propagate_val three_tied = Done tt B
    ∧ _PROPAGATE_VAL_ B = true
    ∧ ties B = [1; 1; 1; 0; 1]
    ∧ (λ v, this v) <$> param_array B = [3 # 1; 3 # 1; 3 # 1; 7 # 1; 3 # 1]%Q
    ∧ tie_together 2 [scalar 0; scalar 3] B = Done tt C
    ∧ tied_param C = Some 1%nat
    ∧ label_buf C = Some [1; 1; 1; 1; 1]
    ∧ ties C = [1; 1; 1; 1; 1]
    ∧ (λ v, this v) <$> param_array C = [5 # 1; 3 # 1; 3 # 1; 5 # 1; 5 # 1]%Q
    ∧ tie_together 2 [scalar 0; scalar 3] three_tied = Done tt C0
    ∧ ties C0 = [1; 1; 1; 1; 1]
    ∧ (λ v, this v) <$> param_array C0
      = [5 # 1; 5 # 1; 5 # 1; 5 # 1; 5 # 1]%Q.
Proof.
  exists (final_state propagate_val three_tied).
  exists (final_state (tie_together 2 [scalar 0; scalar 3])
                      (final_state propagate_val three_tied)).
  exists (final_state (tie_together 2 [scalar 0; scalar 3]) three_tied).
  split_and!; vm_compute; reflexivity.
Qed.

(** C2, the code departs from the classification.  On the arrays of one
    element, with the first side untied and the second side tied with label
    [l], [_get_labels_vector] adopts [l] in [labellist] but also lists the
    position in [expandlist]; [tie_vector] then allocates a new slot and
    overwrites the adopted label.  In the state with the leaves 0 and 1
    tied in group 1, [tie_vector] of the untied leaf 2 and leaf 1 creates a
    second slot with label 2 and gives label 2 to both leaves: leaf 2 does
    not adopt label 1, and leaf 1 leaves its group. *)
Theorem tie_vector_one_side_tied :
  (∀ l, 0 < l → labels_vector [0] [l] = Val ([0%nat], ([], []), [l]))
  ∧ ∃ st', tie_vector 2 (scalar 2) (scalar 1) one_group = Done tt st'
      ∧ tied_param one_group = Some 1%nat
      ∧ ties one_group = [1; 1; 0; 1]
      ∧ tied_param st' = Some 2%nat
      ∧ ties st' = [1; 2; 2; 1; 2].
Proof.
  split.
  - intros l Hl. unfold labels_vector. simpl.
    rewrite (bool_decide_eq_true_2 (0 < l)) by done. simpl.
    reflexivity.
  - exists (final_state (tie_vector 2 (scalar 2) (scalar 1)) one_group).
    split_and!; vm_compute; reflexivity.
Qed.

(** C9 fails when a group does not agree with its slot.  The two tied
    leaves hold 1 while their slot holds 2 (a value written while the
    updates were suspended);
    [untie] of the third, untied leaf completes, and its final change check
    overwrites the two tied leaves with the value of the slot. *)
Lemma untie_changes_value :
  ∃ st', untie 2 [scalar 2] buffered_group = Done tt st'
    ∧ ties buffered_group = [1; 1; 0; 1]
    ∧ (λ v, this v) <$> param_array buffered_group
      = [1 # 1; 1 # 1; 5 # 1; 2 # 1]%Q
    ∧ ties st' = [1; 1; 0; 1]
    ∧ (λ v, this v) <$> param_array st' = [2 # 1; 2 # 1; 5 # 1; 2 # 1]%Q.
Proof.
  exists (final_state (untie 2 [scalar 2]) buffered_group).
  split_and!; vm_compute; reflexivity.
Qed.

(** ** The theorems at concrete states *)

Lemma tied_agreeb_spec st : tied_agreeb st = true → tied_agree st.
Proof.
  unfold tied_agreeb. rewrite bool_decide_eq_true.
  intros Hall p q c c' Hc Hc'. rewrite list.Forall_forall in Hall.
  specialize (Hall c (list_elem_of_lookup_2 _ _ _ Hc)).
  rewrite list.Forall_forall in Hall.
  exact (Hall c' (list_elem_of_lookup_2 _ _ _ Hc')).
Qed.

Lemma buffered_group_ok : buffers_ok buffered_group 1 [1; 1; 0; 1].
Proof. split; [reflexivity|simpl; lia|reflexivity|reflexivity|reflexivity]. Qed.

Lemma buffered_group_distinct :
  NoDup (drop (tied_offset buffered_group 1) [1; 1; 0; 1]).
Proof. apply (bool_decide_unpack _). vm_compute. exact I. Qed.

(** X16 at a concrete state: one group and an untied leaf, for the tie of
    a member with the untied leaf. *)
Lemma tie_together_groups_equal_witness :
  let st' := final_state (tie_together 2 [scalar 1; scalar 2]) one_group in
  store_ok one_group ∧ _PROPAGATE_VAL_ one_group = false
  ∧ tie_together 2 [scalar 1; scalar 2] one_group = Done tt st'
  ∧ ∃ k, tied_param st' = Some k
     ∧ label_buf st' = Some (np.uint32 <$> ties st')
     ∧ ∀ i p l, (i < k)%nat →
         (np.uint32 <$> ties st') !! (tied_offset st' k + i)%nat = Some l →
         (np.uint32 <$> ties st') !! p = Some l →
         param_array st' !! p = param_array st' !! (tied_offset st' k + i)%nat.
Proof.
  intros st'.
  assert (H1 : store_ok one_group) by (vm_compute; lia).
  assert (H2 : _PROPAGATE_VAL_ one_group = false) by reflexivity.
  assert (H3 : tie_together 2 [scalar 1; scalar 2] one_group = Done tt st')
    by (vm_compute; reflexivity).
  split; [exact H1|]. split; [exact H2|]. split; [exact H3|].
  exact (tie_together_groups_equal 0 [scalar 1; scalar 2] one_group st'
           H1 H2 H3).
Defined.

(** C3 at the state with just the two leaves. *)
Lemma tie_together_mean_witness :
  wf two_leaves ∧ (0 < raw_size two_leaves)%nat ∧ (1 < raw_size two_leaves)%nat
  ∧ ties two_leaves !! 0%nat = Some 0 ∧ ties two_leaves !! 1%nat = Some 0
  ∧ param_array two_leaves !! 0%nat = Some (Qc_of_Z 2)
  ∧ param_array two_leaves !! 1%nat = Some (Qc_of_Z 4)
  ∧ ∃ st', tie_together 2 [scalar 0; scalar 1] two_leaves = Done tt st'
      ∧ tied_param st' = Some 1%nat
      ∧ length (tree st') = 3%nat
      ∧ ties st' !! 2%nat = Some 1
      ∧ ties st' !! 0%nat = Some 1
      ∧ ties st' !! 1%nat = Some 1
      ∧ param_array st' !! 2%nat = Some (Qc_of_Z 3)
      ∧ param_array st' !! 0%nat = Some (Qc_of_Z 3)
      ∧ param_array st' !! 1%nat = Some (Qc_of_Z 3).
Proof.
  assert (H1 : wf two_leaves) by (apply wfb_wf; vm_compute; reflexivity).
  assert (H2 : (0 < raw_size two_leaves)%nat) by (vm_compute; lia).
  assert (H3 : (1 < raw_size two_leaves)%nat) by (vm_compute; lia).
  assert (H4 : ties two_leaves !! 0%nat = Some 0) by reflexivity.
  assert (H5 : ties two_leaves !! 1%nat = Some 0) by reflexivity.
  assert (H6 : param_array two_leaves !! 0%nat = Some (Qc_of_Z 2))
    by reflexivity.
  assert (H7 : param_array two_leaves !! 1%nat = Some (Qc_of_Z 4))
    by reflexivity.
  split; [exact H1|]. split; [exact H2|]. split; [exact H3|].
  split; [exact H4|]. split; [exact H5|]. split; [exact H6|].
  split; [exact H7|].
  exact (tie_together_mean 0 two_leaves 0 1 H1 H2 H3 H4 H5 H6 H7).
Defined.

(** C4 at the state whose two tied leaves both differ from their slot. *)
Lemma check_change_spec_witness :
  let st := buffered_group in
  let k := 1%nat in
  let lb := [1; 1; 0; 1] in
  buffers_ok st k lb ∧ NoDup (drop (tied_offset st k) lb)
  ∧ ∃ changed st',
      _check_change st = Done changed st'
      ∧ (changed = true ↔
           ∃ i p, (i < k)%nat ∧ member lb st k i p ∧ differs st k i p)
      ∧ ∀ i, (i < k)%nat →
          ((∀ p, member lb st k i p → ¬ differs st k i p) →
           ∀ p, member lb st k i p →
                param_array st' !! p = param_array st !! p)
          ∧ (∀ q, member lb st k i q → differs st k i q →
               (∀ p, member lb st k i p → differs st k i p → p = q) →
               ∀ p, member lb st k i p →
                    param_array st' !! p = param_array st !! q)
          ∧ (∀ q1 q2, q1 ≠ q2 →
               member lb st k i q1 → differs st k i q1 →
               member lb st k i q2 → differs st k i q2 →
               ∀ p, member lb st k i p →
                    param_array st' !! p = param_array st !! slot_pos st k i).
Proof.
  intros st k lb.
  split; [exact buffered_group_ok|]. split; [exact buffered_group_distinct|].
  exact (check_change_spec buffered_group 1 [1; 1; 0; 1] buffered_group_ok
           buffered_group_distinct).
Defined.

(** C5 at the same state. *)
Lemma collate_gradient_sums_witness :
  let st := buffered_group in
  let k := 1%nat in
  let lb := [1; 1; 0; 1] in
  buffers_ok st k lb ∧ NoDup (drop (tied_offset st k) lb)
  ∧ ∃ st',
      collate_gradient st = Done tt st'
      ∧ (∀ i l, (i < k)%nat → lb !! slot_pos st k i = Some l →
           gradient st' !! slot_pos st k i
           = Some (group_sum l (take (tied_offset st k) lb)
                               (take (tied_offset st k) (gradient st))))
      ∧ (∀ p, (p < tied_offset st k)%nat → tree st' !! p = tree st !! p)
      ∧ Forall2 same_but_grad (tree st) (tree st').
Proof.
  intros st k lb.
  split; [exact buffered_group_ok|]. split; [exact buffered_group_distinct|].
  exact (collate_gradient_sums buffered_group 1 [1; 1; 0; 1] buffered_group_ok
           buffered_group_distinct).
Defined.

(** C6 at the same state. *)
Lemma remove_unnecessary_ties_spec_witness :
  let st := buffered_group in
  let k := 1%nat in
  let lb := [1; 1; 0; 1] in
  tied_param st = Some k ∧ (k ≤ length (tree st))%nat ∧ label_buf st = Some lb
  ∧ let pruned := λ l, (label_count lb l ≤ 2)%nat in
    let removed := filter pruned (slot_labels st) in
    ∃ st',
      _remove_unnecessary_ties st = Done tt st'
      ∧ zip (slot_labels st') (slot_values st')
        = filter (λ lv, ¬ pruned lv.1) (zip (slot_labels st) (slot_values st))
      ∧ slot_labels st' = filter (λ l, ¬ pruned l) (slot_labels st)
      ∧ raw_size st' = raw_size st
      ∧ (∀ p, (p < raw_size st)%nat →
           tree st' !! p
           = (λ c, set_tie (if decide (tie c ∈ removed) then 0 else tie c) c)
               <$> tree st !! p)
      ∧ (tied_param st' = None ↔ removed ≠ [] ∧ length removed = k)
      ∧ label_buf st' = label_buf st.
Proof.
  intros st k lb.
  assert (H1 : tied_param st = Some k) by reflexivity.
  assert (H2 : (k ≤ length (tree st))%nat) by (vm_compute; lia).
  assert (H3 : label_buf st = Some lb) by reflexivity.
  split; [exact H1|]. split; [exact H2|]. split; [exact H3|].
  exact (remove_unnecessary_ties_spec buffered_group 1 [1; 1; 0; 1] H1 H2 H3).
Defined.

(** C7 at the state with just the two leaves. *)
Lemma tie_untie_round_trip_witness :
  let st := two_leaves in
  let a := {| offset := 0; size := 1 |} in
  let b := {| offset := 1; size := 1 |} in
  wf st ∧ valid_plist st [Leaf a; Leaf b] ∧ (0 < size a + size b)%nat
  ∧ Forall (λ t, t = 0) (slice a (ties st))
  ∧ Forall (λ t, t = 0) (slice b (ties st))
  ∧ ∃ st1 st2,
      tie_together 2 [Leaf a; Leaf b] st = Done tt st1
      ∧ untie 2 [Leaf a; Leaf b] st1 = Done tt st2
      ∧ fresh_label st ∈ slot_labels st1
      ∧ (fresh_label st ∉ slot_labels st2)
      ∧ slot_labels st2 `sublist_of` slot_labels st
      ∧ (tied_param st = None → tied_param st2 = None)
      ∧ ∀ p, covered [a; b] p → ties st2 !! p = Some 0.
Proof.
  intros st a b.
  assert (H1 : wf st) by (apply wfb_wf; vm_compute; reflexivity).
  assert (H2 : valid_plist st [Leaf a; Leaf b]).
  { apply (bool_decide_unpack _). vm_compute. exact I. }
  assert (H3 : (0 < size a + size b)%nat) by (vm_compute; lia).
  assert (H4 : Forall (λ t, t = 0) (slice a (ties st))).
  { apply (bool_decide_unpack _). vm_compute. exact I. }
  assert (H5 : Forall (λ t, t = 0) (slice b (ties st))).
  { apply (bool_decide_unpack _). vm_compute. exact I. }
  split; [exact H1|]. split; [exact H2|]. split; [exact H3|].
  split; [exact H4|]. split; [exact H5|].
  exact (tie_untie_round_trip 0 0 a b st H1 H2 H3 H4 H5).
Defined.

(** C8 at a scalar leaf and a leaf of two elements. *)
Lemma tie_vector_unequal_sizes_witness :
  let st := four_leaves in
  let p1 := scalar 0 in
  let p2 := Leaf {| offset := 1; size := 2 |} in
  valid_node st p1 ∧ valid_node st p2 ∧ node_size p1 ≠ node_size p2
  ∧ ∃ e st', tie_vector 2 p1 p2 st = Raise e st'
      ∧ tree st' = tree st ∧ tied_param st' = tied_param st
      ∧ label_buf st' = label_buf st ∧ buf_idx st' = buf_idx st
      ∧ _untie_ st' = _untie_ st.
Proof.
  intros st p1 p2.
  assert (H1 : valid_node st p1).
  { apply (bool_decide_unpack _). vm_compute. exact I. }
  assert (H2 : valid_node st p2).
  { apply (bool_decide_unpack _). vm_compute. exact I. }
  assert (H3 : node_size p1 ≠ node_size p2) by (vm_compute; lia).
  split; [exact H1|]. split; [exact H2|]. split; [exact H3|].
  exact (tie_vector_unequal_sizes 2 p1 p2 st H1 H2 H3).
Defined.

(** C9 at the state with one group that agrees, for the untie of a
    member. *)
Lemma untie_keeps_values_witness :
  let st := one_group in
  let plist := [scalar 1] in
  store_ok st ∧ valid_plist st plist
  ∧ Forall (λ l, 0 < l < 2 ^ 32) (slot_labels st)
  ∧ (_PROPAGATE_VAL_ st = true ∨ tied_agree st)
  ∧ ∃ st', untie 2 plist st = Done tt st'
      ∧ raw_size st' = raw_size st
      ∧ (∀ p, (p < raw_size st)%nat →
           param_array st' !! p = param_array st !! p)
      ∧ zip (slot_labels st') (slot_values st')
        `sublist_of` zip (slot_labels st) (slot_values st).
Proof.
  intros st plist.
  assert (H1 : store_ok st) by (vm_compute; lia).
  assert (H2 : valid_plist st plist).
  { apply (bool_decide_unpack _). vm_compute. exact I. }
  assert (H3 : Forall (λ l, 0 < l < 2 ^ 32) (slot_labels st)).
  { apply (bool_decide_unpack _). vm_compute. exact I. }
  assert (H4 : _PROPAGATE_VAL_ st = true ∨ tied_agree st).
  { right. apply tied_agreeb_spec. vm_compute. reflexivity. }
  split; [exact H1|]. split; [exact H2|]. split; [exact H3|].
  split; [exact H4|].
  exact (untie_keeps_values 0 plist st H1 H2 H3 H4).
Defined.

(** * Further properties of the code *)

(** ** [tie_vector] when no position needs a new slot *)

Lemma where_from_none i m :
  Forall (λ b, b = false) m → np.where_from i m = [].
Proof.
  intros Hm. revert i. induction Hm as [|b m -> _ IH]; intros i; [done|].
  simpl. apply IH.
Qed.

Lemma broadcast_mul_nonzero l1 l2 prod :
  np.broadcast Z.mul l1 l2 = Val prod →
  Forall (λ t, t ≠ 0) l1 → Forall (λ t, t ≠ 0) l2 →
  Forall (λ t, t ≠ 0) prod.
Proof.
  intros Hb H1 H2.
  assert (Hzip : Forall (λ t, t ≠ 0) (zip_with Z.mul l1 l2)).
  { clear Hb. revert l2 H2. induction H1 as [|x l1 Hx _ IH]; intros l2 H2.
    - constructor.
    - destruct H2 as [|y l2 Hy H2]; [constructor|]. simpl.
      constructor; [lia|by apply IH]. }
  assert (Hmap : ∀ x l, x ≠ 0 → Forall (λ t, t ≠ 0) l →
            Forall (λ t, t ≠ 0) (Z.mul x <$> l)).
  { intros x l Hx Hl. induction Hl; constructor; [lia|done]. }
  assert (Hmap' : ∀ y l, y ≠ 0 → Forall (λ t, t ≠ 0) l →
            Forall (λ t, t ≠ 0) ((λ x, x * y) <$> l)).
  { intros y l Hy Hl. induction Hl; constructor; [lia|done]. }
  unfold np.broadcast in Hb. case_decide; [by injection Hb as <-|].
  destruct l1 as [|x [|x' l1]].
  - destruct l2 as [|y [|]]; [done| |done]. injection Hb as <-. constructor.
  - injection Hb as <-. apply Hmap; [|done]. by inversion H1.
  - destruct l2 as [|y [|]]; [done| |done]. injection Hb as <-.
    apply (Hmap' y (x :: x' :: l1)); [|done]. by inversion H2.
Qed.

Lemma labels_vector_no_expand l1 l2 r :
  labels_vector l1 l2 = Val r →
  Forall (λ t, t ≠ 0) l1 → Forall (λ t, t ≠ 0) l2 → r.1.1 = [].
Proof.
  unfold labels_vector. intros Hr H1 H2.
  apply res_bind_Val in Hr as (prod & Hprod & Hr).
  apply res_bind_Val in Hr as (idx & _ & Hr).
  apply res_bind_Val in Hr as (vs & _ & Hr).
  apply res_bind_Val in Hr as (labellist & _ & Hr).
  apply res_bind_Val in Hr as (ne & _ & Hr).
  apply res_bind_Val in Hr as (idx' & _ & Hr).
  apply res_bind_Val in Hr as (r1 & _ & Hr).
  apply res_bind_Val in Hr as (r2 & _ & Hr).
  injection Hr as <-. simpl. apply where_from_none.
  pose proof (broadcast_mul_nonzero _ _ _ Hprod H1 H2) as Hnz.
  apply Forall_fmap. eapply list.Forall_impl; [exact Hnz|].
  intros x Hx. by apply bool_decide_eq_false_2.
Qed.

(** X1. When every element of [p1] and of [p2] carries a label already,
    [expandlist] is empty, [idxlist] is never bound, and [tie_vector] cannot
    complete: it raises an exception on every state. *)
Theorem tie_vector_all_tied_raises depth p1 p2 st :
  Forall (λ t, t ≠ 0) (node_array p1 (ties st)) →
  Forall (λ t, t ≠ 0) (node_array p2 (ties st)) →
  ∃ e st', tie_vector depth p1 p2 st = Raise e st'.
Proof.
  intros H1 H2.
  destruct (tie_vector depth p1 p2 st) as [[] st'|e st'] eqn:Hrun; [|eauto].
  exfalso. unfold tie_vector in Hrun.
  apply bind_Done in Hrun as ([] & s1 & Hs1 & Hrun).
  injection Hs1 as <-.
  apply bind_Done in Hrun as (r & s2 & Hr & Hrun).
  assert (Hexp : r.1.1 = []).
  { unfold _get_labels_vector in Hr.
    apply bind_Done in Hr as (label1 & sa & Ha & Hr).
    rewrite stacked_labels_eq in Ha. destruct (leaves p1); [done|].
    injection Ha as <- <-.
    apply bind_Done in Hr as (label2 & sb & Hb & Hr).
    rewrite stacked_labels_eq in Hb. destruct (leaves p2); [done|].
    injection Hb as <- <-.
    apply lift_Done in Hr as [Hr _].
    by apply (labels_vector_no_expand _ _ _ Hr). }
  apply bind_Done in Hrun as (p1vals & s3 & _ & Hrun).
  rewrite Hexp in Hrun. simpl length in Hrun.
  rewrite decide_False in Hrun by lia.
  apply bind_Done in Hrun as (r' & s4 & Hr' & Hrun).
  injection Hr' as <- <-.
  apply bind_Done in Hrun as ([] & s5 & _ & Hrun).
  apply bind_Done in Hrun as ([] & s6 & _ & Hrun).
  by apply bind_Done in Hrun as (idxlist & s7 & Hidx & _).
Qed.

(** *** Computations that always return *)

Lemma total_ret {A} (a : A) : total (ret a).
Proof. intros st. by eexists _, _. Qed.

Lemma total_gets {A} (f : Model → A) : total (gets f).
Proof. intros st. by eexists _, _. Qed.

Lemma total_modify f : total (modify f).
Proof. intros st. by eexists _, _. Qed.

Lemma total_bind {A B} (m : M A) (k : A → M B) :
  total m → (∀ a, total (k a)) → total (bind m k).
Proof.
  intros Hm Hk st. destruct (Hm st) as (a & st' & Ha).
  destruct (Hk a st') as (b & st'' & Hb). exists b, st''.
  by rewrite (bind_eq _ _ _ _ _ Ha).
Qed.

Lemma total_for_each {A S} (body : A → S → M S) l s :
  (∀ a s, total (body a s)) → total (for_each body l s).
Proof.
  intros Hbody. revert s. induction l as [|a l IH]; intros s.
  - apply total_ret.
  - simpl. apply total_bind; [apply Hbody|apply IH].
Qed.

Lemma total_traverse {S} (func : Param → S → M S) p s :
  (∀ x s, total (func x s)) → total (_traverse_param func p s).
Proof.
  intros Hf st. rewrite _traverse_param_leaves.
  by apply (total_for_each func (leaves p) s Hf).
Qed.

Lemma total__set_labels plist labels : total (_set_labels plist labels).
Proof.
  unfold _set_labels. case_decide as Hlen.
  - apply total_for_each. intros p s. apply total_traverse. intros x s'.
    destruct labels as [|l0 labels]; [done|]. simpl.
    apply total_bind; [apply total_ret|]. intros l. apply total_modify.
  - apply total_for_each. intros p s.
    apply total_bind; [|intros; apply total_ret].
    apply total_traverse. intros x s'.
    apply total_bind; [apply total_modify|]. intros; apply total_ret.
Qed.

Lemma total__sync_val_pair p1 p2 :
  leaves p1 ≠ [] → total (_sync_val_pair p1 p2).
Proof.
  intros Hne. unfold _sync_val_pair. apply total_bind.
  - intros st. unfold _get_vals.
    rewrite (bind_eq _ _ _ _ _
               (eq_trans (_traverse_param_leaves _ _ _ _)
                         (collect_slices param_array (leaves p1) [] st))).
    simpl app. destruct (leaves p1); [done|]. by eexists _, _.
  - intros p1val. apply total_bind; [|intros; apply total_ret].
    apply total_traverse. intros x s.
    apply total_bind; [apply total_modify|]. intros; apply total_ret.
Qed.

Lemma select_none {A} m (a : list A) :
  Forall (λ b, b = false) m → np.select m a = [].
Proof.
  intros Hm. revert a. induction Hm as [|b m -> _ IH]; intros [|x a]; try done.
  simpl. apply IH.
Qed.

Lemma count_true_none m : Forall (λ b, b = false) m → np.count_true m = 0%nat.
Proof. induction 1 as [|b m -> _ IH]; [done|]. simpl. by rewrite IH. Qed.

Lemma scatter_none {A} m (a vs : list A) :
  Forall (λ b, b = false) m → np.scatter m a vs = a.
Proof.
  intros Hm. revert a. induction Hm as [|b m -> _ IH]; intros [|x a]; try done.
  simpl. by rewrite IH.
Qed.

Lemma zip_with_andb_false_l m1 m2 :
  Forall (λ b, b = false) m1 → Forall (λ b, b = false) (zip_with andb m1 m2).
Proof.
  intros Hm. revert m2. induction Hm as [|b m -> _ IH]; intros [|c m2];
    simpl; constructor; [done|apply IH].
Qed.

Lemma zip_with_andb_false_r m1 m2 :
  Forall (λ b, b = false) m2 → Forall (λ b, b = false) (zip_with andb m1 m2).
Proof.
  intros Hm. revert m1. induction Hm as [|b m -> _ IH]; intros [|c m1];
    simpl; constructor; [by destruct c|apply IH].
Qed.

Lemma broadcast_same_length {A B C} (f : A → B → C) a b :
  length a = length b → np.broadcast f a b = Val (zip_with f a b).
Proof. intros. unfold np.broadcast. by rewrite decide_True. Qed.

Lemma mask_get_eq {A} (a : list A) m :
  length m = length a → np.mask_get a m = Val (np.select m a).
Proof. intros. unfold np.mask_get. by rewrite decide_True. Qed.

Lemma res_bind_eq {A B} (k : A → res B) a : Val a ≫= k = k a.
Proof. reflexivity. Qed.

(** Both sides carry the same labels: nothing to expand, nothing to merge,
    and the labels of [p1] come back. *)
Lemma labels_vector_same l :
  Forall (λ t, t ≠ 0) l → labels_vector l l = Val ([], ([], []), l).
Proof.
  intros Hl. unfold labels_vector.
  assert (Hprod : Forall (λ b, b = false)
            ((λ x, bool_decide (x = 0)) <$> zip_with Z.mul l l)).
  { apply Forall_fmap. induction Hl as [|x l Hx _ IH]; simpl; constructor;
      [|done]. simpl. apply bool_decide_eq_false_2. lia. }
  assert (Hz : Forall (λ b, b = false) ((λ x, bool_decide (x = 0)) <$> l)).
  { apply Forall_fmap. eapply list.Forall_impl; [exact Hl|].
    intros x Hx. by apply bool_decide_eq_false_2. }
  assert (Hne : Forall (λ b, b = false)
            (zip_with (λ x y, bool_decide (x ≠ y)) l l)).
  { clear. induction l as [|x l IH]; simpl; constructor; [|done].
    apply bool_decide_eq_false_2. by intros ?. }
  rewrite (broadcast_same_length Z.mul), res_bind_eq by done.
  rewrite (broadcast_same_length andb), res_bind_eq by (by rewrite !length_fmap).
  set (idx := zip_with andb _ _).
  assert (Hidx : Forall (λ b, b = false) idx)
    by (by apply zip_with_andb_false_l).
  assert (Hlidx : length idx = length l).
  { unfold idx. rewrite length_zip_with, !length_fmap. lia. }
  rewrite (mask_get_eq l idx), res_bind_eq by done.
  rewrite (select_none _ _ Hidx).
  unfold np.mask_set_arr. rewrite decide_True by done.
  rewrite decide_True by (by rewrite count_true_none).
  rewrite res_bind_eq, (scatter_none _ _ _ Hidx).
  rewrite (broadcast_same_length (λ x y, bool_decide (x ≠ y))), res_bind_eq
    by done.
  rewrite (broadcast_same_length andb), res_bind_eq
    by (by rewrite length_fmap, !length_zip_with).
  set (idx' := zip_with andb _ _).
  assert (Hidx' : Forall (λ b, b = false) idx')
    by (by apply zip_with_andb_false_r).
  assert (Hlidx' : length idx' = length l).
  { unfold idx'. rewrite length_zip_with, !length_fmap, !length_zip_with. lia. }
  rewrite (mask_get_eq l idx'), !res_bind_eq by done.
  unfold np.where_. rewrite (where_from_none _ _ Hprod).
  by rewrite !(select_none _ _ Hidx').
Qed.

Lemma _get_labels_vector_same p1 p2 st :
  leaves p1 ≠ [] → leaves p2 ≠ [] →
  node_array p2 (ties st) = node_array p1 (ties st) →
  Forall (λ t, t ≠ 0) (node_array p1 (ties st)) →
  _get_labels_vector p1 p2 st
  = Done ([], ([], []), node_array p1 (ties st)) st.
Proof.
  intros Hne1 Hne2 Heq Hnz. unfold _get_labels_vector.
  assert (H1 : stacked_labels p1 st = Done (node_array p1 (ties st)) st).
  { rewrite stacked_labels_eq. by destruct (leaves p1). }
  assert (H2 : stacked_labels p2 st = Done (node_array p2 (ties st)) st).
  { rewrite stacked_labels_eq. by destruct (leaves p2). }
  rewrite (bind_eq _ _ _ _ _ H1), (bind_eq _ _ _ _ _ H2), Heq.
  by rewrite (labels_vector_same _ Hnz).
Qed.

(** X2. The no-op case of [tie_vector] fails: when [p1] and [p2] carry the
    same labels, none of them 0, the call raises [UnboundLocalError], because
    [idxlist] is bound only when some position needs a new slot. *)
Theorem tie_vector_same_labels_raises depth p1 p2 st :
  leaves p1 ≠ [] → leaves p2 ≠ [] →
  node_array p2 (ties st) = node_array p1 (ties st) →
  Forall (λ t, t ≠ 0) (node_array p1 (ties st)) →
  ∃ st', tie_vector depth p1 p2 st = Raise UnboundLocalError st'.
Proof.
  intros Hne1 Hne2 Heq Hnz. unfold tie_vector.
  rewrite (bind_eq _ _ _ _ _ (update_model_false _ st)).
  set (s1 := with_updates false st).
  rewrite (bind_eq _ _ _ _ _
             (_get_labels_vector_same p1 p2 s1 Hne1 Hne2 Heq Hnz)).
  destruct (total__sync_val_pair p1 p2 Hne1 s1) as (p1vals & s2 & Hs2).
  rewrite (bind_eq _ _ _ _ _ Hs2). cbn [fst snd length].
  rewrite !decide_False by lia. mstep.
  destruct (total__set_labels [p1; p2] (node_array p1 (ties s1)) s2)
    as ([] & s3 & Hs3).
  rewrite (bind_eq _ _ _ _ _ Hs3). by exists s3.
Qed.

(** ** [tie_together] without leaves *)

(** X3. [tie_together] on a list that holds no leaf (the empty list, or
    containers without parameters) raises [ValueError] when the labels are
    stacked: nothing has been written by then, but the updates of the model
    stay suspended. *)
Theorem tie_together_no_leaves depth plist st :
  flat_map leaves plist = [] →
  tie_together depth plist st = Raise ValueError (with_updates false st).
Proof.
  intros Hnil. unfold tie_together.
  rewrite (bind_eq _ _ _ _ _ (update_model_false _ st)).
  apply bind_raise. unfold _get_labels.
  erewrite bind_eq by (rewrite for_each_traverse; apply collect_slices).
  by rewrite Hnil.
Qed.

(** ** [propagate_val] *)

Lemma propagate_group_eq st k lb i l ti :
  buffers_ok st k lb → (i < k)%nat →
  lb !! slot_pos st k i = Some l →
  param_array st !! slot_pos st k i = Some ti →
  propagate_group k i tt st
  = Done tt (with_tree (paint (group_of l lb) ti (tree st)) st).
Proof.
  intros Hok Hi Hl Hti. unfold propagate_group.
  mstep. rewrite (group_mask_eq st k lb i l Hok Hi Hl). mstep.
  unfold tied_value. fold (slot_pos st k i). rewrite Hti. mstep.
  unfold np.mask_update. rewrite decide_True; [done|].
  rewrite length_group_of. by destruct Hok.
Qed.

Lemma propagate_loop_eq st k lb js :
  buffers_ok st k lb → Forall (λ i, (i < k)%nat) js →
  for_each (propagate_group k) js tt st
  = Done tt (with_tree (foldl (propagate_step lb (tied_offset st k)) (tree st) js)
                       st).
Proof.
  revert st. induction js as [|i js IH]; intros st Hok Hjs.
  - simpl. by rewrite with_tree_id.
  - apply Forall_cons_1 in Hjs as [Hi Hjs].
    destruct (slot_lookups st k lb i Hok Hi) as (l & c & Hl & Hc).
    assert (Hti : param_array st !! slot_pos st k i = Some (value c)).
    { unfold param_array. by rewrite list_lookup_fmap, Hc. }
    simpl for_each.
    rewrite (bind_eq _ _ _ _ _
               (propagate_group_eq st k lb i l (value c) Hok Hi Hl Hti)).
    assert (Hlen : length (paint (group_of l lb) (value c) (tree st))
                   = length (tree st)).
    { apply length_paint. rewrite length_group_of. by destruct Hok. }
    rewrite IH; [|by apply buffers_ok_with_tree|done].
    assert (Hoff : tied_offset (with_tree (paint (group_of l lb) (value c)
                                                 (tree st)) st) k
                   = tied_offset st k).
    { unfold tied_offset. simpl. by rewrite Hlen. }
    rewrite Hoff, with_tree_with_tree. simpl foldl.
    assert (Hstep : propagate_step lb (tied_offset st k) (tree st) i
              = paint (group_of l lb) (value c) (tree st)).
    { unfold propagate_step. unfold slot_pos, param_array in *.
      by rewrite Hl, Hti. }
    by rewrite Hstep.
Qed.

Lemma length_propagate_fold lb off js t :
  length lb = length t →
  length (foldl (propagate_step lb off) t js) = length t.
Proof.
  revert t. induction js as [|i js IH]; intros t Hlen; [done|].
  simpl. assert (Hl : length (propagate_step lb off t i) = length t).
  { unfold propagate_step. destruct (lb !! _); [|done].
    destruct (_ !! _); [|done]. apply length_paint.
    by rewrite length_group_of. }
  rewrite IH; [done|congruence].
Qed.

Lemma propagate_fold_same_but_value lb off js t :
  length lb = length t →
  Forall2 same_but_value t (foldl (propagate_step lb off) t js).
Proof.
  revert t. induction js as [|i js IH]; intros t Hlen.
  - apply same_but_value_refl.
  - simpl.
    assert (Hstep : Forall2 same_but_value t (propagate_step lb off t i)
                    ∧ length lb = length (propagate_step lb off t i)).
    { unfold propagate_step. destruct (lb !! _); cycle 1.
      { split; [apply same_but_value_refl|done]. }
      destruct (_ !! _); cycle 1.
      { split; [apply same_but_value_refl|done]. }
      split.
      - apply paint_same_but_value. by rewrite length_group_of.
      - rewrite length_paint; [done|by rewrite length_group_of]. }
    destruct Hstep as [H1 H2].
    eapply same_but_value_trans; [exact H1|apply IH, H2].
Qed.

(** The loop of [propagate_val] when the slots carry pairwise different
    labels: each group receives the value its slot held at the start, and
    positions outside the groups are left alone. *)
Lemma propagate_fold_distinct lb off js t :
  length lb = length t →
  NoDup ((λ i, lb !! (off + i)%nat) <$> js) →
  let r := foldl (propagate_step lb off) t js in
  (∀ i l ti p c, i ∈ js → lb !! (off + i)%nat = Some l →
     (value <$> t) !! (off + i)%nat = Some ti →
     lb !! p = Some l → t !! p = Some c →
     r !! p = Some (set_value ti c))
  ∧ (∀ p, (∀ i, i ∈ js → lb !! (off + i)%nat ≠ lb !! p) → r !! p = t !! p).
Proof.
  revert t. induction js as [|i js IH]; intros t Hlen Hnd r.
  { subst r. simpl. split.
    - intros i l ti p c Hi. by apply elem_of_nil in Hi.
    - done. }
  rewrite fmap_cons in Hnd. apply list.NoDup_cons in Hnd as [Hi Hnd].
  subst r. simpl foldl.
  destruct (lb !! (off + i)%nat) as [l|] eqn:Hl; cycle 1.
  { assert (Hstep : propagate_step lb off t i = t).
    { unfold propagate_step. by rewrite Hl. }
    rewrite Hstep. destruct (IH t Hlen Hnd) as (IH1 & IH2). split.
    - intros i' l' ti p c [->|Hi']%elem_of_cons; [congruence|]. by apply IH1.
    - intros p Hp. apply IH2. intros j Hj. apply Hp. by right. }
  destruct ((value <$> t) !! (off + i)%nat) as [ti|] eqn:Hti; cycle 1.
  { apply lookup_ge_None in Hti. apply lookup_lt_Some in Hl.
    rewrite length_fmap in Hti. lia. }
  set (t1 := paint (group_of l lb) ti t).
  assert (Hstep : propagate_step lb off t i = t1).
  { unfold propagate_step. by rewrite Hl, Hti. }
  rewrite Hstep.
  assert (Hlen1 : length lb = length t1).
  { unfold t1. rewrite length_paint; [done|by rewrite length_group_of]. }
  destruct (IH t1 Hlen1 Hnd) as (IH1 & IH2).
  assert (Hother : ∀ j l', j ∈ js → lb !! (off + j)%nat = Some l' → l' ≠ l).
  { intros j l' Hj Hl' ->. apply Hi. rewrite <- Hl'.
    apply list_elem_of_fmap. by exists j. }
  split.
  - intros i' l' ti' p c [->|Hi']%elem_of_cons Hl' Hti' Hp Hc.
    + assert (l' = l) as -> by congruence.
      assert (ti' = ti) as -> by congruence.
      rewrite IH2.
      * unfold t1. rewrite lookup_paint_group, Hc by done. simpl.
        by rewrite bool_decide_true.
      * intros j Hj. rewrite Hp. intros Heq. apply Hi.
        rewrite <- Heq. apply list_elem_of_fmap. by exists j.
    + pose proof (Hother i' l' Hi' Hl') as Hne.
      apply (IH1 i' l' ti' p c Hi' Hl'); try done.
      * unfold t1. by rewrite (paint_other_values l l').
      * unfold t1. by rewrite (paint_other_label l l').
  - intros p Hp. rewrite IH2.
    + unfold t1. rewrite lookup_paint_group by done.
      rewrite bool_decide_false; [by destruct (t !! p)|].
      intros Heq. apply (Hp i); [by left|congruence].
    + intros j Hj. apply Hp. by right.
Qed.

(** X4. [propagate_val], for a model whose buffers are up to date and whose
    slots carry pairwise different labels: every position of a group receives
    the value its slot holds, positions outside the groups keep their value,
    no label, gradient or constraint is touched, the one-shot flag is set, and
    a change check run next finds nothing to repair. *)
Theorem propagate_val_spec st k lb :
  buffers_ok st k lb → NoDup (drop (tied_offset st k) lb) →
  ∃ st', propagate_val st = Done tt st'
    ∧ _PROPAGATE_VAL_ st' = true
    ∧ Forall2 same_but_value (tree st) (tree st')
    ∧ (∀ i p, (i < k)%nat → member lb st k i p →
         param_array st' !! p = param_array st !! slot_pos st k i)
    ∧ (∀ p, (∀ i, (i < k)%nat → ¬ member lb st k i p) →
         param_array st' !! p = param_array st !! p)
    ∧ _check_change st' = Done false st'.
Proof.
  intros Hok Hnd. pose proof Hok as [Htied Hsize Hlb Hlen Hidx].
  set (off := tied_offset st k).
  assert (Hoff : length lb = (off + k)%nat).
  { unfold off, tied_offset. lia. }
  destruct (propagate_fold_distinct lb off (seq 0 k) (tree st) Hlen
              (slot_labels_distinct lb off k Hoff Hnd)) as (H1 & H2).
  set (r := foldl (propagate_step lb off) (tree st) (seq 0 k)) in *.
  assert (Hlr : length r = length (tree st)).
  { by apply length_propagate_fold. }
  assert (Hrun : propagate_val st
                 = Done tt (with_PROPAGATE_VAL_ true (with_tree r st))).
  { unfold propagate_val. mstep. rewrite Htied.
    rewrite (bind_eq _ _ _ _ _ (propagate_loop_eq st k lb (seq 0 k) Hok
                                  (Forall_seq_lt k))).
    done. }
  set (st' := with_PROPAGATE_VAL_ true (with_tree r st)).
  assert (Hgroup : ∀ i l p, (i < k)%nat → lb !! (off + i)%nat = Some l →
            lb !! p = Some l →
            (value <$> r) !! p = (value <$> tree st) !! (off + i)%nat).
  { intros i l p Hi Hl Hp.
    destruct (slot_lookups st k lb i Hok Hi) as (l' & cs & Hl' & Hcs).
    unfold slot_pos in Hl', Hcs. fold off in Hl', Hcs.
    assert (l' = l) as -> by congruence.
    destruct (lookup_lt_is_Some_2 (tree st) p) as [c Hc].
    { apply lookup_lt_Some in Hp. lia. }
    rewrite !list_lookup_fmap, Hcs.
    rewrite (H1 i l (value cs) p c); try done.
    - apply elem_of_seq. lia.
    - by rewrite list_lookup_fmap, Hcs. }
  assert (Hok' : buffers_ok st' k lb).
  { eapply buffers_ok_ext; [by apply (buffers_ok_with_tree st k lb r)|done..]. }
  exists st'. split_and!.
  - exact Hrun.
  - done.
  - by apply propagate_fold_same_but_value.
  - intros i p Hi (l & Hl & Hp). unfold slot_pos in *. fold off in Hl |- *.
    by apply (Hgroup i l).
  - intros p Hp. unfold param_array. change (tree st') with r.
    rewrite !list_lookup_fmap, H2; [done|].
    intros i Hi%elem_of_seq Heq.
    destruct (slot_lookups st k lb i Hok) as (l & cs & Hl & _); [lia|].
    apply (Hp i); [lia|]. exists l. split; [done|].
    unfold slot_pos in Hl. fold off in Hl. congruence.
  - apply (_check_change_idempotent st' k lb Hok').
    change (tree st') with r.
    replace (tied_offset st' k) with off
      by (unfold off, tied_offset; simpl; by rewrite Hlr).
    intros i l Hi Hl p q c d Hp Hq Hc Hd.
    pose proof (Hgroup i l p Hi Hl Hp) as Hvp.
    pose proof (Hgroup i l q Hi Hl Hq) as Hvq.
    rewrite list_lookup_fmap, Hc in Hvp. rewrite list_lookup_fmap, Hd in Hvq.
    simpl in Hvp, Hvq. congruence.
Qed.

(** ** The change check and the handler of the notification *)

(** X5. The change check settles the groups: it returns, writes values only,
    leaves every group with one common value (whatever the labels of the
    slots), and a second check reports no change and writes nothing. *)
Theorem check_change_settles st k lb :
  buffers_ok st k lb →
  ∃ changed st',
    _check_change st = Done changed st'
    ∧ Forall2 same_but_value (tree st) (tree st')
    ∧ consistent lb (tied_offset st k) k (tree st')
    ∧ _check_change st' = Done false st'.
Proof.
  intros Hok. eexists _, _. split; [apply (_check_change_eq st k lb Hok)|].
  destruct (_check_change_consistent st k lb _ _ Hok
              (_check_change_eq st k lb Hok)) as (Hok' & Hoff & Hsame & Hcons & _).
  split_and!; [done|done|].
  apply (_check_change_idempotent _ k lb Hok'). by rewrite Hoff.
Qed.

(** X6. With the one-shot flag set, the handler of a notification from the
    tree clears the flag and the optimizer copy mark, skips the change check
    and writes gradients only: values, labels and constraints stay as they
    are, also in a group that does not agree with its slot. *)
Theorem handler_consumes_flag d st k lb :
  buffers_ok st k lb → _PROPAGATE_VAL_ st = true →
  ∃ st', _parameters_changed_notification (S d) the_tree st = Done tt st'
    ∧ _PROPAGATE_VAL_ st' = false
    ∧ _optimizer_copy_transformed st' = false
    ∧ Forall2 same_but_grad (tree st) (tree st').
Proof.
  intros Hok Hflag.
  set (s := with_optimizer_copy_transformed false st).
  assert (Hoks : buffers_ok s k lb) by by apply (buffers_ok_ext st).
  destruct (parameters_changed_flag d s k lb Hoks Hflag) as (t' & Heq & Hg).
  exists (with_tree t' (with_PROPAGATE_VAL_ false s)). by split_and!.
Qed.

(** X7. Without the flag, the handler of a notification from the tree returns
    after re-entering itself at most once (a nesting depth of two is enough).
    It keeps the store, the buffers, the length of the tree and every label
    and constraint, leaves the flag unset, leaves every group with one common
    value, and does not touch the values of a group that agreed before. *)
Theorem handler_repairs_groups d st k lb :
  buffers_ok st k lb → _PROPAGATE_VAL_ st = false →
  ∃ st', _parameters_changed_notification (S (S d)) the_tree st = Done tt st'
    ∧ _PROPAGATE_VAL_ st' = false
    ∧ tied_param st' = tied_param st ∧ label_buf st' = label_buf st
    ∧ buf_idx st' = buf_idx st
    ∧ length (tree st') = length (tree st)
    ∧ Forall2 same_labels (tree st) (tree st')
    ∧ consistent lb (tied_offset st k) k (tree st')
    ∧ (∀ l p, uniform lb l (tree st) → lb !! p = Some l →
         param_array st' !! p = param_array st !! p).
Proof.
  intros Hok Hflag.
  set (s := with_optimizer_copy_transformed false st).
  assert (Hoks : buffers_ok s k lb) by by apply (buffers_ok_ext st).
  destruct (parameters_changed_check d s k lb Hoks Hflag)
    as (t' & b & Heq & Hlen & Hlab & Hcons & Hfix).
  exists (with_optimizer_copy_transformed b (with_tree t' s)).
  by split_and!.
Qed.

(** ** Growing and shrinking the slot store *)

Lemma _expand_tie_param_eq num st :
  store_ok st → tied_param st ≠ Some 0%nat →
  let n := length (slot_labels st) in
  _expand_tie_param num st
  = Done (range (fresh_label st) num, seq n num)
         (with_tied (take (raw_size st) (tree st)
                     ++ fresh_param (np_empty st)
                          (slot_values st ++ (np_empty st <$> seq n num))
                          (slot_labels st ++ range (fresh_label st) num))
                    (Some (n + num)%nat) st).
Proof.
  intros Hs Hn0 n. unfold store_ok in Hs.
  destruct (tied_param st) as [k|] eqn:Htied.
  - assert (Hn : n = k) by by apply length_slot_labels.
    destruct (slot_labels st) as [|x rest] eqn:Hl.
    { unfold n in Hn. simpl in Hn. by subst k. }
    unfold _expand_tie_param. mstep. rewrite Htied.
    rewrite !slice_tied
      by (done || unfold ties, param_array; by rewrite length_fmap).
    unfold fresh_label, raw_size, slot_labels, slot_values in *.
    rewrite Htied in *. rewrite Hl. mstep. by rewrite Hn.
  - unfold _expand_tie_param. mstep. rewrite Htied. mstep.
    unfold n, fresh_label, raw_size, slot_labels, slot_values.
    rewrite Htied. simpl. by rewrite take_ge by lia.
Qed.

Lemma elem_of_range start num l :
  l ∈ range start num ↔ start ≤ l < start + Z.of_nat num.
Proof.
  unfold range. rewrite list_elem_of_fmap. split.
  - intros (i & -> & Hi%elem_of_seq). lia.
  - intros Hl. exists (Z.to_nat (l - start)). split; [lia|].
    apply elem_of_seq. lia.
Qed.

(** X8. [_expand_tie_param num] on a store that fits the tree (or on a model
    without store): it returns [num] consecutive labels, each larger than
    every label of a slot, and the indices of the new slots behind the old
    ones; the raw positions keep their cells and the old slots keep label and
    value, in their order. *)
Theorem expand_tie_param_spec num st :
  store_ok st → tied_param st ≠ Some 0%nat →
  let n := length (slot_labels st) in
  ∃ labellist st',
    _expand_tie_param num st = Done (labellist, seq n num) st'
    ∧ labellist = range (fresh_label st) num
    ∧ (∀ l l', l ∈ labellist → l' ∈ slot_labels st → l' < l)
    ∧ tied_param st' = Some (n + num)%nat
    ∧ raw_size st' = raw_size st
    ∧ take (raw_size st) (tree st') = take (raw_size st) (tree st)
    ∧ slot_labels st' = slot_labels st ++ labellist
    ∧ take n (slot_values st') = slot_values st.
Proof.
  intros Hs Hn0 n. eexists _, _.
  split; [apply (_expand_tie_param_eq num st Hs Hn0)|].
  set (st' := with_tied _ _ st).
  pose proof (raw_size_length st Hs) as Hlen. fold n in Hlen.
  assert (Hraw : length (take (raw_size st) (tree st)) = raw_size st).
  { rewrite length_take. lia. }
  assert (HnV : length (slot_values st) = n).
  { rewrite slot_values_drop, length_drop by done. unfold param_array.
    rewrite length_fmap. lia. }
  assert (Hlv : length (slot_values st ++ (np_empty st <$> seq n num))
                = length (slot_labels st ++ range (fresh_label st) num)).
  { rewrite !length_app, length_fmap, length_seq, length_range. lia. }
  assert (Hraw' : raw_size st' = raw_size st).
  { unfold raw_size at 1. simpl. unfold tied_offset. simpl.
    rewrite length_app, Hraw, length_fresh_param by done.
    rewrite length_app, length_range. fold n. lia. }
  assert (Hst' : store_ok st').
  { unfold store_ok. simpl.
    rewrite length_app, Hraw, length_fresh_param by done.
    rewrite length_app, length_range. fold n. lia. }
  split_and!.
  - done.
  - intros l l' Hl Hl'. apply elem_of_range in Hl.
    pose proof (fresh_label_gt st l' Hl'). lia.
  - done.
  - exact Hraw'.
  - simpl. by rewrite take_app_length'.
  - rewrite (slot_labels_drop st' Hst'), Hraw'. unfold ties. simpl.
    rewrite fmap_app, drop_app_length' by (by rewrite length_fmap).
    by rewrite fresh_param_ties.
  - rewrite (slot_values_drop st' Hst'), Hraw'. unfold param_array. simpl.
    rewrite fmap_app, drop_app_length' by (by rewrite length_fmap).
    rewrite fresh_param_values by done. by rewrite take_app_length'.
Qed.

Lemma replace_label_merge l0 rest t :
  l0 ∉ rest →
  replace_label ((λ l, (l, l0)) <$> rest) t
  = if decide (t ∈ rest) then l0 else t.
Proof.
  intros Hl0. unfold replace_label. revert t.
  induction rest as [|x rest IH]; intros t.
  - destruct (decide (t ∈ [])) as [Hin|_]; [|done].
    by apply elem_of_nil in Hin.
  - apply not_elem_of_cons in Hl0 as [Hne Hl0]. rewrite fmap_cons.
    change (foldl ?f t (?p :: ?l)) with (foldl f (f t p) l).
    rewrite (IH Hl0). cbn [fst snd].
    destruct (decide (t = x)) as [->|Hx].
    + destruct (decide (l0 ∈ rest)); [done|].
      destruct (decide (x ∈ x :: rest)) as [|Hn]; [done|].
      exfalso. apply Hn. by left.
    + destruct (decide (t ∈ rest)) as [Hin|Hin];
        destruct (decide (t ∈ x :: rest)) as [Hin'|Hin']; try done.
      * exfalso. apply Hin'. by right.
      * by apply elem_of_cons in Hin' as [?|?].
Qed.

Lemma length_filter_subset (T rest : list Z) :
  NoDup T → NoDup rest → (∀ l, l ∈ rest → l ∈ T) →
  length (filter (λ l, l ∈ rest) T) = length rest.
Proof.
  intros HT Hrest Hsub. apply Permutation_length, NoDup_Permutation.
  - by apply list.NoDup_filter.
  - done.
  - intros x. rewrite list_elem_of_filter. split; [by intros [? ?]|].
    intros Hx. split; [done|by apply Hsub].
Qed.

Lemma fmap_merge_kept l0 (rest T : list Z) :
  (λ t, if decide (t ∈ rest) then l0 else t) <$> filter (λ t, t ∉ rest) T
  = filter (λ t, t ∉ rest) T.
Proof.
  induction T as [|t T IH]; [done|]. rewrite filter_cons.
  destruct (decide (t ∉ rest)) as [Hn|Hn]; [|done].
  rewrite fmap_cons, IH. by rewrite decide_False.
Qed.

Lemma filter_all {A} (P : A → Prop) `{∀ x, Decision (P x)} (l : list A) :
  (∀ x, P x) → filter P l = l.
Proof.
  intros HP. induction l as [|x l IH]; [done|].
  rewrite filter_cons, decide_True by done. by f_equal.
Qed.

Lemma _merge_tie_labels_run l0 rest st k :
  tied_param st = Some k → (k ≤ length (tree st))%nat →
  NoDup (slot_labels st) → NoDup (l0 :: rest) →
  (∀ l, l ∈ l0 :: rest → l ∈ slot_labels st) →
  ∃ st',
    _merge_tie_labels (l0 :: rest) st = Done tt st'
    ∧ tied_param st' = Some (k - length rest)%nat
    ∧ raw_size st' = raw_size st
    ∧ slot_labels st' = filter (λ l, l ∉ rest) (slot_labels st)
    ∧ zip (slot_labels st') (slot_values st')
      = filter (λ lv, lv.1 ∉ rest) (zip (slot_labels st) (slot_values st))
    ∧ (∀ p, (p < raw_size st)%nat →
         tree st' !! p
         = (λ c, set_tie (if decide (tie c ∈ rest) then l0 else tie c) c)
             <$> tree st !! p)
    ∧ (∀ c, c ∈ tree st' → tie c ∉ rest)
    ∧ store_ok st'.
Proof.
  intros Htied Hk HndT Hnd Hsub.
  apply list.NoDup_cons in Hnd as [Hl0 Hndr].
  set (off := tied_offset st k).
  assert (HT : slot_labels st = drop off (ties st)).
  { unfold slot_labels. by rewrite Htied. }
  assert (HV : slot_values st = drop off (param_array st)).
  { unfold slot_values. by rewrite Htied. }
  assert (Hraw : raw_size st = off).
  { unfold raw_size. by rewrite Htied. }
  assert (HlT : length (slot_labels st) = k).
  { rewrite HT, length_drop. unfold ties, off, tied_offset.
    rewrite length_fmap. lia. }
  assert (HlV : length (slot_values st) = k).
  { rewrite HV, length_drop. unfold param_array, off, tied_offset.
    rewrite length_fmap. lia. }
  set (relabel := λ c, set_tie (if decide (tie c ∈ rest) then l0 else tie c) c).
  destruct rest as [|l1 rest'].
  { (* a single label: nothing happens *)
    exists st. split_and!; try done.
    - rewrite Htied. f_equal. simpl. lia.
    - symmetry. apply filter_all. intros. apply not_elem_of_nil.
    - symmetry. apply filter_all. intros. apply not_elem_of_nil.
    - intros p _. destruct (tree st !! p) as [c|]; [simpl|done].
      destruct (decide (tie c ∈ [])) as [Hin|_]; [by apply elem_of_nil in Hin|].
      by destruct c.
    - intros. apply not_elem_of_nil.
    - unfold store_ok. by rewrite Htied. }
  set (rest := l1 :: rest') in *.
  assert (Hrun : _merge_tie_labels (l0 :: rest)
                 = (_remove_tie_param rest ;;
                    hp <- gets _highest_parent_ ;;
                    _replace_labels hp ((λ l, (l, l0)) <$> rest))) by done.
  rewrite Hrun. clear Hrun.
  assert (Hrep : ∀ st1,
            (hp <- gets _highest_parent_ ;;
             _replace_labels hp ((λ l, (l, l0)) <$> rest)) st1
            = Done tt (with_tree (relabel <$> tree st1) st1)).
  { intros st1. rewrite _replace_labels_root. do 2 f_equal.
    apply list_fmap_ext. intros i c _. unfold relabel.
    by rewrite replace_label_merge. }
  assert (Hsplit : (length rest
                    + length (filter (λ l, l ∉ rest) (slot_labels st)))%nat = k).
  { pose proof (length_filter_split (λ l, l ∈ rest) (slot_labels st)) as Hs.
    rewrite length_filter_subset in Hs
      by (done || intros l Hl; apply Hsub; by right).
    rewrite HlT in Hs. exact Hs. }
  assert (Hkeep : l0 ∈ filter (λ l, l ∉ rest) (slot_labels st)).
  { apply list_elem_of_filter. split; [done|]. apply Hsub. by left. }
  assert (Hlt : (length rest < k)%nat).
  { apply list_elem_of_lookup in Hkeep as [i Hi].
    apply lookup_lt_Some in Hi. lia. }
  set (idx := negb <$> np.in1d (drop off (ties st)) rest).
  assert (Hidx : idx = negb <$> ((λ x, bool_decide (x ∈ rest))
                                   <$> slot_labels st)).
  { unfold idx. by rewrite <- HT. }
  assert (HselT : np.select idx (drop off (ties st))
                  = filter (λ l, l ∉ rest) (slot_labels st)).
  { rewrite <- HT, Hidx. apply (select_negb_filter_self (λ l, l ∈ rest)). }
  assert (Hcount : np.count_true idx = (k - length rest)%nat).
  { rewrite <- (length_select idx (drop off (ties st))).
    - rewrite HselT. lia.
    - rewrite <- HT, Hidx, !length_fmap. done. }
  rewrite (bind_eq _ _ _ _ _
             (_remove_tie_param_some st k rest Htied Hk Hlt Hcount)).
  rewrite Hrep. fold off. fold idx.
  set (n := (k - length rest)%nat).
  set (vals := np.select idx (drop off (param_array st))).
  set (labs := np.select idx (drop off (ties st))).
  set (st' := with_tree _ _). exists st'. split; [done|].
  assert (Hlv : length vals = length labs).
  { unfold vals, labs. rewrite !length_select; try done.
    - rewrite <- HT, Hidx, !length_fmap. done.
    - rewrite <- HV, Hidx, !length_fmap. congruence. }
  assert (Hll : length labs = n).
  { unfold labs. rewrite HselT. unfold n. lia. }
  assert (Hlto : length (take off (tree st)) = off).
  { rewrite length_take. unfold off, tied_offset. lia. }
  assert (Hoff' : tied_offset st' n = off).
  { unfold tied_offset. simpl.
    rewrite length_fmap, length_app, length_fresh_param by done. lia. }
  assert (HT' : slot_labels st' = filter (λ l, l ∉ rest) (slot_labels st)).
  { change (slot_labels st') with (drop (tied_offset st' n) (ties st')).
    rewrite Hoff'. unfold ties. simpl tree.
    rewrite !fmap_app, drop_app_length' by (by rewrite !length_fmap).
    rewrite <- list_fmap_compose.
    rewrite (list_fmap_ext (tie ∘ relabel)
               ((λ t, if decide (t ∈ rest) then l0 else t) ∘ tie)
               _ (λ _ _ _, eq_refl)).
    rewrite list_fmap_compose, fresh_param_ties by done.
    unfold labs. rewrite HselT. apply fmap_merge_kept. }
  assert (HV' : slot_values st' = vals).
  { change (slot_values st') with (drop (tied_offset st' n) (param_array st')).
    rewrite Hoff'. unfold param_array. simpl tree.
    rewrite !fmap_app, drop_app_length' by (by rewrite !length_fmap).
    rewrite <- list_fmap_compose.
    rewrite (list_fmap_ext (value ∘ relabel) value _ (λ _ _ _, eq_refl)).
    by rewrite fresh_param_values. }
  split_and!.
  - done.
  - change (raw_size st') with (tied_offset st' n). by rewrite Hoff'.
  - done.
  - rewrite HT', HV', <- HselT. fold labs. unfold labs, vals.
    rewrite zip_select, <- HT, <- HV, Hidx.
    rewrite (select_negb_filter (λ l, l ∈ rest))
      by (by rewrite length_zip, HlT, HlV, Nat.min_id).
    clear. generalize (slot_values st).
    induction (slot_labels st) as [|t T IH]; intros [|v V]; try done.
    cbn [zip zip_with]. rewrite !filter_cons. simpl.
    destruct (decide (t ∉ rest)); simpl; by rewrite IH.
  - intros p Hp. simpl. rewrite list_lookup_fmap.
    rewrite lookup_app_l by lia. rewrite lookup_take.
    rewrite Hraw in Hp. by rewrite decide_True.
  - intros c Hc. simpl in Hc. apply list_elem_of_fmap in Hc as (c0 & -> & _).
    unfold relabel. destruct c0 as [v g t cs]. simpl.
    destruct (decide (t ∈ rest)); done.
  - unfold store_ok. simpl.
    rewrite length_fmap, length_app, length_fresh_param by done. lia.
Qed.

(** X9. [_merge_tie_labels], for distinct labels that all own a slot of a
    store with distinct labels: the slots of all labels but the first are
    removed, the others keep label, value and order; every cell carrying one
    of the removed labels now carries the first label, and nothing else
    changes at a raw position; no removed label is left anywhere in the tree. *)
Theorem merge_tie_labels_spec l0 rest st k :
  tied_param st = Some k → (k ≤ length (tree st))%nat →
  NoDup (slot_labels st) → NoDup (l0 :: rest) →
  (∀ l, l ∈ l0 :: rest → l ∈ slot_labels st) →
  ∃ st',
    _merge_tie_labels (l0 :: rest) st = Done tt st'
    ∧ tied_param st' = Some (k - length rest)%nat
    ∧ raw_size st' = raw_size st
    ∧ slot_labels st' = filter (λ l, l ∉ rest) (slot_labels st)
    ∧ zip (slot_labels st') (slot_values st')
      = filter (λ lv, lv.1 ∉ rest) (zip (slot_labels st) (slot_values st))
    ∧ (∀ p, (p < raw_size st)%nat →
         tree st' !! p
         = (λ c, set_tie (if decide (tie c ∈ rest) then l0 else tie c) c)
             <$> tree st !! p)
    ∧ (∀ c, c ∈ tree st' → tie c ∉ rest).
Proof.
  intros Htied Hk HndT Hnd Hsub.
  destruct (_merge_tie_labels_run l0 rest st k Htied Hk HndT Hnd Hsub)
    as (st' & H1 & H2 & H3 & H4 & H5 & H6 & H7 & _).
  by exists st'.
Qed.
(** ** Which groups survive [untie] *)

Lemma slot_labels_drop_raw st :
  slot_labels st = drop (raw_size st) (ties st).
Proof.
  unfold slot_labels, raw_size. destruct (tied_param st); [done|].
  rewrite drop_ge; [done|]. unfold ties. by rewrite length_fmap.
Qed.

Lemma label_count_once xs l :
  NoDup xs → l ∈ xs → label_count xs l = 1%nat.
Proof.
  intros Hnd Hin. induction Hnd as [|x xs Hx Hnd IH]; [by apply elem_of_nil in Hin|].
  change (x :: xs) with ([x] ++ xs). rewrite label_count_app.
  apply elem_of_cons in Hin as [->|Hin].
  - rewrite (label_count_zero xs).
    + unfold label_count. simpl. by rewrite bool_decide_eq_true_2.
    + apply list.Forall_forall. intros y Hy ->. done.
  - rewrite (IH Hin). unfold label_count. simpl.
    rewrite bool_decide_eq_false_2; [done|]. by intros ->.
Qed.

Lemma label_count_ext xs ys l :
  Forall2 (λ x y, x = l ↔ y = l) xs ys →
  label_count xs l = label_count ys l.
Proof.
  unfold label_count. induction 1 as [|x y xs ys Hxy _ IH]; [done|].
  rewrite !fmap_cons. simpl. rewrite IH.
  by rewrite (bool_decide_ext _ _ Hxy).
Qed.

Lemma fmap_uint32_small xs :
  Forall (λ x, 0 ≤ x < 2 ^ 32) xs → np.uint32 <$> xs = xs.
Proof.
  induction 1 as [|x xs Hx _ IH]; [done|].
  by rewrite fmap_cons, IH, uint32_small.
Qed.

(** X10. [untie] keeps a tie group exactly when at least two of its members
    are left: for an existing label, if two or more raw positions carry it
    outside the untied parameters, the slot stays and the raw positions that
    carry the label afterwards are exactly those (so their number is the
    same); otherwise the label disappears from the whole tree, so that a
    last remaining member is untied as well. *)
Theorem untie_keeps_groups_of_two d plist st :
  store_ok st → valid_plist st plist →
  Forall (λ l, 0 < l < 2 ^ 32) (slot_labels st) → NoDup (slot_labels st) →
  Forall (λ t, 0 ≤ t < 2 ^ 32) (take (raw_size st) (ties st)) →
  let ls := flat_map leaves plist in
  let remaining := label_count (take (raw_size st) (cover_with ls 0 (ties st))) in
  ∃ st', untie (S (S d)) plist st = Done tt st'
    ∧ raw_size st' = raw_size st
    ∧ ∀ l, l ∈ slot_labels st →
        if decide (2 ≤ remaining l)%nat
        then l ∈ slot_labels st'
             ∧ (∀ p, (p < raw_size st)%nat →
                  ties st' !! p = Some l
                  ↔ ties st !! p = Some l ∧ ¬ covered ls p)
             ∧ label_count (take (raw_size st') (ties st')) l = remaining l
        else label_count (ties st') l = 0%nat.
Proof.
  intros Hst Hval Hrg Hnd Hraw ls remaining.
  destruct (untie_done d plist st Hst Hval Hrg)
    as (st' & Hrun & Hraw' & Hties & Hslots & _).
  fold ls in Hties, Hslots.
  set (raw := raw_size st) in *.
  set (T := take raw (ties st)) in *.
  set (lb := np.uint32 <$> cover_with ls 0 (ties st)) in *.
  set (pruned := λ l, (label_count lb l ≤ 2)%nat) in *.
  set (removed := filter pruned (slot_labels st)) in *.
  pose proof (raw_size_length st Hst) as Hlen. fold raw in Hlen.
  assert (HlT : length T = raw).
  { unfold T. rewrite length_take. unfold ties. rewrite length_fmap. lia. }
  assert (Hsplit : ties st = T ++ slot_labels st).
  { rewrite slot_labels_drop_raw. unfold T. by rewrite take_drop. }
  assert (Hlb : lb = cover_with ls 0 T ++ slot_labels st).
  { unfold lb. rewrite Hsplit at 1.
    rewrite cover_with_app by (by rewrite HlT).
    rewrite fmap_app. f_equal.
    - apply fmap_uint32_small. apply Forall_lookup. intros p x.
      rewrite lookup_cover_with. destruct (T !! p) as [t|] eqn:Ht; [|done].
      simpl. intros [= <-]. destruct (covered_dec ls p); [lia|].
      rewrite Forall_lookup in Hraw. exact (Hraw p t Ht).
    - apply fmap_uint32_small. eapply list.Forall_impl; [exact Hrg|].
      simpl. lia. }
  assert (Hleft : ∀ l, remaining l = label_count (cover_with ls 0 T) l).
  { intros l. unfold remaining. by rewrite cover_with_take. }
  assert (Hcount : ∀ l, l ∈ slot_labels st →
            label_count lb l = (remaining l + 1)%nat).
  { intros l Hl. rewrite Hlb, label_count_app, Hleft.
    by rewrite (label_count_once (slot_labels st)). }
  exists st'. split; [done|]. split; [done|]. intros l Hl.
  assert (Hlpos : l ≠ 0).
  { rewrite list.Forall_forall in Hrg. specialize (Hrg l Hl). lia. }
  destruct (decide (2 ≤ remaining l)%nat) as [Hge|Hlt].
  - assert (Hkeep : ¬ pruned l).
    { unfold pruned. rewrite (Hcount l Hl). lia. }
    assert (Hnr : l ∉ removed).
    { by intros [? _]%list_elem_of_filter. }
    split_and!.
    + rewrite Hslots. by apply list_elem_of_filter.
    + intros p Hp. rewrite (Hties p Hp). unfold ties.
      rewrite list_lookup_fmap.
      destruct (tree st !! p) as [c|]; simpl; [|by split; [|intros [? _]]].
      destruct (decide (covered ls p ∨ tie c ∈ removed)) as [Hd|Hd].
      * split; [intros [= Hz]; by subst l|].
        intros [[= Htie] Hnc]. destruct Hd as [?|Hr]; [done|].
        by rewrite Htie in Hr.
      * split.
        -- intros [= Htie]. split; [by rewrite Htie|]. tauto.
        -- by intros [? _].
    + rewrite Hleft, Hraw'. apply label_count_ext.
      assert (Hlen' : (raw ≤ length (ties st'))%nat).
      { destruct (decide (raw = 0)%nat) as [->|Hz]; [lia|].
        assert (Hp : (raw - 1 < raw)%nat) by lia.
        specialize (Hties _ Hp).
        destruct (tree st !! (raw - 1)%nat) as [c|] eqn:Hc.
        - apply lookup_lt_Some in Hties. lia.
        - apply lookup_ge_None in Hc. lia. }
      apply Forall2_same_length_lookup_2.
      { rewrite length_take, length_cover_with, HlT. lia. }
      intros p x y Hx Hy.
      assert (Hp : (p < raw)%nat).
      { apply lookup_lt_Some in Hx. rewrite length_take in Hx. lia. }
      rewrite lookup_take, decide_True in Hx by done.
      rewrite (Hties p Hp) in Hx.
      rewrite lookup_cover_with in Hy. unfold T in Hy.
      rewrite lookup_take, decide_True in Hy by done.
      unfold ties in Hy. rewrite list_lookup_fmap in Hy.
      destruct (tree st !! p) as [c|]; [|done]. simpl in Hx, Hy.
      injection Hx as <-. injection Hy as <-.
      destruct (covered_dec ls p) as [Hc|Hc].
      * by rewrite decide_True by (by left).
      * destruct (decide (tie c ∈ removed)) as [Hr|Hr].
        -- rewrite decide_True by (by right). split; [done|].
           intros Htie. rewrite Htie in Hr.
           apply list_elem_of_filter in Hr as [Hr _]. done.
        -- rewrite decide_False; [done|]. by intros [?|?].
  - assert (Hpr : pruned l).
    { unfold pruned. rewrite (Hcount l Hl). lia. }
    assert (Hrem : l ∈ removed) by (by apply list_elem_of_filter).
    apply label_count_zero, Forall_lookup. intros p x Hx ->.
    destruct (decide (p < raw)%nat) as [Hp|Hp].
    + rewrite (Hties p Hp) in Hx.
      destruct (tree st !! p) as [c|]; [|done]. simpl in Hx.
      injection Hx as Hx.
      destruct (decide (covered ls p ∨ tie c ∈ removed)) as [_|Hn];
        [done|].
      apply Hn. right. by rewrite Hx.
    + assert (Hin : l ∈ slot_labels st').
      { rewrite slot_labels_drop_raw, Hraw'. fold raw.
        apply list_elem_of_lookup. exists (p - raw)%nat.
        rewrite lookup_drop. rewrite <- Hx. f_equal. lia. }
      rewrite Hslots in Hin. apply list_elem_of_filter in Hin as [Hin _].
      done.
Qed.
(** ** Writing an array over the leaves of a node *)

Lemma _get_vals_eq p st :
  leaves p ≠ [] →
  _get_vals p st = Done (node_array p (param_array st)) st.
Proof.
  intros Hne. unfold _get_vals.
  rewrite (bind_eq _ _ _ _ _
             (eq_trans (_traverse_param_leaves _ _ _ _)
                       (collect_slices param_array (leaves p) [] st))).
  simpl app. unfold node_array. rewrite flat_map_concat_map.
  by destruct (leaves p).
Qed.

Section write_loop.
Context {X : Type} (get : Cell → X) (set : X → Cell → Cell).
Context (R : Cell → Cell → Prop).
Hypothesis get_set : ∀ x c, get (set x c) = x.
Hypothesis R_refl : ∀ c, R c c.
Hypothesis R_trans : ∀ c1 c2 c3, R c1 c2 → R c2 c3 → R c1 c3.
Hypothesis R_set : ∀ x c, R c (set x c).

(** The loop of [_set_val] and of [_set_list]: the leaves [ls] receive
    consecutive pieces of [vals], starting at offset [o]. *)
Lemma write_loop (vals : list X) ls o st :
  (o + length (flat_map _raveled_index_for ls) ≤ length vals)%nat →
  Forall (λ x, (offset x + size x ≤ length (tree st))%nat) ls →
  NoDup (flat_map _raveled_index_for ls) →
  ∃ t',
    for_each
      (λ (p : Param) (offset : nat),
         modify (λ st, with_tree
           (update_leaf
              (λ i c, set
                        (default (get c)
                           (take (size p) (drop offset vals)
                              !! (i `mod` length (take (size p) (drop offset vals)))%nat))
                        c)
              p (tree st)) st) ;;
         ret (offset + size p)%nat)
      ls o st
    = Done (o + length (flat_map _raveled_index_for ls))%nat (with_tree t' st)
    ∧ Forall2 R (tree st) t'
    ∧ (∀ p, p ∉ flat_map _raveled_index_for ls → t' !! p = tree st !! p)
    ∧ flat_map (λ x, slice x (get <$> t')) ls
      = take (length (flat_map _raveled_index_for ls)) (drop o vals).
Proof.
  revert o st. induction ls as [|x ls IH]; intros o st Hlen Hin Hnd.
  - exists (tree st). simpl. rewrite Nat.add_0_r. split_and!; try done.
    + by destruct st.
    + apply Forall_Forall2_diag, list.Forall_forall. by intros c _.
  - assert (Hlx : length (_raveled_index_for x) = size x).
    { unfold _raveled_index_for. apply length_seq. }
    cbn [flat_map] in Hlen, Hnd. rewrite length_app, Hlx in Hlen.
    apply list.NoDup_app in Hnd as (Hndx & Hdisj & Hndls).
    apply list.Forall_cons in Hin as [Hx Hin].
    set (vs := take (size x) (drop o vals)).
    assert (Hlvs : length vs = size x).
    { unfold vs. rewrite length_take, length_drop. lia. }
    set (f := λ (i : nat) c,
                set (default (get c) (vs !! (i `mod` length vs)%nat)) c).
    set (st1 := with_tree (update_leaf f x (tree st)) st).
    destruct (IH (o + size x)%nat st1) as (t' & Hrun & Hsame & Hout & Hvals).
    { lia. }
    { simpl. by rewrite length_update_leaf. }
    { done. }
    exists t'. split_and!.
    + cbn [for_each]. mstep. fold vs. fold f. fold st1.
      rewrite Hrun. cbn [flat_map]. rewrite length_app, Hlx.
      f_equal. lia.
    + eapply Forall2_trans; [exact R_trans| |exact Hsame]. simpl.
      apply Forall2_same_length_lookup_2; [by rewrite length_update_leaf|].
      intros p c c' Hc Hc'. rewrite lookup_update_leaf, Hc in Hc'.
      simpl in Hc'. injection Hc' as <-. unfold f.
      case_decide; [apply R_set|apply R_refl].
    + intros p Hp. cbn [flat_map] in Hp. rewrite elem_of_app in Hp.
      rewrite Hout by tauto. simpl.
      apply lookup_update_leaf_out. intros Hr. apply Hp. left.
      unfold _raveled_index_for. apply elem_of_seq. lia.
    + cbn [flat_map]. rewrite length_app, Hlx, Hvals.
      rewrite <- take_take_drop, drop_drop. f_equal. fold vs.
      apply list_eq. intros i. unfold slice.
      rewrite lookup_take, lookup_drop, list_lookup_fmap.
      destruct (decide (i < size x)%nat) as [Hi|Hi]; cycle 1.
      { symmetry. apply lookup_ge_None. lia. }
      rewrite Hout; cycle 1.
      { apply Hdisj. unfold _raveled_index_for. apply elem_of_seq. lia. }
      simpl. rewrite lookup_update_leaf_in by lia.
      destruct (lookup_lt_is_Some_2 (tree st) (offset x + i)%nat) as [c Hc];
        [lia|].
      rewrite Hc. simpl. unfold f.
      replace (offset x + i - offset x)%nat with i by lia.
      rewrite Hlvs, Nat.mod_small by done.
      destruct (lookup_lt_is_Some_2 vs i) as [v Hv]; [lia|].
      rewrite Hv. simpl. by rewrite get_set.
Qed.
End write_loop.

Lemma _sync_val_pair_run p1 p2 st :
  leaves p1 ≠ [] →
  length (node_array p1 (param_array st)) = length (node_positions p2) →
  Forall (λ x, (offset x + size x ≤ length (tree st))%nat) (leaves p2) →
  NoDup (node_positions p2) →
  ∃ t',
    _sync_val_pair p1 p2 st
    = Done (node_array p1 (param_array st)) (with_tree t' st)
    ∧ node_array p2 (value <$> t') = node_array p1 (param_array st)
    ∧ Forall2 same_but_value (tree st) t'
    ∧ (∀ p, p ∉ node_positions p2 → t' !! p = tree st !! p).
Proof.
  intros Hne Hlen Hin Hnd. unfold _sync_val_pair.
  rewrite (bind_eq _ _ _ _ _ (_get_vals_eq p1 st Hne)).
  set (vals := node_array p1 (param_array st)) in *.
  destruct (write_loop value set_value same_but_value) with
    (vals := vals) (ls := leaves p2) (o := 0%nat) (st := st)
    as (t' & Hrun & Hsame & Hout & Hv).
  { done. }
  { by intros c. }
  { intros c1 c2 c3 (? & ? & ?) (? & ? & ?). repeat split; congruence. }
  { by intros x []. }
  { fold (node_positions p2). lia. }
  { done. }
  { done. }
  exists t'. split_and!.
  - erewrite bind_eq; [done|]. rewrite _traverse_param_leaves. exact Hrun.
  - unfold node_array at 1. rewrite Hv.
    fold (node_positions p2). rewrite <- Hlen. simpl. apply take_ge. lia.
  - done.
  - done.
Qed.

(** X11. [_sync_val_pair], for two vectors of the same size where the leaves
    of the second lie inside the tree and do not overlap: the call returns the
    values of the first vector, the second vector then holds exactly these
    values, and nothing but the values at the positions of the second vector
    has changed. *)
Theorem sync_val_pair_copies p1 p2 st :
  leaves p1 ≠ [] →
  length (node_array p1 (param_array st)) = length (node_positions p2) →
  Forall (λ x, (offset x + size x ≤ length (tree st))%nat) (leaves p2) →
  NoDup (node_positions p2) →
  ∃ st',
    _sync_val_pair p1 p2 st = Done (node_array p1 (param_array st)) st'
    ∧ node_array p2 (param_array st') = node_array p1 (param_array st)
    ∧ Forall2 same_but_value (tree st) (tree st')
    ∧ (∀ p, p ∉ node_positions p2 → tree st' !! p = tree st !! p).
Proof.
  intros Hne Hlen Hin Hnd.
  destruct (_sync_val_pair_run p1 p2 st Hne Hlen Hin Hnd)
    as (t' & Hrun & Hv & Hsame & Hout).
  by exists (with_tree t' st).
Qed.
(** ** [tie_vector] where every pair gets a new slot *)

Lemma where_from_all i m :
  Forall (λ b, b = true) m → np.where_from i m = seq i (length m).
Proof.
  intros Hm. revert i. induction Hm as [|b m -> _ IH]; intros i; [done|].
  simpl. by rewrite IH.
Qed.

Lemma length_scatter {A} m (a vs : list A) :
  length (np.scatter m a vs) = length a.
Proof.
  revert a vs. induction m as [|b m IH]; intros [|x a] vs; try done.
  simpl. destruct b; [destruct vs|]; simpl; by rewrite IH.
Qed.

(** At every index one of the two sides is untied: every position needs a
    new slot and nothing is merged. *)
Lemma labels_vector_all_expand l1 l2 :
  Forall2 (λ a b, a = 0 ∨ b = 0) l1 l2 →
  ∃ ll, labels_vector l1 l2 = Val (seq 0 (length l1), ([], []), ll)
      ∧ length ll = length l1.
Proof.
  intros H12. pose proof (Forall2_length H12) as Hlen.
  unfold labels_vector.
  assert (Hprod : Forall (λ t, t = 0) (zip_with Z.mul l1 l2)).
  { clear Hlen. induction H12 as [|x y l1 l2 Hxy _ IH]; simpl; constructor.
    - destruct Hxy as [-> | ->]; lia.
    - exact IH. }
  assert (Hprod0 : Forall (λ b, b = true)
            ((λ x, bool_decide (x = 0)) <$> zip_with Z.mul l1 l2)).
  { apply Forall_fmap. eapply list.Forall_impl; [exact Hprod|].
    intros x ->. by apply bool_decide_eq_true_2. }
  assert (Hprodpos : Forall (λ b, b = false)
            ((λ x, bool_decide (0 < x)) <$> zip_with Z.mul l1 l2)).
  { apply Forall_fmap. eapply list.Forall_impl; [exact Hprod|].
    intros x ->. by apply bool_decide_eq_false_2. }
  rewrite (broadcast_same_length Z.mul), res_bind_eq by done.
  rewrite (broadcast_same_length andb), res_bind_eq by (by rewrite !length_fmap).
  set (idx := zip_with andb _ _).
  assert (Hlidx : length idx = length l1).
  { unfold idx. rewrite length_zip_with, !length_fmap. lia. }
  rewrite (mask_get_eq l2 idx), res_bind_eq by lia.
  unfold np.mask_set_arr. rewrite decide_True by done.
  rewrite decide_True by (rewrite length_select; [done|lia]).
  rewrite res_bind_eq.
  set (ll := np.scatter idx l1 _).
  rewrite (broadcast_same_length (λ x y, bool_decide (x ≠ y))), res_bind_eq
    by done.
  rewrite (broadcast_same_length andb), res_bind_eq
    by (by rewrite length_fmap, !length_zip_with).
  set (idx' := zip_with andb _ _).
  assert (Hidx' : Forall (λ b, b = false) idx')
    by (by apply zip_with_andb_false_l).
  assert (Hlidx' : length idx' = length l1).
  { unfold idx'. rewrite length_zip_with, !length_fmap, !length_zip_with. lia. }
  rewrite (mask_get_eq l1 idx'), res_bind_eq by done.
  rewrite (mask_get_eq l2 idx'), res_bind_eq by lia.
  unfold np.where_. rewrite (where_from_all _ _ Hprod0).
  rewrite !(select_none _ _ Hidx').
  exists ll. split.
  - by rewrite length_fmap, length_zip_with, <- Hlen, Nat.min_id.
  - unfold ll. apply length_scatter.
Qed.

Lemma put_idx_all {A} (a vs : list A) :
  length vs = length a → np.put_idx a (seq 0 (length a)) vs = Val vs.
Proof.
  intros Hlen. unfold np.put_idx. rewrite decide_True; cycle 1.
  { apply list.Forall_forall. intros i Hi%elem_of_seq. lia. }
  rewrite decide_True by (by rewrite length_seq). f_equal.
  assert (Hgen : ∀ (pre a vs : list A), length vs = length a →
            foldl (λ acc iv, <[iv.1 := iv.2]> acc) (pre ++ a)
                  (zip (seq (length pre) (length a)) vs)
            = pre ++ vs).
  { clear. intros pre a. revert pre.
    induction a as [|x a IH]; intros pre [|v vs] Hl; try done.
    simpl. rewrite insert_app_r_alt, Nat.sub_diag by lia. simpl.
    rewrite (cons_middle v pre a), app_assoc.
    replace (S (length pre)) with (length (pre ++ [v]))
      by (rewrite length_app; simpl; lia).
    rewrite IH by (simpl in Hl; lia). by rewrite <- app_assoc. }
  apply (Hgen [] a vs Hlen).
Qed.

Lemma put_idx_tail {A} (a b vs : list A) :
  length vs = length b →
  np.put_idx (a ++ b) (seq (length a) (length b)) vs = Val (a ++ vs).
Proof.
  intros Hlen. unfold np.put_idx. rewrite decide_True; cycle 1.
  { apply list.Forall_forall. intros i Hi%elem_of_seq.
    rewrite length_app. lia. }
  rewrite decide_True by (by rewrite length_seq). f_equal.
  revert a vs Hlen.
  induction b as [|x b IH]; intros a [|v vs] Hl; try done.
  simpl. rewrite insert_app_r_alt, Nat.sub_diag by lia. simpl.
  rewrite (cons_middle v a b), app_assoc.
  replace (S (length a)) with (length (a ++ [v]))
    by (rewrite length_app; simpl; lia).
  rewrite IH by (simpl in Hl; lia). by rewrite <- app_assoc.
Qed.

Lemma take_idx_all {A} (a : list A) :
  np.take_idx a (seq 0 (length a)) = Val a.
Proof.
  unfold np.take_idx.
  assert (Hgen : ∀ pre a : list A,
            mapM (λ i, (pre ++ a) !! i) (seq (length pre) (length a)) = Some a).
  { clear. intros pre a. revert pre. induction a as [|x a IH]; intros pre; [done|].
    cbn [length seq mapM]. rewrite lookup_app_r, Nat.sub_diag by lia. simpl.
    rewrite (cons_middle x pre a), app_assoc.
    replace (S (length pre)) with (length (pre ++ [x]))
      by (rewrite length_app; simpl; lia).
    by rewrite IH. }
  pose proof (Hgen [] a) as Hg. simpl in Hg. by rewrite Hg.
Qed.

Lemma length_node_positions p : length (node_positions p) = node_size p.
Proof.
  unfold node_positions, node_size.
  induction (leaves p) as [|x ls IH]; [done|].
  cbn [flat_map]. rewrite fmap_cons, length_app, IH.
  unfold _raveled_index_for. by rewrite length_seq.
Qed.

Lemma covered_positions ls q :
  covered ls q ↔ q ∈ flat_map _raveled_index_for ls.
Proof.
  unfold covered. induction ls as [|x ls IH].
  - split; [by intros ?%Exists_nil|by intros ?%elem_of_nil].
  - cbn [flat_map]. rewrite List.Exists_cons, elem_of_app, IH.
    unfold _raveled_index_for. rewrite elem_of_seq.
    split; (intros [?|?]; [left; lia|by right]).
Qed.

(** The array of a node, read position by position. *)
Lemma node_array_positions {A} p (l : list A) :
  Forall (λ x, (offset x + size x ≤ length l)%nat) (leaves p) →
  Forall2 (λ v q, l !! q = Some v) (node_array p l) (node_positions p).
Proof.
  unfold node_array, node_positions.
  induction (leaves p) as [|x ls IH]; intros Hv; [constructor|].
  apply list.Forall_cons in Hv as [Hx Hv]. cbn [flat_map].
  apply Forall2_app; [|by apply IH].
  apply Forall2_same_length_lookup_2.
  - rewrite length_slice by done. unfold _raveled_index_for.
    by rewrite length_seq.
  - intros i v q Hv' Hq. unfold slice in Hv'.
    apply lookup_take_Some in Hv' as [Hv' Hi]. rewrite lookup_drop in Hv'.
    unfold _raveled_index_for in Hq. apply lookup_seq in Hq as [-> _]. done.
Qed.

Lemma node_array_ext {A} p (l l' : list A) :
  (∀ q, q ∈ node_positions p → l !! q = l' !! q) →
  node_array p l = node_array p l'.
Proof.
  unfold node_array, node_positions.
  induction (leaves p) as [|x ls IH]; intros Hq; [done|].
  cbn [flat_map] in *. f_equal.
  - apply list_eq. intros i. unfold slice. rewrite !lookup_take, !lookup_drop.
    case_decide; [|done]. apply Hq, elem_of_app. left.
    unfold _raveled_index_for. apply elem_of_seq. lia.
  - apply IH. intros q Hin. apply Hq, elem_of_app. by right.
Qed.

(** [_set_labels] on two disjoint vectors of the size of [labels]: both
    carry [labels] afterwards, and only labels at their positions change. *)
Lemma _set_labels_pair p1 p2 labels st :
  Forall (λ x, (offset x + size x ≤ length (tree st))%nat) (leaves p1) →
  Forall (λ x, (offset x + size x ≤ length (tree st))%nat) (leaves p2) →
  NoDup (node_positions p1 ++ node_positions p2) →
  length labels = node_size p1 → node_size p2 = node_size p1 →
  (0 < node_size p1)%nat →
  ∃ t',
    _set_labels [p1; p2] labels st = Done tt (with_tree t' st)
    ∧ Forall2 same_but_tie (tree st) t'
    ∧ node_array p1 (tie <$> t') = labels
    ∧ node_array p2 (tie <$> t') = labels
    ∧ (∀ q, q ∉ node_positions p1 ++ node_positions p2 →
         t' !! q = tree st !! q).
Proof.
  intros Hv1 Hv2 Hnd Hlen Hsz Hpos.
  apply list.NoDup_app in Hnd as (Hnd1 & Hdisj & Hnd2).
  destruct (decide (length labels = 1%nat)) as [Hone|Hmany].
  - (* one label: every leaf is painted with it *)
    destruct labels as [|l [|? ?]]; try done.
    rewrite _set_labels_single.
    set (ls := flat_map leaves [p1; p2]).
    set (t' := paint_leaves (set_tie l) ls (tree st)).
    assert (Hlk : ∀ q, t' !! q
              = (λ c, if covered_dec ls q then set_tie l c else c)
                  <$> tree st !! q).
    { intros q. apply lookup_paint_leaves. by intros []. }
    assert (Hcov : ∀ q, covered ls q
                        ↔ q ∈ node_positions p1 ++ node_positions p2).
    { intros q. rewrite covered_positions. unfold ls. cbn [flat_map].
      rewrite app_nil_r, flat_map_app. done. }
    assert (Hlt' : length t' = length (tree st)).
    { apply Nat.le_antisymm.
      - destruct (decide (length t' ≤ length (tree st))%nat); [done|].
        destruct (lookup_lt_is_Some_2 t' (length (tree st))) as [c Hc]; [lia|].
        rewrite Hlk, lookup_ge_None_2 in Hc by lia. done.
      - destruct (decide (length (tree st) ≤ length t')%nat); [done|].
        destruct (lookup_lt_is_Some_2 (tree st) (length t')) as [c Hc]; [lia|].
        pose proof (Hlk (length t')) as Hq. rewrite Hc in Hq.
        rewrite lookup_ge_None_2 in Hq by lia. done. }
    assert (Harr : ∀ p, Forall (λ x, (offset x + size x ≤ length (tree st))%nat)
                               (leaves p) →
              node_size p = 1%nat →
              (∀ q, q ∈ node_positions p → covered ls q) →
              node_array p (tie <$> t') = [l]).
    { intros p Hv Hs Hin.
      pose proof (node_array_positions p (tie <$> t')) as Hf.
      rewrite length_fmap, Hlt' in Hf. specialize (Hf Hv).
      pose proof (Forall2_length Hf) as Hl.
      rewrite length_node_positions, Hs in Hl.
      destruct (node_array p (tie <$> t')) as [|v [|? ?]]; try done.
      f_equal. apply Forall2_cons_inv_l in Hf as (q & qs & Hq & _ & Heq).
      rewrite list_lookup_fmap, Hlk in Hq.
      assert (Hc : covered ls q).
      { apply Hin. rewrite Heq. by left. }
      destruct (tree st !! q) as [c|]; [|done]. simpl in Hq.
      destruct (covered_dec ls q); [|done]. injection Hq as <-. by destruct c. }
    exists t'. split_and!.
    + done.
    + apply Forall2_same_length_lookup_2; [done|].
      intros q c c' Hc Hc'. rewrite Hlk, Hc in Hc'. simpl in Hc'.
      injection Hc' as <-. destruct (covered_dec ls q); by destruct c.
    + apply Harr; [done|simpl in Hlen; lia|].
      intros q Hq. apply Hcov, elem_of_app. by left.
    + apply Harr; [done|simpl in Hlen; lia|].
      intros q Hq. apply Hcov, elem_of_app. by right.
    + intros q Hq. rewrite Hlk. destruct (tree st !! q) as [c|]; [simpl|done].
      destruct (covered_dec ls q) as [Hc|]; [|done]. by apply Hcov in Hc.
  - (* several labels: each node receives the list from offset 0 *)
    unfold _set_labels. rewrite decide_False by done. cbn [for_each].
    assert (Hrefl : ∀ c, same_but_tie c c) by by intros c.
    assert (Htrans : ∀ c1 c2 c3, same_but_tie c1 c2 → same_but_tie c2 c3 →
                                 same_but_tie c1 c3).
    { intros c1 c2 c3 (? & ? & ?) (? & ? & ?). repeat split; congruence. }
    assert (Hset : ∀ x c, same_but_tie c (set_tie x c)) by by intros x [].
    assert (Hgs : ∀ x c, tie (set_tie x c) = x) by by intros x [].
    assert (Hfit1 : (0 + length (flat_map _raveled_index_for (leaves p1))
                     ≤ length labels)%nat).
    { fold (node_positions p1). rewrite length_node_positions. lia. }
    destruct (write_loop tie set_tie same_but_tie Hgs Hrefl Htrans Hset
                labels (leaves p1) 0%nat st Hfit1 Hv1 Hnd1)
      as (t1 & Hrun1 & Hsame1 & Hout1 & Hv1').
    set (s1 := with_tree t1 st) in *.
    assert (Hlt1 : length t1 = length (tree st)).
    { symmetry. apply (Forall2_length Hsame1). }
    assert (Hfit2 : (0 + length (flat_map _raveled_index_for (leaves p2))
                     ≤ length labels)%nat).
    { fold (node_positions p2). rewrite length_node_positions. lia. }
    assert (Hv2s : Forall (λ x, (offset x + size x ≤ length (tree s1))%nat)
                          (leaves p2)).
    { simpl. by rewrite Hlt1. }
    destruct (write_loop tie set_tie same_but_tie Hgs Hrefl Htrans Hset
                labels (leaves p2) 0%nat s1 Hfit2 Hv2s Hnd2)
      as (t2 & Hrun2 & Hsame2 & Hout2 & Hv2').
    fold (node_positions p1) in Hrun1, Hout1, Hv1'.
    fold (node_positions p2) in Hrun2, Hout2, Hv2'.
    rewrite length_node_positions in Hv1', Hv2'.
    rewrite Hsz in Hv2'. rewrite <- Hlen in Hv1', Hv2'.
    rewrite drop_0, firstn_all in Hv1', Hv2'.
    exists t2. split_and!.
    + rewrite bind_assoc.
      rewrite (bind_eq _ _ _ _ _
                 (eq_trans (_traverse_param_leaves _ _ _ _) Hrun1)).
      rewrite bind_ret, !bind_assoc. fold s1.
      by rewrite (bind_eq _ _ _ _ _
                    (eq_trans (_traverse_param_leaves _ _ _ _) Hrun2)).
    + eapply Forall2_trans; [exact Htrans|exact Hsame1|exact Hsame2].
    + rewrite <- Hv1'. apply node_array_ext. intros q Hq.
      rewrite !list_lookup_fmap, Hout2; [done|]. by apply Hdisj.
    + exact Hv2'.
    + intros q Hq. rewrite elem_of_app in Hq.
      rewrite Hout2, Hout1 by tauto. done.
Qed.

(** [_sync_constraint_vector] on an existing store: it returns, and it
    changes nothing but constraints. *)
Lemma _sync_constraint_vector_run p1 p2 expandlist idxlist st k :
  tied_param st = Some k → (k ≤ length (tree st))%nat →
  length idxlist = length expandlist →
  ∃ t', _sync_constraint_vector p1 p2 expandlist idxlist st
        = Done tt (with_tree t' st)
      ∧ Forall2 same_but_constraint (tree st) t'.
Proof.
  intros Htp Hk Hlen. unfold _sync_constraint_vector. rewrite bind_gets.
  generalize (properties (node_constraints p1 st)) as cs'.
  generalize (node_constraints p1 st) as cs.
  intros cs cs'.
  assert (Hgen : ∀ t, length t = length (tree st) →
            ∃ t', for_each
                    (λ (c : transform) (_ : unit),
                       let ind := np.where_ ((λ o, bool_decide (o = Some c)) <$> cs) in
                       let sel := (λ e, bool_decide (e ∈ ind)) <$> expandlist in
                       idx <- lift (np.mask_get idxlist sel) ;;
                       tied_mask_update (set_constraint (Some c))
                         (λ _ k, (λ i, bool_decide (i ∈ idx)) <$> seq 0 k))
                    cs' tt (with_tree t st)
                  = Done tt (with_tree t' st)
                ∧ Forall2 same_but_constraint t t').
  { induction cs' as [|c cs' IH]; intros t Ht.
    - exists t. split; [done|].
      apply Forall_Forall2_diag, list.Forall_forall. by intros ? _.
    - cbn [for_each]. cbv zeta.
      set (sel := (λ e, bool_decide (e ∈ _)) <$> expandlist).
      rewrite bind_assoc.
      rewrite (bind_lift _ _ _ (np.select sel idxlist)); cycle 1.
      { apply mask_get_eq. unfold sel. by rewrite length_fmap. }
      set (idx := np.select sel idxlist).
      set (off := (length t - k)%nat).
      set (m := (λ i, bool_decide (i ∈ idx)) <$> seq 0 k).
      set (tied := zip_with (λ (b : bool) x, if b then set_constraint (Some c) x else x)
                            m (drop off t)).
      assert (Hstep : tied_mask_update (set_constraint (Some c))
                        (λ _ k, (λ i, bool_decide (i ∈ idx)) <$> seq 0 k)
                        (with_tree t st)
                      = Done tt (with_tree (take off t ++ tied) st)).
      { unfold tied_mask_update. mstep.
        change (tied_param (with_tree t st)) with (tied_param st).
        rewrite Htp. unfold np.mask_update, tied_offset.
        change (tree (with_tree t st)) with t. fold off. fold m.
        rewrite decide_True; [done|].
        unfold m. rewrite length_fmap, length_seq, length_drop.
        unfold off. lia. }
      rewrite (bind_eq _ _ _ _ _ Hstep).
      assert (Hlt : length (take off t ++ tied) = length t).
      { unfold tied, m. rewrite length_app, length_take, length_zip_with,
          length_fmap, length_seq, length_drop. unfold off. lia. }
      destruct (IH (take off t ++ tied)) as (t' & Hrun & Hsame); [lia|].
      exists t'. split; [exact Hrun|].
      eapply Forall2_trans; [exact same_but_constraint_trans| |exact Hsame].
      rewrite <- (take_drop off t) at 1. apply Forall2_app.
      + apply Forall_Forall2_diag, list.Forall_forall. by intros ? _.
      + apply Forall2_same_length_lookup_2.
        { unfold tied, m. rewrite length_zip_with, length_fmap, length_seq,
            length_drop. unfold off. lia. }
        intros i x y Hx Hy. unfold tied in Hy.
        rewrite lookup_zip_with, Hx in Hy.
        destruct (m !! i) as [[]|]; simpl in Hy; [| |done];
          injection Hy as <-; by destruct x. }
  destruct (Hgen (tree st) eq_refl) as (t' & Hrun & Hsame).
  exists t'. split; [|done]. rewrite <- Hrun. by destruct st.
Qed.

Lemma same_but_tie_values t t' :
  Forall2 same_but_tie t t' → value <$> t' = value <$> t.
Proof.
  induction 1 as [|c c' ? ? Hc _ IH]; [done|].
  destruct Hc as (? & _ & _). rewrite !fmap_cons. by f_equal.
Qed.

Lemma ties_set_values vs (cs : list Cell) :
  length vs = length cs → tie <$> zip_with set_value vs cs = tie <$> cs.
Proof.
  revert cs. induction vs as [|v vs IH]; intros [|c cs] Hl; try done.
  simpl in Hl. cbn [zip_with]. rewrite !fmap_cons, IH by lia. by destruct c.
Qed.

Lemma values_set_values vs (cs : list Cell) :
  length vs = length cs → value <$> zip_with set_value vs cs = vs.
Proof.
  revert cs. induction vs as [|v vs IH]; intros [|c cs] Hl; try done.
  simpl in Hl. cbn [zip_with]. rewrite !fmap_cons, IH by lia. by destruct c.
Qed.

Lemma node_size_leaves p : (0 < node_size p)%nat → leaves p ≠ [].
Proof.
  unfold node_size. intros H Hnil. rewrite Hnil in H. simpl in H. lia.
Qed.

Lemma node_positions_lt p raw q :
  Forall (λ x, (offset x + size x ≤ raw)%nat) (leaves p) →
  q ∈ node_positions p → (q < raw)%nat.
Proof.
  intros Hb Hq. apply covered_positions, list.Exists_exists in Hq
    as (x & Hx & Hq).
  rewrite list.Forall_forall in Hb. specialize (Hb x Hx). lia.
Qed.

(** [tie_vector] on two vectors of which one is untied at every index, up
    to the final notification. *)
Lemma tie_vector_fresh d p1 p2 st :
  wf st → valid_plist st [p1; p2] →
  NoDup (node_positions p1 ++ node_positions p2) →
  node_size p2 = node_size p1 → (0 < node_size p1)%nat →
  Forall2 (λ a b, a = 0 ∨ b = 0)
          (node_array p1 (ties st)) (node_array p2 (ties st)) →
  let n := node_size p1 in
  let k0 := length (slot_labels st) in
  let L := fresh_label st in
  let vals := node_array p1 (param_array st) in
  ∃ s, tie_vector d p1 p2 st
       = update_model (_parameters_changed_notification d) true s
    ∧ tied_param s = Some (k0 + n)%nat
    ∧ length (tree s) = (raw_size st + (k0 + n))%nat
    ∧ drop (raw_size st) (ties s) = slot_labels st ++ range L n
    ∧ drop (raw_size st) (param_array s) = slot_values st ++ vals
    ∧ node_array p1 (ties s) = range L n
    ∧ node_array p2 (ties s) = range L n
    ∧ node_array p2 (param_array s) = vals
    ∧ (∀ q, (q < raw_size st)%nat →
         q ∉ node_positions p1 ++ node_positions p2 →
         ties s !! q = ties st !! q)
    ∧ (∀ q, (q < raw_size st)%nat → q ∉ node_positions p2 →
         param_array s !! q = param_array st !! q)
    ∧ buffers_ok s (k0 + n) (np.uint32 <$> ties s)
    ∧ _PROPAGATE_VAL_ s = _PROPAGATE_VAL_ st.
Proof.
  intros [Hst Hne Hnd Hrg Hraw] Hval Hdisj Hsz Hpos Hz n k0 L vals.
  set (raw := raw_size st).
  pose proof (raw_size_length st Hst) as Hlen. fold raw k0 in Hlen.
  assert (HlT : length (ties st) = (raw + k0)%nat).
  { unfold ties. by rewrite length_fmap. }
  assert (HlV : length (param_array st) = (raw + k0)%nat).
  { unfold param_array. by rewrite length_fmap. }
  assert (HnV : length (slot_values st) = k0).
  { rewrite slot_values_drop, length_drop by done. fold raw. lia. }
  unfold valid_plist in Hval. cbn [flat_map] in Hval.
  rewrite app_nil_r in Hval. apply Forall_app in Hval as [Hb1 Hb2].
  fold raw in Hb1, Hb2.
  assert (Hv1 : valid_node st p1).
  { eapply list.Forall_impl; [exact Hb1|]. simpl. lia. }
  assert (Hv2 : valid_node st p2).
  { eapply list.Forall_impl; [exact Hb2|]. simpl. lia. }
  assert (Hne1 : leaves p1 ≠ []) by by apply node_size_leaves.
  assert (Hne2 : leaves p2 ≠ []).
  { apply node_size_leaves. fold n in Hpos. lia. }
  assert (Hlt : length (ties st) = length (tree st)).
  { unfold ties. by rewrite length_fmap. }
  assert (Hlp : length (param_array st) = length (tree st)).
  { unfold param_array. by rewrite length_fmap. }
  assert (Hl1 : length (node_array p1 (ties st)) = n).
  { exact (length_node_array st p1 _ Hlt Hv1). }
  assert (Hl2 : length (node_array p2 (ties st)) = n).
  { rewrite (length_node_array st p2 _ Hlt Hv2). exact Hsz. }
  assert (Hlv : length vals = n).
  { exact (length_node_array st p1 _ Hlp Hv1). }
  pose proof Hdisj as Hdisj'.
  apply list.NoDup_app in Hdisj' as (Hnd1 & Hsep & Hnd2).
  unfold tie_vector.
  rewrite (bind_eq _ _ _ _ _ (update_model_false _ st)).
  set (s0 := with_updates false st).
  destruct (labels_vector_all_expand _ _ Hz) as (ll & Hlv0 & Hll).
  rewrite Hl1 in Hlv0, Hll.
  assert (Hglv : _get_labels_vector p1 p2 s0
                 = Done (seq 0 n, ([], []), ll) s0).
  { unfold _get_labels_vector.
    assert (H1 : stacked_labels p1 s0 = Done (node_array p1 (ties st)) s0).
    { rewrite stacked_labels_eq. by destruct (leaves p1). }
    assert (H2 : stacked_labels p2 s0 = Done (node_array p2 (ties st)) s0).
    { rewrite stacked_labels_eq. by destruct (leaves p2). }
    rewrite (bind_eq _ _ _ _ _ H1), (bind_eq _ _ _ _ _ H2).
    by rewrite Hlv0. }
  rewrite (bind_eq _ _ _ _ _ Hglv). cbn [fst snd].
  destruct (_sync_val_pair_run p1 p2 s0) as (t1 & Hsync & Hp2v & Hsame1 & Hout1);
    [done| | |done|].
  { change (param_array s0) with (param_array st). fold vals.
    rewrite length_node_positions. lia. }
  { exact Hv2. }
  change (param_array s0) with (param_array st) in Hsync, Hp2v. fold vals in Hsync, Hp2v.
  change (tree s0) with (tree st) in Hsame1, Hout1.
  rewrite (bind_eq _ _ _ _ _ Hsync).
  set (s1 := with_tree t1 s0).
  assert (Hlt1 : length t1 = (raw + k0)%nat).
  { rewrite <- (Forall2_length Hsame1). done. }
  assert (Ht1 : tie <$> t1 = ties st).
  { apply same_labels_ties. by apply same_but_value_labels. }
  assert (Hst1 : store_ok s1).
  { unfold store_ok in *. change (tied_param s1) with (tied_param st).
    destruct (tied_param st); [|done]. change (tree s1) with t1. lia. }
  assert (Hraw1 : raw_size s1 = raw).
  { unfold raw, raw_size, tied_offset.
    change (tied_param s1) with (tied_param st). change (tree s1) with t1.
    destruct (tied_param st); lia. }
  assert (HT1 : slot_labels s1 = slot_labels st).
  { rewrite (slot_labels_drop s1 Hst1), (slot_labels_drop st Hst), Hraw1.
    unfold ties at 1. change (tree s1) with t1. by rewrite Ht1. }
  assert (HV1 : slot_values s1 = slot_values st).
  { rewrite (slot_values_drop s1 Hst1), (slot_values_drop st Hst), Hraw1.
    fold raw. unfold param_array. change (tree s1) with t1.
    apply list_eq. intros i. rewrite !lookup_drop, !list_lookup_fmap.
    rewrite Hout1; [done|]. intros Hin.
    apply (node_positions_lt p2 raw) in Hin; [lia|done]. }
  assert (HL1 : fresh_label s1 = L).
  { unfold L, fresh_label. by rewrite HT1. }
  rewrite length_seq. rewrite decide_True by done.
  rewrite !bind_assoc.
  rewrite (bind_eq _ _ _ _ _ (_expand_tie_param_eq n s1 Hst1 Hne)).
  rewrite HT1, HV1, HL1, Hraw1. fold k0.
  change (np_empty s1) with (np_empty st). change (tree s1) with t1.
  set (S2 := fresh_param _ _ _). set (t2 := take raw t1 ++ S2).
  set (s2 := with_tied t2 _ s1). cbn [fst snd].
  assert (Hput : np.put_idx ll (seq 0 n) (range L n) = Val (range L n)).
  { pose proof (put_idx_all ll (range L n)) as Hp.
    rewrite Hll in Hp. apply Hp. by rewrite length_range. }
  assert (Htk : np.take_idx vals (seq 0 n) = Val vals).
  { pose proof (take_idx_all vals) as Hp. by rewrite Hlv in Hp. }
  rewrite Hput, Htk.
  repeat first [rewrite bind_assoc | rewrite bind_lift_Val | rewrite bind_gets].
  change (id s2) with s2. cbv beta.
  change (tied_param s2) with (Some (k0 + n)%nat). cbv beta iota.
  assert (HlS2 : length S2 = (k0 + n)%nat).
  { unfold S2. rewrite length_fresh_param;
      rewrite !length_app, ?length_fmap, ?length_seq, ?length_range; lia. }
  assert (Hltk : length (take raw t1) = raw).
  { rewrite length_take. lia. }
  assert (Hlt2 : length t2 = (raw + (k0 + n))%nat).
  { unfold t2. rewrite length_app. lia. }
  assert (Hoff2 : tied_offset s2 (k0 + n) = raw).
  { unfold tied_offset. change (tree s2) with t2. lia. }
  assert (Hd2 : drop raw t2 = S2).
  { unfold t2. by rewrite drop_app_length'. }
  assert (Htk2 : take raw t2 = take raw t1).
  { unfold t2. by rewrite take_app_length'. }
  assert (HvS2 : value <$> S2
                 = slot_values st ++ (np_empty st <$> seq k0 n)).
  { unfold S2. apply fresh_param_values.
    rewrite !length_app, length_fmap, length_seq, length_range. lia. }
  assert (HtS2 : tie <$> S2 = slot_labels st ++ range L n).
  { unfold S2. apply fresh_param_ties.
    rewrite !length_app, length_fmap, length_seq, length_range. lia. }
  rewrite Hoff2. change (tree s2) with t2. rewrite Hd2, Htk2, HvS2.
  assert (Hput2 : np.put_idx (slot_values st ++ (np_empty st <$> seq k0 n))
                    (seq k0 n) vals
                  = Val (slot_values st ++ vals)).
  { pose proof (put_idx_tail (slot_values st) (np_empty st <$> seq k0 n) vals)
      as Hp.
    rewrite length_fmap, length_seq, HnV in Hp. apply Hp. lia. }
  rewrite Hput2.
  repeat first [rewrite bind_assoc | rewrite bind_lift_Val | rewrite bind_gets].
  rewrite bind_modify, bind_ret. cbn [fst snd length].
  rewrite decide_False by lia. rewrite bind_ret.
  set (S3 := zip_with set_value (slot_values st ++ vals) S2).
  set (t3 := take raw t1 ++ S3). set (s3 := with_tree t3 s2).
  assert (HlSV : length (slot_values st ++ vals) = length S2).
  { rewrite length_app. lia. }
  assert (HtS3 : tie <$> S3 = slot_labels st ++ range L n).
  { unfold S3. by rewrite ties_set_values. }
  assert (HvS3 : value <$> S3 = slot_values st ++ vals).
  { unfold S3. by rewrite values_set_values. }
  assert (HlS3 : length S3 = (k0 + n)%nat).
  { unfold S3. rewrite length_zip_with. lia. }
  assert (Hlt3 : length t3 = (raw + (k0 + n))%nat).
  { unfold t3. rewrite length_app. lia. }
  assert (Hlow3 : ∀ q, (q < raw)%nat → t3 !! q = t1 !! q).
  { intros q Hq. unfold t3. rewrite lookup_app_l by lia.
    rewrite lookup_take. by rewrite decide_True. }
  assert (Hb13 : Forall (λ x, (offset x + size x ≤ length (tree s3))%nat)
                        (leaves p1)).
  { change (tree s3) with t3. eapply list.Forall_impl; [exact Hb1|].
    simpl. lia. }
  assert (Hb23 : Forall (λ x, (offset x + size x ≤ length (tree s3))%nat)
                        (leaves p2)).
  { change (tree s3) with t3. eapply list.Forall_impl; [exact Hb2|].
    simpl. lia. }
  assert (Hlr : length (range L n) = node_size p1) by apply length_range.
  destruct (_set_labels_pair p1 p2 (range L n) s3 Hb13 Hb23 Hdisj Hlr Hsz Hpos)
    as (t4 & Hset & Hsame4 & Hp1t & Hp2t & Hout4).
  change (tree s3) with t3 in Hsame4, Hout4.
  rewrite (bind_eq _ _ _ _ _ Hset). set (s4 := with_tree t4 s3).
  cbn [of_option]. rewrite bind_lift_Val.
  assert (Hlt4 : length t4 = (raw + (k0 + n))%nat).
  { rewrite <- (Forall2_length Hsame4). done. }
  destruct (_sync_constraint_vector_run p1 p2 (seq 0 n) (seq k0 n) s4 (k0 + n))
    as (t5 & Hcon & Hsame5); [done| |by rewrite !length_seq|].
  { change (tree s4) with t4. lia. }
  change (tree s4) with t4 in Hsame5.
  rewrite (bind_eq _ _ _ _ _ Hcon). set (s5 := with_tree t5 s4).
  assert (Hlt5 : length t5 = (raw + (k0 + n))%nat).
  { rewrite <- (Forall2_length Hsame5). done. }
  assert (Ht5 : tie <$> t5 = tie <$> t4) by by apply same_but_constraint_ties.
  assert (Hv5 : value <$> t5 = value <$> t3).
  { rewrite (same_but_constraint_values _ _ Hsame5).
    by apply same_but_tie_values. }
  assert (Hhigh : ∀ q, (raw ≤ q)%nat →
            q ∉ node_positions p1 ++ node_positions p2).
  { intros q Hq [Hin|Hin]%elem_of_app.
    - apply (node_positions_lt p1 raw) in Hin; [lia|done].
    - apply (node_positions_lt p2 raw) in Hin; [lia|done]. }
  assert (Hdt5 : drop raw (tie <$> t5) = slot_labels st ++ range L n).
  { rewrite Ht5, <- HtS3. apply list_eq. intros i.
    rewrite lookup_drop, !list_lookup_fmap, Hout4 by (apply Hhigh; lia).
    unfold t3. rewrite lookup_app_r by lia. do 2 f_equal. lia. }
  assert (Hdv5 : drop raw (value <$> t5) = slot_values st ++ vals).
  { rewrite Hv5, <- HvS3. unfold t3.
    by rewrite fmap_app, drop_app_length' by (by rewrite length_fmap). }
  assert (Htp5 : tied_param s5 = Some (k0 + n)%nat) by done.
  assert (Hk5 : (k0 + n ≤ length (tree s5))%nat).
  { change (tree s5) with t5. lia. }
  assert (Hoff5 : tied_offset s5 (k0 + n) = raw).
  { unfold tied_offset. change (tree s5) with t5. lia. }
  assert (HT5 : slot_labels s5 = slot_labels st ++ range L n).
  { unfold slot_labels. rewrite Htp5, Hoff5. exact Hdt5. }
  assert (Hpos5 : Forall (λ l, 0 < l) (slot_labels s5)).
  { rewrite HT5. apply Forall_app. split.
    - eapply list.Forall_impl; [exact Hrg|]. simpl. lia.
    - apply list.Forall_forall. intros l Hl%elem_of_range.
      pose proof (fresh_label_range st Hrg). fold L in H. lia. }
  destruct (_update_label_buf_Some s5 (k0 + n) Htp5 Hk5 Hpos5) as [un Hun].
  rewrite (bind_eq _ _ _ _ _ Hun). rewrite Hoff5.
  set (s6 := with_buffers _ _ _ s5).
  exists s6. split; [done|].
  change (tied_param s6) with (Some (k0 + n)%nat).
  change (ties s6) with (tie <$> t5). change (param_array s6) with (value <$> t5).
  change (tree s6) with t5.
  split_and!.
  - done.
  - done.
  - done.
  - done.
  - by rewrite Ht5.
  - by rewrite Ht5.
  - rewrite Hv5, <- Hp2v. apply node_array_ext. intros q Hq.
    rewrite !list_lookup_fmap, Hlow3; [done|].
    by apply (node_positions_lt p2 raw).
  - intros q Hq Hnot. rewrite Ht5. unfold ties.
    rewrite !list_lookup_fmap, Hout4, (Hlow3 q Hq) by done.
    rewrite <- !list_lookup_fmap. by rewrite Ht1.
  - intros q Hq Hnot. rewrite Hv5. unfold param_array.
    by rewrite !list_lookup_fmap, (Hlow3 q Hq), Hout1.
  - pose proof (buffers_ok_updated s5 (k0 + n) un Htp5 Hk5) as Hbo.
    rewrite Hoff5 in Hbo. exact Hbo.
  - done.
Qed.

(** X12. [tie_vector] on two disjoint vectors of the same positive size
    [n], where at every index at least one of the two elements is untied, in
    a well-formed state: the call returns; [n] slots with the consecutive
    fresh labels are appended to the store and the old slots stay; element
    [i] of both vectors carries the [i]-th fresh label, also when one of
    the two was tied before (it leaves its group), and no other label
    changes.  When the groups agree before the call and the fresh labels fit
    the label buffer (or the one-shot flag is set), both vectors and the new
    slots hold the values the first vector had, the old slots keep their
    values and no value outside the second vector changes. *)
Theorem tie_vector_new_slots d p1 p2 st :
  wf st → valid_plist st [p1; p2] →
  NoDup (node_positions p1 ++ node_positions p2) →
  node_size p2 = node_size p1 → (0 < node_size p1)%nat →
  Forall2 (λ a b, a = 0 ∨ b = 0)
          (node_array p1 (ties st)) (node_array p2 (ties st)) →
  let n := node_size p1 in
  let L := fresh_label st in
  let vals := node_array p1 (param_array st) in
  ∃ st', tie_vector (S (S d)) p1 p2 st = Done tt st'
    ∧ raw_size st' = raw_size st
    ∧ slot_labels st' = slot_labels st ++ range L n
    ∧ node_array p1 (ties st') = range L n
    ∧ node_array p2 (ties st') = range L n
    ∧ (∀ q, (q < raw_size st)%nat →
         q ∉ node_positions p1 ++ node_positions p2 →
         ties st' !! q = ties st !! q)
    ∧ (_PROPAGATE_VAL_ st = true
       ∨ (tied_agree st ∧ L + Z.of_nat n ≤ 2 ^ 32) →
         node_array p1 (param_array st') = vals
         ∧ node_array p2 (param_array st') = vals
         ∧ slot_values st' = slot_values st ++ vals
         ∧ (∀ q, (q < raw_size st)%nat → q ∉ node_positions p2 →
              param_array st' !! q = param_array st !! q)).
Proof.
  intros Hwf Hval Hdisj Hsz Hpos Hone n L vals.
  destruct (tie_vector_fresh (S (S d)) p1 p2 st Hwf Hval Hdisj Hsz Hpos Hone)
    as (s & Hrun & Htp & Hlen & HdT & HdV & Hp1T & Hp2T & Hp2V & HoutT & HoutV
        & Hbuf & Hflag).
  fold n L vals in Htp, Hlen, HdT, HdV, Hp1T, Hp2T, Hp2V, Hbuf.
  destruct Hwf as [Hst Hne Hnd Hrg Hraw].
  set (raw := raw_size st) in *. set (k0 := length (slot_labels st)) in *.
  pose proof (raw_size_length st Hst) as Hlen0. fold raw k0 in Hlen0.
  unfold valid_plist in Hval. cbn [flat_map] in Hval.
  rewrite app_nil_r in Hval. apply Forall_app in Hval as [Hb1 Hb2].
  pose proof Hdisj as Hdisj'.
  apply list.NoDup_app in Hdisj' as (Hnd1 & Hsep & Hnd2).
  assert (HlTs : length (ties s) = (raw + (k0 + n))%nat).
  { unfold ties. by rewrite length_fmap. }
  assert (HlVs : length (param_array s) = (raw + (k0 + n))%nat).
  { unfold param_array. by rewrite length_fmap. }
  assert (Hoffs : tied_offset s (k0 + n) = raw).
  { unfold tied_offset. lia. }
  assert (Hbnd : ∀ A (l : list A) p, (raw ≤ length l)%nat →
            Forall (λ x, (offset x + size x ≤ raw)%nat) (leaves p) →
            Forall (λ x, (offset x + size x ≤ length l)%nat) (leaves p)).
  { intros A l p Hl Hb. eapply list.Forall_impl; [exact Hb|]. simpl. lia. }
  assert (Hp1V : node_array p1 (param_array s) = vals).
  { apply node_array_ext. intros q Hq. apply HoutV.
    - by apply (node_positions_lt p1 raw).
    - by apply Hsep. }
  destruct (resume_spec d s (k0 + n)%nat _ Hbuf)
    as (st' & Hres & Htp' & _ & _ & _ & Hlen' & Hlab' & _ & _ & Hvals').
  assert (Ht' : ties st' = ties s) by (by apply same_labels_ties).
  assert (Hraw' : raw_size st' = raw).
  { unfold raw_size, tied_offset. rewrite Htp', Htp, Hlen', Hlen. lia. }
  assert (Hoff' : tied_offset st' (k0 + n) = raw).
  { unfold tied_offset. rewrite Hlen'. lia. }
  exists st'. split_and!.
  - by rewrite Hrun.
  - done.
  - unfold slot_labels. by rewrite Htp', Htp, Hoff', Ht'.
  - by rewrite Ht'.
  - by rewrite Ht'.
  - intros q Hq Hnot. rewrite Ht'. by apply HoutT.
  - intros Hcond.
    assert (Hv' : param_array st' = param_array s).
    { apply Hvals'. destruct Hcond as [Hf|[Hag Hfit]]; [left; congruence|right].
      assert (HL : 0 < L < 2 ^ 32) by apply (fresh_label_range st Hrg).
      assert (HTs : slot_labels s = slot_labels st ++ range L n).
      { unfold slot_labels. by rewrite Htp, Hoffs. }
      assert (Hclass : ∀ q c, tree s !! q = Some c →
                (∃ c0, tree st !! q = Some c0 ∧ tie c0 = tie c
                       ∧ value c0 = value c
                       ∧ (tie c = 0 ∨ tie c ∈ slot_labels st))
                ∨ (∃ i, (i < n)%nat ∧ tie c = L + Z.of_nat i
                        ∧ vals !! i = Some (value c))).
      { intros q c Hc.
        assert (HcT : ties s !! q = Some (tie c)).
        { unfold ties. by rewrite list_lookup_fmap, Hc. }
        assert (HcV : param_array s !! q = Some (value c)).
        { unfold param_array. by rewrite list_lookup_fmap, Hc. }
        assert (Hnew : ∀ p i, Forall (λ x, (offset x + size x ≤ raw)%nat) (leaves p) →
                  node_array p (ties s) = range L n →
                  node_array p (param_array s) = vals →
                  node_positions p !! i = Some q →
                  (i < n)%nat ∧ tie c = L + Z.of_nat i
                  ∧ vals !! i = Some (value c)).
        { intros p i Hb HpT HpV Hi.
          assert (HrT : (raw ≤ length (ties s))%nat) by lia.
          assert (HrV : (raw ≤ length (param_array s))%nat) by lia.
          pose proof (node_array_positions p (ties s)
                        (Hbnd _ _ p HrT Hb)) as HfT.
          pose proof (node_array_positions p (param_array s)
                        (Hbnd _ _ p HrV Hb)) as HfV.
          rewrite HpT in HfT. rewrite HpV in HfV.
          destruct (Forall2_lookup_r _ _ _ _ _ HfT Hi) as (t & Ht & Hqt).
          destruct (Forall2_lookup_r _ _ _ _ _ HfV Hi) as (v & Hv & Hqv).
          rewrite HcT in Hqt. rewrite HcV in Hqv.
          injection Hqt as <-. injection Hqv as <-.
          pose proof (lookup_lt_Some _ _ _ Ht) as Hin.
          rewrite length_range in Hin. split; [done|]. split; [|done].
          unfold range in Ht. rewrite list_lookup_fmap in Ht.
          rewrite lookup_seq_lt in Ht by done. simpl in Ht. congruence. }
        destruct (decide (q < raw)%nat) as [Hq|Hq].
        - destruct (decide (q ∈ node_positions p1)) as [Hin1|Hout1].
          { right. apply list_elem_of_lookup in Hin1 as [i Hi].
            exists i. by apply (Hnew p1). }
          destruct (decide (q ∈ node_positions p2)) as [Hin2|Hout2].
          { right. apply list_elem_of_lookup in Hin2 as [i Hi].
            exists i. by apply (Hnew p2). }
          left.
          destruct (lookup_lt_is_Some_2 (tree st) q) as [c0 Hc0]; [lia|].
          exists c0. split; [done|].
          assert (Ht0 : tie c0 = tie c).
          { rewrite HoutT in HcT; [|done|by intros [?|?]%elem_of_app].
            unfold ties in HcT. rewrite list_lookup_fmap, Hc0 in HcT.
            by injection HcT. }
          assert (Hv0 : value c0 = value c).
          { rewrite HoutV in HcV by done.
            unfold param_array in HcV. rewrite list_lookup_fmap, Hc0 in HcV.
            by injection HcV. }
          split; [done|]. split; [done|]. rewrite <- Ht0.
          by apply (Hraw q).
        - assert (HqT : (slot_labels st ++ range L n) !! (q - raw)%nat
                        = Some (tie c)).
          { rewrite <- HdT, lookup_drop, <- HcT. f_equal. lia. }
          assert (HqV : (slot_values st ++ vals) !! (q - raw)%nat
                        = Some (value c)).
          { rewrite <- HdV, lookup_drop, <- HcV. f_equal. lia. }
          assert (HnV : length (slot_values st) = k0).
          { rewrite slot_values_drop, length_drop by done.
            unfold param_array. rewrite length_fmap. fold raw. lia. }
          destruct (decide (q - raw < k0)%nat) as [Hj|Hj].
          + left. rewrite lookup_app_l in HqT by done.
            rewrite lookup_app_l in HqV by lia.
            rewrite (slot_labels_drop st Hst), lookup_drop in HqT.
            rewrite (slot_values_drop st Hst), lookup_drop in HqV.
            fold raw in HqT, HqV.
            replace (raw + (q - raw))%nat with q in HqT, HqV by lia.
            destruct (lookup_lt_is_Some_2 (tree st) q) as [c0 Hc0]; [lia|].
            unfold ties in HqT. unfold param_array in HqV.
            rewrite list_lookup_fmap, Hc0 in HqT.
            rewrite list_lookup_fmap, Hc0 in HqV. simpl in HqT, HqV.
            exists c0. split; [done|]. split; [congruence|].
            split; [congruence|]. right.
            rewrite (slot_labels_drop st Hst). apply list_elem_of_lookup.
            exists (q - raw)%nat. rewrite lookup_drop. fold raw.
            replace (raw + (q - raw))%nat with q by lia.
            unfold ties. rewrite list_lookup_fmap, Hc0. simpl. congruence.
          + right. rewrite lookup_app_r in HqT by (fold k0; lia).
            rewrite lookup_app_r in HqV by lia. rewrite HnV in HqV.
            fold k0 in HqT. exists (q - raw - k0)%nat.
            pose proof (lookup_lt_Some _ _ _ HqT) as Hin.
            rewrite length_range in Hin. split; [done|]. split; [|done].
            unfold range in HqT. rewrite list_lookup_fmap in HqT.
            rewrite lookup_seq_lt in HqT by done. simpl in HqT. congruence. }
      assert (Hu : ∀ c, (tie c = 0 ∨ tie c ∈ slot_labels st) →
                np.uint32 (tie c) = tie c ∧ 0 ≤ tie c < L).
      { intros c [Hz|Hin].
        - rewrite Hz. split; [by apply uint32_small|lia].
        - pose proof (fresh_label_gt st _ Hin). fold L in H.
          rewrite list.Forall_forall in Hrg. specialize (Hrg _ Hin).
          split; [apply uint32_small|]; lia. }
      apply tied_agree_consistent; [|done|].
      + intros p q c c' Hc Hc' Heq Hnz.
        destruct (Hclass p c Hc) as [(c0 & Hc0 & Ht0 & Hv0 & Hold)|(i & Hi & Hti & Hvi)];
          destruct (Hclass q c' Hc')
            as [(c0' & Hc0' & Ht0' & Hv0' & Hold')|(i' & Hi' & Hti' & Hvi')].
        * rewrite <- Hv0, <- Hv0'. apply (Hag p q c0 c0' Hc0 Hc0'); congruence.
        * exfalso. destruct (Hu c Hold) as [Hu1 Hu2].
          rewrite Hu1, Hti', uint32_small in Heq by lia. lia.
        * exfalso. destruct (Hu c' Hold') as [Hu1 Hu2].
          rewrite Hu1, Hti, uint32_small in Heq by lia. lia.
        * rewrite Hti, Hti', !uint32_small in Heq by lia.
          assert (i = i') by lia. subst i'. congruence.
      + rewrite HTs. apply Forall_app. split.
        * eapply list.Forall_impl; [exact Hrg|]. simpl. lia.
        * apply list.Forall_forall. intros l Hl%elem_of_range. lia. }
    rewrite Hv'. split_and!.
    + done.
    + done.
    + unfold slot_values. by rewrite Htp', Htp, Hoff', Hv'.
    + done.
Qed.
(** ** [tie_together] on parameters that belong to groups already *)

Lemma elem_of_insert_sorted x l y :
  y ∈ np.insert_sorted x l ↔ y = x ∨ y ∈ l.
Proof.
  induction l as [|z l IH]; simpl.
  - rewrite list_elem_of_singleton. split; [by left|].
    by intros [?|?%elem_of_nil].
  - destruct (decide (x < z)); [by rewrite elem_of_cons|].
    destruct (decide (x = z)) as [->|].
    + rewrite elem_of_cons. tauto.
    + rewrite !elem_of_cons, IH. tauto.
Qed.

Lemma elem_of_unique a y : y ∈ np.unique a ↔ y ∈ a.
Proof.
  unfold np.unique. induction a as [|x a IH]; [done|]. simpl.
  by rewrite elem_of_insert_sorted, elem_of_cons, IH.
Qed.

Lemma increasing_insert x l : increasing l → increasing (np.insert_sorted x l).
Proof.
  induction l as [|z l IH]; simpl.
  - intros _. by split.
  - intros [Hz Hl]. destruct (decide (x < z)) as [Hlt|Hge].
    + simpl. split_and!; [|done..]. constructor; [done|].
      eapply list.Forall_impl; [exact Hz|]. simpl. lia.
    + destruct (decide (x = z)) as [->|Hne]; [done|].
      simpl. split; [|by apply IH].
      apply list.Forall_forall. intros y [->|Hy]%elem_of_insert_sorted; [lia|].
      rewrite list.Forall_forall in Hz. by apply Hz.
Qed.

Lemma increasing_unique a : increasing (np.unique a).
Proof.
  unfold np.unique. induction a as [|x a IH]; [done|]. simpl.
  by apply increasing_insert.
Qed.

Lemma increasing_filter (P : Z → Prop) `{∀ x, Decision (P x)} l :
  increasing l → increasing (filter P l).
Proof.
  induction l as [|x l IH]; [done|]. intros [Hx Hl].
  rewrite filter_cons. destruct (decide (P x)); [|by apply IH].
  simpl. split; [|by apply IH].
  apply list.Forall_forall. intros y [_ Hy]%list_elem_of_filter.
  rewrite list.Forall_forall in Hx. by apply Hx.
Qed.

Lemma increasing_NoDup l : increasing l → NoDup l.
Proof.
  induction l as [|x l IH]; [constructor|]. intros [Hx Hl].
  constructor; [|by apply IH]. intros Hin.
  rewrite list.Forall_forall in Hx. specialize (Hx x Hin). lia.
Qed.

(** X13. [tie_together] on leaves of which some are tied already, in a
    well-formed state: the call returns. The positive labels found on the
    leaves are merged into the smallest of them, [l0]: the slots of the other
    labels are removed, and every raw position that belongs to the leaves or
    carried one of these labels carries [l0] afterwards; no other label
    changes. *)
Theorem tie_together_joins d plist st l0 rest :
  wf st → valid_plist st plist →
  let ls := flat_map leaves plist in
  filter (λ l, 0 < l) (np.unique (flat_map (λ x, slice x (ties st)) ls))
  = l0 :: rest →
  ∃ st', tie_together (S (S d)) plist st = Done tt st'
    ∧ (∀ l, l ∈ l0 :: rest
            ↔ 0 < l ∧ ∃ q, covered ls q ∧ ties st !! q = Some l)
    ∧ Forall (λ l, l0 < l) rest
    ∧ raw_size st' = raw_size st
    ∧ slot_labels st' = filter (λ l, l ∉ rest) (slot_labels st)
    ∧ (∀ q, (q < raw_size st)%nat →
         ties st' !! q
         = (λ t, if decide (covered ls q ∨ t ∈ l0 :: rest) then l0 else t)
             <$> ties st !! q).
Proof.
  intros [Hst Hne Hnd Hrg Hraw] Hval ls Htl.
  set (raw := raw_size st) in *.
  remember (np.unique (flat_map (λ x, slice x (ties st)) ls)) as labels
    eqn:Hlabels.
  assert (Hchar : ∀ l, l ∈ l0 :: rest
            ↔ 0 < l ∧ ∃ q, covered ls q ∧ ties st !! q = Some l).
  { intros l. rewrite <- Htl, list_elem_of_filter, Hlabels, elem_of_unique.
    rewrite elem_of_flat_map. unfold covered.
    split.
    - intros (Hl & x & Hx & (q & Hq & Hv)%elem_of_slice). split; [done|].
      exists q. split; [|done]. apply list.Exists_exists. by exists x.
    - intros (Hl & q & (x & Hx & Hq)%list.Exists_exists & Hv). split; [done|].
      exists x. split; [done|]. apply elem_of_slice. by exists q. }
  assert (Hinc : increasing (l0 :: rest)).
  { rewrite <- Htl, Hlabels. apply increasing_filter, increasing_unique. }
  assert (Hndl : NoDup (l0 :: rest)) by by apply increasing_NoDup.
  destruct Hinc as [Hmin _].
  assert (Hls : ls ≠ []).
  { intros Hnil. assert (Hin : l0 ∈ l0 :: rest) by by left.
    apply Hchar in Hin as (_ & q & Hq & _). rewrite Hnil in Hq.
    by apply Exists_nil in Hq. }
  assert (Hpl : plist ≠ []) by (intros ->; by apply Hls).
  assert (Hbelow : Forall (λ x, (offset x + size x ≤ raw)%nat) ls) by done.
  pose proof (raw_size_length st Hst) as Hlen. fold raw in Hlen.
  assert (Hsub : ∀ l, l ∈ l0 :: rest → l ∈ slot_labels st).
  { intros l (Hl & q & Hq & Hv)%Hchar.
    apply list.Exists_exists in Hq as (x & Hx & Hq).
    rewrite list.Forall_forall in Hbelow. specialize (Hbelow x Hx).
    unfold ties in Hv. rewrite list_lookup_fmap in Hv.
    destruct (tree st !! q) as [c|] eqn:Hc; [|done]. injection Hv as <-.
    destruct (Hraw q c) as [Hz|Hin]; [fold raw; lia|done|lia|done]. }
  destruct (tied_param st) as [k|] eqn:Htp; cycle 1.
  { exfalso. assert (Hin : l0 ∈ slot_labels st) by (apply Hsub; by left).
    unfold slot_labels in Hin. rewrite Htp in Hin. by apply elem_of_nil in Hin. }
  assert (Hk : (k ≤ length (tree st))%nat).
  { unfold store_ok in Hst. by rewrite Htp in Hst. }
  assert (Hks : length (slot_labels st) = k) by by apply length_slot_labels.
  unfold tie_together.
  rewrite (bind_eq _ _ _ _ _ (update_model_false _ st)).
  set (s0 := with_updates false st).
  rewrite (bind_eq _ _ _ _ _ (_get_labels_eq plist s0 Hls)).
  change (ties s0) with (ties st). fold ls. rewrite <- Hlabels.
  rewrite (bind_eq _ _ _ _ _ (_sync_val_group_eq plist s0 Hpl)).
  fold ls. set (val := np.mean _).
  set (t1 := paint_leaves (set_value val) ls (tree s0)).
  set (s1 := with_tree t1 s0).
  assert (Ht1 : tie <$> t1 = ties st).
  { unfold t1. by rewrite fmap_paint_leaves_same. }
  assert (Hl1 : length t1 = length (tree st)).
  { unfold t1. by rewrite length_paint_leaves. }
  assert (Htp1 : tied_param s1 = Some k) by done.
  assert (Hk1 : (k ≤ length (tree s1))%nat).
  { change (tree s1) with t1. lia. }
  assert (Hraw1 : raw_size s1 = raw).
  { unfold raw, raw_size, tied_offset. rewrite Htp1, Htp.
    change (tree s1) with t1. lia. }
  assert (HT1 : slot_labels s1 = slot_labels st).
  { unfold slot_labels, tied_offset. rewrite Htp1, Htp. unfold ties at 1.
    change (tree s1) with t1. by rewrite Ht1, Hl1. }
  assert (Hlab0 : ∃ x labels', labels = x :: labels').
  { destruct labels as [|x labels']; [done|]. by exists x, labels'. }
  destruct Hlab0 as (x & labels' & Hlab0).
  rewrite Hlab0 in Htl. rewrite Hlab0.
  change ((x :: labels') !! 0%nat) with (Some x).
  cbn [of_option]. rewrite bind_lift_Val.
  rewrite decide_False; cycle 1.
  { intros [-> Hone]. destruct labels'; [|done].
    by rewrite filter_cons, decide_False in Htl. }
  rewrite Htl.
  assert (Hm : (if decide (1 < length (l0 :: rest))%nat
                then _merge_tie_labels (l0 :: rest) else ret tt)
               = _merge_tie_labels (l0 :: rest)).
  { destruct rest; [done|]. by rewrite decide_True by (simpl; lia). }
  rewrite Hm.
  destruct (_merge_tie_labels_run l0 rest s1 k Htp1 Hk1) as
    (s2 & Hrun2 & Htp2 & Hraw2 & HT2 & _ & Hcells2 & _ & Hst2);
    [by rewrite HT1|done|by rewrite HT1|].
  rewrite Hraw1 in Hraw2, Hcells2. rewrite HT1 in HT2.
  repeat rewrite bind_assoc.
  rewrite (bind_eq _ _ _ _ _ Hrun2).
  change ((l0 :: rest) !! 0%nat) with (Some l0).
  cbn [of_option]. repeat first [rewrite bind_assoc | rewrite bind_lift_Val].
  set (k' := (k - length rest)%nat) in *.
  pose proof (raw_size_length s2 Hst2) as Hlen2.
  rewrite Hraw2 in Hlen2.
  assert (Hks2 : length (slot_labels s2) = k').
  { apply length_slot_labels; [done|]. unfold store_ok in Hst2.
    by rewrite Htp2 in Hst2. }
  rewrite Hks2 in Hlen2.
  repeat rewrite bind_assoc.
  rewrite (bind_eq _ _ _ _ _ (_set_labels_single plist l0 s2)). fold ls.
  set (t3 := paint_leaves (set_tie l0) ls (tree s2)).
  set (s3 := with_tree t3 s2).
  assert (Hl3 : length t3 = (raw + k')%nat).
  { unfold t3. by rewrite length_paint_leaves. }
  assert (Ht3 : tie <$> t3 = cover_with ls l0 (ties s2)).
  { unfold t3. apply (fmap_paint_leaves_const tie); [done|]. by intros []. }
  cbv beta. rewrite !bind_assoc, bind_gets. change (id s3) with s3. cbv beta.
  change (tied_param s3) with (tied_param s2). rewrite Htp2.
  cbv beta iota. rewrite ?bind_assoc.
  assert (Hk3 : (k' ≤ length (tree s3))%nat).
  { change (tree s3) with t3. lia. }
  rewrite (bind_lift _ _ _ (np.select (tied_tie_eq l0 s3 k')
             (slice (tied_leaf s3 k') (constraint <$> tree s3)))); cycle 1.
  { apply mask_get_eq. unfold tied_tie_eq.
    rewrite length_fmap, !slice_tied by (done || unfold ties; by rewrite !length_fmap).
    unfold ties. by rewrite !length_drop, !length_fmap. }
  set (tie_con := head _).
  destruct (tree_only__sync_constraint_group plist true tie_con s3)
    as (a & t4 & Hrun4 & Hsame4).
  rewrite bind_assoc, (bind_eq _ _ _ _ _ Hrun4), bind_ret.
  change (tree s3) with t3 in Hsame4.
  set (s4 := with_tree t4 s3).
  assert (Hl4 : length t4 = (raw + k')%nat).
  { rewrite <- (Forall2_length Hsame4). done. }
  assert (Ht4 : tie <$> t4 = cover_with ls l0 (ties s2)).
  { by rewrite (same_but_constraint_ties _ _ Hsame4). }
  assert (Htp4 : tied_param s4 = Some k') by done.
  assert (Hk4 : (k' ≤ length (tree s4))%nat).
  { change (tree s4) with t4. lia. }
  assert (Hoff4 : tied_offset s4 k' = raw).
  { unfold tied_offset. change (tree s4) with t4. lia. }
  assert (Hdrop4 : drop raw (tie <$> t4) = slot_labels s2).
  { rewrite Ht4, drop_cover_with; [|done|].
    - by rewrite (slot_labels_drop s2 Hst2), Hraw2.
    - unfold ties. rewrite length_fmap. lia. }
  assert (HT4 : slot_labels s4 = slot_labels s2).
  { unfold slot_labels at 1. by rewrite Htp4, Hoff4. }
  assert (Hpos4 : Forall (λ l, 0 < l) (slot_labels s4)).
  { rewrite HT4, HT2. apply list.Forall_forall.
    intros l [_ Hl]%list_elem_of_filter.
    rewrite list.Forall_forall in Hrg. specialize (Hrg l Hl). lia. }
  destruct (_update_label_buf_Some s4 k' Htp4 Hk4 Hpos4) as [un Hun].
  rewrite (bind_eq _ _ _ _ _ Hun). rewrite Hoff4.
  set (s5 := with_buffers _ _ _ s4).
  cbv beta. change ((l0 :: rest) !! 0%nat) with (Some l0).
  cbn [of_option]. rewrite ?bind_assoc, bind_lift_Val.
  rewrite (bind_eq _ _ _ _ _ (tied_mask_update_eq (set_value val) l0 s5 k' Htp4 Hk4)).
  change (tied_offset s5 k') with (tied_offset s4 k'). rewrite Hoff4.
  change (tree s5) with t4.
  set (t6 := paint_slots (set_value val) l0 raw t4).
  set (s6 := with_tree t6 s5).
  assert (Hsame6 : Forall2 same_but_value t4 t6).
  { unfold t6. apply paint_slots_rel; [done|]. by intros []. }
  assert (Ht6 : tie <$> t6 = tie <$> t4).
  { apply same_labels_ties. by apply same_but_value_labels. }
  assert (Hl6 : length t6 = (raw + k')%nat).
  { unfold t6. by rewrite length_paint_slots. }
  assert (Hbuf6 : buffers_ok s6 k' (np.uint32 <$> (tie <$> t4))).
  { apply buffers_ok_with_tree; [|change (tree s5) with t4; lia].
    pose proof (buffers_ok_updated s4 k' un Htp4 Hk4) as Hbo.
    rewrite Hoff4 in Hbo. exact Hbo. }
  destruct (resume_spec d s6 k' _ Hbuf6)
    as (st' & Hres & Htp' & _ & _ & _ & Hlen' & Hlab' & _).
  change (tree s6) with t6 in Hlen', Hlab'.
  assert (Ht' : ties st' = cover_with ls l0 (ties s2)).
  { unfold ties at 1. by rewrite (same_labels_ties _ _ Hlab'), Ht6, Ht4. }
  assert (Hoff' : tied_offset st' k' = raw).
  { unfold tied_offset. rewrite Hlen'. lia. }
  exists st'. split_and!.
  - exact Hres.
  - done.
  - done.
  - unfold raw_size. rewrite Htp'.
    change (tied_param s6) with (tied_param s2). rewrite Htp2. exact Hoff'.
  - unfold slot_labels at 1. rewrite Htp'.
    change (tied_param s6) with (tied_param s2). rewrite Htp2, Hoff', Ht'.
    rewrite <- Ht4, Hdrop4. exact HT2.
  - intros q Hq. rewrite Ht', lookup_cover_with. unfold ties.
    rewrite !list_lookup_fmap, (Hcells2 q Hq).
    change (tree s1) with t1.
    assert (Hq1 : tie <$> t1 !! q = tie <$> tree st !! q).
    { rewrite <- !list_lookup_fmap. by rewrite Ht1. }
    destruct (t1 !! q) as [c1|], (tree st !! q) as [c|]; try done.
    simpl in *. injection Hq1 as Hq1. f_equal.
    destruct (covered_dec ls q) as [Hc|Hc].
    + by rewrite decide_True by (by left).
    + destruct c1 as [v g t cn]. simpl in *. subst t.
      destruct (decide (tie c ∈ rest)) as [Hr|Hr].
      * rewrite decide_True; [done|]. right. by right.
      * destruct (decide (covered ls q ∨ tie c ∈ l0 :: rest))
          as [[?|[->|?]%elem_of_cons]|]; done.
Qed.
(** ** Rebuilding the buffers *)

Lemma lookup_put_all {A} (v : A) (idx : list nat) (a : list A) (p : nat) :
  foldl (λ acc i, <[i := v]> acc) a idx !! p
  = if decide (p ∈ idx) then (λ _, v) <$> a !! p else a !! p.
Proof.
  revert a. induction idx as [|i idx IH]; intros a; cbn [foldl].
  - destruct (decide (p ∈ [])) as [H|]; [by apply elem_of_nil in H|done].
  - rewrite IH.
    destruct (decide (p ∈ i :: idx)) as [Hin'|Hin'];
      destruct (decide (p ∈ idx)) as [Hin|Hin].
    + destruct (decide (p = i)) as [->|Hne].
      * destruct (decide (i < length a)%nat) as [Hi|Hi].
        -- rewrite list_lookup_insert_eq by done.
           by destruct (lookup_lt_is_Some_2 a i Hi) as [x ->].
        -- rewrite list_insert_ge by lia. done.
      * by rewrite list_lookup_insert_ne.
    + apply elem_of_cons in Hin' as [->|?]; [|done].
      destruct (decide (i < length a)%nat) as [Hi|Hi].
      * rewrite list_lookup_insert_eq by done.
        by destruct (lookup_lt_is_Some_2 a i Hi) as [x ->].
      * rewrite list_insert_ge by lia. by rewrite lookup_ge_None_2 by lia.
    + exfalso. apply Hin'. by right.
    + rewrite list_lookup_insert_ne; [done|]. intros ->. apply Hin'. by left.
Qed.

(** X14. [_update_label_buf] on an existing store that fits the tree. The
    label buffer receives every label cast to [uint32], [buf_idx] the
    positions of the slots, and [_untie_] marks exactly the slots and the
    positions whose buffered label is 0. The check that all slot labels are
    positive comes last: when it fails, [AssertionError] is raised with the
    buffers already rebuilt. *)
Theorem update_label_buf_spec st k :
  tied_param st = Some k → (k ≤ length (tree st))%nat →
  ∃ un,
    let st' := with_buffers (Some (np.uint32 <$> ties st))
                            (Some (seq (tied_offset st k) k)) (Some un) st in
    _update_label_buf st
    = (if decide (Forall (λ l, 0 < l) (slot_labels st))
       then Done tt st' else Raise AssertionError st')
    ∧ length un = length (tree st)
    ∧ (∀ p, un !! p = Some true
            ↔ (p < length (tree st))%nat
              ∧ ((np.uint32 <$> ties st) !! p = Some 0
                 ∨ (tied_offset st k ≤ p)%nat)).
Proof.
  intros Htp Hk. set (off := tied_offset st k).
  set (lb := np.uint32 <$> ties st).
  set (un0 := (λ x, bool_decide (x = 0)) <$> lb).
  set (un := foldl (λ acc i, <[i := true]> acc) un0 (seq off k)).
  assert (Hllb : length lb = length (tree st)).
  { unfold lb, ties. by rewrite !length_fmap. }
  assert (Hoff : (off + k)%nat = length (tree st)).
  { unfold off, tied_offset. lia. }
  assert (Hlun : length un = length (tree st)).
  { unfold un. clear -Hllb. 
    assert (Hg : ∀ idx a, length (foldl (λ acc i, <[i := true]> acc) a idx)
                          = length a).
    { induction idx as [|i idx IH]; intros a; [done|]. simpl.
      by rewrite IH, length_insert. }
    rewrite Hg. unfold un0. by rewrite length_fmap. }
  exists un. split_and!.
  - unfold _update_label_buf. mstep. rewrite Htp. mstep.
    unfold np.put_idx. fold lb. fold un0.
    change (_raveled_index_for (tied_leaf st k)) with (seq off k).
    rewrite decide_True; cycle 1.
    { apply list.Forall_forall. intros i Hi%elem_of_seq.
      unfold un0. rewrite length_fmap. lia. }
    rewrite slice_tied by (done || unfold ties; by rewrite length_fmap).
    fold off. unfold slot_labels. rewrite Htp. fold off.
    destruct (decide (length [true] = length (seq off k))) as [Hone|Hmany].
    + (* a single slot: the assignment is elementwise *)
      rewrite length_seq in Hone. simpl in Hone. subst k.
      mstep. fold un. by destruct (decide _).
    + mstep. fold un. by destruct (decide _).
  - done.
  - intros p. unfold un. rewrite lookup_put_all.
    destruct (decide (p ∈ seq off k)) as [Hin|Hout].
    + apply elem_of_seq in Hin.
      destruct (lookup_lt_is_Some_2 un0 p) as [b Hb].
      { unfold un0. rewrite length_fmap. lia. }
      rewrite Hb. simpl. split; [intros _|done]. split; [lia|right; lia].
    + rewrite elem_of_seq in Hout. unfold un0. rewrite list_lookup_fmap.
      destruct (lb !! p) as [x|] eqn:Hx; simpl.
      * apply lookup_lt_Some in Hx as Hp. split.
        -- intros [= Hd]. apply bool_decide_eq_true in Hd. subst x.
           split; [lia|by left].
        -- intros [_ [[= ->]|Hge]]; [done|lia].
      * apply lookup_ge_None in Hx. split; [done|]. intros [? _]. lia.
Qed.
(** ** The cases of [_remove_tie_param] *)

(** X15. [_remove_tie_param labels] on a store of [k] slots that fits the
    tree compares the number of labels with [k], not the labels with the
    slots.  With exactly [k] labels the whole store is dropped, whatever the
    labels are.  With more than [k] labels it raises [ValueError].  With
    fewer, the slots whose label is not listed are kept, with label, value
    and order, provided there are [k - len(labels)] of them; when their
    number is neither that nor 1, [ValueError] is raised and nothing is
    written. *)
Theorem remove_tie_param_cases labels st k :
  tied_param st = Some k → (k ≤ length (tree st))%nat →
  let kept := filter (λ lv, lv.1 ∉ labels)
                     (zip (slot_labels st) (slot_values st)) in
  (length labels = k →
     _remove_tie_param labels st
     = Done tt (with_tied (take (raw_size st) (tree st)) None st))
  ∧ ((k < length labels)%nat →
       _remove_tie_param labels st = Raise ValueError st)
  ∧ ((length labels < k)%nat → length kept = (k - length labels)%nat →
       ∃ st', _remove_tie_param labels st = Done tt st'
         ∧ tied_param st' = Some (k - length labels)%nat
         ∧ take (raw_size st) (tree st') = take (raw_size st) (tree st)
         ∧ zip (slot_labels st') (slot_values st') = kept)
  ∧ ((length labels < k)%nat → length kept ≠ (k - length labels)%nat →
       length kept ≠ 1%nat →
       _remove_tie_param labels st = Raise ValueError st).
Proof.
  intros Htied Hk kept. set (off := tied_offset st k).
  assert (HT : slot_labels st = drop off (ties st)).
  { unfold slot_labels. by rewrite Htied. }
  assert (HV : slot_values st = drop off (param_array st)).
  { unfold slot_values. by rewrite Htied. }
  assert (Hraw : raw_size st = off).
  { unfold raw_size. by rewrite Htied. }
  assert (HlT : length (slot_labels st) = k).
  { rewrite HT, length_drop. unfold ties, off, tied_offset.
    rewrite length_fmap. lia. }
  assert (HlV : length (slot_values st) = k).
  { rewrite HV, length_drop. unfold param_array, off, tied_offset.
    rewrite length_fmap. lia. }
  set (idx := negb <$> np.in1d (drop off (ties st)) labels).
  assert (Hidx : idx = negb <$> ((λ x, bool_decide (x ∈ labels))
                                   <$> slot_labels st)).
  { unfold idx. by rewrite <- HT. }
  assert (Hli : length idx = k).
  { rewrite Hidx, !length_fmap. done. }
  assert (HselV : np.select idx (drop off (param_array st)) = kept.*2).
  { rewrite <- HV, Hidx.
    by rewrite (select_negb_filter (λ l, l ∈ labels)) by congruence. }
  assert (HselT : np.select idx (drop off (ties st)) = kept.*1).
  { rewrite <- HT, Hidx.
    rewrite (select_negb_filter_self (λ l, l ∈ labels)). unfold kept.
    pose proof (filter_zip_fst (λ l, l ∉ labels) (slot_labels st)
                  (slot_values st)) as Hf.
    cbv beta in Hf. symmetry. apply Hf. congruence. }
  rewrite Hraw. split_and!.
  - intros Hlen. by apply (_remove_tie_param_all st k).
  - intros Hgt. unfold _remove_tie_param. mstep. rewrite Htied.
    rewrite decide_False by lia. by rewrite decide_True.
  - intros Hlt Hkept.
    assert (Hcount : np.count_true idx = (k - length labels)%nat).
    { rewrite <- (length_select idx (drop off (ties st))).
      - by rewrite HselT, length_fmap.
      - rewrite Hli, <- HT. done. }
    eexists. split;
      [apply (_remove_tie_param_some st k labels Htied Hk Hlt Hcount)|].
    fold off. fold idx. rewrite HselV, HselT.
    set (n := (k - length labels)%nat).
    set (st' := with_tied _ _ st).
    assert (Hl12 : length (kept.*2) = length (kept.*1)).
    { by rewrite !length_fmap. }
    assert (Hlto : length (take off (tree st)) = off).
    { rewrite length_take. unfold off, tied_offset. lia. }
    assert (Hoff' : tied_offset st' n = off).
    { unfold tied_offset. simpl.
      rewrite length_app, length_fresh_param, length_fmap by done.
      unfold n. lia. }
    split_and!.
    + done.
    + simpl. by rewrite take_app_length'.
    + unfold slot_labels, slot_values.
      change (tied_param st') with (Some n). cbv iota. rewrite Hoff'.
      unfold ties, param_array. simpl tree.
      rewrite !fmap_app, !drop_app_length' by (by rewrite !length_fmap).
      rewrite fresh_param_ties, fresh_param_values by done.
      apply zip_fst_snd.
  - intros Hlt Hne Hone. unfold _remove_tie_param. mstep. rewrite Htied.
    rewrite !decide_False by lia.
    rewrite !slice_tied
      by (done || unfold ties, param_array; by rewrite length_fmap).
    fold off. fold idx.
    rewrite (bind_lift _ _ _ (kept.*2)); cycle 1.
    { rewrite mask_get_eq; [by rewrite HselV|].
      rewrite Hli, <- HV. done. }
    unfold np.assign_all. rewrite decide_False by (by rewrite length_fmap).
    destruct (kept.*2) as [|v [|v' vs]] eqn:Hk2; [done| |done].
    exfalso. apply Hone. by rewrite <- (length_fmap snd), Hk2.
Qed.
(** ** The further properties at concrete states *)

(** X1 at a concrete state: [tie_vector] on two members of the one group. *)
Lemma tie_vector_all_tied_raises_witness :
  Forall (λ t, t ≠ 0) (node_array (scalar 0) (ties one_group))
  ∧ Forall (λ t, t ≠ 0) (node_array (scalar 1) (ties one_group))
  ∧ ∃ e st', tie_vector 2 (scalar 0) (scalar 1) one_group = Raise e st'.
Proof.
  assert (H1 : Forall (λ t, t ≠ 0) (node_array (scalar 0) (ties one_group))).
  { apply (bool_decide_unpack _). vm_compute. exact I. }
  assert (H2 : Forall (λ t, t ≠ 0) (node_array (scalar 1) (ties one_group))).
  { apply (bool_decide_unpack _). vm_compute. exact I. }
  split; [exact H1|]. split; [exact H2|].
  exact (tie_vector_all_tied_raises 2 (scalar 0) (scalar 1) one_group H1 H2).
Defined.

(** X2 at a concrete state: [tie_vector] on two members of the one group
    raises [UnboundLocalError]. *)
Lemma tie_vector_same_labels_raises_witness :
  leaves (scalar 0) ≠ [] ∧ leaves (scalar 1) ≠ []
  ∧ node_array (scalar 1) (ties one_group)
    = node_array (scalar 0) (ties one_group)
  ∧ Forall (λ t, t ≠ 0) (node_array (scalar 0) (ties one_group))
  ∧ ∃ st', tie_vector 2 (scalar 0) (scalar 1) one_group
           = Raise UnboundLocalError st'.
Proof.
  assert (H1 : leaves (scalar 0) ≠ []) by (simpl; discriminate).
  assert (H2 : leaves (scalar 1) ≠ []) by (simpl; discriminate).
  assert (H3 : node_array (scalar 1) (ties one_group)
               = node_array (scalar 0) (ties one_group))
    by (vm_compute; reflexivity).
  assert (H4 : Forall (λ t, t ≠ 0) (node_array (scalar 0) (ties one_group))).
  { apply (bool_decide_unpack _). vm_compute. exact I. }
  split; [exact H1|]. split; [exact H2|]. split; [exact H3|].
  split; [exact H4|].
  exact (tie_vector_same_labels_raises 2 (scalar 0) (scalar 1) one_group
           H1 H2 H3 H4).
Defined.

(** X3 at a concrete state: [tie_together] on a container without parameters. *)
Lemma tie_together_no_leaves_witness :
  flat_map leaves [Parameterized []] = []
  ∧ tie_together 2 [Parameterized []] two_leaves
    = Raise ValueError (with_updates false two_leaves).
Proof.
  assert (H1 : flat_map leaves [Parameterized []] = []) by reflexivity.
  split; [exact H1|].
  exact (tie_together_no_leaves 2 [Parameterized []] two_leaves H1).
Defined.

(** X4 at a concrete state: [propagate_val] at the group that disagrees with
    its slot. *)
Lemma propagate_val_spec_witness :
  let st := buffered_group in
  let lb := [1; 1; 0; 1] in
  buffers_ok st 1 lb ∧ NoDup (drop (tied_offset st 1) lb)
  ∧ ∃ st', propagate_val st = Done tt st'
    ∧ _PROPAGATE_VAL_ st' = true
    ∧ Forall2 same_but_value (tree st) (tree st')
    ∧ (∀ i p, (i < 1)%nat → member lb st 1 i p →
         param_array st' !! p = param_array st !! slot_pos st 1 i)
    ∧ (∀ p, (∀ i, (i < 1)%nat → ¬ member lb st 1 i p) →
         param_array st' !! p = param_array st !! p)
    ∧ _check_change st' = Done false st'.
Proof.
  intros st lb.
  split; [exact buffered_group_ok|]. split; [exact buffered_group_distinct|].
  exact (propagate_val_spec buffered_group 1 [1; 1; 0; 1]
           buffered_group_ok buffered_group_distinct).
Defined.

(** X5 at a concrete state: the change check at the group that disagrees with
    its slot. *)
Lemma check_change_settles_witness :
  let st := buffered_group in
  let lb := [1; 1; 0; 1] in
  buffers_ok st 1 lb
  ∧ ∃ changed st',
      _check_change st = Done changed st'
      ∧ Forall2 same_but_value (tree st) (tree st')
      ∧ consistent lb (tied_offset st 1) 1 (tree st')
      ∧ _check_change st' = Done false st'.
Proof.
  intros st lb. split; [exact buffered_group_ok|].
  exact (check_change_settles buffered_group 1 [1; 1; 0; 1] buffered_group_ok).
Defined.

(** X6 at a concrete state: the handler with the one-shot flag set, at the
    group that disagrees with its slot. *)
Lemma handler_consumes_flag_witness :
  let st := with_PROPAGATE_VAL_ true buffered_group in
  let lb := [1; 1; 0; 1] in
  buffers_ok st 1 lb ∧ _PROPAGATE_VAL_ st = true
  ∧ ∃ st', _parameters_changed_notification 1 the_tree st = Done tt st'
      ∧ _PROPAGATE_VAL_ st' = false
      ∧ _optimizer_copy_transformed st' = false
      ∧ Forall2 same_but_grad (tree st) (tree st').
Proof.
  intros st lb.
  assert (H1 : buffers_ok st 1 lb).
  { split; [reflexivity|simpl; lia|reflexivity|reflexivity|reflexivity]. }
  assert (H2 : _PROPAGATE_VAL_ st = true) by reflexivity.
  split; [exact H1|]. split; [exact H2|].
  exact (handler_consumes_flag 0 st 1 lb H1 H2).
Defined.

(** X7 at a concrete state: the handler without the flag, at the group that
    disagrees with its slot. *)
Lemma handler_repairs_groups_witness :
  let st := buffered_group in
  let lb := [1; 1; 0; 1] in
  buffers_ok st 1 lb ∧ _PROPAGATE_VAL_ st = false
  ∧ ∃ st', _parameters_changed_notification 2 the_tree st = Done tt st'
      ∧ _PROPAGATE_VAL_ st' = false
      ∧ tied_param st' = tied_param st ∧ label_buf st' = label_buf st
      ∧ buf_idx st' = buf_idx st
      ∧ length (tree st') = length (tree st)
      ∧ Forall2 same_labels (tree st) (tree st')
      ∧ consistent lb (tied_offset st 1) 1 (tree st')
      ∧ (∀ l p, uniform lb l (tree st) → lb !! p = Some l →
           param_array st' !! p = param_array st !! p).
Proof.
  intros st lb.
  assert (H2 : _PROPAGATE_VAL_ st = false) by reflexivity.
  split; [exact buffered_group_ok|]. split; [exact H2|].
  exact (handler_repairs_groups 0 buffered_group 1 [1; 1; 0; 1]
           buffered_group_ok H2).
Defined.

(** X8 at a concrete state: two more slots for the state with one group. *)
Lemma expand_tie_param_spec_witness :
  let st := one_group in
  store_ok st ∧ tied_param st ≠ Some 0%nat
  ∧ ∃ labellist st',
      _expand_tie_param 2 st = Done (labellist, seq 1 2) st'
      ∧ labellist = range (fresh_label st) 2
      ∧ (∀ l l', l ∈ labellist → l' ∈ slot_labels st → l' < l)
      ∧ tied_param st' = Some 3%nat
      ∧ raw_size st' = raw_size st
      ∧ take (raw_size st) (tree st') = take (raw_size st) (tree st)
      ∧ slot_labels st' = slot_labels st ++ labellist
      ∧ take 1 (slot_values st') = slot_values st.
Proof.
  intros st.
  assert (H1 : store_ok st) by (vm_compute; lia).
  assert (H2 : tied_param st ≠ Some 0%nat) by discriminate.
  split; [exact H1|]. split; [exact H2|].
  exact (expand_tie_param_spec 2 one_group H1 H2).
Defined.

(** X9 at a concrete state: the two groups merged into the first. *)
Lemma merge_tie_labels_spec_witness :
  let st := two_groups in
  tied_param st = Some 2%nat ∧ (2 ≤ length (tree st))%nat
  ∧ NoDup (slot_labels st) ∧ NoDup [1; 2]
  ∧ (∀ l, l ∈ [1; 2] → l ∈ slot_labels st)
  ∧ ∃ st',
      _merge_tie_labels [1; 2] st = Done tt st'
      ∧ tied_param st' = Some (2 - length [2])%nat
      ∧ raw_size st' = raw_size st
      ∧ slot_labels st' = filter (λ l, l ∉ [2]) (slot_labels st)
      ∧ zip (slot_labels st') (slot_values st')
        = filter (λ lv, lv.1 ∉ [2]) (zip (slot_labels st) (slot_values st))
      ∧ (∀ p, (p < raw_size st)%nat →
           tree st' !! p
           = (λ c, set_tie (if decide (tie c ∈ [2]) then 1 else tie c) c)
               <$> tree st !! p)
      ∧ (∀ c, c ∈ tree st' → tie c ∉ [2]).
Proof.
  intros st.
  assert (H1 : tied_param st = Some 2%nat) by reflexivity.
  assert (H2 : (2 ≤ length (tree st))%nat) by (vm_compute; lia).
  assert (H3 : NoDup (slot_labels st)).
  { apply (bool_decide_unpack _). vm_compute. exact I. }
  assert (H4 : NoDup [1; 2]).
  { apply (bool_decide_unpack _). vm_compute. exact I. }
  assert (H5 : ∀ l, l ∈ [1; 2] → l ∈ slot_labels st).
  { apply list.Forall_forall. apply (bool_decide_unpack _). vm_compute.
    exact I. }
  split; [exact H1|]. split; [exact H2|]. split; [exact H3|].
  split; [exact H4|]. split; [exact H5|].
  exact (merge_tie_labels_spec 1 [2] two_groups 2 H1 H2 H3 H4 H5).
Defined.

(** X10 at a concrete state: [untie] of one of three members. *)
Lemma untie_keeps_groups_of_two_witness :
  let st := three_tied in
  let plist := [scalar 0] in
  let ls := flat_map leaves plist in
  let remaining := label_count (take (raw_size st) (cover_with ls 0 (ties st))) in
  store_ok st ∧ valid_plist st plist
  ∧ Forall (λ l, 0 < l < 2 ^ 32) (slot_labels st) ∧ NoDup (slot_labels st)
  ∧ Forall (λ t, 0 ≤ t < 2 ^ 32) (take (raw_size st) (ties st))
  ∧ ∃ st', untie 2 plist st = Done tt st'
      ∧ raw_size st' = raw_size st
      ∧ ∀ l, l ∈ slot_labels st →
          if decide (2 ≤ remaining l)%nat
          then l ∈ slot_labels st'
               ∧ (∀ p, (p < raw_size st)%nat →
                    ties st' !! p = Some l
                    ↔ ties st !! p = Some l ∧ ¬ covered ls p)
               ∧ label_count (take (raw_size st') (ties st')) l = remaining l
          else label_count (ties st') l = 0%nat.
Proof.
  intros st plist ls remaining.
  assert (H1 : store_ok st) by (vm_compute; lia).
  assert (H2 : valid_plist st plist).
  { apply (bool_decide_unpack _). vm_compute. exact I. }
  assert (H3 : Forall (λ l, 0 < l < 2 ^ 32) (slot_labels st)).
  { apply (bool_decide_unpack _). vm_compute. exact I. }
  assert (H4 : NoDup (slot_labels st)).
  { apply (bool_decide_unpack _). vm_compute. exact I. }
  assert (H5 : Forall (λ t, 0 ≤ t < 2 ^ 32) (take (raw_size st) (ties st))).
  { apply (bool_decide_unpack _). vm_compute. exact I. }
  split; [exact H1|]. split; [exact H2|]. split; [exact H3|].
  split; [exact H4|]. split; [exact H5|].
  exact (untie_keeps_groups_of_two 0 [scalar 0] three_tied H1 H2 H3 H4 H5).
Defined.

(** X11 at a concrete state: the value of the first leaf copied to the second. *)
Lemma sync_val_pair_copies_witness :
  let st := two_leaves in
  let p1 := scalar 0 in
  let p2 := scalar 1 in
  leaves p1 ≠ []
  ∧ length (node_array p1 (param_array st)) = length (node_positions p2)
  ∧ Forall (λ x, (offset x + size x ≤ length (tree st))%nat) (leaves p2)
  ∧ NoDup (node_positions p2)
  ∧ ∃ st',
      _sync_val_pair p1 p2 st = Done (node_array p1 (param_array st)) st'
      ∧ node_array p2 (param_array st') = node_array p1 (param_array st)
      ∧ Forall2 same_but_value (tree st) (tree st')
      ∧ (∀ p, p ∉ node_positions p2 → tree st' !! p = tree st !! p).
Proof.
  intros st p1 p2.
  assert (H1 : leaves p1 ≠ []) by (simpl; discriminate).
  assert (H2 : length (node_array p1 (param_array st))
               = length (node_positions p2)) by reflexivity.
  assert (H3 : Forall (λ x, (offset x + size x ≤ length (tree st))%nat)
                      (leaves p2)).
  { apply (bool_decide_unpack _). vm_compute. exact I. }
  assert (H4 : NoDup (node_positions p2)).
  { apply (bool_decide_unpack _). vm_compute. exact I. }
  split; [exact H1|]. split; [exact H2|]. split; [exact H3|].
  split; [exact H4|].
  exact (sync_val_pair_copies (scalar 0) (scalar 1) two_leaves H1 H2 H3 H4).
Defined.

(** X12 at a concrete state: [tie_vector] of the untied leaf with a member
    of the group. *)
Lemma tie_vector_new_slots_witness :
  let st := one_group in
  let p1 := scalar 2 in
  let p2 := scalar 1 in
  let n := node_size p1 in
  let L := fresh_label st in
  let vals := node_array p1 (param_array st) in
  wf st ∧ valid_plist st [p1; p2]
  ∧ NoDup (node_positions p1 ++ node_positions p2)
  ∧ node_size p2 = node_size p1 ∧ (0 < node_size p1)%nat
  ∧ Forall2 (λ a b, a = 0 ∨ b = 0)
            (node_array p1 (ties st)) (node_array p2 (ties st))
  ∧ ∃ st', tie_vector 2 p1 p2 st = Done tt st'
    ∧ raw_size st' = raw_size st
    ∧ slot_labels st' = slot_labels st ++ range L n
    ∧ node_array p1 (ties st') = range L n
    ∧ node_array p2 (ties st') = range L n
    ∧ (∀ q, (q < raw_size st)%nat →
         q ∉ node_positions p1 ++ node_positions p2 →
         ties st' !! q = ties st !! q)
    ∧ (_PROPAGATE_VAL_ st = true
       ∨ (tied_agree st ∧ L + Z.of_nat n ≤ 2 ^ 32) →
         node_array p1 (param_array st') = vals
         ∧ node_array p2 (param_array st') = vals
         ∧ slot_values st' = slot_values st ++ vals
         ∧ (∀ q, (q < raw_size st)%nat → q ∉ node_positions p2 →
              param_array st' !! q = param_array st !! q)).
Proof.
  intros st p1 p2 n L vals.
  assert (H1 : wf st) by (apply wfb_wf; vm_compute; reflexivity).
  assert (H2 : valid_plist st [p1; p2]).
  { apply (bool_decide_unpack _). vm_compute. exact I. }
  assert (H3 : NoDup (node_positions p1 ++ node_positions p2)).
  { apply (bool_decide_unpack _). vm_compute. exact I. }
  assert (H4 : node_size p2 = node_size p1) by reflexivity.
  assert (H5 : (0 < node_size p1)%nat) by (vm_compute; lia).
  assert (H6 : Forall2 (λ a b, a = 0 ∨ b = 0)
                 (node_array p1 (ties st)) (node_array p2 (ties st))).
  { apply (bool_decide_unpack _). vm_compute. exact I. }
  split; [exact H1|]. split; [exact H2|]. split; [exact H3|].
  split; [exact H4|]. split; [exact H5|]. split; [exact H6|].
  exact (tie_vector_new_slots 0 p1 p2 one_group H1 H2 H3 H4 H5 H6).
Defined.

(** X13 at a concrete state: [tie_together] of a member of the first group
    with a member of the second. *)
Lemma tie_together_joins_witness :
  let st := two_groups in
  let plist := [scalar 0; scalar 2] in
  let ls := flat_map leaves plist in
  wf st ∧ valid_plist st plist
  ∧ filter (λ l, 0 < l) (np.unique (flat_map (λ x, slice x (ties st)) ls))
    = [1; 2]
  ∧ ∃ st', tie_together 2 plist st = Done tt st'
    ∧ (∀ l, l ∈ [1; 2]
            ↔ 0 < l ∧ ∃ q, covered ls q ∧ ties st !! q = Some l)
    ∧ Forall (λ l, 1 < l) [2]
    ∧ raw_size st' = raw_size st
    ∧ slot_labels st' = filter (λ l, l ∉ [2]) (slot_labels st)
    ∧ (∀ q, (q < raw_size st)%nat →
         ties st' !! q
         = (λ t, if decide (covered ls q ∨ t ∈ [1; 2]) then 1 else t)
             <$> ties st !! q).
Proof.
  intros st plist ls.
  assert (H1 : wf st) by (apply wfb_wf; vm_compute; reflexivity).
  assert (H2 : valid_plist st plist).
  { apply (bool_decide_unpack _). vm_compute. exact I. }
  assert (H3 : filter (λ l, 0 < l)
                 (np.unique (flat_map (λ x, slice x (ties st)) ls))
               = [1; 2]) by (vm_compute; reflexivity).
  split; [exact H1|]. split; [exact H2|]. split; [exact H3|].
  exact (tie_together_joins 0 plist two_groups 1 [2] H1 H2 H3).
Defined.

(** X14 at a concrete state: the buffers of the state with one group. *)
Lemma update_label_buf_spec_witness :
  let st := one_group in
  tied_param st = Some 1%nat ∧ (1 ≤ length (tree st))%nat
  ∧ ∃ un,
      let st' := with_buffers (Some (np.uint32 <$> ties st))
                              (Some (seq (tied_offset st 1) 1)) (Some un) st in
      _update_label_buf st
      = (if decide (Forall (λ l, 0 < l) (slot_labels st))
         then Done tt st' else Raise AssertionError st')
      ∧ length un = length (tree st)
      ∧ (∀ p, un !! p = Some true
              ↔ (p < length (tree st))%nat
                ∧ ((np.uint32 <$> ties st) !! p = Some 0
                   ∨ (tied_offset st 1 ≤ p)%nat)).
Proof.
  intros st.
  assert (H1 : tied_param st = Some 1%nat) by reflexivity.
  assert (H2 : (1 ≤ length (tree st))%nat) by (vm_compute; lia).
  split; [exact H1|]. split; [exact H2|].
  exact (update_label_buf_spec one_group 1 H1 H2).
Defined.

(** X15 at a concrete state: two labels that name no slot, for the store
    of two slots. *)
Lemma remove_tie_param_cases_witness :
  let st := two_groups in
  let labels := [7; 8] in
  let kept := filter (λ lv, lv.1 ∉ labels)
                     (zip (slot_labels st) (slot_values st)) in
  tied_param st = Some 2%nat ∧ (2 ≤ length (tree st))%nat
  ∧ (length labels = 2%nat →
       _remove_tie_param labels st
       = Done tt (with_tied (take (raw_size st) (tree st)) None st))
  ∧ ((2 < length labels)%nat →
       _remove_tie_param labels st = Raise ValueError st)
  ∧ ((length labels < 2)%nat → length kept = (2 - length labels)%nat →
       ∃ st', _remove_tie_param labels st = Done tt st'
         ∧ tied_param st' = Some (2 - length labels)%nat
         ∧ take (raw_size st) (tree st') = take (raw_size st) (tree st)
         ∧ zip (slot_labels st') (slot_values st') = kept)
  ∧ ((length labels < 2)%nat → length kept ≠ (2 - length labels)%nat →
       length kept ≠ 1%nat →
       _remove_tie_param labels st = Raise ValueError st).
Proof.
  intros st labels kept.
  assert (H1 : tied_param st = Some 2%nat) by reflexivity.
  assert (H2 : (2 ≤ length (tree st))%nat) by (vm_compute; lia).
  split; [exact H1|]. split; [exact H2|].
  exact (remove_tie_param_cases [7; 8] two_groups 2 H1 H2).
Defined.
